(** * BusTub storage and execution core: a shallow embedding and its properties

    The development follows the source tree:
    - [LRUK]      : src/buffer/lru_k_replacer.cpp
    - [BPM]       : src/buffer/buffer_pool_manager.cpp
    - [PageGuard] : src/storage/page/page_guard.cpp
    - [Disk]      : src/storage/disk/disk_scheduler.cpp
    - [Agg]       : src/execution/aggregation_executor.cpp
    - [Opt]       : src/optimizer/sort_limit_as_topn.cpp
    - [HTable]    : src/container/disk/hash/disk_extendible_hash_table.cpp and
                    the three page classes it drives
    - [Trie]      : src/primer/trie.cpp *)

From Stdlib Require Import ZArith List Bool Lia Ascii String Sorting.Sorted.
From stdpp Require Import gmap strings list fin_maps sorting.

Local Open Scope Z_scope.

(** Result of a call that may throw or may never return. *)
Inductive Outcome (A : Type) : Type :=
| Done (a : A)
| Throws
| Deadlock.
Arguments Done {A} a.
Arguments Throws {A}.
Arguments Deadlock {A}.

(** [size_t] decrement: an unsigned 64-bit counter at 0 wraps to 2^64 - 1.
    Increments are written [x + 1]: a 64-bit counter that grows by one per
    call does not wrap in any run. *)
Definition size_t_dec (x : Z) : Z := if x =? 0 then 2 ^ 64 - 1 else x - 1.

(** [static_cast<int32_t>(x)] of an unsigned [x]: the signed 32-bit
    integer with the low 32 bits of [x]. *)
Definition to_int32 (x : Z) : Z := (x + 2 ^ 31) mod 2 ^ 32 - 2 ^ 31.

Lemma to_int32_id (x : Z) : - 2 ^ 31 ≤ x < 2 ^ 31 → to_int32 x = x.
Proof. intros Hx. unfold to_int32. rewrite Z.mod_small; lia. Qed.

(** Reading [m[key]] from a map updated at [f]. *)
Lemma default_lookup_insert {V} (m : gmap Z V) f g v d :
  default d (<[f := v]> m !! g) = if decide (f = g) then v else default d (m !! g).
Proof. rewrite lookup_insert. by case_decide. Qed.

Lemma default_lookup_insert_eq {V} (m : gmap Z V) f v d :
  default d (<[f := v]> m !! f) = v.
Proof. by rewrite lookup_insert_eq. Qed.

Lemma default_lookup_insert_ne {V} (m : gmap Z V) f g v d :
  f ≠ g → default d (<[f := v]> m !! g) = default d (m !! g).
Proof. intros. by rewrite lookup_insert_ne. Qed.


(* ================================================================== *)
(** ** LRU-K replacer *)
(* ================================================================== *)
Module LRUK.

(** [frame_id_t] is [int32_t]; [k_time] is [std::pair<frame_id_t, size_t>]. *)
Abbreviation frame_id_t := Z (only parsing).
Abbreviation k_time := (Z * Z)%type (only parsing).

(** The member variables of [LRUKReplacer].  The two iterator maps
    [new_locate_] and [cache_locate_] hold, for every frame present in
    [new_frame_] (resp. [cache_frame_]), the iterator of its list node; they
    are represented by the lists themselves, and erasing through such an
    iterator removes the node of that frame. *)
Record LRUKReplacer : Type := mkReplacer {
  replacer_size_ : Z;
  k_ : Z;
  current_timestamp_ : Z;
  curr_size_ : Z;
  max_size_ : Z;
  time_frame_ : gmap Z (list Z);
  recorded_cnt_ : gmap Z Z;
  evictable_ : gmap Z bool;
  new_frame_ : list Z;
  cache_frame_ : list (Z * Z)
}.

(** [LRUKReplacer::LRUKReplacer(num_frames, k)] *)
Definition init (num_frames k : Z) : LRUKReplacer :=
  {| replacer_size_ := num_frames; k_ := k; current_timestamp_ := 0;
     curr_size_ := 0; max_size_ := num_frames;
     time_frame_ := ∅; recorded_cnt_ := ∅; evictable_ := ∅;
     new_frame_ := []; cache_frame_ := [] |}.

(** [m[key]] on the three [unordered_map]s: a missing key reads as the
    value-initialised element. *)
Definition cnt (r : LRUKReplacer) (f : frame_id_t) : Z :=
  default 0 (recorded_cnt_ r !! f).
Definition evictable (r : LRUKReplacer) (f : frame_id_t) : bool :=
  default false (evictable_ r !! f).
Definition history (r : LRUKReplacer) (f : frame_id_t) : list Z :=
  default [] (time_frame_ r !! f).

Definition set_current_timestamp (v : Z) (r : LRUKReplacer) : LRUKReplacer :=
  mkReplacer (replacer_size_ r) (k_ r) v (curr_size_ r) (max_size_ r)
    (time_frame_ r) (recorded_cnt_ r) (evictable_ r) (new_frame_ r) (cache_frame_ r).
Definition set_curr_size (v : Z) (r : LRUKReplacer) : LRUKReplacer :=
  mkReplacer (replacer_size_ r) (k_ r) (current_timestamp_ r) v (max_size_ r)
    (time_frame_ r) (recorded_cnt_ r) (evictable_ r) (new_frame_ r) (cache_frame_ r).
Definition set_max_size (v : Z) (r : LRUKReplacer) : LRUKReplacer :=
  mkReplacer (replacer_size_ r) (k_ r) (current_timestamp_ r) (curr_size_ r) v
    (time_frame_ r) (recorded_cnt_ r) (evictable_ r) (new_frame_ r) (cache_frame_ r).
Definition set_history (f : frame_id_t) (h : list Z) (r : LRUKReplacer) : LRUKReplacer :=
  mkReplacer (replacer_size_ r) (k_ r) (current_timestamp_ r) (curr_size_ r) (max_size_ r)
    (<[f := h]> (time_frame_ r)) (recorded_cnt_ r) (evictable_ r) (new_frame_ r) (cache_frame_ r).
Definition set_cnt (f : frame_id_t) (c : Z) (r : LRUKReplacer) : LRUKReplacer :=
  mkReplacer (replacer_size_ r) (k_ r) (current_timestamp_ r) (curr_size_ r) (max_size_ r)
    (time_frame_ r) (<[f := c]> (recorded_cnt_ r)) (evictable_ r) (new_frame_ r) (cache_frame_ r).
Definition set_evictable (f : frame_id_t) (b : bool) (r : LRUKReplacer) : LRUKReplacer :=
  mkReplacer (replacer_size_ r) (k_ r) (current_timestamp_ r) (curr_size_ r) (max_size_ r)
    (time_frame_ r) (recorded_cnt_ r) (<[f := b]> (evictable_ r)) (new_frame_ r) (cache_frame_ r).
Definition set_new_frame (l : list Z) (r : LRUKReplacer) : LRUKReplacer :=
  mkReplacer (replacer_size_ r) (k_ r) (current_timestamp_ r) (curr_size_ r) (max_size_ r)
    (time_frame_ r) (recorded_cnt_ r) (evictable_ r) l (cache_frame_ r).
Definition set_cache_frame (l : list (Z * Z)) (r : LRUKReplacer) : LRUKReplacer :=
  mkReplacer (replacer_size_ r) (k_ r) (current_timestamp_ r) (curr_size_ r) (max_size_ r)
    (time_frame_ r) (recorded_cnt_ r) (evictable_ r) (new_frame_ r) l.

(** [new_frame_.remove(frame)] and [new_frame_.erase(new_locate_[frame])]. *)
Definition list_remove (f : frame_id_t) (l : list Z) : list Z :=
  filter (λ g, g ≠ f) l.

(** [cache_frame_.erase(it)] where [it] is the node of frame [f]. *)
Fixpoint cache_erase (f : frame_id_t) (l : list (Z * Z)) : list (Z * Z) :=
  match l with
  | [] => []
  | e :: l' => if fst e =? f then l' else e :: cache_erase f l'
  end.

(** [CmpTimestamp] *)
Definition CmpTimestamp (f1 f2 : Z * Z) : bool := snd f1 <? snd f2.

(** [cache_frame_.insert(std::upper_bound(begin, end, e, CmpTimestamp), e)]:
    [e] goes in front of the first element that compares greater than it. *)
Fixpoint upper_bound_insert (e : Z * Z) (l : list (Z * Z)) : list (Z * Z) :=
  match l with
  | [] => [e]
  | x :: l' => if CmpTimestamp e x then e :: x :: l' else x :: upper_bound_insert e l'
  end.

(** [LRUKReplacer::Size] *)
Definition Size (r : LRUKReplacer) : Z := curr_size_ r.

(** The bookkeeping shared by the two [return true] branches of [Evict]. *)
Definition forget (frame : frame_id_t) (r : LRUKReplacer) : LRUKReplacer :=
  set_history frame [] (set_curr_size (size_t_dec (curr_size_ r)) (set_cnt frame 0 r)).

(** [LRUKReplacer::Evict]: the result is the value stored through
    [frame_id] (when the call returns [true]) and the new state. *)
Definition Evict (r : LRUKReplacer) : option frame_id_t * LRUKReplacer :=
  if Size r =? 0 then (None, r)
  else
    match List.find (evictable r) (rev (new_frame_ r)) with
    | Some frame =>
        (Some frame, forget frame (set_new_frame (list_remove frame (new_frame_ r)) r))
    | None =>
        match List.find (fun e => evictable r (fst e)) (cache_frame_ r) with
        | Some e =>
            let frame := fst e in
            (Some frame, forget frame (set_cache_frame (cache_erase frame (cache_frame_ r)) r))
        | None => (None, r)
        end
    end.

(** [LRUKReplacer::RecordAccess].  The call of [Evict] at line 372 locks
    [latch_], a [std::mutex] that [RecordAccess] already holds: that call
    never returns.  [k_] and [replacer_size_] are assigned by the constructor
    only, so they are read from the state on entry.  The range check is
    [frame_id > static_cast<frame_id_t>(replacer_size_)]. *)
Definition RecordAccess (r : LRUKReplacer) (frame_id : frame_id_t) : Outcome LRUKReplacer :=
  if to_int32 (replacer_size_ r) <? frame_id then Throws
  else
    let ts := current_timestamp_ r + 1 in
    let c := cnt r frame_id + 1 in
    let r1 := set_history frame_id (history r frame_id ++ [ts])
                (set_cnt frame_id c (set_current_timestamp ts r)) in
    let after_new :=
      if c =? 1 then
        if curr_size_ r1 =? max_size_ r1 then Deadlock
        else Done (set_new_frame (frame_id :: new_frame_ r1)
                     (set_curr_size (curr_size_ r1 + 1)
                        (set_evictable frame_id true r1)))
      else Done r1 in
    match after_new with
    | Done r2 =>
        if c =? k_ r then
          let r3 := set_new_frame (list_remove frame_id (new_frame_ r2)) r2 in
          let kth_time := hd 0 (history r3 frame_id) in
          Done (set_cache_frame (upper_bound_insert (frame_id, kth_time) (cache_frame_ r3)) r3)
        else if k_ r <? c then
          let r3 := set_history frame_id (tl (history r2 frame_id)) r2 in
          let r4 := set_cache_frame (cache_erase frame_id (cache_frame_ r3)) r3 in
          let kth_time := hd 0 (history r4 frame_id) in
          Done (set_cache_frame (upper_bound_insert (frame_id, kth_time) (cache_frame_ r4)) r4)
        else Done r2
    | Throws => Throws
    | Deadlock => Deadlock
    end.

(** [LRUKReplacer::SetEvictable] *)
Definition SetEvictable (r : LRUKReplacer) (frame_id : frame_id_t) (flag : bool) : LRUKReplacer :=
  if cnt r frame_id =? 0 then r
  else
    let status := evictable r frame_id in
    let r1 := set_evictable frame_id flag r in
    let r2 := if status && negb flag
              then set_curr_size (size_t_dec (curr_size_ r1))
                     (set_max_size (size_t_dec (max_size_ r1)) r1)
              else r1 in
    if negb status && flag
    then set_curr_size (curr_size_ r2 + 1) (set_max_size (max_size_ r2 + 1) r2)
    else r2.

(** [LRUKReplacer::Remove] *)
Definition Remove (r : LRUKReplacer) (frame_id : frame_id_t) : Outcome LRUKReplacer :=
  if to_int32 (replacer_size_ r) <? frame_id then Throws
  else
    let c := cnt r frame_id in
    if c =? 0 then Done r
    else if negb (evictable r frame_id) then Throws
    else if c <? k_ r then
      Done (forget frame_id (set_new_frame (list_remove frame_id (new_frame_ r)) r))
    else
      Done (forget frame_id (set_cache_frame (cache_erase frame_id (cache_frame_ r)) r)).

(** *** Well-formedness of the replacer state *)

(** Oldest retained timestamp of a frame: [time_frame_[f].front()]. *)
Definition first_access (r : LRUKReplacer) (f : frame_id_t) : Z :=
  hd 0 (history r f).

(** A frame the replacer tracks and may evict. *)
Definition evictable_frame (r : LRUKReplacer) (f : frame_id_t) : Prop :=
  0 < cnt r f ∧ evictable r f = true.

Definition tracked_frames (r : LRUKReplacer) : list Z :=
  new_frame_ r ++ (cache_frame_ r).*1.

Record Inv (r : LRUKReplacer) : Prop := mkInv {
  inv_k : 0 < k_ r;
  inv_cnt : ∀ f, 0 ≤ cnt r f;
  inv_len : ∀ f, Z.of_nat (length (history r f)) = Z.min (cnt r f) (k_ r);
  inv_ts : ∀ f t, t ∈ history r f → t ≤ current_timestamp_ r;
  inv_new_nodup : NoDup (new_frame_ r);
  inv_new_iff : ∀ f, f ∈ new_frame_ r ↔ 0 < cnt r f < k_ r;
  inv_new_sorted : StronglySorted (λ a b, b < a) (first_access r <$> new_frame_ r);
  inv_cache_nodup : NoDup (cache_frame_ r).*1;
  inv_cache_iff : ∀ f, f ∈ (cache_frame_ r).*1 ↔ k_ r ≤ cnt r f;
  inv_cache_time : ∀ f t, (f, t) ∈ cache_frame_ r → t = first_access r f;
  inv_cache_sorted : StronglySorted Z.le (cache_frame_ r).*2;
  inv_size : curr_size_ r =
             Z.of_nat (length (filter (λ f, evictable r f = true) (tracked_frames r)))
}.

(** States the replacer can be in: the constructor followed by calls that
    returned. *)
Inductive reachable : LRUKReplacer → Prop :=
| reach_init n k : 0 ≤ n → 0 < k → reachable (init n k)
| reach_RecordAccess r f r' :
    reachable r → RecordAccess r f = Done r' → reachable r'
| reach_SetEvictable r f b : reachable r → reachable (SetEvictable r f b)
| reach_Evict r : reachable r → reachable (Evict r).2
| reach_Remove r f r' : reachable r → Remove r f = Done r' → reachable r'.

(** *** The specification side: backward k-distance *)

(** The k-th most recent timestamp of a history (oldest first); [None] when
    the history holds fewer than [k] accesses. *)
Definition kth_recent (k : Z) (h : list Z) : option Z :=
  if Z.of_nat (length h) <? k then None
  else nth_error h (length h - Z.to_nat k).

(** Backward k-distance; [None] stands for +inf. *)
Definition backward_k_distance (r : LRUKReplacer) (f : frame_id_t) : option Z :=
  match kth_recent (k_ r) (history r f) with
  | Some t => Some (current_timestamp_ r - t)
  | None => None
  end.

(** [dist_le a b]: distance [a] is at most distance [b]. *)
Definition dist_le (a b : option Z) : Prop :=
  match a, b with
  | _, None => True
  | None, Some _ => False
  | Some x, Some y => x ≤ y
  end.

(** *** List and map facts used below *)

Section list_facts.

Lemma list_remove_elem_of f g l : g ∈ list_remove f l ↔ g ∈ l ∧ g ≠ f.
Proof. unfold list_remove. rewrite list_elem_of_filter. tauto. Qed.

Lemma list_remove_not_elem_of f l : f ∉ l → list_remove f l = l.
Proof.
  unfold list_remove. induction l as [|x l IH]; intros Hn; [done|].
  apply not_elem_of_cons in Hn as [Hx Hl].
  rewrite filter_cons_True by congruence. by rewrite IH.
Qed.

Lemma list_remove_NoDup f l : NoDup l → NoDup (list_remove f l).
Proof. apply NoDup_filter. Qed.

Lemma list_remove_sorted {A} (R : relation A) (h : Z → A) f l :
  StronglySorted R (h <$> l) → StronglySorted R (h <$> list_remove f l).
Proof.
  unfold list_remove. induction l as [|x l IH]; simpl; intros Hs; [done|].
  apply StronglySorted_cons in Hs as [Hall Hs].
  destruct (decide (x ≠ f)).
  - rewrite filter_cons_True by done. simpl. apply StronglySorted_cons. split; [|auto].
    rewrite Forall_forall in *. intros y Hy. apply Hall.
    apply list_elem_of_fmap in Hy as (z & -> & Hz).
    apply list_elem_of_filter in Hz as [_ Hz]. by apply list_elem_of_fmap_2.
  - rewrite filter_cons_False by done. auto.
Qed.

Lemma cache_erase_elem_of f l e :
  e ∈ cache_erase f l → e ∈ l.
Proof.
  induction l as [|x l IH]; simpl; [done|].
  destruct (x.1 =? f); rewrite ?elem_of_cons; intuition.
Qed.

Lemma cache_erase_fst f l g :
  NoDup l.*1 → g ∈ (cache_erase f l).*1 ↔ g ∈ l.*1 ∧ g ≠ f.
Proof.
  induction l as [|x l IH]; simpl; intros Hnd.
  - rewrite elem_of_nil. tauto.
  - apply NoDup_cons in Hnd as [Hx Hnd].
    destruct (Z.eqb_spec x.1 f) as [Hxf|Hne].
    + rewrite elem_of_cons. split.
      * intros Hg. split; [by right|]. intros Heq. apply Hx. by rewrite Hxf, <- Heq.
      * intros [[?|?] ?]; [congruence|done].
    + simpl. rewrite !elem_of_cons, IH by done. split.
      * intros [->|[? ?]]; auto.
      * intros [[->|?] ?]; auto.
Qed.

Lemma cache_erase_NoDup f l : NoDup l.*1 → NoDup (cache_erase f l).*1.
Proof.
  induction l as [|x l IH]; simpl; intros Hnd; [done|].
  apply NoDup_cons in Hnd as [Hx Hnd].
  destruct (x.1 =? f); [done|]. simpl. apply NoDup_cons. split; [|auto].
  intros Hin. apply Hx. apply list_elem_of_fmap in Hin as (e & -> & He).
  apply list_elem_of_fmap_2. by eapply cache_erase_elem_of.
Qed.

Lemma cache_erase_sorted f l :
  StronglySorted Z.le l.*2 → StronglySorted Z.le (cache_erase f l).*2.
Proof.
  induction l as [|x l IH]; simpl; intros Hs; [done|].
  apply StronglySorted_cons in Hs as [Hall Hs].
  destruct (x.1 =? f); [done|]. simpl. apply StronglySorted_cons. split; [|auto].
  rewrite Forall_forall in *. intros y Hy. apply Hall.
  apply list_elem_of_fmap in Hy as (e & -> & He).
  apply list_elem_of_fmap_2. by eapply cache_erase_elem_of.
Qed.

Lemma cache_erase_not_elem_of f l : f ∉ l.*1 → cache_erase f l = l.
Proof.
  induction l as [|x l IH]; simpl; intros Hn; [done|].
  apply not_elem_of_cons in Hn as [Hx Hl].
  destruct (Z.eqb_spec x.1 f); [congruence|]. by rewrite IH.
Qed.

Lemma upper_bound_insert_perm e l : upper_bound_insert e l ≡ₚ e :: l.
Proof.
  induction l as [|x l IH]; simpl; [done|].
  destruct (CmpTimestamp e x); [done|].
  rewrite IH. apply Permutation_swap.
Qed.

Lemma upper_bound_insert_elem_of e l x :
  x ∈ upper_bound_insert e l ↔ x = e ∨ x ∈ l.
Proof. rewrite upper_bound_insert_perm. apply elem_of_cons. Qed.

Lemma upper_bound_insert_sorted e l :
  StronglySorted Z.le l.*2 → StronglySorted Z.le (upper_bound_insert e l).*2.
Proof.
  induction l as [|x l IH]; simpl; intros Hs.
  - repeat constructor.
  - apply StronglySorted_cons in Hs as [Hall Hs]. unfold CmpTimestamp.
    destruct (Z.ltb_spec e.2 x.2) as [Hlt|Hge]; simpl.
    + apply StronglySorted_cons. split.
      * constructor; [lia|]. eapply Forall_impl; [exact Hall|]. simpl. intros; lia.
      * apply StronglySorted_cons. done.
    + apply StronglySorted_cons. split; [|auto].
      rewrite Forall_forall in *. intros y Hy.
      apply list_elem_of_fmap in Hy as (z & -> & Hz).
      apply upper_bound_insert_elem_of in Hz as [->|Hz]; [lia|].
      apply Hall. by apply list_elem_of_fmap_2.
Qed.

(** First match of [List.find]. *)
Lemma find_Some_split {A} (p : A → bool) l x :
  List.find p l = Some x →
  ∃ l1 l2, l = l1 ++ x :: l2 ∧ p x = true ∧ ∀ y, y ∈ l1 → p y = false.
Proof.
  induction l as [|a l IH]; simpl; [done|].
  destruct (p a) eqn:Hpa.
  - intros [= ->]. exists [], l. split_and!; [done|done|]. intros y Hy. by apply elem_of_nil in Hy.
  - intros (l1 & l2 & -> & Hpx & Hl1)%IH. exists (a :: l1), l2. split_and!; [done|done|].
    intros y [->|Hy]%elem_of_cons; auto.
Qed.

Lemma find_None_all {A} (p : A → bool) l :
  List.find p l = None → ∀ y, y ∈ l → p y = false.
Proof.
  intros H y Hy. apply list_elem_of_In in Hy. by eapply find_none in H.
Qed.

Lemma filter_length_zero {A} (P : A → Prop) `{∀ x, Decision (P x)} (l : list A) :
  length (filter P l) = 0%nat ↔ ∀ x, x ∈ l → ¬ P x.
Proof.
  split.
  - intros Hl x Hx HP. apply length_zero_iff_nil in Hl.
    eapply filter_nil_not_elem_of; [exact Hl | exact HP | exact Hx].
  - intros Hall. induction l as [|a l IH]; [done|].
    rewrite filter_cons_False; [apply IH|]; intros; apply Hall; set_solver.
Qed.

End list_facts.

(** Puts every state of the goal and of the hypotheses in constructor form.
    The reduction is lazy: a stack of setters is never normalised as a
    whole, only the field that is asked for. *)
Ltac st_norm :=
  lazy beta iota zeta delta
    [forget first_access tracked_frames cnt evictable history
     set_history set_cnt set_curr_size set_max_size set_evictable
     set_new_frame set_cache_frame set_current_timestamp
     replacer_size_ k_ current_timestamp_ curr_size_ max_size_ time_frame_
     recorded_cnt_ evictable_ new_frame_ cache_frame_] in *.

Ltac inv_fields I :=
  destruct I as [Ik Icnt Ilen Its Innd Inew Insort Icnd Icache Itime Icsort Isize].

Lemma filter_remove_length (P : Z → Prop) `{∀ x, Decision (P x)} f (l : list Z) :
  NoDup l → f ∈ l → P f →
  length (filter P l) = S (length (filter P (list_remove f l))).
Proof.
  induction l as [|x l IH]; intros Hnd Hin HP.
  - by apply elem_of_nil in Hin.
  - apply NoDup_cons in Hnd as [Hx Hnd]. unfold list_remove.
    apply elem_of_cons in Hin as [<-|Hin].
    + rewrite filter_cons_True by done. rewrite (filter_cons_False (λ g, g ≠ f)) by auto.
      fold (list_remove f l). by rewrite (list_remove_not_elem_of f l Hx).
    + assert (x ≠ f) by (intros ->; done).
      rewrite (filter_cons_True (λ g, g ≠ f)) by done. fold (list_remove f l).
      destruct (decide (P x)).
      * rewrite !filter_cons_True by done. simpl. f_equal. by apply IH.
      * rewrite !filter_cons_False by done. by apply IH.
Qed.

Lemma cache_erase_fmap f l : NoDup l.*1 → (cache_erase f l).*1 = list_remove f l.*1.
Proof.
  induction l as [|x l IH]; simpl; intros Hnd; [done|].
  apply NoDup_cons in Hnd as [Hx Hnd]. unfold list_remove.
  destruct (Z.eqb_spec x.1 f) as [Hxf|Hne].
  - rewrite filter_cons_False by auto. symmetry. apply (list_remove_not_elem_of f). by rewrite <- Hxf.
  - rewrite filter_cons_True by done. simpl. f_equal. by apply IH.
Qed.

Lemma list_remove_perm f (l : list Z) : NoDup l → f ∈ l → l ≡ₚ f :: list_remove f l.
Proof.
  induction l as [|x l IH]; intros Hnd Hin.
  - by apply elem_of_nil in Hin.
  - apply NoDup_cons in Hnd as [Hx Hnd]. apply elem_of_cons in Hin as [<-|Hin].
    + unfold list_remove. rewrite filter_cons_False by auto.
      fold (list_remove f l). by rewrite (list_remove_not_elem_of f l Hx).
    + assert (x ≠ f) by (intros ->; done).
      unfold list_remove. rewrite filter_cons_True by done. fold (list_remove f l).
      rewrite (IH Hnd Hin) at 1. apply Permutation_swap.
Qed.

Lemma filter_ext_elem_of (P Q : Z → Prop) `{∀ x, Decision (P x)} `{∀ x, Decision (Q x)}
    (l : list Z) :
  (∀ g, g ∈ l → (P g ↔ Q g)) → filter P l = filter Q l.
Proof.
  induction l as [|x l IH]; intros Hext; [done|].
  assert (filter P l = filter Q l) as Hl by (apply IH; intros; apply Hext; by right).
  destruct (decide (P x)) as [HP|HP].
  - rewrite !filter_cons_True; [by rewrite Hl|by apply Hext; [left|]|done].
  - rewrite !filter_cons_False; [done|rewrite <- Hext; [done|by left]|done].
Qed.

Lemma filter_flip_length (P Q : Z → Prop) `{∀ x, Decision (P x)} `{∀ x, Decision (Q x)}
    f (l : list Z) :
  NoDup l → f ∈ l → (∀ g, g ≠ f → (P g ↔ Q g)) → ¬ P f → Q f →
  length (filter Q l) = S (length (filter P l)).
Proof.
  induction l as [|x l IH]; intros Hnd Hin Hext HP HQ.
  - by apply elem_of_nil in Hin.
  - apply NoDup_cons in Hnd as [Hx Hnd]. apply elem_of_cons in Hin as [<-|Hin].
    + rewrite filter_cons_True, filter_cons_False by done. simpl. f_equal. f_equal.
      apply filter_ext_elem_of. intros g Hg. symmetry. apply Hext. by intros ->.
    + assert (x ≠ f) as Hxf by (intros ->; done).
      destruct (decide (P x)) as [HPx|HPx].
      * rewrite !filter_cons_True by (try done; by apply Hext). simpl. f_equal. by apply IH.
      * rewrite !filter_cons_False by (try done; by rewrite <- Hext). by apply IH.
Qed.

Lemma hd_app_nonempty (h : list Z) t d : h ≠ [] → hd d (h ++ [t]) = hd d h.
Proof. by destruct h. Qed.

Lemma Inv_init n k : 0 < k → Inv (init n k).
Proof.
  intros Hk.
  constructor; unfold cnt, history, evictable, tracked_frames; simpl;
    intros; rewrite ?lookup_empty; simpl; try lia; try (by constructor).
  - by apply elem_of_nil in H.
  - rewrite elem_of_nil. lia.
  - rewrite elem_of_nil. lia.
  - by apply elem_of_nil in H.
Qed.

Lemma tracked_NoDup r : Inv r → NoDup (tracked_frames r).
Proof.
  intros I. apply NoDup_app. split_and!.
  - apply (inv_new_nodup r I).
  - intros f Hn Hc. apply (inv_new_iff r I) in Hn. apply (inv_cache_iff r I) in Hc. lia.
  - apply (inv_cache_nodup r I).
Qed.

Lemma history_nonempty r g : Inv r → 0 < cnt r g → ∃ t h, history r g = t :: h.
Proof.
  intros I Hc. pose proof (inv_len r I g) as Hl. pose proof (inv_k r I).
  destruct (history r g) as [|t h]; simpl in *; [lia|eauto].
Qed.

Lemma first_access_le r g : Inv r → 0 < cnt r g → first_access r g ≤ current_timestamp_ r.
Proof.
  intros I Hc. destruct (history_nonempty r g I Hc) as (t & h & Hh).
  unfold first_access. rewrite Hh. simpl. apply (inv_ts r I g). rewrite Hh. by left.
Qed.

Lemma history_untracked r g : Inv r → cnt r g = 0 → history r g = [].
Proof.
  intros I Hc. pose proof (inv_len r I g) as Hl. pose proof (inv_k r I).
  destruct (history r g); simpl in *; [done|lia].
Qed.

Lemma Inv_forget_new r f :
  Inv r → f ∈ new_frame_ r → evictable r f = true →
  Inv (forget f (set_new_frame (list_remove f (new_frame_ r)) r)).
Proof.
  intros I Hf Hev.
  pose proof (proj1 (inv_new_iff r I f) Hf) as Hcf.
  assert (Hfc : f ∉ (cache_frame_ r).*1) by (rewrite (inv_cache_iff r I); lia).
  destruct r as [N k ts cs ms tf rc ev nf cf]. inv_fields I. st_norm.
  constructor; st_norm.
  - done.
  - intros g. rewrite default_lookup_insert. case_decide; [lia|apply Icnt].
  - intros g. rewrite !default_lookup_insert. case_decide; [simpl; lia|apply Ilen].
  - intros g t. rewrite default_lookup_insert. case_decide; [by intros ?%elem_of_nil|apply Its].
  - by apply list_remove_NoDup.
  - intros g. rewrite list_remove_elem_of, default_lookup_insert.
    specialize (Inew g). case_decide; [subst; intuition lia|]. rewrite Inew. intuition congruence.
  - erewrite list_fmap_ext; [by apply list_remove_sorted|].
    intros i g Hg. apply list_elem_of_lookup_2, list_remove_elem_of in Hg as [_ Hg]. simpl.
    by rewrite default_lookup_insert_ne.
  - done.
  - intros g. rewrite default_lookup_insert.
    case_decide; [subst; split; [done|lia]|]. apply Icache.
  - intros g t Hgt. rewrite default_lookup_insert.
    case_decide; [subst; exfalso; apply Hfc; by apply (list_elem_of_fmap_2 fst) in Hgt|].
    by apply Itime.
  - done.
  - rewrite filter_app, length_app in *.
    rewrite (filter_remove_length _ f nf) in Isize by done.
    unfold size_t_dec. destruct (Z.eqb_spec cs 0); lia.
Qed.

Lemma Inv_forget_cache r f :
  Inv r → f ∈ (cache_frame_ r).*1 → evictable r f = true →
  Inv (forget f (set_cache_frame (cache_erase f (cache_frame_ r)) r)).
Proof.
  intros I Hf Hev.
  pose proof (proj1 (inv_cache_iff r I f) Hf) as Hcf.
  assert (Hfc : f ∉ new_frame_ r) by (rewrite (inv_new_iff r I); lia).
  destruct r as [N k ts cs ms tf rc ev nf cf]. inv_fields I. st_norm.
  constructor; st_norm.
  - done.
  - intros g. rewrite default_lookup_insert. case_decide; [lia|apply Icnt].
  - intros g. rewrite !default_lookup_insert. case_decide; [simpl; lia|apply Ilen].
  - intros g t. rewrite default_lookup_insert. case_decide; [by intros ?%elem_of_nil|apply Its].
  - done.
  - intros g. rewrite default_lookup_insert.
    case_decide; [subst; split; [done|lia]|]. apply Inew.
  - erewrite list_fmap_ext; [exact Insort|].
    intros i g Hg. apply list_elem_of_lookup_2 in Hg. simpl.
    rewrite default_lookup_insert_ne; [done|by intros ->].
  - by apply cache_erase_NoDup.
  - intros g. rewrite cache_erase_fst, default_lookup_insert by done.
    specialize (Icache g). case_decide; [subst; intuition lia|]. rewrite Icache. intuition congruence.
  - intros g t Hgt.
    assert (g ∈ (cache_erase f cf).*1) as Hg by (by apply (list_elem_of_fmap_2 fst) in Hgt).
    apply cache_erase_fst in Hg as [_ Hg]; [|done].
    rewrite default_lookup_insert_ne by done. apply Itime. by eapply cache_erase_elem_of.
  - by apply cache_erase_sorted.
  - rewrite cache_erase_fmap by done.
    rewrite filter_app, length_app in *.
    rewrite (filter_remove_length _ f cf.*1) in Isize by done.
    unfold size_t_dec. destruct (Z.eqb_spec cs 0); lia.
Qed.

(** *** [Evict] on a well-formed state *)

Lemma tracked_iff r f : Inv r → f ∈ tracked_frames r ↔ 0 < cnt r f.
Proof.
  intros I. unfold tracked_frames. rewrite elem_of_app, (inv_new_iff r I), (inv_cache_iff r I).
  pose proof (inv_k r I). lia.
Qed.

Lemma Size_zero_iff r : Inv r → Size r = 0 ↔ ∀ f, ¬ evictable_frame r f.
Proof.
  intros I. unfold Size. rewrite (inv_size r I).
  rewrite <- Nat2Z.inj_0, Nat2Z.inj_iff, filter_length_zero.
  split.
  - intros H f [Hc He]. apply (H f); [|done]. by apply tracked_iff.
  - intros H f Hf He. apply (H f). split; [|done]. by apply tracked_iff.
Qed.

Lemma bkd_new r f : Inv r → f ∈ new_frame_ r → backward_k_distance r f = None.
Proof.
  intros I Hf. apply (inv_new_iff r I) in Hf.
  unfold backward_k_distance, kth_recent. rewrite (inv_len r I).
  destruct (Z.ltb_spec (Z.min (cnt r f) (k_ r)) (k_ r)); [done|lia].
Qed.

Lemma bkd_cache r f : Inv r → k_ r ≤ cnt r f →
  backward_k_distance r f = Some (current_timestamp_ r - first_access r f).
Proof.
  intros I Hf. pose proof (inv_k r I) as Hk. pose proof (inv_len r I f) as Hlen.
  unfold backward_k_distance, kth_recent, first_access.
  destruct (Z.ltb_spec (Z.of_nat (length (history r f))) (k_ r)); [lia|].
  replace (length (history r f) - Z.to_nat (k_ r))%nat with 0%nat by lia.
  destruct (history r f); simpl in *; [lia|done].
Qed.

Lemma bkd_None_new r f : Inv r → 0 < cnt r f →
  backward_k_distance r f = None → f ∈ new_frame_ r.
Proof.
  intros I Hc Hb. apply (inv_new_iff r I). split; [done|].
  destruct (Z.lt_ge_cases (cnt r f) (k_ r)) as [|Hge]; [done|].
  rewrite bkd_cache in Hb by done. done.
Qed.

Lemma history_forget f r : history (forget f r) f = [].
Proof. unfold history, forget, set_history. simpl. by rewrite lookup_insert_eq. Qed.

Lemma Size_forget f r : Size r ≠ 0 → Size (forget f r) = Size r - 1.
Proof.
  unfold Size, forget, size_t_dec. simpl. intros H.
  destruct (Z.eqb_spec (curr_size_ r) 0); [done|done].
Qed.

Lemma sorted_app_lt (h : Z → Z) l1 x l2 y :
  StronglySorted (λ a b, b < a) (h <$> (l1 ++ x :: l2)) → y ∈ l1 → h x < h y.
Proof.
  rewrite fmap_app, fmap_cons. intros [Hc _]%StronglySorted_app Hy.
  apply Hc; [by apply list_elem_of_fmap_2 | by left].
Qed.

Lemma sorted_app_le l1 (x : Z * Z) l2 y :
  StronglySorted Z.le (l1 ++ x :: l2).*2 → y ∈ l2 → x.2 ≤ y.2.
Proof.
  rewrite fmap_app, fmap_cons. intros (_ & _ & Hs)%StronglySorted_app Hy.
  apply StronglySorted_cons in Hs as [Hall _]. rewrite Forall_forall in Hall.
  apply Hall. by apply list_elem_of_fmap_2.
Qed.

Lemma Evict_spec_inv r :
  Inv r →
  ((∃ f, evictable_frame r f) →
   ∃ f r', Evict r = (Some f, r') ∧ evictable_frame r f ∧
     (∀ g, evictable_frame r g →
           dist_le (backward_k_distance r g) (backward_k_distance r f)) ∧
     (backward_k_distance r f = None →
      ∀ g, evictable_frame r g → backward_k_distance r g = None →
           first_access r f ≤ first_access r g) ∧
     history r' f = [] ∧ Size r' = Size r - 1) ∧
  ((∀ f, ¬ evictable_frame r f) → Evict r = (None, r)).
Proof.
  intros I. split.
  - intros [f0 Hf0].
    assert (Hsz : Size r ≠ 0).
    { intros Hz. by apply (proj1 (Size_zero_iff r I) Hz f0). }
    unfold Evict. destruct (Z.eqb_spec (Size r) 0) as [|_]; [done|].
    destruct (List.find (evictable r) (rev (new_frame_ r))) as [f|] eqn:Hfind.
    + apply find_Some_split in Hfind as (l1 & l2 & Hrev & Hev & Hl1).
      assert (Hnew : new_frame_ r = rev l2 ++ f :: rev l1).
      { rewrite <- (rev_involutive (new_frame_ r)), Hrev, rev_app_distr. simpl.
        by rewrite <- app_assoc. }
      assert (Hfin : f ∈ new_frame_ r) by (rewrite Hnew; set_solver).
      eexists f, _. split; [reflexivity|]. split_and!.
      * split; [|done]. by apply (inv_new_iff r I).
      * intros g _. rewrite (bkd_new r f) by done. by destruct (backward_k_distance r g).
      * intros _ g [Hgc Hge] Hgb.
        apply (bkd_None_new r g I Hgc) in Hgb.
        rewrite Hnew in Hgb. apply elem_of_app in Hgb as [Hg|Hg].
        -- apply Z.lt_le_incl. eapply sorted_app_lt with (h := first_access r).
           ++ rewrite <- Hnew. apply (inv_new_sorted r I).
           ++ done.
        -- apply elem_of_cons in Hg as [->|Hg]; [lia|].
           rewrite list_elem_of_In, <- in_rev, <- list_elem_of_In in Hg.
           apply Hl1 in Hg. congruence.
      * apply history_forget.
      * by rewrite Size_forget.
    + pose proof (find_None_all _ _ Hfind) as Hnew.
      assert (Hnew' : ∀ g, g ∈ new_frame_ r → evictable r g = false).
      { intros g Hg. apply Hnew. by rewrite list_elem_of_In, <- in_rev, <- list_elem_of_In. }
      destruct (List.find (λ e, evictable r e.1) (cache_frame_ r)) as [e|] eqn:Hfc.
      * apply find_Some_split in Hfc as (l1 & l2 & Hcache & Hev & Hl1).
        assert (Hein : e ∈ cache_frame_ r) by (rewrite Hcache; set_solver).
        assert (Hek : k_ r ≤ cnt r e.1).
        { apply (inv_cache_iff r I). by apply list_elem_of_fmap_2. }
        pose proof (inv_k r I) as Hk.
        eexists e.1, _. split; [reflexivity|]. split_and!.
        -- split; [lia|done].
        -- intros g [Hgc Hge].
           assert (Hgk : k_ r ≤ cnt r g).
           { destruct (Z.lt_ge_cases (cnt r g) (k_ r)) as [Hlt|]; [|done].
             assert (g ∈ new_frame_ r) as Hg%Hnew' by (apply (inv_new_iff r I); lia).
             congruence. }
           rewrite !bkd_cache by done. simpl.
           apply (inv_cache_iff r I) in Hgk.
           apply list_elem_of_fmap in Hgk as ([g' t] & -> & Hgt). simpl in *.
           rewrite <- (inv_cache_time r I _ _ Hgt).
           destruct e as [f tf]. simpl in *.
           rewrite <- (inv_cache_time r I _ _ Hein).
           rewrite Hcache in Hgt. apply elem_of_app in Hgt as [Hgt|Hgt].
           ++ apply Hl1 in Hgt. simpl in Hgt. congruence.
           ++ apply elem_of_cons in Hgt as [[= -> ->]|Hgt]; [lia|].
              pose proof (inv_cache_sorted r I) as Hs. rewrite Hcache in Hs.
              pose proof (sorted_app_le _ _ _ _ Hs Hgt). simpl in *. lia.
        -- intros Hb. rewrite bkd_cache in Hb by done. done.
        -- apply history_forget.
        -- by rewrite Size_forget.
      * exfalso. pose proof (find_None_all _ _ Hfc) as Hc.
        destruct Hf0 as [Hc0 He0]. apply (proj2 (tracked_iff r _ I)) in Hc0.
        apply elem_of_app in Hc0 as [Hin|Hin].
        -- apply Hnew' in Hin. congruence.
        -- apply list_elem_of_fmap in Hin as (e & -> & He). apply Hc in He. congruence.
  - intros Hnone. unfold Evict. destruct (Z.eqb_spec (Size r) 0) as [|Hsz]; [done|].
    exfalso. apply Hsz. by apply (proj2 (Size_zero_iff r I)).
Qed.

(** *** Every call preserves well-formedness *)

Lemma Inv_SetEvictable r f b : Inv r → Inv (SetEvictable r f b).
Proof.
  intros I. unfold SetEvictable. destruct (Z.eqb_spec (cnt r f) 0) as [|Hc]; [done|].
  assert (Hf : f ∈ tracked_frames r).
  { apply tracked_iff; [done|]. pose proof (inv_cnt r I f). lia. }
  pose proof (tracked_NoDup r I) as Hnd.
  destruct r as [N k ts cs ms tf rc ev nf cf]. inv_fields I. st_norm.
  assert (Hev : ∀ g, g ≠ f →
            default false (<[f:=b]> ev !! g) = true ↔ default false (ev !! g) = true).
  { intros g Hg. by rewrite default_lookup_insert_ne. }
  destruct (default false (ev !! f)) eqn:Hst, b; simpl; constructor; st_norm; try done.
  - rewrite Isize. do 2 f_equal. apply filter_ext_elem_of. intros g _.
    rewrite default_lookup_insert. case_decide; [subst|done]. by rewrite Hst.
  - rewrite (filter_flip_length (λ g, default false (<[f:=false]> ev !! g) = true)
               (λ g, default false (ev !! g) = true) f) in Isize; try done.
    + unfold size_t_dec. destruct (Z.eqb_spec cs 0); lia.
    + by rewrite default_lookup_insert_eq.
  - rewrite (filter_flip_length (λ g, default false (ev !! g) = true)
               (λ g, default false (<[f:=true]> ev !! g) = true) f); try done.
    + lia.
    + intros g Hg. symmetry. by apply Hev.
    + by rewrite Hst.
    + by rewrite default_lookup_insert_eq.
  - rewrite Isize. do 2 f_equal. apply filter_ext_elem_of. intros g _.
    rewrite default_lookup_insert. case_decide; [subst|done]. by rewrite Hst.
Qed.

Lemma Inv_Evict r : Inv r → Inv (Evict r).2.
Proof.
  intros I. unfold Evict. destruct (Size r =? 0); [done|].
  destruct (List.find (evictable r) (rev (new_frame_ r))) as [f|] eqn:Hfind.
  - apply find_Some_split in Hfind as (l1 & l2 & Hrev & Hev & _). simpl.
    apply Inv_forget_new; [done| |done].
    rewrite list_elem_of_In, in_rev, Hrev, <- list_elem_of_In. set_solver.
  - destruct (List.find (λ e, evictable r e.1) (cache_frame_ r)) as [e|] eqn:Hfc; [|done].
    apply find_Some_split in Hfc as (l1 & l2 & Hc & Hev & _). simpl.
    apply Inv_forget_cache; [done| |done].
    apply list_elem_of_fmap_2. rewrite Hc. set_solver.
Qed.

Lemma Inv_Remove r f r' : Inv r → Remove r f = Done r' → Inv r'.
Proof.
  intros I. unfold Remove. destruct (to_int32 (replacer_size_ r) <? f); [done|].
  destruct (Z.eqb_spec (cnt r f) 0) as [|Hc]; [by intros [= <-]|].
  destruct (evictable r f) eqn:Hev; simpl; [|done].
  pose proof (inv_cnt r I f) as Hc0.
  destruct (Z.ltb_spec (cnt r f) (k_ r)); intros [= <-].
  - apply Inv_forget_new; [done| |done]. apply (inv_new_iff r I). lia.
  - apply Inv_forget_cache; [done| |done]. by apply (inv_cache_iff r I).
Qed.

(** First access of an untracked frame, k > 1. *)
Lemma Inv_RecordAccess_first r f :
  Inv r → cnt r f = 0 → 1 < k_ r →
  Inv {| replacer_size_ := replacer_size_ r; k_ := k_ r;
         current_timestamp_ := current_timestamp_ r + 1;
         curr_size_ := curr_size_ r + 1; max_size_ := max_size_ r;
         time_frame_ := <[f := history r f ++ [current_timestamp_ r + 1]]> (time_frame_ r);
         recorded_cnt_ := <[f := cnt r f + 1]> (recorded_cnt_ r);
         evictable_ := <[f := true]> (evictable_ r);
         new_frame_ := f :: new_frame_ r;
         cache_frame_ := cache_frame_ r |}.
Proof.
  intros I Hc Hk. pose proof (history_untracked r f I Hc) as Hh.
  assert (Hfn : f ∉ new_frame_ r) by (rewrite (inv_new_iff r I); lia).
  assert (Hfc : f ∉ (cache_frame_ r).*1) by (rewrite (inv_cache_iff r I); lia).
  assert (Hfa : ∀ g, g ∈ new_frame_ r → first_access r g ≤ current_timestamp_ r).
  { intros g Hg. apply first_access_le; [done|]. apply (inv_new_iff r I) in Hg. lia. }
  destruct r as [N k ts cs ms tf rc ev nf cf]. inv_fields I. st_norm.
  rewrite Hh, Hc. simpl.
  constructor; st_norm.
  - lia.
  - intros g. rewrite default_lookup_insert. case_decide; [lia|apply Icnt].
  - intros g. rewrite !default_lookup_insert. case_decide; [simpl; lia|apply Ilen].
  - intros g t. rewrite default_lookup_insert. case_decide.
    + intros ->%list_elem_of_singleton. lia.
    + intros Ht. pose proof (Its g t Ht). lia.
  - apply NoDup_cons. by split.
  - intros g. rewrite elem_of_cons, default_lookup_insert.
    specialize (Inew g). case_decide; [subst; intuition lia|]. rewrite Inew. intuition congruence.
  - simpl. rewrite default_lookup_insert_eq. simpl.
    apply StronglySorted_cons. split.
    + rewrite Forall_forall. intros x (g & -> & Hg)%list_elem_of_fmap.
      rewrite default_lookup_insert_ne by (by intros ->).
      specialize (Hfa g Hg). lia.
    + erewrite list_fmap_ext; [exact Insort|].
      intros i g Hg%list_elem_of_lookup_2. simpl.
      rewrite default_lookup_insert_ne; [done|by intros ->].
  - done.
  - intros g. rewrite default_lookup_insert.
    case_decide; [subst; split; [done|lia]|]. apply Icache.
  - intros g t Hgt. rewrite default_lookup_insert.
    case_decide; [subst; exfalso; apply Hfc; by apply (list_elem_of_fmap_2 fst) in Hgt|].
    by apply Itime.
  - done.
  - simpl. rewrite filter_cons_True by (by rewrite default_lookup_insert_eq).
    simpl. rewrite Isize.
    rewrite (filter_ext_elem_of (λ g, default false (<[f:=true]> ev !! g) = true)
                           (λ g, default false (ev !! g) = true)); [lia|].
    intros g Hg. rewrite default_lookup_insert_ne; [done|].
    intros ->. apply elem_of_app in Hg as [?|?]; done.
Qed.

(** 1 < cnt + 1 < k: only the history and the counter move. *)
Lemma Inv_RecordAccess_young r f :
  Inv r → 0 < cnt r f → cnt r f + 1 < k_ r →
  Inv {| replacer_size_ := replacer_size_ r; k_ := k_ r;
         current_timestamp_ := current_timestamp_ r + 1;
         curr_size_ := curr_size_ r; max_size_ := max_size_ r;
         time_frame_ := <[f := history r f ++ [current_timestamp_ r + 1]]> (time_frame_ r);
         recorded_cnt_ := <[f := cnt r f + 1]> (recorded_cnt_ r);
         evictable_ := evictable_ r;
         new_frame_ := new_frame_ r;
         cache_frame_ := cache_frame_ r |}.
Proof.
  intros I Hc Hk. destruct (history_nonempty r f I Hc) as (t0 & h0 & Hh).
  assert (Hfn : f ∈ new_frame_ r) by (rewrite (inv_new_iff r I); lia).
  assert (Hfc : f ∉ (cache_frame_ r).*1) by (rewrite (inv_cache_iff r I); lia).
  destruct r as [N k ts cs ms tf rc ev nf cf]. inv_fields I. st_norm.
  pose proof (Ilen f) as Hlen.
  constructor; st_norm.
  - done.
  - intros g. rewrite default_lookup_insert. case_decide; [lia|apply Icnt].
  - intros g. rewrite !default_lookup_insert.
    case_decide; [rewrite length_app; simpl; lia|apply Ilen].
  - intros g t. rewrite default_lookup_insert. case_decide.
    + intros [Ht| ->%list_elem_of_singleton]%elem_of_app; [|lia].
      pose proof (Its f t Ht). lia.
    + intros Ht. pose proof (Its g t Ht). lia.
  - done.
  - intros g. rewrite default_lookup_insert.
    specialize (Inew g). case_decide; [subst; intuition lia|done].
  - erewrite list_fmap_ext; [exact Insort|].
    intros i g Hg%list_elem_of_lookup_2. simpl.
    rewrite default_lookup_insert. case_decide; [subst|done].
    apply hd_app_nonempty. by rewrite Hh.
  - done.
  - intros g. rewrite default_lookup_insert.
    specialize (Icache g). case_decide; [subst; intuition lia|done].
  - intros g t Hgt. rewrite default_lookup_insert.
    case_decide; [subst; exfalso; apply Hfc; by apply (list_elem_of_fmap_2 fst) in Hgt|].
    by apply Itime.
  - done.
  - done.
Qed.

(** The k-th access of a frame in the history list (k > 1): it moves to the
    cache list. *)
Lemma Inv_RecordAccess_promote r f :
  Inv r → 0 < cnt r f → cnt r f + 1 = k_ r →
  Inv {| replacer_size_ := replacer_size_ r; k_ := k_ r;
         current_timestamp_ := current_timestamp_ r + 1;
         curr_size_ := curr_size_ r; max_size_ := max_size_ r;
         time_frame_ := <[f := history r f ++ [current_timestamp_ r + 1]]> (time_frame_ r);
         recorded_cnt_ := <[f := cnt r f + 1]> (recorded_cnt_ r);
         evictable_ := evictable_ r;
         new_frame_ := list_remove f (new_frame_ r);
         cache_frame_ := upper_bound_insert
             (f, hd 0 (default [] (<[f := history r f ++ [current_timestamp_ r + 1]]> (time_frame_ r) !! f)))
             (cache_frame_ r) |}.
Proof.
  intros I Hc Hk. destruct (history_nonempty r f I Hc) as (t0 & h0 & Hh).
  assert (Hfn : f ∈ new_frame_ r) by (rewrite (inv_new_iff r I); lia).
  assert (Hfc : f ∉ (cache_frame_ r).*1) by (rewrite (inv_cache_iff r I); lia).
  destruct r as [N k ts cs ms tf rc ev nf cf]. inv_fields I. st_norm.
  pose proof (Ilen f) as Hlen.
  constructor; st_norm.
  - done.
  - intros g. rewrite default_lookup_insert. case_decide; [lia|apply Icnt].
  - intros g. rewrite !default_lookup_insert.
    case_decide; [rewrite length_app; simpl; lia|apply Ilen].
  - intros g t. rewrite default_lookup_insert. case_decide.
    + intros [Ht| ->%list_elem_of_singleton]%elem_of_app; [|lia].
      pose proof (Its f t Ht). lia.
    + intros Ht. pose proof (Its g t Ht). lia.
  - by apply list_remove_NoDup.
  - intros g. rewrite list_remove_elem_of, default_lookup_insert.
    specialize (Inew g). case_decide; [subst; intuition lia|]. rewrite Inew. intuition congruence.
  - erewrite list_fmap_ext; [by apply list_remove_sorted|].
    intros i g Hg. apply list_elem_of_lookup_2, list_remove_elem_of in Hg as [_ Hg]. simpl.
    by rewrite default_lookup_insert_ne.
  - rewrite upper_bound_insert_perm. simpl. apply NoDup_cons. by split.
  - intros g. rewrite upper_bound_insert_perm. simpl.
    rewrite elem_of_cons, default_lookup_insert.
    specialize (Icache g). case_decide; [subst; intuition lia|]. rewrite Icache. intuition congruence.
  - intros g t Hgt. rewrite upper_bound_insert_elem_of in Hgt.
    destruct Hgt as [[= -> ->]|Hgt]; [done|].
    rewrite default_lookup_insert.
    case_decide; [subst; exfalso; apply Hfc; by apply (list_elem_of_fmap_2 fst) in Hgt|].
    by apply Itime.
  - by apply upper_bound_insert_sorted.
  - rewrite Isize. f_equal. apply Permutation_length.
    rewrite upper_bound_insert_perm. simpl.
    rewrite (list_remove_perm f nf) at 1 by done.
    rewrite !filter_app, !filter_cons. case_decide; simpl; [|done].
    by rewrite Permutation_middle.
Qed.

(** An access beyond the k-th: the oldest retained timestamp is dropped and
    the frame is re-ranked in the cache list. *)
Lemma Inv_RecordAccess_old r f :
  Inv r → k_ r < cnt r f + 1 →
  Inv {| replacer_size_ := replacer_size_ r; k_ := k_ r;
         current_timestamp_ := current_timestamp_ r + 1;
         curr_size_ := curr_size_ r; max_size_ := max_size_ r;
         time_frame_ := <[f := tl (default [] (<[f := history r f ++ [current_timestamp_ r + 1]]> (time_frame_ r) !! f))]>
             (<[f := history r f ++ [current_timestamp_ r + 1]]> (time_frame_ r));
         recorded_cnt_ := <[f := cnt r f + 1]> (recorded_cnt_ r);
         evictable_ := evictable_ r;
         new_frame_ := new_frame_ r;
         cache_frame_ := upper_bound_insert
             (f, hd 0 (default [] (<[f := tl (default [] (<[f := history r f ++ [current_timestamp_ r + 1]]> (time_frame_ r) !! f))]>
             (<[f := history r f ++ [current_timestamp_ r + 1]]> (time_frame_ r)) !! f)))
             (cache_erase f (cache_frame_ r)) |}.
Proof.
  intros I Hk. pose proof (inv_k r I) as Hk0.
  assert (Hc : 0 < cnt r f) by lia.
  destruct (history_nonempty r f I Hc) as (t0 & h0 & Hh).
  assert (Hfn : f ∉ new_frame_ r) by (rewrite (inv_new_iff r I); lia).
  assert (Hfc : f ∈ (cache_frame_ r).*1) by (rewrite (inv_cache_iff r I); lia).
  destruct r as [N k ts cs ms tf rc ev nf cf]. inv_fields I. st_norm.
  pose proof (Ilen f) as Hlen. pose proof (Its f) as Htsf.
  rewrite !default_lookup_insert_eq. rewrite Hh in *. simpl in Hlen. simpl tail.
  constructor; st_norm.
  - done.
  - intros g. rewrite default_lookup_insert. case_decide; [lia|apply Icnt].
  - intros g. destruct (decide (f = g)) as [<-|Hne].
    + rewrite !default_lookup_insert_eq, length_app. simpl. lia.
    + rewrite !default_lookup_insert_ne by done. apply Ilen.
  - intros g t. destruct (decide (f = g)) as [<-|Hne].
    + rewrite !default_lookup_insert_eq.
      intros [Ht| ->%list_elem_of_singleton]%elem_of_app; [|lia].
      specialize (Htsf t ltac:(by right)). lia.
    + rewrite !default_lookup_insert_ne by done. intros Ht. pose proof (Its g t Ht). lia.
  - done.
  - intros g. rewrite default_lookup_insert.
    specialize (Inew g). case_decide; [subst; intuition lia|done].
  - erewrite list_fmap_ext; [exact Insort|].
    intros i g Hg%list_elem_of_lookup_2. simpl.
    rewrite !default_lookup_insert_ne; [done|by intros ->..].
  - rewrite upper_bound_insert_perm. simpl.
    apply NoDup_cons. split; [|by apply cache_erase_NoDup].
    rewrite cache_erase_fst by done. tauto.
  - intros g. rewrite upper_bound_insert_perm. simpl.
    rewrite elem_of_cons, cache_erase_fst, default_lookup_insert by done.
    specialize (Icache g). case_decide; [subst; intuition lia|]. rewrite Icache. intuition congruence.
  - intros g t Hgt. rewrite upper_bound_insert_elem_of in Hgt.
    destruct Hgt as [[= -> ->]|Hgt]; [by rewrite !default_lookup_insert_eq|].
    assert (g ∈ (cache_erase f cf).*1) as Hg by (by apply (list_elem_of_fmap_2 fst) in Hgt).
    apply cache_erase_fst in Hg as [_ Hg]; [|done].
    rewrite !default_lookup_insert_ne by done. apply Itime. by eapply cache_erase_elem_of.
  - by apply upper_bound_insert_sorted, cache_erase_sorted.
  - rewrite Isize. f_equal. apply Permutation_length.
    rewrite upper_bound_insert_perm. simpl. rewrite cache_erase_fmap by done.
    rewrite (list_remove_perm f cf.*1) at 1 by done. done.
Qed.

(** First access with k = 1: the frame enters the history list and leaves it
    for the cache list in the same call. *)
Lemma Inv_RecordAccess_first_k1 r f :
  Inv r → cnt r f = 0 → k_ r = 1 →
  Inv {| replacer_size_ := replacer_size_ r; k_ := k_ r;
         current_timestamp_ := current_timestamp_ r + 1;
         curr_size_ := curr_size_ r + 1; max_size_ := max_size_ r;
         time_frame_ := <[f := history r f ++ [current_timestamp_ r + 1]]> (time_frame_ r);
         recorded_cnt_ := <[f := cnt r f + 1]> (recorded_cnt_ r);
         evictable_ := <[f := true]> (evictable_ r);
         new_frame_ := list_remove f (f :: new_frame_ r);
         cache_frame_ := upper_bound_insert
             (f, hd 0 (default [] (<[f := history r f ++ [current_timestamp_ r + 1]]> (time_frame_ r) !! f)))
             (cache_frame_ r) |}.
Proof.
  intros I Hc Hk. pose proof (history_untracked r f I Hc) as Hh.
  assert (Hfn : f ∉ new_frame_ r) by (rewrite (inv_new_iff r I); lia).
  assert (Hfc : f ∉ (cache_frame_ r).*1) by (rewrite (inv_cache_iff r I); lia).
  assert (Hrm : list_remove f (f :: new_frame_ r) = new_frame_ r).
  { unfold list_remove. rewrite filter_cons_False by auto. by apply list_remove_not_elem_of. }
  destruct r as [N k ts cs ms tf rc ev nf cf]. inv_fields I. st_norm.
  rewrite Hh, Hc, Hrm, !default_lookup_insert_eq. simpl.
  constructor; st_norm.
  - lia.
  - intros g. rewrite default_lookup_insert. case_decide; [lia|apply Icnt].
  - intros g. rewrite !default_lookup_insert. case_decide; [simpl; lia|apply Ilen].
  - intros g t. rewrite default_lookup_insert. case_decide.
    + intros ->%list_elem_of_singleton. lia.
    + intros Ht. pose proof (Its g t Ht). lia.
  - done.
  - intros g. rewrite default_lookup_insert.
    specialize (Inew g). case_decide; [subst; intuition lia|done].
  - erewrite list_fmap_ext; [exact Insort|].
    intros i g Hg%list_elem_of_lookup_2. simpl.
    rewrite default_lookup_insert_ne; [done|by intros ->].
  - rewrite upper_bound_insert_perm. simpl. apply NoDup_cons. by split.
  - intros g. rewrite upper_bound_insert_perm. simpl.
    rewrite elem_of_cons, default_lookup_insert.
    specialize (Icache g). case_decide; [subst; intuition lia|]. rewrite Icache. intuition congruence.
  - intros g t Hgt. rewrite upper_bound_insert_elem_of in Hgt.
    destruct Hgt as [[= -> ->]|Hgt]; [by rewrite !default_lookup_insert_eq|].
    rewrite default_lookup_insert.
    case_decide; [subst; exfalso; apply Hfc; by apply (list_elem_of_fmap_2 fst) in Hgt|].
    by apply Itime.
  - by apply upper_bound_insert_sorted.
  - rewrite upper_bound_insert_perm, fmap_cons. cbn [fst].
    rewrite filter_app, filter_cons_True by (by rewrite default_lookup_insert_eq).
    rewrite length_app, length_cons. rewrite Isize, filter_app, length_app.
    rewrite !(filter_ext_elem_of (λ g, default false (<[f:=true]> ev !! g) = true)
                           (λ g, default false (ev !! g) = true)); [lia|..].
    + intros g Hg. rewrite default_lookup_insert_ne; [done|by intros ->].
    + intros g Hg. rewrite default_lookup_insert_ne; [done|by intros ->].
Qed.

Theorem Inv_RecordAccess r f r' : Inv r → RecordAccess r f = Done r' → Inv r'.
Proof.
  intros I. pose proof (inv_cnt r I f) as Hc0. pose proof (inv_k r I) as Hk0.
  pose proof (Inv_RecordAccess_first r f I) as Hfirst.
  pose proof (Inv_RecordAccess_first_k1 r f I) as Hfirst1.
  pose proof (Inv_RecordAccess_young r f I) as Hyoung.
  pose proof (Inv_RecordAccess_promote r f I) as Hpromote.
  pose proof (Inv_RecordAccess_old r f I) as Hold.
  unfold RecordAccess. destruct r as [N k ts cs ms tf rc ev nf cf]. st_norm.
  destruct (to_int32 N <? f); [done|].
  destruct (Z.eqb_spec (default 0 (rc !! f) + 1) 1) as [Hc1|Hc1].
  - destruct (cs =? ms); [done|].
    destruct (Z.eqb_spec (default 0 (rc !! f) + 1) k) as [Hk|Hk].
    + intros [= <-]. apply Hfirst1; lia.
    + destruct (Z.ltb_spec k (default 0 (rc !! f) + 1)); [lia|].
      intros [= <-]. apply Hfirst; lia.
  - destruct (Z.eqb_spec (default 0 (rc !! f) + 1) k) as [Hk|Hk].
    + intros [= <-]. apply Hpromote; lia.
    + destruct (Z.ltb_spec k (default 0 (rc !! f) + 1)).
      * intros [= <-]. apply Hold; lia.
      * intros [= <-]. apply Hyoung; lia.
Qed.

Theorem reachable_Inv r : reachable r → Inv r.
Proof.
  induction 1.
  - by apply Inv_init.
  - by eapply Inv_RecordAccess.
  - by apply Inv_SetEvictable.
  - by apply Inv_Evict.
  - by eapply Inv_Remove.
Qed.

(** *** Eviction order and new frames *)

(** k = 2; frames 0 and 1 accessed at times 1 and 2, frame 0 again at
    time 3 (spec, scenario 3). *)
Definition scenario3 : LRUKReplacer :=
  Eval vm_compute in
    match RecordAccess (init 7 2) 0 with
    | Done r1 =>
        match RecordAccess r1 1 with
        | Done r2 => match RecordAccess r2 0 with Done r3 => r3 | _ => r2 end
        | _ => r1
        end
    | _ => init 7 2
    end.

Lemma scenario3_reachable : reachable scenario3.
Proof.
  eapply reach_RecordAccess with (f := 0);
    [eapply reach_RecordAccess with (f := 1);
      [eapply reach_RecordAccess with (f := 0);
        [apply (reach_init 7 2); lia | vm_compute; reflexivity]
      | vm_compute; reflexivity]
    | vm_compute; reflexivity].
Defined.

(** C3. In every state the replacer can reach: if some tracked frame is
    evictable, [Evict] returns an evictable frame [f] whose backward
    k-distance is the largest among the evictable frames; when that distance
    is +inf, [f] has the earliest first access among the evictable frames of
    distance +inf; the history of [f] is cleared and [Size] drops by one.
    If no tracked frame is evictable, [Evict] returns nothing and leaves the
    state as it is. *)
Theorem Evict_largest_backward_k_distance (r : LRUKReplacer) :
  reachable r →
  ((∃ f, evictable_frame r f) →
   ∃ f r', Evict r = (Some f, r') ∧ evictable_frame r f ∧
     (∀ g, evictable_frame r g →
           dist_le (backward_k_distance r g) (backward_k_distance r f)) ∧
     (backward_k_distance r f = None →
      ∀ g, evictable_frame r g → backward_k_distance r g = None →
           first_access r f ≤ first_access r g) ∧
     history r' f = [] ∧ Size r' = Size r - 1) ∧
  ((∀ f, ¬ evictable_frame r f) → Evict r = (None, r)).
Proof.
  intros Hr. apply Evict_spec_inv. by apply reachable_Inv.
Qed.

Lemma Evict_largest_backward_k_distance_witness :
  reachable scenario3 ∧ evictable_frame scenario3 1 ∧
  ∃ f r', Evict scenario3 = (Some f, r') ∧ evictable_frame scenario3 f ∧
     (∀ g, evictable_frame scenario3 g →
           dist_le (backward_k_distance scenario3 g) (backward_k_distance scenario3 f)) ∧
     (backward_k_distance scenario3 f = None →
      ∀ g, evictable_frame scenario3 g → backward_k_distance scenario3 g = None →
           first_access scenario3 f ≤ first_access scenario3 g) ∧
     history r' f = [] ∧ Size r' = Size scenario3 - 1.
Proof.
  assert (He : evictable_frame scenario3 1) by (split; [vm_compute; reflexivity | reflexivity]).
  split; [exact scenario3_reachable|]. split; [exact He|].
  exact (proj1 (Evict_largest_backward_k_distance scenario3 scenario3_reachable)
           (ex_intro _ 1 He)).
Defined.

(** The scenario itself: frame 1 (one access, distance +inf) is evicted
    rather than frame 0 (two accesses). *)
Example scenario3_evicts_frame_1 : (Evict scenario3).1 = Some 1.
Proof. vm_compute. reflexivity. Qed.

(** What [RecordAccess] does for a frame the replacer does not track: the
    frame becomes evictable and [Size] grows by one. *)
Lemma RecordAccess_untracked (r : LRUKReplacer) (f : frame_id_t) :
  cnt r f = 0 →
  match RecordAccess r f with
  | Done r' => evictable r' f = true ∧ Size r' = Size r + 1
  | _ => True
  end.
Proof.
  intros Hc. unfold RecordAccess, Size.
  destruct r as [N k ts cs ms tf rc ev nf cf]. st_norm. rewrite Hc.
  change (0 + 1) with 1. change (1 =? 1) with true. cbv iota.
  destruct (to_int32 N <? f); [done|]. destruct (cs =? ms); [done|].
  destruct (1 =? k); [|destruct (k <? 1)];
    st_norm; by rewrite default_lookup_insert_eq.
Qed.

(** C8, evaluated on a fresh replacer of 2 frames with k = 2: after
    [RecordAccess] of frame 0, never seen before, the frame is evictable,
    [Size] went from 0 to 1, and the next [Evict] returns frame 0. *)
Theorem RecordAccess_new_frame_evictable :
  ∃ r1, RecordAccess (init 2 2) 0 = Done r1 ∧
        evictable r1 0 = true ∧
        Size (init 2 2) = 0 ∧ Size r1 = 1 ∧
        (Evict r1).1 = Some 0.
Proof.
  eexists. split; [vm_compute; reflexivity|].
  split_and!; vm_compute; reflexivity.
Qed.

(** *** What each call does to one frame *)

Lemma RecordAccess_effect_match (r : LRUKReplacer) (f : frame_id_t) :
  match RecordAccess r f with
  | Done r' =>
      f ≤ to_int32 (replacer_size_ r) ∧
      cnt r' f = cnt r f + 1 ∧
      (∀ g, g ≠ f → cnt r' g = cnt r g ∧ evictable r' g = evictable r g) ∧
      evictable r' f = (if cnt r f =? 0 then true else evictable r f) ∧
      curr_size_ r' = (if cnt r f =? 0 then curr_size_ r + 1 else curr_size_ r) ∧
      (cnt r f = 0 → curr_size_ r ≠ max_size_ r) ∧
      max_size_ r' = max_size_ r ∧ replacer_size_ r' = replacer_size_ r ∧
      k_ r' = k_ r ∧ current_timestamp_ r' = current_timestamp_ r + 1
  | Throws => to_int32 (replacer_size_ r) < f
  | Deadlock => f ≤ to_int32 (replacer_size_ r) ∧ cnt r f = 0 ∧ curr_size_ r = max_size_ r
  end.
Proof.
  unfold RecordAccess. destruct r as [N k ts cs ms tf rc ev nf cf]. st_norm.
  destruct (Z.ltb_spec (to_int32 N) f) as [|HN]; [done|].
  assert (Hother : ∀ (c : Z) (b : bool) g, g ≠ f →
            default 0 (<[f:=c]> rc !! g) = default 0 (rc !! g) ∧
            default false (<[f:=b]> ev !! g) = default false (ev !! g)).
  { intros c b g Hg. by rewrite !default_lookup_insert_ne. }
  assert (Hother' : ∀ (c : Z) g, g ≠ f →
            default 0 (<[f:=c]> rc !! g) = default 0 (rc !! g) ∧
            default false (ev !! g) = default false (ev !! g)).
  { intros c g Hg. by rewrite !default_lookup_insert_ne. }
  destruct (Z.eqb_spec (default 0 (rc !! f) + 1) 1) as [Hc1|Hc1].
  - assert (default 0 (rc !! f) = 0) as Hc0 by lia. rewrite Hc0. cbn [Z.eqb].
    destruct (Z.eqb_spec cs ms) as [|Hne]; [done|].
    destruct (0 + 1 =? k); [|destruct (k <? 0 + 1)]; st_norm;
      rewrite ?default_lookup_insert_eq; split_and!; auto; lia.
  - assert (default 0 (rc !! f) ≠ 0) as Hc0 by lia.
    rewrite (proj2 (Z.eqb_neq _ _) Hc0).
    destruct (default 0 (rc !! f) + 1 =? k); [|destruct (k <? default 0 (rc !! f) + 1)];
      st_norm; rewrite ?default_lookup_insert_eq; split_and!; auto; lia.
Qed.

Lemma RecordAccess_effect (r r' : LRUKReplacer) (f : frame_id_t) :
  RecordAccess r f = Done r' →
  f ≤ to_int32 (replacer_size_ r) ∧
  cnt r' f = cnt r f + 1 ∧
  (∀ g, g ≠ f → cnt r' g = cnt r g ∧ evictable r' g = evictable r g) ∧
  evictable r' f = (if cnt r f =? 0 then true else evictable r f) ∧
  curr_size_ r' = (if cnt r f =? 0 then curr_size_ r + 1 else curr_size_ r) ∧
  (cnt r f = 0 → curr_size_ r ≠ max_size_ r) ∧
  max_size_ r' = max_size_ r ∧ replacer_size_ r' = replacer_size_ r ∧
  k_ r' = k_ r ∧ current_timestamp_ r' = current_timestamp_ r + 1.
Proof. intros H. pose proof (RecordAccess_effect_match r f) as E. by rewrite H in E. Qed.

Lemma RecordAccess_returns (r : LRUKReplacer) (f : frame_id_t) :
  f ≤ to_int32 (replacer_size_ r) → (cnt r f ≠ 0 ∨ curr_size_ r ≠ max_size_ r) →
  ∃ r', RecordAccess r f = Done r'.
Proof.
  intros Hf Hc. pose proof (RecordAccess_effect_match r f) as E.
  destruct (RecordAccess r f) as [r'| |]; [by exists r'|lia|].
  destruct E as (_ & ? & ?). destruct Hc; done.
Qed.

Lemma SetEvictable_effect (r : LRUKReplacer) (f : frame_id_t) (b : bool) :
  (∀ g, cnt (SetEvictable r f b) g = cnt r g) ∧
  (∀ g, g ≠ f → evictable (SetEvictable r f b) g = evictable r g) ∧
  evictable (SetEvictable r f b) f = (if cnt r f =? 0 then evictable r f else b) ∧
  replacer_size_ (SetEvictable r f b) = replacer_size_ r ∧
  k_ (SetEvictable r f b) = k_ r ∧
  (cnt r f = 0 → SetEvictable r f b = r) ∧
  (cnt r f ≠ 0 → evictable r f = b →
   curr_size_ (SetEvictable r f b) = curr_size_ r ∧
   max_size_ (SetEvictable r f b) = max_size_ r) ∧
  (cnt r f ≠ 0 → evictable r f = true → b = false →
   curr_size_ (SetEvictable r f b) = size_t_dec (curr_size_ r) ∧
   max_size_ (SetEvictable r f b) = size_t_dec (max_size_ r)) ∧
  (cnt r f ≠ 0 → evictable r f = false → b = true →
   curr_size_ (SetEvictable r f b) = curr_size_ r + 1 ∧
   max_size_ (SetEvictable r f b) = max_size_ r + 1).
Proof.
  unfold SetEvictable. destruct r as [N k ts cs ms tf rc ev nf cf]. st_norm.
  destruct (Z.eqb_spec (default 0 (rc !! f)) 0) as [Hc|Hc]; st_norm.
  - by split_and!.
  - destruct (default false (ev !! f)) eqn:Hev, b; cbn [andb negb]; st_norm;
      rewrite ?default_lookup_insert_eq; split_and!; try done;
      intros; by rewrite ?default_lookup_insert_ne.
Qed.

Lemma forget_effect (f : frame_id_t) (r : LRUKReplacer) :
  cnt (forget f r) f = 0 ∧
  (∀ g, g ≠ f → cnt (forget f r) g = cnt r g) ∧
  (∀ g, evictable (forget f r) g = evictable r g) ∧
  curr_size_ (forget f r) = size_t_dec (curr_size_ r) ∧
  max_size_ (forget f r) = max_size_ r ∧
  replacer_size_ (forget f r) = replacer_size_ r ∧ k_ (forget f r) = k_ r.
Proof.
  destruct r as [N k ts cs ms tf rc ev nf cf]. st_norm.
  rewrite default_lookup_insert_eq. split_and!; try done.
  intros g Hg. by rewrite default_lookup_insert_ne.
Qed.

Lemma Evict_effect (r r' : LRUKReplacer) (f : frame_id_t) :
  Evict r = (Some f, r') →
  evictable r f = true ∧ f ∈ tracked_frames r ∧
  cnt r' f = 0 ∧
  (∀ g, g ≠ f → cnt r' g = cnt r g) ∧
  (∀ g, evictable r' g = evictable r g) ∧
  curr_size_ r ≠ 0 ∧ curr_size_ r' = curr_size_ r - 1 ∧
  max_size_ r' = max_size_ r ∧
  replacer_size_ r' = replacer_size_ r ∧ k_ r' = k_ r.
Proof.
  unfold Evict, Size. destruct (Z.eqb_spec (curr_size_ r) 0) as [|Hs]; [done|].
  assert (size_t_dec (curr_size_ r) = curr_size_ r - 1) as Hdec.
  { unfold size_t_dec. by rewrite (proj2 (Z.eqb_neq _ _) Hs). }
  destruct (List.find (evictable r) (rev (new_frame_ r))) as [g|] eqn:Hfind.
  - intros [= <- <-]. apply find_Some_split in Hfind as (l1 & l2 & Hrev & Hev & _).
    assert (g ∈ new_frame_ r) as Hin.
    { rewrite list_elem_of_In, in_rev, Hrev, <- list_elem_of_In. set_solver. }
    destruct (forget_effect g (set_new_frame (list_remove g (new_frame_ r)) r))
      as (H1 & H2 & H3 & H4 & H5 & H6 & H7).
    split_and!; try done. unfold tracked_frames. apply elem_of_app. by left.
  - destruct (List.find (λ e, evictable r e.1) (cache_frame_ r)) as [e|] eqn:Hfc; [|done].
    intros [= <- <-]. apply find_Some_split in Hfc as (l1 & l2 & Hc & Hev & _).
    assert (e.1 ∈ (cache_frame_ r).*1) as Hin.
    { apply list_elem_of_fmap_2. rewrite Hc. set_solver. }
    destruct (forget_effect e.1 (set_cache_frame (cache_erase e.1 (cache_frame_ r)) r))
      as (H1 & H2 & H3 & H4 & H5 & H6 & H7).
    split_and!; try done. unfold tracked_frames. apply elem_of_app. by right.
Qed.

Lemma Evict_None (r r' : LRUKReplacer) : Evict r = (None, r') → r' = r.
Proof.
  unfold Evict. destruct (Size r =? 0); [by intros [= <-]|].
  destruct (List.find _ (rev _)); [done|]. destruct (List.find _ _); [done|].
  by intros [= <-].
Qed.

Lemma Remove_effect_match (r : LRUKReplacer) (f : frame_id_t) :
  match Remove r f with
  | Done r' =>
      f ≤ to_int32 (replacer_size_ r) ∧
      ((cnt r f = 0 ∧ r' = r) ∨
       (cnt r f ≠ 0 ∧ evictable r f = true ∧
        cnt r' f = 0 ∧
        (∀ g, g ≠ f → cnt r' g = cnt r g) ∧
        (∀ g, evictable r' g = evictable r g) ∧
        curr_size_ r' = size_t_dec (curr_size_ r) ∧
        max_size_ r' = max_size_ r ∧
        replacer_size_ r' = replacer_size_ r ∧ k_ r' = k_ r))
  | Throws => to_int32 (replacer_size_ r) < f ∨ (cnt r f ≠ 0 ∧ evictable r f = false)
  | Deadlock => False
  end.
Proof.
  unfold Remove. destruct (Z.ltb_spec (to_int32 (replacer_size_ r)) f) as [|HN]; [by left|].
  destruct (Z.eqb_spec (cnt r f) 0) as [Hc|Hc]; [by split; [|left]|].
  destruct (evictable r f) eqn:Hev; cbn [negb]; [|by right].
  destruct (cnt r f <? k_ r).
  - destruct (forget_effect f (set_new_frame (list_remove f (new_frame_ r)) r))
      as (H1 & H2 & H3 & H4 & H5 & H6 & H7).
    split; [done|]. right. by split_and!.
  - destruct (forget_effect f (set_cache_frame (cache_erase f (cache_frame_ r)) r))
      as (H1 & H2 & H3 & H4 & H5 & H6 & H7).
    split; [done|]. right. by split_and!.
Qed.

Lemma Remove_effect (r r' : LRUKReplacer) (f : frame_id_t) :
  Remove r f = Done r' →
  f ≤ to_int32 (replacer_size_ r) ∧
  ((cnt r f = 0 ∧ r' = r) ∨
   (cnt r f ≠ 0 ∧ evictable r f = true ∧
    cnt r' f = 0 ∧
    (∀ g, g ≠ f → cnt r' g = cnt r g) ∧
    (∀ g, evictable r' g = evictable r g) ∧
    curr_size_ r' = size_t_dec (curr_size_ r) ∧
    max_size_ r' = max_size_ r ∧
    replacer_size_ r' = replacer_size_ r ∧ k_ r' = k_ r)).
Proof. intros H. pose proof (Remove_effect_match r f) as E. by rewrite H in E. Qed.

(** The number of tracked frames, from the access counts. *)
Lemma tracked_length_same (r r' : LRUKReplacer) :
  Inv r → Inv r' → (∀ g, 0 < cnt r' g ↔ 0 < cnt r g) →
  length (tracked_frames r') = length (tracked_frames r).
Proof.
  intros I I' H. apply Permutation_length, NoDup_Permutation; try by apply tracked_NoDup.
  intros g. by rewrite !tracked_iff.
Qed.

Lemma tracked_length_add (r r' : LRUKReplacer) (f : frame_id_t) :
  Inv r → Inv r' → cnt r f = 0 → (∀ g, 0 < cnt r' g ↔ g = f ∨ 0 < cnt r g) →
  length (tracked_frames r') = S (length (tracked_frames r)).
Proof.
  intros I I' Hf H.
  change (S (length (tracked_frames r))) with (length (f :: tracked_frames r)).
  apply Permutation_length, NoDup_Permutation.
  - by apply tracked_NoDup.
  - apply NoDup_cons. split; [|by apply tracked_NoDup]. rewrite tracked_iff by done. lia.
  - intros g. rewrite elem_of_cons, !tracked_iff by done. apply H.
Qed.

Lemma evictable_Size_pos (r : LRUKReplacer) (f : frame_id_t) :
  Inv r → cnt r f ≠ 0 → evictable r f = true → 0 < Size r.
Proof.
  intros I Hc Hev. pose proof (inv_cnt r I f) as Hc0.
  pose proof (inv_size r I) as Hs. unfold Size.
  destruct (Z.eq_dec (curr_size_ r) 0) as [Hz|]; [|lia].
  exfalso. apply (proj1 (Size_zero_iff r I) Hz f). split; [lia|done].
Qed.

Lemma range_length (n : Z) (l : list Z) :
  NoDup l → (∀ x, x ∈ l → 0 ≤ x < n) → Z.of_nat (length l) ≤ Z.max 0 n.
Proof.
  intros Hnd Hin.
  assert (l ⊆+ (Z.of_nat <$> seq 0 (Z.to_nat n))) as Hsub.
  { apply NoDup_submseteq; [done|]. intros x Hx. apply Hin in Hx.
    apply list_elem_of_fmap. exists (Z.to_nat x). split; [lia|].
    apply elem_of_seq. lia. }
  apply submseteq_length in Hsub. rewrite length_fmap, length_seq in Hsub. lia.
Qed.

(** *** Runs over the frames of the pool

    The states reached from [LRUKReplacer(n, k)] when [RecordAccess] is
    called with frame identifiers of the pool, [0 <= f < n], only. *)
Inductive valid_run (n k : Z) : LRUKReplacer → Prop :=
| valid_init : 0 ≤ n → 0 < k → valid_run n k (init n k)
| valid_RecordAccess r f r' :
    valid_run n k r → 0 ≤ f < n → RecordAccess r f = Done r' → valid_run n k r'
| valid_SetEvictable r f b : valid_run n k r → valid_run n k (SetEvictable r f b)
| valid_Evict r : valid_run n k r → valid_run n k (Evict r).2
| valid_Remove r f r' : valid_run n k r → Remove r f = Done r' → valid_run n k r'.

(** The room that [max_size_] leaves over [curr_size_] is the number of
    frames of the pool that are not tracked. *)
Record Balanced (n : Z) (r : LRUKReplacer) : Prop := mkBalanced {
  bal_inv : Inv r;
  bal_n : 0 ≤ n;
  bal_size : replacer_size_ r = n;
  bal_range : ∀ f, 0 < cnt r f → 0 ≤ f < n;
  bal_room : max_size_ r - curr_size_ r = n - Z.of_nat (length (tracked_frames r))
}.

Lemma Balanced_tracked_le n r : Balanced n r → Z.of_nat (length (tracked_frames r)) ≤ n.
Proof.
  intros [I Hn _ Hr _].
  pose proof (range_length n (tracked_frames r) (tracked_NoDup r I)) as H.
  rewrite Z.max_r in H by done. apply H. intros x Hx. apply Hr. by apply tracked_iff.
Qed.

Lemma Balanced_untracked_lt n r f :
  Balanced n r → cnt r f = 0 → 0 ≤ f < n → Z.of_nat (length (tracked_frames r)) < n.
Proof.
  intros [I Hn _ Hr _] Hc Hf.
  pose proof (range_length n (f :: tracked_frames r)) as H.
  rewrite Z.max_r in H by done. cbn [length] in H.
  assert (f ∉ tracked_frames r) as Hnot by (rewrite tracked_iff by done; lia).
  assert (NoDup (f :: tracked_frames r)) as Hnd
    by (apply NoDup_cons; split; [done|by apply tracked_NoDup]).
  specialize (H Hnd). cut (Z.of_nat (S (length (tracked_frames r))) ≤ n); [lia|].
  apply H. intros x [->|Hx]%elem_of_cons; [done|]. apply Hr. by apply tracked_iff.
Qed.

Lemma Balanced_init n k : 0 ≤ n → 0 < k → Balanced n (init n k).
Proof.
  intros Hn Hk. constructor; [by apply Inv_init|done|done| |].
  - intros f. unfold cnt, init. cbn. rewrite lookup_empty. cbn. lia.
  - unfold tracked_frames, init. cbn. lia.
Qed.

Lemma Balanced_RecordAccess n r f r' :
  Balanced n r → 0 ≤ f < n → RecordAccess r f = Done r' → Balanced n r'.
Proof.
  intros B Hf Hra. pose proof (Inv_RecordAccess r f r' (bal_inv n r B) Hra) as I'.
  destruct B as [I Hn Hsz Hr Hroom].
  apply RecordAccess_effect in Hra
    as (_ & Hcf & Hother & _ & Hcurr & _ & Hmax & Hsz' & _ & _).
  pose proof (inv_cnt r I f) as Hc0.
  constructor; [done|done|congruence| |].
  - intros g Hg. destruct (decide (g = f)) as [->|Hne]; [done|].
    apply Hr. destruct (Hother g Hne) as [<- _]. done.
  - destruct (Z.eqb_spec (cnt r f) 0) as [Hz|Hz].
    + rewrite (tracked_length_add r r' f I I' Hz); [lia|].
      intros g. destruct (decide (g = f)) as [->|Hne]; [lia|].
      destruct (Hother g Hne) as [-> _]. split; [by right|by intros [?|?]].
    + rewrite (tracked_length_same r r' I I'); [lia|].
      intros g. destruct (decide (g = f)) as [->|Hne]; [lia|].
      by destruct (Hother g Hne) as [-> _].
Qed.

Lemma Balanced_SetEvictable n r f b : Balanced n r → Balanced n (SetEvictable r f b).
Proof.
  intros B. pose proof (Balanced_tracked_le n r B) as Hle.
  destruct B as [I Hn Hsz Hr Hroom].
  pose proof (Inv_SetEvictable r f b I) as I'.
  destruct (SetEvictable_effect r f b)
    as (Hcnt & _ & _ & Hsz' & _ & Hun & Hsame & Hoff & Hon).
  constructor; [done|done|congruence| |].
  - intros g. rewrite Hcnt. apply Hr.
  - rewrite (tracked_length_same r _ I I') by (intros g; by rewrite Hcnt).
    destruct (Z.eq_dec (cnt r f) 0) as [Hz|Hz]; [by rewrite (Hun Hz)|].
    destruct (evictable r f) eqn:Hev, b.
    + destruct (Hsame Hz eq_refl) as [-> ->]. done.
    + destruct (Hoff Hz eq_refl eq_refl) as [-> ->].
      pose proof (evictable_Size_pos r f I Hz Hev) as Hpos. unfold Size in Hpos.
      unfold size_t_dec.
      destruct (Z.eqb_spec (curr_size_ r) 0); [lia|].
      destruct (Z.eqb_spec (max_size_ r) 0); lia.
    + destruct (Hon Hz eq_refl eq_refl) as [-> ->]. lia.
    + destruct (Hsame Hz eq_refl) as [-> ->]. done.
Qed.

Lemma tracked_length_drop (r r' : LRUKReplacer) (f : frame_id_t) :
  Inv r → Inv r' → cnt r f ≠ 0 → cnt r' f = 0 → (∀ g, g ≠ f → cnt r' g = cnt r g) →
  length (tracked_frames r) = S (length (tracked_frames r')).
Proof.
  intros I I' Hf Hf' Hother. pose proof (inv_cnt r I f).
  apply (tracked_length_add r' r f I' I Hf').
  intros g. destruct (decide (g = f)) as [->|Hne]; [intuition lia|].
  rewrite (Hother g Hne). split; [by right|by intros [?|?]].
Qed.

Lemma Balanced_Evict n r : Balanced n r → Balanced n (Evict r).2.
Proof.
  intros B. destruct (Evict r) as [[f|] r'] eqn:He; cbn [snd].
  - destruct B as [I Hn Hsz Hr Hroom].
    pose proof (Inv_Evict r I) as I'. rewrite He in I'. cbn [snd] in I'.
    apply Evict_effect in He
      as (Hev & Hin & Hcf & Hother & _ & Hnz & Hcurr & Hmax & Hsz' & _).
    assert (cnt r f ≠ 0) as Hc by (apply tracked_iff in Hin; [lia|done]).
    constructor; [done|done|congruence| |].
    + intros g Hg. destruct (decide (g = f)) as [->|Hne]; [lia|].
      apply Hr. by rewrite <- (Hother g Hne).
    + rewrite (tracked_length_drop r r' f I I' Hc Hcf Hother) in Hroom. lia.
  - apply Evict_None in He. by subst.
Qed.

Lemma Balanced_Remove n r f r' : Balanced n r → Remove r f = Done r' → Balanced n r'.
Proof.
  intros B Hrm. pose proof (Inv_Remove r f r' (bal_inv n r B) Hrm) as I'.
  destruct B as [I Hn Hsz Hr Hroom].
  apply Remove_effect in Hrm as [_ [[_ ->]|Hrm]]; [by constructor|].
  destruct Hrm as (Hc & Hev & Hcf & Hother & _ & Hcurr & Hmax & Hsz' & _).
  pose proof (evictable_Size_pos r f I Hc Hev) as Hpos. unfold Size in Hpos.
  constructor; [done|done|congruence| |].
  - intros g Hg. destruct (decide (g = f)) as [->|Hne]; [lia|].
    apply Hr. by rewrite <- (Hother g Hne).
  - rewrite (tracked_length_drop r r' f I I' Hc Hcf Hother) in Hroom.
    rewrite Hcurr, Hmax. unfold size_t_dec. destruct (Z.eqb_spec (curr_size_ r) 0); lia.
Qed.

Lemma valid_run_Balanced n k r : valid_run n k r → Balanced n r.
Proof.
  induction 1.
  - by apply Balanced_init.
  - by eapply Balanced_RecordAccess.
  - by apply Balanced_SetEvictable.
  - by apply Balanced_Evict.
  - by eapply Balanced_Remove.
Qed.

Lemma valid_run_reachable n k r : valid_run n k r → reachable r.
Proof.
  induction 1.
  - by apply reach_init.
  - by eapply reach_RecordAccess.
  - by apply reach_SetEvictable.
  - by apply reach_Evict.
  - by eapply reach_Remove.
Qed.

Lemma Balanced_RecordAccess_returns n r f :
  Balanced n r → n < 2 ^ 31 → 0 ≤ f < n → ∃ r', RecordAccess r f = Done r'.
Proof.
  intros B Hn Hf.
  apply RecordAccess_returns; [rewrite (bal_size n r B), to_int32_id; lia|].
  destruct (Z.eq_dec (cnt r f) 0) as [Hz|Hz]; [right|by left].
  pose proof (Balanced_untracked_lt n r f B Hz Hf). pose proof (bal_room n r B). lia.
Qed.

(** X1.  In every state the replacer can reach, the tracked frames are
    listed once each, a frame is tracked exactly when it has an access on
    record, and [Size] is the number of tracked frames that are evictable. *)
Theorem Size_is_number_of_evictable_frames (r : LRUKReplacer) :
  reachable r →
  NoDup (tracked_frames r) ∧
  (∀ f, f ∈ tracked_frames r ↔ 0 < cnt r f) ∧
  Size r = Z.of_nat (length (filter (λ f, evictable r f = true) (tracked_frames r))).
Proof.
  intros I%reachable_Inv. split_and!.
  - by apply tracked_NoDup.
  - intros f. by apply tracked_iff.
  - apply (inv_size r I).
Qed.

Lemma Size_is_number_of_evictable_frames_witness :
  NoDup (tracked_frames scenario3) ∧
  (∀ f, f ∈ tracked_frames scenario3 ↔ 0 < cnt scenario3 f) ∧
  Size scenario3
  = Z.of_nat (length (filter (λ f, evictable scenario3 f = true) (tracked_frames scenario3))).
Proof. exact (Size_is_number_of_evictable_frames scenario3 scenario3_reachable). Defined.

(** X2.  In every reachable state a frame keeps the times of its last
    accesses, at most [k] of them and none later than the current
    timestamp; it is in [new_frame_] exactly while it has fewer than [k]
    accesses on record and in [cache_frame_] from the [k]-th on, there
    with the oldest time it keeps. *)
Theorem history_keeps_last_k_accesses (r : LRUKReplacer) :
  reachable r →
  ∀ f,
    Z.of_nat (length (history r f)) = Z.min (cnt r f) (k_ r) ∧
    (∀ t, t ∈ history r f → t ≤ current_timestamp_ r) ∧
    (f ∈ new_frame_ r ↔ 0 < cnt r f < k_ r) ∧
    (f ∈ (cache_frame_ r).*1 ↔ k_ r ≤ cnt r f) ∧
    (∀ t, (f, t) ∈ cache_frame_ r → t = first_access r f).
Proof.
  intros I%reachable_Inv f. split_and!.
  - apply (inv_len r I).
  - apply (inv_ts r I).
  - apply (inv_new_iff r I).
  - apply (inv_cache_iff r I).
  - apply (inv_cache_time r I).
Qed.

Lemma history_keeps_last_k_accesses_witness :
  Z.of_nat (length (history scenario3 0)) = Z.min (cnt scenario3 0) (k_ scenario3) ∧
  (∀ t, t ∈ history scenario3 0 → t ≤ current_timestamp_ scenario3) ∧
  (0 ∈ new_frame_ scenario3 ↔ 0 < cnt scenario3 0 < k_ scenario3) ∧
  (0 ∈ (cache_frame_ scenario3).*1 ↔ k_ scenario3 ≤ cnt scenario3 0) ∧
  (∀ t, (0, t) ∈ cache_frame_ scenario3 → t = first_access scenario3 0).
Proof. exact (history_keeps_last_k_accesses scenario3 scenario3_reachable 0). Defined.

(** X3.  [SetEvictable] in a reachable state: on a frame without access on
    record it changes nothing; on a tracked frame it sets the flag, leaves
    the other frames alone, and moves [Size] by the change of the flag. *)
Theorem SetEvictable_moves_Size (r : LRUKReplacer) (f : frame_id_t) (b : bool) :
  reachable r →
  (cnt r f = 0 → SetEvictable r f b = r) ∧
  (0 < cnt r f →
   evictable (SetEvictable r f b) f = b ∧
   (∀ g, g ≠ f → evictable (SetEvictable r f b) g = evictable r g) ∧
   (∀ g, cnt (SetEvictable r f b) g = cnt r g) ∧
   Size (SetEvictable r f b)
   = Size r + (if b then 1 else 0) - (if evictable r f then 1 else 0)).
Proof.
  intros I%reachable_Inv.
  destruct (SetEvictable_effect r f b)
    as (Hcnt & Hoth & Hf & _ & _ & Hun & Hsame & Hoff & Hon).
  split; [done|]. intros Hc. assert (cnt r f ≠ 0) as Hz by lia.
  rewrite (proj2 (Z.eqb_neq _ _) Hz) in Hf. split_and!; try done.
  unfold Size. destruct (evictable r f) eqn:Hev, b.
  - destruct (Hsame Hz eq_refl) as [-> _]. lia.
  - destruct (Hoff Hz eq_refl eq_refl) as [-> _].
    pose proof (evictable_Size_pos r f I Hz Hev) as Hpos. unfold Size in Hpos.
    unfold size_t_dec. destruct (Z.eqb_spec (curr_size_ r) 0); lia.
  - destruct (Hon Hz eq_refl eq_refl) as [-> _]. lia.
  - destruct (Hsame Hz eq_refl) as [-> _]. lia.
Qed.

Lemma SetEvictable_moves_Size_witness :
  evictable (SetEvictable scenario3 1 false) 1 = false ∧
  Size (SetEvictable scenario3 1 false) = Size scenario3 + 0 - 1.
Proof.
  pose proof (proj2 (SetEvictable_moves_Size scenario3 1 false scenario3_reachable)
                ltac:(vm_compute; reflexivity)) as (H1 & _ & _ & H2).
  split; [exact H1|exact H2].
Defined.

(** X4.  [Remove] in a reachable state, for a frame identifier that passes
    the range check, which compares it with [replacer_size_] taken as a
    [frame_id_t]: a frame without access on record is left alone; a
    tracked frame that is not evictable makes the call throw; a tracked
    evictable frame is forgotten, [Size] drops by one and the other frames
    keep their counts and flags. *)
Theorem Remove_forgets_evictable_frame (r : LRUKReplacer) (f : frame_id_t) :
  reachable r → f ≤ to_int32 (replacer_size_ r) →
  (cnt r f = 0 → Remove r f = Done r) ∧
  (0 < cnt r f → evictable r f = false → Remove r f = Throws) ∧
  (0 < cnt r f → evictable r f = true →
   ∃ r', Remove r f = Done r' ∧
     cnt r' f = 0 ∧ (f ∉ tracked_frames r') ∧ Size r' = Size r - 1 ∧
     (∀ g, g ≠ f → cnt r' g = cnt r g ∧ evictable r' g = evictable r g)).
Proof.
  intros I%reachable_Inv Hf.
  pose proof (Remove_effect_match r f) as E.
  pose proof (λ r', Inv_Remove r f r' I) as Hinv.
  split_and!.
  - intros Hc. destruct (Remove r f) as [r'| |].
    + destruct E as [_ [[_ ->]|[? _]]]; done.
    + destruct E as [?|[? _]]; [lia|done].
    + done.
  - intros Hc Hev. destruct (Remove r f) as [r'| |]; [|done|done].
    destruct E as [_ [[? _]|(_ & ? & _)]]; [lia|congruence].
  - intros Hc Hev. destruct (Remove r f) as [r'| |].
    + exists r'. split; [done|]. destruct E as [_ [[? _]|E]]; [lia|].
      destruct E as (Hz & _ & Hcf & Hoth & Hevs & Hcurr & _).
      specialize (Hinv r' eq_refl).
      split_and!; try done.
      * rewrite tracked_iff by done. lia.
      * pose proof (evictable_Size_pos r f I Hz Hev) as Hpos. unfold Size in *.
        rewrite Hcurr. unfold size_t_dec. destruct (Z.eqb_spec (curr_size_ r) 0); lia.
      * intros g Hg. split; [by apply Hoth|apply Hevs].
    + destruct E as [?|[_ ?]]; [lia|congruence].
    + done.
Qed.

Lemma Remove_forgets_evictable_frame_witness :
  ∃ r', Remove scenario3 1 = Done r' ∧
     cnt r' 1 = 0 ∧ (1 ∉ tracked_frames r') ∧ Size r' = Size scenario3 - 1 ∧
     (∀ g, g ≠ 1 → cnt r' g = cnt scenario3 g ∧ evictable r' g = evictable scenario3 g).
Proof.
  exact (proj2 (proj2 (Remove_forgets_evictable_frame scenario3 1 scenario3_reachable
                         ltac:(vm_compute; discriminate)))
           ltac:(vm_compute; reflexivity) ltac:(vm_compute; reflexivity)).
Defined.

Lemma scenario3_valid_run : valid_run 7 2 scenario3.
Proof.
  eapply valid_RecordAccess with (f := 0);
    [eapply valid_RecordAccess with (f := 1);
      [eapply valid_RecordAccess with (f := 0);
        [apply (valid_init 7 2); lia | lia | vm_compute; reflexivity]
      | lia | vm_compute; reflexivity]
    | lia | vm_compute; reflexivity].
Defined.

(** X5.  From [LRUKReplacer(n, k)] with [n] below 2^31, so that the
    [frame_id_t] that the range check makes of [replacer_size_] is [n], and
    as long as [RecordAccess] is called with frame identifiers of the pool
    only, [RecordAccess] on such a frame always returns: it does not throw,
    and it does not reach the call of [Evict] under the latch it holds,
    because [max_size_ - curr_size_] is the number of frames of the pool
    without access on record, which is positive while the accessed frame is
    one of them. *)
Theorem RecordAccess_returns_within_pool (n k : Z) (r : LRUKReplacer) (f : frame_id_t) :
  valid_run n k r → n < 2 ^ 31 → 0 ≤ f < n →
  (∃ r', RecordAccess r f = Done r') ∧
  max_size_ r - curr_size_ r = n - Z.of_nat (length (tracked_frames r)) ∧
  (∀ g, 0 < cnt r g → 0 ≤ g < n).
Proof.
  intros B%valid_run_Balanced Hn Hf. split_and!.
  - by eapply Balanced_RecordAccess_returns.
  - apply (bal_room n r B).
  - apply (bal_range n r B).
Qed.

Lemma RecordAccess_returns_within_pool_witness :
  (∃ r', RecordAccess scenario3 5 = Done r') ∧
  max_size_ scenario3 - curr_size_ scenario3
  = 7 - Z.of_nat (length (tracked_frames scenario3)) ∧
  (∀ g, 0 < cnt scenario3 g → 0 ≤ g < 7).
Proof.
  exact (RecordAccess_returns_within_pool 7 2 scenario3 5 scenario3_valid_run
           ltac:(lia) ltac:(lia)).
Defined.

End LRUK.

(* ================================================================== *)
(** ** Buffer pool manager *)
(* ================================================================== *)
Module BPM.

Definition INVALID_PAGE_ID : Z := -1.

(** The frame metadata of [Page] and its contents. *)
Record Page : Type := mkPage {
  data_ : list Z;
  page_id_ : Z;
  pin_count_ : Z;
  is_dirty_ : bool
}.

(** The members of [BufferPoolManager] that the page operations use; the
    disk scheduler is not touched by [UnpinPage]. *)
Record BufferPoolManager : Type := mkBPM {
  pool_size_ : Z;
  next_page_id_ : Z;
  pages_ : list Page;
  page_table_ : gmap Z Z;
  replacer_ : LRUK.LRUKReplacer;
  free_list_ : list Z
}.

(** [pages_ + frame_id]: [None] when the pointer leaves the array. *)
Definition frame (s : BufferPoolManager) (frame_id : Z) : option Page :=
  if frame_id <? 0 then None else pages_ s !! Z.to_nat frame_id.

Definition set_frame (frame_id : Z) (p : Page) (s : BufferPoolManager) : BufferPoolManager :=
  mkBPM (pool_size_ s) (next_page_id_ s) (<[Z.to_nat frame_id := p]> (pages_ s))
    (page_table_ s) (replacer_ s) (free_list_ s).

Definition set_replacer (r : LRUK.LRUKReplacer) (s : BufferPoolManager) : BufferPoolManager :=
  mkBPM (pool_size_ s) (next_page_id_ s) (pages_ s) (page_table_ s) r (free_list_ s).

Definition set_is_dirty (b : bool) (p : Page) : Page :=
  mkPage (data_ p) (page_id_ p) (pin_count_ p) b.

Definition set_pin_count (n : Z) (p : Page) : Page :=
  mkPage (data_ p) (page_id_ p) n (is_dirty_ p).

(** [BufferPoolManager::UnpinPage].  The result is [None] when the frame
    read from the page table lies outside [pages_]. *)
Definition UnpinPage (s : BufferPoolManager) (page_id : Z) (is_dirty : bool)
  : option (bool * BufferPoolManager) :=
  if page_id =? INVALID_PAGE_ID then Some (false, s)
  else
    match page_table_ s !! page_id with
    | None => Some (false, s)
    | Some frame_id =>
        match frame s frame_id with
        | None => None
        | Some page =>
            let page1 := set_is_dirty (is_dirty || is_dirty_ page) page in
            let s1 := set_frame frame_id page1 s in
            if pin_count_ page1 =? 0 then Some (false, s1)
            else
              let page2 := set_pin_count (pin_count_ page1 - 1) page1 in
              let s2 := set_frame frame_id page2 s1 in
              if pin_count_ page2 =? 0
              then Some (true, set_replacer (LRUK.SetEvictable (replacer_ s2) frame_id true) s2)
              else Some (true, s2)
        end
    end.

(** A pool of one frame after [NewPage] (page 0 in frame 0) and
    [UnpinPage(0, false)]: page 0 is resident, clean and unpinned. *)
Definition unpinned_pool : BufferPoolManager :=
  {| pool_size_ := 1; next_page_id_ := 1;
     pages_ := [mkPage [] 0 0 false];
     page_table_ := {[ 0 := 0 ]};
     replacer_ :=
       match LRUK.RecordAccess (LRUK.init 1 2) 0 with
       | Done r => LRUK.SetEvictable (LRUK.SetEvictable r 0 false) 0 true
       | _ => LRUK.init 1 2
       end;
     free_list_ := [] |}.

Lemma frame_set_frame_eq s fr p q :
  frame s fr = Some q → frame (set_frame fr p s) fr = Some p.
Proof.
  unfold frame, set_frame. simpl. destruct (fr <? 0); [done|].
  intros Hq. apply list_lookup_insert_eq. by eapply lookup_lt_Some.
Qed.

Lemma frame_set_frame_ne s fr fr' p :
  0 ≤ fr → fr' ≠ fr → frame (set_frame fr p s) fr' = frame s fr'.
Proof.
  unfold frame, set_frame. simpl. intros Hfr Hne. destruct (Z.ltb_spec fr' 0); [done|].
  apply list_lookup_insert_ne. lia.
Qed.

Lemma frame_nonneg s fr p : frame s fr = Some p → 0 ≤ fr.
Proof. unfold frame. destruct (Z.ltb_spec fr 0); [done|lia]. Qed.

(** C7 as stated fails: on a resident page whose pin count is already 0,
    [UnpinPage(0, true)] returns false and yet sets the page's dirty flag. *)
Lemma UnpinPage_failure_sets_dirty_flag :
  page_table_ unpinned_pool !! 0 = Some 0 ∧
  (pin_count_ <$> frame unpinned_pool 0) = Some 0 ∧
  (is_dirty_ <$> frame unpinned_pool 0) = Some false ∧
  ∃ s', UnpinPage unpinned_pool 0 true = Some (false, s') ∧
        (is_dirty_ <$> frame s' 0) = Some true ∧ s' ≠ unpinned_pool.
Proof.
  split_and!; try reflexivity.
  eexists. split; [reflexivity|]. split; [reflexivity|].
  intros Heq. apply (f_equal (λ s, is_dirty_ <$> frame s 0)) in Heq. discriminate Heq.
Qed.

(** C7, amended.  [UnpinPage] returns false and leaves the pool as it is
    when the page is unmapped (or the identifier is invalid); when the page
    is resident with pin count 0 it returns false and only ORs the dirty
    argument into the page's dirty flag; otherwise it returns true, ORs the
    dirty argument into the dirty flag, decrements the pin count, leaves the
    other frames, the page table and the free list alone, and calls
    [SetEvictable(frame, true)] on the replacer exactly when the pin count
    reached 0, which makes a tracked frame evictable. *)
Theorem UnpinPage_amended (s : BufferPoolManager) (page_id : Z) (is_dirty : bool) :
  ((page_id = INVALID_PAGE_ID ∨ page_table_ s !! page_id = None) →
   UnpinPage s page_id is_dirty = Some (false, s)) ∧
  (∀ fr p,
     page_id ≠ INVALID_PAGE_ID → page_table_ s !! page_id = Some fr →
     frame s fr = Some p →
     let p1 := set_is_dirty (is_dirty || is_dirty_ p) p in
     (pin_count_ p = 0 →
      UnpinPage s page_id is_dirty = Some (false, set_frame fr p1 s)) ∧
     (pin_count_ p ≠ 0 →
      ∃ s', UnpinPage s page_id is_dirty = Some (true, s') ∧
        frame s' fr = Some (set_pin_count (pin_count_ p - 1) p1) ∧
        (∀ fr', fr' ≠ fr → frame s' fr' = frame s fr') ∧
        page_table_ s' = page_table_ s ∧ free_list_ s' = free_list_ s ∧
        next_page_id_ s' = next_page_id_ s ∧
        replacer_ s' = (if pin_count_ p - 1 =? 0
                        then LRUK.SetEvictable (replacer_ s) fr true
                        else replacer_ s) ∧
        (pin_count_ p - 1 = 0 → LRUK.cnt (replacer_ s) fr ≠ 0 →
         LRUK.evictable (replacer_ s') fr = true))).
Proof.
  split.
  - unfold UnpinPage. intros [->|Hnone]; [done|].
    destruct (page_id =? INVALID_PAGE_ID); [done|]. by rewrite Hnone.
  - intros fr p Hvalid Hmap Hfr p1. unfold UnpinPage.
    destruct (Z.eqb_spec page_id INVALID_PAGE_ID); [done|].
    rewrite Hmap, Hfr. fold p1. change (pin_count_ p1) with (pin_count_ p).
    pose proof (frame_nonneg _ _ _ Hfr) as Hnn.
    split; intros Hpin.
    + by rewrite (proj2 (Z.eqb_eq _ _) Hpin).
    + rewrite (proj2 (Z.eqb_neq _ _) Hpin).
      change (pin_count_ (set_pin_count (pin_count_ p - 1) p1)) with (pin_count_ p - 1).
      assert (Hf2 : frame (set_frame fr (set_pin_count (pin_count_ p - 1) p1)
                            (set_frame fr p1 s)) fr
                    = Some (set_pin_count (pin_count_ p - 1) p1)).
      { eapply frame_set_frame_eq. by eapply frame_set_frame_eq. }
      assert (Hother : ∀ fr', fr' ≠ fr →
                frame (set_frame fr (set_pin_count (pin_count_ p - 1) p1)
                         (set_frame fr p1 s)) fr' = frame s fr').
      { intros fr' Hne. by rewrite !frame_set_frame_ne. }
      destruct (Z.eqb_spec (pin_count_ p - 1) 0) as [Hz|Hz]; eexists; (split; [reflexivity|]).
      * split_and!; try done.
        intros _ Hcnt. simpl. unfold LRUK.SetEvictable.
        rewrite (proj2 (Z.eqb_neq _ _) Hcnt).
        destruct (LRUK.evictable (replacer_ s) fr) eqn:Hev; simpl;
          unfold LRUK.evictable; simpl; by rewrite lookup_insert_eq.
      * by split_and!.
Qed.

Lemma UnpinPage_amended_witness :
  UnpinPage unpinned_pool 0 true
  = Some (false, set_frame 0 (set_is_dirty true (mkPage [] 0 0 false)) unpinned_pool).
Proof.
  exact (proj1 (proj2 (UnpinPage_amended unpinned_pool 0 true) 0 (mkPage [] 0 0 false)
                  ltac:(discriminate) eq_refl eq_refl) eq_refl).
Defined.

(** ** The other operations of the pool

    [page_id_t], [frame_id_t] and the pin count are [int]: 32 bits, two's
    complement. *)

Definition set_page_table (m : gmap Z Z) (s : BufferPoolManager) : BufferPoolManager :=
  mkBPM (pool_size_ s) (next_page_id_ s) (pages_ s) m (replacer_ s) (free_list_ s).

Definition set_free_list (l : list Z) (s : BufferPoolManager) : BufferPoolManager :=
  mkBPM (pool_size_ s) (next_page_id_ s) (pages_ s) (page_table_ s) (replacer_ s) l.

Definition set_next_page_id (v : Z) (s : BufferPoolManager) : BufferPoolManager :=
  mkBPM (pool_size_ s) v (pages_ s) (page_table_ s) (replacer_ s) (free_list_ s).

Definition INT_MAX : Z := 2 ^ 31 - 1.

(** Modelled from the spec: [Page::ResetMemory], whose class is not part
    of the sources, zeroes the buffer of the frame. *)
Definition ResetMemory (p : Page) : Page :=
  mkPage (replicate (length (data_ p)) 0) (page_id_ p) (pin_count_ p) (is_dirty_ p).

(** [std::unordered_map::emplace]: nothing if the key is there. *)
Definition emplace (key value : Z) (m : gmap Z Z) : gmap Z Z :=
  match m !! key with Some _ => m | None => <[key := value]> m end.

(** A call returns, throws or never returns; [None] where the code leaves
    the defined behaviour of C++. *)
Definition Run (A : Type) : Type := option (Outcome A).

(** The frame for a page that is not in the pool: the back of the free
    list, or else the frame the replacer evicts; no frame when there is
    neither. *)
Definition pick_frame (s : BufferPoolManager) : option Z * BufferPoolManager :=
  match last (free_list_ s) with
  | Some frame_id => (Some frame_id, set_free_list (removelast (free_list_ s)) s)
  | None =>
      let '(evicted, r) := LRUK.Evict (replacer_ s) in
      (evicted, set_replacer r s)
  end.

Section Pool.

(** Modelled from the spec: the disk manager behind the scheduler, by what
    the pages on disk hold.  A request scheduled with [Schedule] is served
    before [future.get()] returns: [WritePage id data] is the disk after the
    write of page [id], [ReadPage id] the bytes a read of page [id] puts
    into the buffer. *)
Variable D : Type.
Variable WritePage : Z → list Z → D → D.
Variable ReadPage : Z → D → list Z.

(** The write of a dirty page before its frame is used again. *)
Definition write_back (page : Page) (d : D) : Page * D :=
  if is_dirty_ page
  then (set_is_dirty false page, WritePage (page_id_ page) (data_ page) d)
  else (page, d).

(** The statements that [NewPage] and [FetchPage] share once the frame is
    chosen and the page identifier known: the old mapping is erased, the
    new one put, the frame reset and given to the replacer as not
    evictable. *)
Definition install (s : BufferPoolManager) (frame_id page_id : Z) (page : Page)
    : Run BufferPoolManager :=
  let s := set_page_table
             (emplace page_id frame_id (delete (page_id_ page) (page_table_ s))) s in
  let page := ResetMemory (mkPage (data_ page) page_id 1 (is_dirty_ page)) in
  let s := set_frame frame_id page s in
  match LRUK.RecordAccess (replacer_ s) frame_id with
  | Done r => Some (Done (set_replacer (LRUK.SetEvictable r frame_id false) s))
  | Throws => Some Throws
  | Deadlock => Some Deadlock
  end.

(** [NewPage]: the page identifier stored through [page_id] and the frame
    of the page returned, or [None] for [nullptr].  [AllocatePage] is
    [next_page_id_++] on an atomic [int], which wraps. *)
Definition NewPage (s : BufferPoolManager) (d : D)
    : Run (option (Z * Z) * BufferPoolManager * D) :=
  match pick_frame s with
  | (None, s) => Some (Done (None, s, d))
  | (Some frame_id, s) =>
      page ← frame s frame_id;
      let '(page, d) := write_back page d in
      let page_id := next_page_id_ s in
      let s := set_next_page_id (to_int32 (next_page_id_ s + 1)) s in
      match install s frame_id page_id page with
      | Some (Done s) => Some (Done (Some (page_id, frame_id), s, d))
      | Some Throws => Some Throws
      | Some Deadlock => Some Deadlock
      | None => None
      end
  end.

(** [FetchPage]: the frame of the page returned, or [None] for [nullptr].
    [pin_count_ += 1] on an [int] at [INT_MAX] is undefined. *)
Definition FetchPage (s : BufferPoolManager) (d : D) (page_id : Z)
    : Run (option Z * BufferPoolManager * D) :=
  if page_id =? INVALID_PAGE_ID then Some (Done (None, s, d)) else
  match page_table_ s !! page_id with
  | Some frame_id =>
      match LRUK.RecordAccess (replacer_ s) frame_id with
      | Done r =>
          let s := set_replacer (LRUK.SetEvictable r frame_id false) s in
          page ← frame s frame_id;
          if pin_count_ page =? INT_MAX then None else
          Some (Done (Some frame_id,
                      set_frame frame_id (set_pin_count (pin_count_ page + 1) page) s, d))
      | Throws => Some Throws
      | Deadlock => Some Deadlock
      end
  | None =>
      match pick_frame s with
      | (None, s) => Some (Done (None, s, d))
      | (Some frame_id, s) =>
          page ← frame s frame_id;
          let '(page, d) := write_back page d in
          match install s frame_id page_id page with
          | Some (Done s) =>
              page ← frame s frame_id;
              let page := mkPage (ReadPage (page_id_ page) d) (page_id_ page)
                                 (pin_count_ page) (is_dirty_ page) in
              Some (Done (Some frame_id, set_frame frame_id page s, d))
          | Some Throws => Some Throws
          | Some Deadlock => Some Deadlock
          | None => None
          end
      end
  end.

(** [FlushPage] *)
Definition FlushPage (s : BufferPoolManager) (d : D) (page_id : Z)
    : option (bool * BufferPoolManager * D) :=
  if page_id =? INVALID_PAGE_ID then Some (false, s, d) else
  match page_table_ s !! page_id with
  | None => Some (false, s, d)
  | Some frame_id =>
      page ← frame s frame_id;
      Some (true, set_frame frame_id (set_is_dirty false page) s,
            WritePage (page_id_ page) (data_ page) d)
  end.

(** One round of the loop of [FlushAllPages], for the frame
    [current_size]. *)
Definition flush_frame (acc : option (BufferPoolManager * D)) (current_size : nat)
    : option (BufferPoolManager * D) :=
  '(s, d) ← acc;
  page ← frame s (Z.of_nat current_size);
  if page_id_ page =? INVALID_PAGE_ID then Some (s, d)
  else Some (set_frame (Z.of_nat current_size) (set_is_dirty false page) s,
             WritePage (page_id_ page) (data_ page) d).

(** [FlushAllPages] *)
Definition FlushAllPages (s : BufferPoolManager) (d : D) : option (BufferPoolManager * D) :=
  foldl flush_frame (Some (s, d)) (seq 0 (Z.to_nat (pool_size_ s))).

(** [DeletePage]; [DeallocatePage] does nothing. *)
Definition DeletePage (s : BufferPoolManager) (page_id : Z) : Run (bool * BufferPoolManager) :=
  if page_id =? INVALID_PAGE_ID then Some (Done (true, s)) else
  match page_table_ s !! page_id with
  | None => Some (Done (true, s))
  | Some frame_id =>
      page ← frame s frame_id;
      if 0 <? pin_count_ page then Some (Done (false, s)) else
      let s := set_page_table (delete page_id (page_table_ s)) s in
      let s := set_free_list (free_list_ s ++ [frame_id]) s in
      match LRUK.Remove (replacer_ s) frame_id with
      | Done r =>
          let s := set_replacer r s in
          let page := ResetMemory page in
          Some (Done (true, set_frame frame_id
                              (mkPage (data_ page) INVALID_PAGE_ID 0 false) s))
      | Throws => Some Throws
      | Deadlock => Some Deadlock
      end
  end.

(** Modelled from the spec: a [Page], whose class is not part of the
    sources, is constructed with a zeroed buffer of the page size, no
    page, no pin and clean. *)
Definition new_Page (page_size : nat) : Page :=
  mkPage (replicate page_size 0) INVALID_PAGE_ID 0 false.

(** The constructor: [pool_size] frames, all in the free list, each as
    [static_cast<int>(i)], and no page handed out yet. *)
Definition construct (pool_size replacer_k : Z) (page_size : nat) : BufferPoolManager :=
  mkBPM pool_size 0 (replicate (Z.to_nat pool_size) (new_Page page_size))
        ∅ (LRUK.init pool_size replacer_k)
        ((λ i, to_int32 (Z.of_nat i)) <$> seq 0 (Z.to_nat pool_size)).

(** ** The state of the pool

    What the pool keeps between calls: every frame is in the free list,
    untracked by the replacer and without a page, or it holds the page that
    the page table maps to it, is tracked by the replacer, and is evictable
    exactly when its pin count is 0. *)
Record wf (s : BufferPoolManager) : Prop := mkWf {
  wf_size : length (pages_ s) = Z.to_nat (pool_size_ s);
  wf_int : pool_size_ s ≤ INT_MAX;
  wf_replacer : LRUK.Balanced (pool_size_ s) (replacer_ s);
  wf_next : 0 ≤ next_page_id_ s;
  wf_free_nodup : NoDup (free_list_ s);
  wf_free : ∀ f, f ∈ free_list_ s →
      0 ≤ f < pool_size_ s ∧ LRUK.cnt (replacer_ s) f = 0 ∧
      ∃ p, frame s f = Some p ∧ page_id_ p = INVALID_PAGE_ID ∧ pin_count_ p = 0;
  wf_table : ∀ pid f, page_table_ s !! pid = Some f →
      0 ≤ pid < next_page_id_ s ∧ 0 ≤ f < pool_size_ s ∧ 0 < LRUK.cnt (replacer_ s) f ∧
      ∃ p, frame s f = Some p ∧ page_id_ p = pid ∧ 0 ≤ pin_count_ p ∧
           LRUK.evictable (replacer_ s) f = (pin_count_ p =? 0);
  wf_cover : ∀ f, 0 ≤ f < pool_size_ s →
      f ∈ free_list_ s ∨ ∃ pid, page_table_ s !! pid = Some f
}.

(** The state between the choice of the frame [f] and [install]: as [wf],
    but for the frame [f], which the replacer does not track and which is
    not in the free list; only the page it held may still be mapped to it. *)
Record wf_but (f : Z) (s : BufferPoolManager) : Prop := mkWfBut {
  wb_size : length (pages_ s) = Z.to_nat (pool_size_ s);
  wb_int : pool_size_ s ≤ INT_MAX;
  wb_replacer : LRUK.Balanced (pool_size_ s) (replacer_ s);
  wb_next : 0 ≤ next_page_id_ s;
  wb_range : 0 ≤ f < pool_size_ s;
  wb_cnt : LRUK.cnt (replacer_ s) f = 0;
  wb_free_nodup : NoDup (free_list_ s);
  wb_free : ∀ g, g ∈ free_list_ s →
      g ≠ f ∧ 0 ≤ g < pool_size_ s ∧ LRUK.cnt (replacer_ s) g = 0 ∧
      ∃ p, frame s g = Some p ∧ page_id_ p = INVALID_PAGE_ID ∧ pin_count_ p = 0;
  wb_table : ∀ pid g, page_table_ s !! pid = Some g →
      0 ≤ pid < next_page_id_ s ∧
      (g = f ∧ ∃ p, frame s f = Some p ∧ page_id_ p = pid) ∨
      (g ≠ f ∧ 0 ≤ pid < next_page_id_ s ∧ 0 ≤ g < pool_size_ s ∧
       0 < LRUK.cnt (replacer_ s) g ∧
       ∃ p, frame s g = Some p ∧ page_id_ p = pid ∧ 0 ≤ pin_count_ p ∧
            LRUK.evictable (replacer_ s) g = (pin_count_ p =? 0));
  wb_own : ∀ p g, frame s f = Some p → page_table_ s !! page_id_ p = Some g → g = f;
  wb_cover : ∀ g, 0 ≤ g < pool_size_ s → g ≠ f →
      g ∈ free_list_ s ∨ ∃ pid, page_table_ s !! pid = Some g
}.

Lemma frame_lookup (s : BufferPoolManager) (f : Z) :
  length (pages_ s) = Z.to_nat (pool_size_ s) → 0 ≤ f < pool_size_ s →
  ∃ p, frame s f = Some p.
Proof.
  intros Hlen Hf. unfold frame. destruct (Z.ltb_spec f 0); [lia|].
  apply lookup_lt_is_Some_2. lia.
Qed.

Lemma frame_set_frame (s : BufferPoolManager) (f g : Z) (p : Page) :
  0 ≤ f < Z.of_nat (length (pages_ s)) →
  frame (set_frame f p s) g = if decide (g = f) then Some p else frame s g.
Proof.
  intros Hf. case_decide as Hg.
  - subst g. unfold frame, set_frame. cbn [pages_]. destruct (Z.ltb_spec f 0); [lia|].
    apply list_lookup_insert_eq. lia.
  - apply frame_set_frame_ne; [lia|done].
Qed.

Lemma last_removelast {A} (l : list A) (x : A) :
  last l = Some x → l = removelast l ++ [x].
Proof.
  intros [l' ->]%last_Some. by rewrite removelast_last.
Qed.

(** The frame chosen for a page that is not in the pool. *)
Lemma pick_frame_spec (s : BufferPoolManager) :
  wf s →
  match pick_frame s with
  | (Some f, s1) =>
      wf_but f s1 ∧
      pool_size_ s1 = pool_size_ s ∧ next_page_id_ s1 = next_page_id_ s ∧
      pages_ s1 = pages_ s ∧ page_table_ s1 = page_table_ s ∧
      (∀ g, g ∈ free_list_ s1 ↔ g ∈ free_list_ s ∧ g ≠ f) ∧
      ∃ p, frame s f = Some p ∧ pin_count_ p = 0 ∧
        ((f ∈ free_list_ s ∧ page_id_ p = INVALID_PAGE_ID) ∨
         (free_list_ s = [] ∧ page_table_ s !! page_id_ p = Some f))
  | (None, s1) =>
      s1 = s ∧ free_list_ s = [] ∧
      ∀ f, LRUK.cnt (replacer_ s) f ≠ 0 → LRUK.evictable (replacer_ s) f = false
  end.
Proof.
  intros [Hsize Hint Hrep Hnext Hnd Hfree Htable Hcover]. unfold pick_frame.
  destruct (last (free_list_ s)) as [f|] eqn:Hlast.
  - apply last_removelast in Hlast. set (l := removelast (free_list_ s)) in *.
    rewrite Hlast in Hnd. apply NoDup_app in Hnd as (Hndl & Hnot & _).
    assert (f ∉ l) as Hfl.
    { intros Hin. apply (Hnot f Hin). apply list_elem_of_here. }
    assert (f ∈ free_list_ s) as Hfin.
    { rewrite Hlast. apply elem_of_app. right. apply list_elem_of_here. }
    destruct (Hfree f Hfin) as (Hrange & Hcnt & p & Hp & Hpid & Hpin).
    assert (∀ g, g ∈ l ↔ g ∈ free_list_ s ∧ g ≠ f) as Hl.
    { intros g. rewrite Hlast. rewrite elem_of_app, list_elem_of_singleton. split.
      - intros Hg. split; [by left|]. by intros ->.
      - by intros [[?|?] ?]. }
    split_and!; [|done..|].
    + constructor; unfold frame in *;
        cbn [pool_size_ next_page_id_ pages_ page_table_ replacer_ free_list_
             set_free_list] in *; try done.
      * intros g Hg%Hl. destruct Hg as [Hg Hne]. split; [done|]. by apply Hfree.
      * intros pid g Hpg. destruct (Htable pid g Hpg) as (Hpid' & Hg & Hc & Hrest).
        right. split; [|done]. intros ->. lia.
      * intros p0 g Hp0 Hpg. destruct (Htable _ _ Hpg) as (Hpid' & _).
        assert (p0 = p) as -> by congruence. rewrite Hpid in Hpid'.
        unfold INVALID_PAGE_ID in Hpid'. lia.
      * intros g Hg Hne. destruct (Hcover g Hg) as [Hin|Hmap]; [|by right].
        left. by apply Hl.
    + exists p. split_and!; [done|done|]. by left.
  - apply last_None in Hlast. destruct (LRUK.Evict (replacer_ s)) as [[f|] r] eqn:Hev.
    + destruct (LRUK.Evict_effect _ _ _ Hev)
        as (Hevict & Htracked & Hcnt' & Hcnto & Hevo & _ & _ & _ & Hrs & Hk).
      pose proof (LRUK.bal_inv _ _ Hrep) as Hinv.
      apply (LRUK.tracked_iff _ _ Hinv) in Htracked.
      pose proof (LRUK.bal_range _ _ Hrep f Htracked) as Hrange.
      destruct (Hcover f Hrange) as [Hin|[pid Hpid]].
      { rewrite Hlast in Hin. by apply elem_of_nil in Hin. }
      destruct (Htable pid f Hpid) as (Hpidr & _ & _ & p & Hp & Hppid & Hpin & Hpe).
      assert (pin_count_ p = 0) as Hpin0.
      { rewrite Hevict in Hpe. symmetry in Hpe. by apply Z.eqb_eq in Hpe. }
      assert (LRUK.Balanced (pool_size_ s) r) as Hrep'.
      { pose proof (LRUK.Balanced_Evict _ _ Hrep) as Hb. by rewrite Hev in Hb. }
      split_and!; [|done..| |].
      * constructor; unfold frame in *;
          cbn [pool_size_ next_page_id_ pages_ page_table_ replacer_ free_list_
               set_replacer] in *; try done.
        -- intros g Hg. rewrite Hlast in Hg. by apply elem_of_nil in Hg.
        -- intros pid0 g Hpg. destruct (Htable pid0 g Hpg)
             as (Hpid' & Hg & Hc & p0 & Hp0 & Hp0id & Hp0pin & Hp0e).
           destruct (decide (g = f)) as [->|Hne].
           ++ left. split_and!; [lia|lia|done|]. by exists p0.
           ++ right. split_and!; try done; try lia.
              { by rewrite Hcnto. }
              exists p0. split_and!; try done. by rewrite Hevo.
        -- intros p0 g Hp0 Hpg. assert (p0 = p) as -> by congruence.
           rewrite Hppid in Hpg. congruence.
        -- intros g Hg Hne. destruct (Hcover g Hg) as [Hin|Hmap]; [|by right].
           rewrite Hlast in Hin. by apply elem_of_nil in Hin.
      * intros g. cbn [free_list_ set_replacer]. rewrite Hlast.
        split; [by intros ?%elem_of_nil|]. by intros [?%elem_of_nil _].
      * exists p. split_and!; [done|done|]. right. split; [done|]. by rewrite Hppid.
    + pose proof (LRUK.Evict_None _ _ Hev) as ->. split_and!; [by destruct s|done|].
      intros f Hcnt. destruct (LRUK.evictable (replacer_ s) f) eqn:He; [|done]. exfalso.
      pose proof (LRUK.bal_inv _ _ Hrep) as Hinv.
      destruct (LRUK.Evict_spec_inv (replacer_ s) Hinv) as [Hsome _].
      destruct Hsome as (f' & r' & Hev' & _).
      { exists f. split; [|done]. pose proof (LRUK.inv_cnt _ Hinv f). lia. }
      congruence.
Qed.

(** [install] on the state [pick_frame] leaves. *)
Lemma install_spec (s1 : BufferPoolManager) (f page_id : Z) (p p' : Page) :
  wf_but f s1 → frame s1 f = Some p → page_id_ p' = page_id_ p →
  page_table_ s1 !! page_id = None → 0 ≤ page_id < next_page_id_ s1 →
  ∃ s2, install s1 f page_id p' = Some (Done s2) ∧ wf s2 ∧
    pool_size_ s2 = pool_size_ s1 ∧ next_page_id_ s2 = next_page_id_ s1 ∧
    free_list_ s2 = free_list_ s1 ∧
    page_table_ s2 = <[page_id := f]> (delete (page_id_ p) (page_table_ s1)) ∧
    frame s2 f = Some (mkPage (replicate (length (data_ p')) 0) page_id 1 (is_dirty_ p')) ∧
    (∀ g, g ≠ f → frame s2 g = frame s1 g).
Proof.
  intros [Hsize Hint Hrep Hnext Hrange Hcnt Hnd Hfree Htable Hown Hcover] Hp Hpid Hfresh Hid.
  unfold install. cbn [replacer_ set_frame set_page_table page_table_ page_id_].
  destruct (LRUK.Balanced_RecordAccess_returns _ _ f Hrep ltac:(unfold INT_MAX in Hint; lia) Hrange)
    as [r1 Hr1].
  rewrite Hr1.
  destruct (LRUK.RecordAccess_effect _ _ _ Hr1)
    as (_ & Hc1 & Ho1 & He1 & _ & _ & _ & _ & _ & _).
  pose proof (LRUK.Balanced_RecordAccess _ _ _ _ Hrep Hrange Hr1) as Hrep1.
  pose proof (LRUK.SetEvictable_effect r1 f false) as (Hc2 & Ho2 & He2 & _).
  pose proof (LRUK.Balanced_SetEvictable _ _ f false Hrep1) as Hrep2.
  set (r2 := LRUK.SetEvictable r1 f false) in *.
  assert (LRUK.cnt r2 f = 1) as Hcf by (rewrite Hc2, Hc1, Hcnt; lia).
  assert (LRUK.evictable r2 f = false) as Hef.
  { rewrite He2. rewrite Hc1, Hcnt. done. }
  assert (∀ g, g ≠ f → LRUK.cnt r2 g = LRUK.cnt (replacer_ s1) g) as Hco.
  { intros g Hg. rewrite Hc2. by apply Ho1. }
  assert (∀ g, g ≠ f → LRUK.evictable r2 g = LRUK.evictable (replacer_ s1) g) as Heo.
  { intros g Hg. rewrite Ho2 by done. by apply Ho1. }
  set (newp := ResetMemory (mkPage (data_ p') page_id 1 (is_dirty_ p'))).
  rewrite Hpid. unfold emplace.
  assert (delete (page_id_ p) (page_table_ s1) !! page_id = None) as Hdel
    by (apply lookup_delete_None; by right).
  rewrite Hdel.
  set (tbl := <[page_id := f]> (delete (page_id_ p) (page_table_ s1))).
  set (s2 := set_replacer r2 (set_frame f newp (set_page_table tbl s1))).
  assert (∀ g, frame s2 g = if decide (g = f) then Some newp else frame s1 g) as Hframes.
  { intros g. change (frame s2 g) with (frame (set_frame f newp s1) g).
    apply frame_set_frame. lia. }
  exists s2. split; [done|]. split_and!; try done.
  - constructor; cbn [pool_size_ next_page_id_ pages_ page_table_ replacer_ free_list_ s2
                      set_replacer set_frame set_page_table]; try done.
    + by rewrite length_insert.
    + intros g Hg. destruct (Hfree g Hg) as (Hne & Hgr & Hgc & pg & Hpg & Hrest).
      split_and!; try lia. { by rewrite Hco. }
      exists pg. rewrite Hframes. by rewrite decide_False.
    + intros pid g. unfold tbl. intros Hlook.
      destruct (decide (pid = page_id)) as [->|Hpne].
      * rewrite lookup_insert_eq in Hlook. injection Hlook as <-.
        split_and!; try lia. exists newp. rewrite Hframes, decide_True by done.
        split_and!; try done; by rewrite Hef.
      * rewrite lookup_insert_ne in Hlook by done.
        apply lookup_delete_Some in Hlook as [Hold Hlook].
        destruct (Htable pid g Hlook) as [(_ & -> & p0 & Hp0 & Hp0id)|Hok].
        { assert (p0 = p) as -> by congruence. congruence. }
        destruct Hok as (Hne & Hpr & Hgr & Hgc & pg & Hpg & Hpgid & Hpin & Hpe).
        split_and!; try lia. { by rewrite Hco. }
        exists pg. rewrite Hframes, decide_False by done.
        split_and!; try done; by rewrite Heo.
    + intros g Hg. destruct (decide (g = f)) as [->|Hne].
      * right. exists page_id. unfold tbl. by rewrite lookup_insert_eq.
      * destruct (Hcover g Hg Hne) as [Hin|[pid Hlook]]; [by left|]. right. exists pid.
        unfold tbl. rewrite lookup_insert_ne by congruence.
        apply lookup_delete_Some. split; [|done]. intros <-.
        by specialize (Hown p g Hp Hlook).
  - rewrite Hframes, decide_True by done. done.
  - intros g Hg. rewrite Hframes. by rewrite decide_False.
Qed.

Lemma wf_but_next (f : Z) (s : BufferPoolManager) :
  wf_but f s → wf_but f (set_next_page_id (next_page_id_ s + 1) s).
Proof.
  intros [Hsize Hint Hrep Hnext Hrange Hcnt Hnd Hfree Htable Hown Hcover].
  constructor; unfold frame in *;
    cbn [pool_size_ next_page_id_ pages_ page_table_ replacer_ free_list_
         set_next_page_id] in *; try done; try lia.
  intros pid g Hpg.
  destruct (Htable pid g Hpg) as [(Hr & Hg & Hp)|(Hg & Hr & Hgr & Hc & Hrest)].
  - left. split; [lia|done].
  - right. split_and!; try done; lia.
Qed.

Lemma wf_but_fresh (f : Z) (s : BufferPoolManager) (pid : Z) :
  wf_but f s → next_page_id_ s ≤ pid → page_table_ s !! pid = None.
Proof.
  intros Hwb Hpid. destruct (page_table_ s !! pid) as [g|] eqn:Hg; [|done].
  destruct (wb_table _ _ Hwb pid g Hg) as [(Hr & _)|(_ & Hr & _)]; lia.
Qed.

Lemma write_back_spec (p : Page) (d : D) :
  page_id_ (write_back p d).1 = page_id_ p ∧ data_ (write_back p d).1 = data_ p ∧
  pin_count_ (write_back p d).1 = pin_count_ p ∧ is_dirty_ (write_back p d).1 = false.
Proof. unfold write_back. by destruct p as [? ? ? []]. Qed.

(** [NewPage] on a well-formed pool. *)
Lemma NewPage_spec (s : BufferPoolManager) (d : D) :
  wf s → next_page_id_ s < INT_MAX →
  match NewPage s d with
  | Some (Done (None, s', d')) =>
      s' = s ∧ d' = d ∧ free_list_ s = [] ∧
      ∀ f, LRUK.cnt (replacer_ s) f ≠ 0 → LRUK.evictable (replacer_ s) f = false
  | Some (Done (Some (page_id, f), s', d')) =>
      wf s' ∧ page_id = next_page_id_ s ∧ next_page_id_ s' = next_page_id_ s + 1 ∧
      pool_size_ s' = pool_size_ s ∧
      ∃ p, frame s f = Some p ∧ pin_count_ p = 0 ∧
        ((f ∈ free_list_ s ∧ page_id_ p = INVALID_PAGE_ID) ∨
         (free_list_ s = [] ∧ page_table_ s !! page_id_ p = Some f)) ∧
        d' = (write_back p d).2 ∧
        page_table_ s' = <[page_id := f]> (delete (page_id_ p) (page_table_ s)) ∧
        frame s' f = Some (mkPage (replicate (length (data_ p)) 0) page_id 1 false) ∧
        (∀ g, g ≠ f → frame s' g = frame s g)
  | _ => False
  end.
Proof.
  intros Hwf Hmax. pose proof (pick_frame_spec s Hwf) as Hpick. unfold NewPage.
  destruct (pick_frame s) as [[f|] s1]; [|by destruct Hpick as (-> & ? & ?)].
  destruct Hpick as (Hwb & Hps & Hnx & Hpg & Htb & Hfl & p & Hp & Hpin & Hcase).
  assert (frame s1 f = Some p) as Hp1 by (unfold frame in *; by rewrite Hpg).
  rewrite Hp1. cbn [mbind option_bind].
  rewrite (to_int32_id (next_page_id_ s1 + 1))
    by (pose proof (wb_next _ _ Hwb); unfold INT_MAX in *; lia).
  destruct (write_back_spec p d) as (Hwid & Hwdata & Hwpin & Hwdirty).
  destruct (write_back p d) as [p' d'] eqn:Hwb'. cbn [fst snd] in *.
  destruct (install_spec (set_next_page_id (next_page_id_ s1 + 1) s1) f (next_page_id_ s1)
              p p' (wf_but_next f s1 Hwb)) as (s2 & -> & Hwf2 & Hps2 & Hnx2 & Hfl2 & Htb2 & Hf2 & Hfo);
    [done|done| |cbn; pose proof (wb_next _ _ Hwb); lia|].
  { apply (wf_but_fresh f s1); [done|lia]. }
  cbn [set_next_page_id pool_size_ next_page_id_ page_table_ free_list_] in *.
  split_and!; [done|done|lia|congruence|].
  exists p. split_and!; try done.
  - by rewrite Hwb'.
  - by rewrite Htb2, Htb.
  - by rewrite Hf2, Hwdata, Hwdirty.
  - intros g Hg. rewrite Hfo by done. unfold frame. cbn [pages_ set_next_page_id].
    by rewrite Hpg.
Qed.

(** [FetchPage] on a well-formed pool, for the invalid identifier or one
    that [NewPage] has handed out. *)
Lemma FetchPage_spec (s : BufferPoolManager) (d : D) (page_id : Z) :
  wf s → INVALID_PAGE_ID ≤ page_id < next_page_id_ s →
  (∀ f p, page_table_ s !! page_id = Some f → frame s f = Some p →
          pin_count_ p < INT_MAX) →
  match FetchPage s d page_id with
  | Some (Done (res, s', d')) =>
      match decide (page_id = INVALID_PAGE_ID), page_table_ s !! page_id with
      | left _, _ => res = None ∧ s' = s ∧ d' = d
      | right _, Some f =>
          res = Some f ∧ d' = d ∧ wf s' ∧ page_table_ s' = page_table_ s ∧
          next_page_id_ s' = next_page_id_ s ∧ pool_size_ s' = pool_size_ s ∧
          ∃ p, frame s f = Some p ∧
               frame s' f = Some (set_pin_count (pin_count_ p + 1) p) ∧
               ∀ g, g ≠ f → frame s' g = frame s g
      | right _, None =>
          match res with
          | None =>
              s' = s ∧ d' = d ∧ free_list_ s = [] ∧
              ∀ f, LRUK.cnt (replacer_ s) f ≠ 0 → LRUK.evictable (replacer_ s) f = false
          | Some f =>
              wf s' ∧ next_page_id_ s' = next_page_id_ s ∧ pool_size_ s' = pool_size_ s ∧
              ∃ p, frame s f = Some p ∧ pin_count_ p = 0 ∧
                ((f ∈ free_list_ s ∧ page_id_ p = INVALID_PAGE_ID) ∨
                 (free_list_ s = [] ∧ page_table_ s !! page_id_ p = Some f)) ∧
                d' = (write_back p d).2 ∧
                page_table_ s' = <[page_id := f]> (delete (page_id_ p) (page_table_ s)) ∧
                frame s' f = Some (mkPage (ReadPage page_id d') page_id 1 false) ∧
                (∀ g, g ≠ f → frame s' g = frame s g)
          end
      end
  | _ => False
  end.
Proof.
  intros Hwf Hvalid Hpinmax. unfold FetchPage.
  destruct (Z.eqb_spec page_id INVALID_PAGE_ID) as [Heq|Hne].
  { by destruct (decide (page_id = INVALID_PAGE_ID)). }
  destruct (decide (page_id = INVALID_PAGE_ID)) as [?|_]; [done|].
  assert (0 ≤ page_id) as Hnn by (unfold INVALID_PAGE_ID in *; lia).
  destruct (page_table_ s !! page_id) as [f|] eqn:Hlook.
  - (* the page is in the pool *)
    pose proof Hwf as [Hsize Hint Hrep Hnext Hnd Hfree Htable Hcover].
    destruct (Htable page_id f Hlook) as (_ & Hrange & Hcnt & p & Hp & Hpid & Hpin & Hpe).
    destruct (LRUK.RecordAccess_returns (replacer_ s) f) as [r1 Hr1].
    { rewrite (LRUK.bal_size _ _ Hrep), to_int32_id; unfold INT_MAX in *; lia. }
    { left. lia. }
    rewrite Hr1.
    destruct (LRUK.RecordAccess_effect _ _ _ Hr1)
      as (_ & Hc1 & Ho1 & He1 & _ & _ & _ & _ & _ & _).
    pose proof (LRUK.Balanced_RecordAccess _ _ _ _ Hrep Hrange Hr1) as Hrep1.
    pose proof (LRUK.SetEvictable_effect r1 f false) as (Hc2 & Ho2 & He2 & _).
    pose proof (LRUK.Balanced_SetEvictable _ _ f false Hrep1) as Hrep2.
    set (r2 := LRUK.SetEvictable r1 f false) in *.
    assert (frame (set_replacer r2 s) f = Some p) as Hp' by done.
    rewrite Hp'. cbn [mbind option_bind].
    destruct (Z.eqb_spec (pin_count_ p) INT_MAX) as [Hmx|_].
    { specialize (Hpinmax f p eq_refl Hp). lia. }
    set (p1 := set_pin_count (pin_count_ p + 1) p).
    set (s' := set_frame f p1 (set_replacer r2 s)).
    assert (∀ g, frame s' g = if decide (g = f) then Some p1 else frame s g) as Hframes.
    { intros g. change (frame s' g) with (frame (set_frame f p1 s) g).
      apply frame_set_frame. lia. }
    assert (LRUK.evictable r2 f = false) as Hef.
    { rewrite He2. destruct (Z.eqb_spec (LRUK.cnt r1 f) 0); [lia|done]. }
    assert (∀ g, g ≠ f → LRUK.cnt r2 g = LRUK.cnt (replacer_ s) g) as Hco.
    { intros g Hg. rewrite Hc2. by apply Ho1. }
    assert (∀ g, g ≠ f → LRUK.evictable r2 g = LRUK.evictable (replacer_ s) g) as Heo.
    { intros g Hg. rewrite Ho2 by done. by apply Ho1. }
    split_and!; try done.
    + constructor; cbn [pool_size_ next_page_id_ pages_ page_table_ replacer_ free_list_ s'
                        set_replacer set_frame]; try done.
      * by rewrite length_insert.
      * intros g Hg. destruct (Hfree g Hg) as (Hgr & Hgc & pg & Hpg & Hrest).
        assert (g ≠ f) as Hgf by (intros ->; lia).
        split_and!; try lia. { by rewrite Hco. }
        exists pg. rewrite Hframes. by rewrite decide_False.
      * intros pid g Hlook'.
        destruct (Htable pid g Hlook') as (Hpr & Hgr & Hgc & pg & Hpg & Hpgid & Hpgpin & Hpge).
        destruct (decide (g = f)) as [->|Hgf].
        -- assert (pg = p) as -> by congruence.
           split_and!; try lia. { rewrite Hc2, Hc1. lia. }
           exists p1. rewrite Hframes, decide_True by done.
           split_and!; try done; cbn [pin_count_ set_pin_count p1]; [lia|].
           rewrite Hef. symmetry. apply Z.eqb_neq. lia.
        -- split_and!; try lia. { by rewrite Hco. }
           exists pg. rewrite Hframes, decide_False by done.
           split_and!; try done; by rewrite Heo.
    + exists p. split_and!; [done| |].
      * by rewrite Hframes, decide_True.
      * intros g Hg. by rewrite Hframes, decide_False.
  - (* the page is read from disk *)
    pose proof (pick_frame_spec s Hwf) as Hpick.
    destruct (pick_frame s) as [[f|] s1]; [|by destruct Hpick as (-> & ? & ?)].
    destruct Hpick as (Hwb & Hps & Hnx & Hpg & Htb & Hfl & p & Hp & Hpin & Hcase).
    assert (frame s1 f = Some p) as Hp1 by (unfold frame in *; by rewrite Hpg).
    rewrite Hp1. cbn [mbind option_bind].
    destruct (write_back_spec p d) as (Hwid & Hwdata & Hwpin & Hwdirty).
    destruct (write_back p d) as [p' d'] eqn:Hwb'. cbn [fst snd] in *.
    destruct (install_spec s1 f page_id p p' Hwb)
      as (s2 & -> & Hwf2 & Hps2 & Hnx2 & Hfl2 & Htb2 & Hf2 & Hfo);
      [done|done|by rewrite Htb|lia|].
    rewrite Hf2. cbn [mbind option_bind page_id_ pin_count_ is_dirty_].
    set (p2 := mkPage (ReadPage page_id d') page_id 1 (is_dirty_ p')).
    pose proof (wf_size _ Hwf2) as Hsize2.
    pose proof (LRUK.bal_n _ _ (wf_replacer _ Hwf2)) as Hn2.
    pose proof (wb_range _ _ Hwb) as Hrange.
    assert (∀ g, frame (set_frame f p2 s2) g = if decide (g = f) then Some p2 else frame s2 g)
      as Hframes.
    { intros g. apply frame_set_frame. lia. }
    split_and!; [|by rewrite <- Hnx|by rewrite <- Hps|].
    + destruct Hwf2 as [Hsize' Hint' Hrep' Hnext' Hnd' Hfree' Htable' Hcover'].
      constructor; cbn [pool_size_ next_page_id_ pages_ page_table_ replacer_ free_list_
                        set_frame]; try done.
      * by rewrite length_insert.
      * intros g Hg. destruct (Hfree' g Hg) as (Hgr & Hgc & pg & Hpg' & Hrest).
        split_and!; try done; try lia. exists pg. rewrite Hframes.
        destruct (decide (g = f)) as [->|]; [|done].
        destruct Hrest as [Hinv _]. rewrite Hf2 in Hpg'. injection Hpg' as <-.
        cbn in Hinv. unfold INVALID_PAGE_ID in *. lia.
      * intros pid g Hlook'.
        destruct (Htable' pid g Hlook') as (Hpr & Hgr & Hgc & pg & Hpg' & Hpgid & Hpgpin & Hpge).
        split_and!; try done; try lia. destruct (decide (g = f)) as [->|Hgf].
        -- exists p2. rewrite Hframes, decide_True by done. rewrite Hf2 in Hpg'.
           injection Hpg' as <-. done.
        -- exists pg. by rewrite Hframes, decide_False.
    + exists p. split_and!; try done.
      * by rewrite Hwb'.
      * cbn [page_table_ set_frame]. by rewrite Htb2, Htb.
      * rewrite Hframes, decide_True by done. unfold p2. by rewrite Hwdirty.
      * intros g Hg. rewrite Hframes, decide_False by done. rewrite Hfo by done.
        unfold frame. by rewrite Hpg.
Qed.

(** A frame of a resident page updated in place: the page stays, the pin
    count stays in step with the replacer. *)
Lemma wf_set_frame (s : BufferPoolManager) (r : LRUK.LRUKReplacer) (pid f : Z) (p p' : Page) :
  wf s → page_table_ s !! pid = Some f → frame s f = Some p →
  page_id_ p' = page_id_ p → 0 ≤ pin_count_ p' →
  LRUK.Balanced (pool_size_ s) r →
  (∀ g, LRUK.cnt r g = LRUK.cnt (replacer_ s) g) →
  (∀ g, g ≠ f → LRUK.evictable r g = LRUK.evictable (replacer_ s) g) →
  LRUK.evictable r f = (pin_count_ p' =? 0) →
  wf (set_replacer r (set_frame f p' s)).
Proof.
  intros [Hsize Hint Hrep Hnext Hnd Hfree Htable Hcover] Hlook Hp Hpid Hpin Hrep' Hcnt Hevo Hevf.
  destruct (Htable pid f Hlook) as (_ & Hrange & Hc & _).
  assert (∀ g, frame (set_replacer r (set_frame f p' s)) g
               = if decide (g = f) then Some p' else frame s g) as Hframes.
  { intros g. change (frame (set_replacer r (set_frame f p' s)) g)
      with (frame (set_frame f p' s) g). apply frame_set_frame. lia. }
  constructor; cbn [pool_size_ next_page_id_ pages_ page_table_ replacer_ free_list_
                    set_replacer set_frame]; try done.
  - by rewrite length_insert.
  - intros g Hg. destruct (Hfree g Hg) as (Hgr & Hgc & pg & Hpg & Hrest).
    assert (g ≠ f) as Hgf by (intros ->; lia).
    split_and!; try lia. { by rewrite Hcnt. }
    exists pg. rewrite Hframes. by rewrite decide_False.
  - intros pid' g Hlook'.
    destruct (Htable pid' g Hlook') as (Hpr & Hgr & Hgc & pg & Hpg & Hpgid & Hpgpin & Hpge).
    split_and!; try lia. { by rewrite Hcnt. }
    destruct (decide (g = f)) as [->|Hgf].
    + exists p'. rewrite Hframes, decide_True by done.
      assert (pg = p) as -> by congruence. split_and!; try done. congruence.
    + exists pg. rewrite Hframes, decide_False by done.
      split_and!; try done. by rewrite Hevo.
Qed.

(** [UnpinPage] on a well-formed pool. *)
Lemma UnpinPage_spec (s : BufferPoolManager) (page_id : Z) (is_dirty : bool) :
  wf s →
  ∃ res s', UnpinPage s page_id is_dirty = Some (res, s') ∧ wf s' ∧
    page_table_ s' = page_table_ s ∧ next_page_id_ s' = next_page_id_ s ∧
    pool_size_ s' = pool_size_ s ∧
    match page_table_ s !! page_id with
    | None => res = false ∧ s' = s
    | Some f =>
        ∃ p, frame s f = Some p ∧ res = negb (pin_count_ p =? 0) ∧
          frame s' f = Some (mkPage (data_ p) (page_id_ p)
                                    (if pin_count_ p =? 0 then 0 else pin_count_ p - 1)
                                    (is_dirty || is_dirty_ p)) ∧
          ∀ g, g ≠ f → frame s' g = frame s g
    end.
Proof.
  intros Hwf. pose proof Hwf as [Hsize Hint Hrep Hnext Hnd Hfree Htable Hcover]. unfold UnpinPage.
  destruct (Z.eqb_spec page_id INVALID_PAGE_ID) as [->|Hne].
  { exists false, s. split_and!; try done.
    destruct (page_table_ s !! INVALID_PAGE_ID) as [f|] eqn:Hlook; [|done].
    destruct (Htable _ _ Hlook) as (Hr & _). unfold INVALID_PAGE_ID in Hr. lia. }
  destruct (page_table_ s !! page_id) as [f|] eqn:Hlook; [|by exists false, s].
  destruct (Htable _ _ Hlook) as (_ & Hrange & Hc & p & Hp & Hpid & Hpin & Hpe).
  rewrite Hp. cbn [pin_count_ set_is_dirty].
  set (p1 := set_is_dirty (is_dirty || is_dirty_ p) p).
  assert (∀ q g, frame (set_frame f q s) g = if decide (g = f) then Some q else frame s g)
    as Hframes1.
  { intros q g. apply frame_set_frame. lia. }
  destruct (Z.eqb_spec (pin_count_ p) 0) as [Hz|Hnz].
  - exists false, (set_frame f p1 s). split; [done|]. split_and!; try done.
    + replace (set_frame f p1 s) with (set_replacer (replacer_ s) (set_frame f p1 s))
        by done.
      apply (wf_set_frame s (replacer_ s) page_id f p p1); try done.
      rewrite Hpe. cbn. by rewrite Hz.
    + exists p. split_and!; try done.
      * by rewrite Hz.
      * rewrite Hframes1, decide_True by done. unfold p1, set_is_dirty. by rewrite Hz.
      * intros g Hg. by rewrite Hframes1, decide_False.
  - set (p2 := set_pin_count (pin_count_ p - 1) p1).
    assert (∀ g, frame (set_frame f p2 (set_frame f p1 s)) g
                 = if decide (g = f) then Some p2 else frame s g) as Hframes2.
    { intros g. rewrite frame_set_frame by (cbn; rewrite length_insert; lia).
      case_decide; [done|]. by rewrite Hframes1, decide_False. }
    assert (set_frame f p2 (set_frame f p1 s) = set_frame f p2 s) as Hss.
    { unfold set_frame. cbn. by rewrite list_insert_insert_eq. }
    change (pin_count_ p2) with (pin_count_ p - 1). change (replacer_ (set_frame f p2 (set_frame f p1 s))) with (replacer_ s).
    pose proof (LRUK.SetEvictable_effect (replacer_ s) f true) as (Hc2 & Ho2 & He2 & _).
    pose proof (LRUK.Balanced_SetEvictable _ _ f true Hrep) as Hrep2.
    destruct (Z.eqb_spec (pin_count_ p - 1) 0) as [Hz1|Hnz1].
    + eexists true, _. split; [reflexivity|]. rewrite Hss. split_and!; try done.
      * apply (wf_set_frame s _ page_id f p p2); try done.
        -- cbn. lia.
        -- rewrite He2. destruct (Z.eqb_spec (LRUK.cnt (replacer_ s) f) 0); [lia|].
           cbn. symmetry. by apply Z.eqb_eq.
      * exists p. rewrite (proj2 (Z.eqb_neq _ _) Hnz). split_and!; try done.
        -- change (frame (set_replacer _ (set_frame f p2 s)) f) with (frame (set_frame f p2 s) f).
           rewrite Hframes1, decide_True by done. done.
        -- intros g Hg.
           change (frame (set_replacer _ (set_frame f p2 s)) g) with (frame (set_frame f p2 s) g).
           by rewrite Hframes1, decide_False.
    + eexists true, _. split; [reflexivity|]. rewrite Hss. split_and!; try done.
      * replace (set_frame f p2 s) with (set_replacer (replacer_ s) (set_frame f p2 s))
          by done.
        apply (wf_set_frame s (replacer_ s) page_id f p p2); try done.
        -- cbn. lia.
        -- rewrite Hpe. cbn. symmetry. by apply Z.eqb_neq.
      * exists p. rewrite (proj2 (Z.eqb_neq _ _) Hnz). split_and!; try done.
        -- rewrite Hframes1, decide_True by done. done.
        -- intros g Hg. by rewrite Hframes1, decide_False.
Qed.

(** [FlushPage] on a well-formed pool. *)
Lemma FlushPage_spec (s : BufferPoolManager) (d : D) (page_id : Z) :
  wf s →
  ∃ res s' d', FlushPage s d page_id = Some (res, s', d') ∧ wf s' ∧
    page_table_ s' = page_table_ s ∧ next_page_id_ s' = next_page_id_ s ∧
    pool_size_ s' = pool_size_ s ∧
    match page_table_ s !! page_id with
    | None => res = false ∧ s' = s ∧ d' = d
    | Some f =>
        ∃ p, frame s f = Some p ∧ res = true ∧ d' = WritePage page_id (data_ p) d ∧
          frame s' f = Some (set_is_dirty false p) ∧
          ∀ g, g ≠ f → frame s' g = frame s g
    end.
Proof.
  intros Hwf. pose proof Hwf as [Hsize Hint Hrep Hnext Hnd Hfree Htable Hcover]. unfold FlushPage.
  destruct (Z.eqb_spec page_id INVALID_PAGE_ID) as [->|Hne].
  { exists false, s, d. split_and!; try done.
    destruct (page_table_ s !! INVALID_PAGE_ID) as [f|] eqn:Hlook; [|done].
    destruct (Htable _ _ Hlook) as (Hr & _). unfold INVALID_PAGE_ID in Hr. lia. }
  destruct (page_table_ s !! page_id) as [f|] eqn:Hlook; [|by exists false, s, d].
  destruct (Htable _ _ Hlook) as (_ & Hrange & Hc & p & Hp & Hpid & Hpin & Hpe).
  rewrite Hp. cbn [mbind option_bind]. eexists true, _, _. split; [reflexivity|].
  assert (∀ g, frame (set_frame f (set_is_dirty false p) s) g
               = if decide (g = f) then Some (set_is_dirty false p) else frame s g)
    as Hframes.
  { intros g. apply frame_set_frame. lia. }
  split_and!; try done.
  - replace (set_frame f (set_is_dirty false p) s)
      with (set_replacer (replacer_ s) (set_frame f (set_is_dirty false p) s)) by done.
    by apply (wf_set_frame s (replacer_ s) page_id f p).
  - exists p. split_and!; try done.
    + by rewrite Hpid.
    + by rewrite Hframes, decide_True.
    + intros g Hg. by rewrite Hframes, decide_False.
Qed.

(** [DeletePage] on a well-formed pool. *)
Lemma DeletePage_spec (s : BufferPoolManager) (page_id : Z) :
  wf s →
  ∃ res s', DeletePage s page_id = Some (Done (res, s')) ∧ wf s' ∧
    next_page_id_ s' = next_page_id_ s ∧ pool_size_ s' = pool_size_ s ∧
    match page_table_ s !! page_id with
    | None => res = true ∧ s' = s
    | Some f =>
        ∃ p, frame s f = Some p ∧
          if 0 <? pin_count_ p then res = false ∧ s' = s
          else res = true ∧
               page_table_ s' = delete page_id (page_table_ s) ∧
               free_list_ s' = free_list_ s ++ [f] ∧
               frame s' f = Some (mkPage (replicate (length (data_ p)) 0)
                                         INVALID_PAGE_ID 0 false) ∧
               ∀ g, g ≠ f → frame s' g = frame s g
    end.
Proof.
  intros Hwf. pose proof Hwf as [Hsize Hint Hrep Hnext Hnd Hfree Htable Hcover]. unfold DeletePage.
  destruct (Z.eqb_spec page_id INVALID_PAGE_ID) as [->|Hne].
  { exists true, s. split_and!; try done.
    destruct (page_table_ s !! INVALID_PAGE_ID) as [f|] eqn:Hlook; [|done].
    destruct (Htable _ _ Hlook) as (Hr & _). unfold INVALID_PAGE_ID in Hr. lia. }
  destruct (page_table_ s !! page_id) as [f|] eqn:Hlook; [|by exists true, s].
  destruct (Htable _ _ Hlook) as (Hpr & Hrange & Hc & p & Hp & Hpid & Hpin & Hpe).
  rewrite Hp. cbn [mbind option_bind].
  destruct (Z.ltb_spec 0 (pin_count_ p)) as [Hpinned|Hfree'].
  { exists false, s. split_and!; try done. exists p.
    by rewrite (proj2 (Z.ltb_lt _ _) Hpinned). }
  assert (pin_count_ p = 0) as Hpin0 by lia.
  rewrite Hpin0 in Hpe. cbn in Hpe.
  cbn [replacer_ set_free_list set_page_table].
  pose proof (LRUK.Remove_effect_match (replacer_ s) f) as Hrem.
  destruct (LRUK.Remove (replacer_ s) f) as [r| |] eqn:Hremove;
    [|destruct Hrem as [Hrem|[_ Hrem]];
      [rewrite (LRUK.bal_size _ _ Hrep), to_int32_id in Hrem
         by (unfold INT_MAX in *; lia); lia|congruence]|done].
  destruct Hrem as (_ & [[Hz _]|(_ & _ & Hcf & Hco & Heo & _)]); [lia|].
  pose proof (LRUK.Balanced_Remove _ _ _ _ Hrep Hremove) as Hrep'.
  set (newp := mkPage (data_ (ResetMemory p)) INVALID_PAGE_ID 0 false).
  set (s' := set_frame f newp
               (set_replacer r (set_free_list (free_list_ s ++ [f])
                                  (set_page_table (delete page_id (page_table_ s)) s)))).
  assert (∀ g, frame s' g = if decide (g = f) then Some newp else frame s g) as Hframes.
  { intros g. change (frame s' g) with (frame (set_frame f newp s) g).
    apply frame_set_frame. lia. }
  assert (f ∉ free_list_ s) as Hnotfree.
  { intros Hin. destruct (Hfree f Hin) as (_ & Hz & _). lia. }
  exists true, s'. split; [done|]. split_and!; try done.
  - constructor; cbn [pool_size_ next_page_id_ pages_ page_table_ replacer_ free_list_ s'
                      set_replacer set_frame set_free_list set_page_table]; try done.
    + by rewrite length_insert.
    + apply NoDup_app. split_and!; [done| |apply NoDup_singleton].
      intros g Hg ->%list_elem_of_singleton. done.
    + intros g [Hg| ->%list_elem_of_singleton]%elem_of_app.
      * destruct (Hfree g Hg) as (Hgr & Hgc & pg & Hpg & Hrest).
        assert (g ≠ f) as Hgf by (intros ->; lia).
        split_and!; try lia. { by rewrite Hco. }
        exists pg. rewrite Hframes. by rewrite decide_False.
      * split_and!; try lia. exists newp. by rewrite Hframes, decide_True.
    + intros pid g [Hpne Hlook']%lookup_delete_Some.
      destruct (Htable pid g Hlook') as (Hpr' & Hgr & Hgc & pg & Hpg & Hpgid & Hpgpin & Hpge).
      assert (g ≠ f) as Hgf.
      { intros ->. assert (pg = p) as -> by congruence. congruence. }
      split_and!; try lia. { by rewrite Hco. }
      exists pg. rewrite Hframes, decide_False by done.
      split_and!; try done. by rewrite Heo.
    + intros g Hg. destruct (decide (g = f)) as [->|Hgf].
      * left. apply elem_of_app. right. apply list_elem_of_here.
      * destruct (Hcover g Hg) as [Hin|[pid Hlook']].
        -- left. apply elem_of_app. by left.
        -- right. exists pid. apply lookup_delete_Some. split; [|done].
           intros <-. congruence.
  - exists p. split; [done|]. rewrite (proj2 (Z.ltb_ge _ _) Hfree').
    split_and!; try done.
    + by rewrite Hframes, decide_True.
    + intros g Hg. by rewrite Hframes, decide_False.
Qed.

(** ** What a caller of the pool sees *)

(** No frame can be given away: every frame holds a page that is pinned. *)
Definition all_pinned (s : BufferPoolManager) : Prop :=
  ∀ f, 0 ≤ f < pool_size_ s → ∃ p, frame s f = Some p ∧ 0 < pin_count_ p.

Lemma no_frame_all_pinned (s : BufferPoolManager) :
  wf s → free_list_ s = [] →
  (∀ f, LRUK.cnt (replacer_ s) f ≠ 0 → LRUK.evictable (replacer_ s) f = false) →
  all_pinned s.
Proof.
  intros [Hsize Hint Hrep Hnext Hnd Hfree Htable Hcover] Hnil Hnone f Hf.
  destruct (Hcover f Hf) as [Hin|[pid Hlook]].
  { rewrite Hnil in Hin. by apply elem_of_nil in Hin. }
  destruct (Htable pid f Hlook) as (_ & _ & Hc & p & Hp & _ & Hpin & Hpe).
  exists p. split; [done|]. rewrite Hnone in Hpe by lia.
  symmetry in Hpe. apply Z.eqb_neq in Hpe. lia.
Qed.

Lemma unpinned_frame_not_all_pinned (s : BufferPoolManager) (f : Z) (p : Page) :
  0 ≤ f < pool_size_ s → frame s f = Some p → pin_count_ p = 0 → ¬ all_pinned s.
Proof.
  intros Hf Hp Hpin Hall. destruct (Hall f Hf) as (p' & Hp' & Hpin').
  assert (p' = p) as -> by congruence. lia.
Qed.

(** The page table after a page took the frame [f] of the page [old]: the
    pages in the other frames are where they were. *)
Lemma page_table_others (s : BufferPoolManager) (f page_id : Z) (p : Page) (m : gmap Z Z) :
  wf s → frame s f = Some p →
  (f ∈ free_list_ s ∧ page_id_ p = INVALID_PAGE_ID) ∨
  (free_list_ s = [] ∧ page_table_ s !! page_id_ p = Some f) →
  page_table_ s !! page_id = None →
  m = <[page_id := f]> (delete (page_id_ p) (page_table_ s)) →
  ∀ pid g, g ≠ f → m !! pid = Some g ↔ page_table_ s !! pid = Some g.
Proof.
  intros Hwf Hp Hcase Hfresh -> pid g Hg.
  destruct (decide (pid = page_id)) as [->|Hne].
  { rewrite lookup_insert_eq, Hfresh. split; [congruence|done]. }
  rewrite lookup_insert_ne by done. rewrite lookup_delete_Some. split; [by intros [_ ?]|].
  intros Hlook. split; [|done]. intros <-.
  destruct Hcase as [[_ Hinv]|[_ Hmap]].
  - destruct (wf_table _ Hwf _ _ Hlook) as (Hr & _). rewrite Hinv in Hr.
    unfold INVALID_PAGE_ID in Hr. lia.
  - congruence.
Qed.

(** The constructor leaves a pool in the state that the operations keep. *)
Lemma construct_wf (pool_size replacer_k : Z) (page_size : nat) :
  0 ≤ pool_size ≤ INT_MAX → 0 < replacer_k → wf (construct pool_size replacer_k page_size).
Proof.
  intros Hn Hk. unfold construct.
  assert (∀ f, f ∈ (λ i, to_int32 (Z.of_nat i)) <$> seq 0 (Z.to_nat pool_size)
               ↔ 0 ≤ f < pool_size) as Hin.
  { intros f. rewrite list_elem_of_fmap. split.
    - intros (i & -> & Hi%elem_of_seq). rewrite to_int32_id; unfold INT_MAX in *; lia.
    - intros Hf. exists (Z.to_nat f). rewrite elem_of_seq.
      rewrite to_int32_id; unfold INT_MAX in *; lia. }
  constructor; cbn [pool_size_ next_page_id_ pages_ page_table_ replacer_ free_list_].
  - by rewrite length_replicate.
  - lia.
  - apply LRUK.Balanced_init; lia.
  - done.
  - apply NoDup_fmap_2_strong; [|apply NoDup_seq].
    intros i j Hi%elem_of_seq Hj%elem_of_seq.
    rewrite !to_int32_id; unfold INT_MAX in *; lia.
  - intros f Hf%Hin. split_and!; try lia.
    + pose proof (LRUK.Balanced_init pool_size replacer_k) as Hb.
      destruct (Z.eq_dec (LRUK.cnt (LRUK.init pool_size replacer_k) f) 0) as [|Hne]; [done|].
      exfalso. revert Hne. unfold LRUK.cnt, LRUK.init. cbn. by rewrite lookup_empty.
    + exists (new_Page page_size).
      split_and!; [|done..].
      unfold frame. cbn [pages_]. destruct (Z.ltb_spec f 0); [lia|].
      apply lookup_replicate_2. lia.
  - intros pid f Hlook. by rewrite lookup_empty in Hlook.
  - intros f Hf. left. by apply Hin.
Qed.

(** X21. [NewPage] on a consistent pool that has page identifiers left
    returns, and leaves the pool consistent.  It returns [nullptr], with
    nothing changed, only when every frame holds a pinned page.  Otherwise
    the page identifier is the next one, the frame is one whose pin count
    was 0, written to disk first if it was dirty, and it now holds the new
    page zeroed, pinned once and clean; the pages in the other frames stay
    where they are, as they are. *)
Theorem NewPage_gives_fresh_pinned_page (s : BufferPoolManager) (d : D) :
  wf s → next_page_id_ s < INT_MAX →
  ∃ res s' d', NewPage s d = Some (Done (res, s', d')) ∧ wf s' ∧
    match res with
    | None => all_pinned s ∧ s' = s ∧ d' = d
    | Some (page_id, f) =>
        page_id = next_page_id_ s ∧ next_page_id_ s' = page_id + 1 ∧
        page_table_ s' !! page_id = Some f ∧
        (∃ p, frame s f = Some p ∧ pin_count_ p = 0 ∧ d' = (write_back p d).2 ∧
              frame s' f = Some (mkPage (replicate (length (data_ p)) 0) page_id 1 false)) ∧
        (∀ g, g ≠ f → frame s' g = frame s g) ∧
        (∀ pid g, g ≠ f → page_table_ s' !! pid = Some g ↔ page_table_ s !! pid = Some g)
    end.
Proof.
  intros Hwf Hmax. pose proof (NewPage_spec s d Hwf Hmax) as Hspec.
  destruct (NewPage s d) as [[[[[[page_id f]|] s'] d']| |]|]; try done.
  - destruct Hspec as (Hwf' & -> & Hnx & Hps & p & Hp & Hpin & Hcase & Hd & Htb & Hf & Hfo).
    eexists _, _, _. split; [reflexivity|]. split; [done|].
    split_and!; try done.
    + by rewrite Htb, lookup_insert_eq.
    + by exists p.
    + apply (page_table_others s f (next_page_id_ s) p); try done.
      destruct (page_table_ s !! next_page_id_ s) as [g|] eqn:Hg; [|done].
      destruct (wf_table _ Hwf _ _ Hg) as (Hr & _). lia.
  - destruct Hspec as (-> & -> & Hnil & Hnone).
    eexists _, _, _. split; [reflexivity|]. split; [done|].
    split_and!; try done. by apply no_frame_all_pinned.
Qed.

(** X22. [FetchPage] of a page identifier that [NewPage] has handed out, on
    a consistent pool, returns and leaves the pool consistent.  A page that
    is in the pool stays in its frame with one more pin, and nothing is
    read or written.  For a page that is not, the call returns [nullptr],
    with nothing changed, only when every frame holds a pinned page;
    otherwise it takes a frame whose pin count was 0, writes it to disk
    first if it was dirty, and fills it with what the disk then has for the
    page, pinned once and clean; the pages in the other frames stay where
    they are, as they are. *)
Theorem FetchPage_pins_the_page (s : BufferPoolManager) (d : D) (page_id : Z) :
  wf s → 0 ≤ page_id < next_page_id_ s →
  (∀ f p, page_table_ s !! page_id = Some f → frame s f = Some p →
          pin_count_ p < INT_MAX) →
  ∃ res s' d', FetchPage s d page_id = Some (Done (res, s', d')) ∧ wf s' ∧
    next_page_id_ s' = next_page_id_ s ∧
    match page_table_ s !! page_id, res with
    | Some f, _ =>
        res = Some f ∧ d' = d ∧ page_table_ s' = page_table_ s ∧
        (∃ p, frame s f = Some p ∧ frame s' f = Some (set_pin_count (pin_count_ p + 1) p)) ∧
        (∀ g, g ≠ f → frame s' g = frame s g)
    | None, None => all_pinned s ∧ s' = s ∧ d' = d
    | None, Some f =>
        page_table_ s' !! page_id = Some f ∧
        (∃ p, frame s f = Some p ∧ pin_count_ p = 0 ∧ d' = (write_back p d).2 ∧
              frame s' f = Some (mkPage (ReadPage page_id d') page_id 1 false)) ∧
        (∀ g, g ≠ f → frame s' g = frame s g) ∧
        (∀ pid g, g ≠ f → page_table_ s' !! pid = Some g ↔ page_table_ s !! pid = Some g)
    end.
Proof.
  intros Hwf Hvalid Hpin.
  assert (INVALID_PAGE_ID ≤ page_id < next_page_id_ s) as Hvalid'
    by (unfold INVALID_PAGE_ID; lia).
  pose proof (FetchPage_spec s d page_id Hwf Hvalid' Hpin) as Hspec.
  destruct (FetchPage s d page_id) as [[[[res s'] d']| |]|]; try done.
  eexists _, _, _. split; [reflexivity|].
  destruct (decide (page_id = INVALID_PAGE_ID)) as [Hinv|_].
  { unfold INVALID_PAGE_ID in Hinv. lia. }
  destruct (page_table_ s !! page_id) as [f|] eqn:Hlook.
  - destruct Hspec as (-> & -> & Hwf' & Htb & Hnx & Hps & p & Hp & Hf & Hfo).
    split_and!; try done. by exists p.
  - destruct res as [f|].
    + destruct Hspec as (Hwf' & Hnx & Hps & p & Hp & Hpin0 & Hcase & Hd & Htb & Hf & Hfo).
      split_and!; try done.
      * by rewrite Htb, lookup_insert_eq.
      * by exists p.
      * by apply (page_table_others s f page_id p).
    + destruct Hspec as (-> & -> & Hnil & Hnone).
      split_and!; try done. by apply no_frame_all_pinned.
Qed.

(** X23. [UnpinPage] on a consistent pool returns and leaves the pool
    consistent: every page is still in its frame with its bytes, and a
    frame is a candidate for eviction exactly when its pin count is 0. *)
Theorem UnpinPage_keeps_pool_consistent (s : BufferPoolManager) (page_id : Z)
    (is_dirty : bool) :
  wf s →
  ∃ res s', UnpinPage s page_id is_dirty = Some (res, s') ∧ wf s' ∧
    page_table_ s' = page_table_ s ∧
    (∀ g p, frame s g = Some p →
       ∃ p', frame s' g = Some p' ∧ data_ p' = data_ p ∧ page_id_ p' = page_id_ p) ∧
    (∀ pid g p', page_table_ s' !! pid = Some g → frame s' g = Some p' →
       LRUK.evictable (replacer_ s') g = (pin_count_ p' =? 0)).
Proof.
  intros Hwf. destruct (UnpinPage_spec s page_id is_dirty Hwf)
    as (res & s' & Hrun & Hwf' & Htb & Hnx & Hps & Hcase).
  exists res, s'. split_and!; try done.
  - intros g p Hp. destruct (page_table_ s !! page_id) as [f|] eqn:Hlook.
    + destruct Hcase as (p0 & Hp0 & _ & Hf & Hfo).
      destruct (decide (g = f)) as [->|Hg].
      * assert (p0 = p) as -> by congruence. eexists. by split.
      * exists p. by rewrite Hfo.
    + destruct Hcase as (_ & ->). by exists p.
  - intros pid g p' Hlook Hp'.
    destruct (wf_table _ Hwf' _ _ Hlook) as (_ & _ & _ & p & Hp & _ & _ & He).
    by assert (p = p') as -> by congruence.
Qed.

(** X24. [DeletePage] on a consistent pool returns and leaves the pool
    consistent.  It returns [false], with nothing changed, exactly when
    the page is in the pool with a pin count above 0.  Otherwise the page
    is in no frame afterwards; the frame it was in is at the back of the
    free list, zeroed and without a page, and nothing is written to disk;
    the other frames are as they were. *)
Theorem DeletePage_frees_the_frame (s : BufferPoolManager) (page_id : Z) :
  wf s →
  ∃ res s', DeletePage s page_id = Some (Done (res, s')) ∧ wf s' ∧
    page_table_ s' !! page_id = (if res then None else page_table_ s !! page_id) ∧
    match page_table_ s !! page_id with
    | None => res = true ∧ s' = s
    | Some f =>
        ∃ p, frame s f = Some p ∧ res = negb (0 <? pin_count_ p) ∧
          if res
          then page_table_ s' = delete page_id (page_table_ s) ∧
               free_list_ s' = free_list_ s ++ [f] ∧
               frame s' f = Some (mkPage (replicate (length (data_ p)) 0)
                                         INVALID_PAGE_ID 0 false) ∧
               ∀ g, g ≠ f → frame s' g = frame s g
          else s' = s
    end.
Proof.
  intros Hwf. destruct (DeletePage_spec s page_id Hwf)
    as (res & s' & Hrun & Hwf' & Hnx & Hps & Hcase).
  exists res, s'. split_and!; try done.
  - destruct (page_table_ s !! page_id) as [f|] eqn:Hlook.
    + destruct Hcase as (p & Hp & Hcase). destruct (0 <? pin_count_ p).
      * by destruct Hcase as (-> & ->).
      * destruct Hcase as (-> & -> & _). by rewrite lookup_delete_eq.
    + by destruct Hcase as (-> & ->).
  - destruct (page_table_ s !! page_id) as [f|]; [|done].
    destruct Hcase as (p & Hp & Hcase). exists p. split; [done|].
    destruct (0 <? pin_count_ p).
    + by destruct Hcase as (-> & ->).
    + by destruct Hcase as (-> & ?).
Qed.

(** The pool after a change of dirty flags and bytes only. *)
Lemma wf_same_pages (s s' : BufferPoolManager) :
  wf s →
  pool_size_ s' = pool_size_ s → next_page_id_ s' = next_page_id_ s →
  page_table_ s' = page_table_ s → replacer_ s' = replacer_ s →
  free_list_ s' = free_list_ s → length (pages_ s') = length (pages_ s) →
  (∀ g p, frame s g = Some p →
     ∃ p', frame s' g = Some p' ∧ page_id_ p' = page_id_ p ∧ pin_count_ p' = pin_count_ p) →
  wf s'.
Proof.
  intros [Hsize Hint Hrep Hnext Hnd Hfree Htable Hcover] Hps Hnx Htb Hrp Hfl Hlen Hframes.
  constructor; rewrite ?Hps, ?Hnx, ?Htb, ?Hrp, ?Hfl; try done.
  - by rewrite Hlen.
  - intros f Hf. destruct (Hfree f Hf) as (Hr & Hc & p & Hp & Hid & Hpin).
    destruct (Hframes f p Hp) as (p' & Hp' & Hid' & Hpin').
    split; [done|]. split; [done|]. exists p'. split_and!; [done|congruence|congruence].
  - intros pid f Hlook.
    destruct (Htable pid f Hlook) as (Hr & Hfr & Hc & p & Hp & Hid & Hpin & He).
    destruct (Hframes f p Hp) as (p' & Hp' & Hid' & Hpin').
    split; [done|]. split; [done|]. split; [done|].
    exists p'. split_and!; [done|congruence|congruence|by rewrite Hpin'].
Qed.

Section DiskLaws.

(** Modelled from the spec: a read of a page gives the bytes of the last
    write of that page. *)
Hypothesis ReadPage_WritePage :
  ∀ id data d, ReadPage id (WritePage id data d) = data.
Hypothesis ReadPage_WritePage_ne :
  ∀ id id' data d, id ≠ id' → ReadPage id' (WritePage id data d) = ReadPage id' d.

(** The bytes of a page: those of its frame when it is in the pool, those
    on disk when it is not. *)
Definition contents (s : BufferPoolManager) (d : D) (page_id : Z) : list Z :=
  match page_table_ s !! page_id with
  | Some f => match frame s f with Some p => data_ p | None => ReadPage page_id d end
  | None => ReadPage page_id d
  end.

(** The frames [0 .. n-1] flushed. *)
Lemma flush_frames_spec (s : BufferPoolManager) (d : D) (n : nat) :
  wf s → Z.of_nat n ≤ pool_size_ s →
  ∃ s' d', foldl flush_frame (Some (s, d)) (seq 0 n) = Some (s', d') ∧
    pool_size_ s' = pool_size_ s ∧ next_page_id_ s' = next_page_id_ s ∧
    page_table_ s' = page_table_ s ∧ replacer_ s' = replacer_ s ∧
    free_list_ s' = free_list_ s ∧ length (pages_ s') = length (pages_ s) ∧
    (∀ g p, frame s g = Some p →
       frame s' g = Some (if (g <? Z.of_nat n) && negb (page_id_ p =? INVALID_PAGE_ID)
                          then set_is_dirty false p else p)) ∧
    (∀ pid, ReadPage pid d' =
       match page_table_ s !! pid with
       | Some f => if f <? Z.of_nat n then contents s d pid else ReadPage pid d
       | None => ReadPage pid d
       end).
Proof.
  intros Hwf. induction n as [|n IH]; intros Hn.
  { exists s, d. split_and!; try done.
    - intros g p Hp. rewrite Hp. unfold frame in Hp. change (Z.of_nat 0) with 0.
      by destruct (g <? 0).
    - intros pid. destruct (page_table_ s !! pid) as [f|] eqn:Hlook; [|done].
      destruct (wf_table _ Hwf _ _ Hlook) as (_ & Hf & _).
      by destruct (Z.ltb_spec f (Z.of_nat 0)); [lia|]. }
  destruct IH as (s1 & d1 & Hrun & Hps & Hnx & Htb & Hrp & Hfl & Hlen & Hframes & Hdisk);
    [lia|].
  rewrite seq_S, foldl_app, Hrun. cbn [foldl flush_frame mbind option_bind plus].
  destruct (frame_lookup s (Z.of_nat n) (wf_size _ Hwf)) as [p Hp]; [lia|].
  pose proof (Hframes _ _ Hp) as Hp1. rewrite Z.ltb_irrefl in Hp1. cbn [andb] in Hp1.
  rewrite Hp1. cbn [mbind option_bind].
  destruct (Z.eqb_spec (page_id_ p) INVALID_PAGE_ID) as [Hinv|Hval].
  - exists s1, d1. split_and!; try done.
    + intros g q Hq. rewrite (Hframes g q Hq).
      destruct (decide (g = Z.of_nat n)) as [->|Hg].
      * assert (q = p) as -> by congruence.
        rewrite (proj2 (Z.eqb_eq _ _) Hinv). cbn. by rewrite !andb_false_r.
      * replace (g <? Z.of_nat (S n)) with (g <? Z.of_nat n); [done|].
        destruct (Z.ltb_spec g (Z.of_nat n)), (Z.ltb_spec g (Z.of_nat (S n))); lia.
    + intros pid. rewrite Hdisk. destruct (page_table_ s !! pid) as [f|] eqn:Hlook; [|done].
      destruct (wf_table _ Hwf _ _ Hlook) as (Hr & _ & _ & q & Hq & Hqid & _).
      assert (f ≠ Z.of_nat n) as Hf.
      { intros ->. assert (q = p) as -> by congruence.
        unfold INVALID_PAGE_ID in *. lia. }
      replace (f <? Z.of_nat (S n)) with (f <? Z.of_nat n); [done|].
      destruct (Z.ltb_spec f (Z.of_nat n)), (Z.ltb_spec f (Z.of_nat (S n))); lia.
  - destruct (wf_cover _ Hwf (Z.of_nat n)) as [Hin|[pid' Hlook']]; [lia| |].
    { destruct (wf_free _ Hwf _ Hin) as (_ & _ & q & Hq & Hqid & _).
      by assert (q = p) as -> by congruence. }
    destruct (wf_table _ Hwf _ _ Hlook') as (_ & _ & _ & q & Hq & Hqid & _).
    assert (q = p) as -> by congruence.
    assert (∀ g, frame (set_frame (Z.of_nat n) (set_is_dirty false p) s1) g
                 = if decide (g = Z.of_nat n) then Some (set_is_dirty false p)
                   else frame s1 g) as Hset.
    { intros g. apply frame_set_frame. rewrite Hlen, (wf_size _ Hwf). lia. }
    eexists _, _. split; [reflexivity|]. split_and!; try done.
    + cbn [pages_ set_frame]. by rewrite length_insert.
    + intros g q Hq'. rewrite Hset. destruct (decide (g = Z.of_nat n)) as [->|Hg].
      * assert (q = p) as -> by congruence.
        rewrite (proj2 (Z.eqb_neq _ _) Hval).
        by destruct (Z.ltb_spec (Z.of_nat n) (Z.of_nat (S n))); [|lia].
      * rewrite (Hframes g q Hq').
        replace (g <? Z.of_nat (S n)) with (g <? Z.of_nat n); [done|].
        destruct (Z.ltb_spec g (Z.of_nat n)), (Z.ltb_spec g (Z.of_nat (S n))); lia.
    + intros pid. destruct (decide (pid = page_id_ p)) as [->|Hpid].
      * rewrite ReadPage_WritePage. rewrite Hqid, Hlook'.
        destruct (Z.ltb_spec (Z.of_nat n) (Z.of_nat (S n))); [|lia].
        unfold contents. by rewrite Hlook', Hp.
      * rewrite ReadPage_WritePage_ne by done. rewrite Hdisk.
        destruct (page_table_ s !! pid) as [f|] eqn:Hlook; [|done].
        destruct (wf_table _ Hwf _ _ Hlook) as (_ & _ & _ & q & Hq' & Hqid' & _).
        assert (f ≠ Z.of_nat n) as Hf.
        { intros ->. assert (q = p) as -> by congruence. congruence. }
        replace (f <? Z.of_nat (S n)) with (f <? Z.of_nat n); [done|].
        destruct (Z.ltb_spec f (Z.of_nat n)), (Z.ltb_spec f (Z.of_nat (S n))); lia.
Qed.

(** X25. [FlushPage] on a consistent pool returns and leaves the pool
    consistent.  It returns [false], with nothing changed, exactly when
    the page is not in the pool.  Otherwise the disk has the bytes of the
    frame for the page and what it had for the others, whether the page
    was dirty or not, and the frame is clean; the other frames are as they
    were. *)
Theorem FlushPage_puts_page_on_disk (s : BufferPoolManager) (d : D) (page_id : Z) :
  wf s →
  ∃ res s' d', FlushPage s d page_id = Some (res, s', d') ∧ wf s' ∧
    page_table_ s' = page_table_ s ∧
    match page_table_ s !! page_id with
    | None => res = false ∧ s' = s ∧ d' = d
    | Some f =>
        res = true ∧
        (∃ p, frame s f = Some p ∧ frame s' f = Some (set_is_dirty false p) ∧
              ReadPage page_id d' = data_ p) ∧
        (∀ id, id ≠ page_id → ReadPage id d' = ReadPage id d) ∧
        (∀ g, g ≠ f → frame s' g = frame s g)
    end.
Proof.
  intros Hwf. destruct (FlushPage_spec s d page_id Hwf)
    as (res & s' & d' & Hrun & Hwf' & Htb & Hnx & Hps & Hcase).
  exists res, s', d'. split_and!; try done.
  destruct (page_table_ s !! page_id) as [f|]; [|done].
  destruct Hcase as (p & Hp & -> & -> & Hf & Hfo). split_and!; try done.
  - exists p. by rewrite ReadPage_WritePage.
  - intros id Hid. by rewrite ReadPage_WritePage_ne.
Qed.

(** [FlushAllPages] on a well-formed pool. *)
Lemma FlushAllPages_spec (s : BufferPoolManager) (d : D) :
  wf s →
  ∃ s' d', FlushAllPages s d = Some (s', d') ∧ wf s' ∧
    page_table_ s' = page_table_ s ∧ free_list_ s' = free_list_ s ∧
    next_page_id_ s' = next_page_id_ s ∧ pool_size_ s' = pool_size_ s ∧
    (∀ page_id, ReadPage page_id d' = contents s d page_id) ∧
    (∀ g p, frame s g = Some p →
       frame s' g = Some (if page_id_ p =? INVALID_PAGE_ID then p
                          else set_is_dirty false p)).
Proof.
  intros Hwf. unfold FlushAllPages.
  destruct (flush_frames_spec s d (Z.to_nat (pool_size_ s)) Hwf)
    as (s' & d' & Hrun & Hps & Hnx & Htb & Hrp & Hfl & Hlen & Hframes & Hdisk).
  { pose proof (LRUK.bal_n _ _ (wf_replacer _ Hwf)). lia. }
  assert (∀ g p, frame s g = Some p →
            frame s' g = Some (if page_id_ p =? INVALID_PAGE_ID then p
                               else set_is_dirty false p)) as Hframes'.
  { intros g p Hp. rewrite (Hframes g p Hp).
    assert ((g <? Z.of_nat (Z.to_nat (pool_size_ s))) = true) as ->.
    { apply Z.ltb_lt. unfold frame in Hp. destruct (Z.ltb_spec g 0); [done|].
      apply lookup_lt_Some in Hp. rewrite (wf_size _ Hwf) in Hp. lia. }
    by destruct (page_id_ p =? INVALID_PAGE_ID). }
  exists s', d'. split_and!; try done.
  - apply (wf_same_pages s s'); try done.
    intros g p Hp. eexists. split; [by apply Hframes'|].
    by destruct (page_id_ p =? INVALID_PAGE_ID).
  - intros pid. rewrite Hdisk. unfold contents.
    destruct (page_table_ s !! pid) as [f|] eqn:Hlook; [|done].
    destruct (wf_table _ Hwf _ _ Hlook) as (_ & Hf & _ & p & Hp & _).
    rewrite Hp. destruct (Z.ltb_spec f (Z.of_nat (Z.to_nat (pool_size_ s)))); [done|lia].
Qed.

(** X26. [FlushAllPages] on a consistent pool returns and leaves the pool
    consistent.  Afterwards the disk has, for every page, the bytes that
    the pool had for it: those of its frame for a page in the pool, those
    that were on disk for the others.  The frames keep their pages, their
    bytes and their pin counts, and those that hold a page are clean. *)
Theorem FlushAllPages_puts_every_page_on_disk (s : BufferPoolManager) (d : D) :
  wf s →
  ∃ s' d', FlushAllPages s d = Some (s', d') ∧ wf s' ∧
    page_table_ s' = page_table_ s ∧ free_list_ s' = free_list_ s ∧
    (∀ page_id, ReadPage page_id d' = contents s d page_id) ∧
    (∀ g p, frame s g = Some p →
       frame s' g = Some (if page_id_ p =? INVALID_PAGE_ID then p
                          else set_is_dirty false p)).
Proof.
  intros Hwf. destruct (FlushAllPages_spec s d Hwf)
    as (s' & d' & Hrun & Hwf' & Htb & Hfl & Hnx & Hps & Hdisk & Hframes).
  by exists s', d'.
Qed.

(** ** Pages across calls *)

(** A page in a clean frame has the bytes that the disk has for it. *)
Definition clean_is_on_disk (s : BufferPoolManager) (d : D) (page_id : Z) : Prop :=
  ∀ f p, page_table_ s !! page_id = Some f → frame s f = Some p →
         is_dirty_ p = false → data_ p = ReadPage page_id d.

(** The calls of a user of the pool, and a run of them in a row. *)
Inductive Call : Type :=
| CallNewPage
| CallFetchPage (page_id : Z)
| CallUnpinPage (page_id : Z) (is_dirty : bool)
| CallFlushPage (page_id : Z)
| CallFlushAllPages
| CallDeletePage (page_id : Z).

Definition call (c : Call) (s : BufferPoolManager) (d : D) : Run (BufferPoolManager * D) :=
  match c with
  | CallNewPage =>
      match NewPage s d with
      | Some (Done (_, s, d)) => Some (Done (s, d))
      | Some Throws => Some Throws
      | Some Deadlock => Some Deadlock
      | None => None
      end
  | CallFetchPage page_id =>
      match FetchPage s d page_id with
      | Some (Done (_, s, d)) => Some (Done (s, d))
      | Some Throws => Some Throws
      | Some Deadlock => Some Deadlock
      | None => None
      end
  | CallUnpinPage page_id is_dirty =>
      '(_, s) ← UnpinPage s page_id is_dirty; Some (Done (s, d))
  | CallFlushPage page_id =>
      '(_, s, d) ← FlushPage s d page_id; Some (Done (s, d))
  | CallFlushAllPages =>
      '(s, d) ← FlushAllPages s d; Some (Done (s, d))
  | CallDeletePage page_id =>
      match DeletePage s page_id with
      | Some (Done (_, s)) => Some (Done (s, d))
      | Some Throws => Some Throws
      | Some Deadlock => Some Deadlock
      | None => None
      end
  end.

Fixpoint calls (cs : list Call) (s : BufferPoolManager) (d : D)
    : Run (BufferPoolManager * D) :=
  match cs with
  | [] => Some (Done (s, d))
  | c :: cs =>
      match call c s d with
      | Some (Done (s, d)) => calls cs s d
      | r => r
      end
  end.

(** What a call needs: a page identifier left for [NewPage]; for
    [FetchPage] a page identifier that [NewPage] has handed out and room in
    the pin count. *)
Definition call_ok (s : BufferPoolManager) (c : Call) : Prop :=
  match c with
  | CallNewPage => next_page_id_ s < INT_MAX
  | CallFetchPage page_id =>
      0 ≤ page_id < next_page_id_ s ∧
      ∀ f p, page_table_ s !! page_id = Some f → frame s f = Some p →
             pin_count_ p < INT_MAX
  | _ => True
  end.

Lemma ReadPage_write_back (p : Page) (d : D) (pid : Z) :
  page_id_ p ≠ pid → ReadPage pid (write_back p d).2 = ReadPage pid d.
Proof.
  intros Hne. unfold write_back. destruct (is_dirty_ p); [|done]. cbn [snd].
  by apply ReadPage_WritePage_ne.
Qed.

(** A frame taken for the page [new]: the other pages keep their bytes,
    in their frame or on disk. *)
Lemma take_frame_keeps (s s' : BufferPoolManager) (d : D) (f new pid : Z) (p newp : Page) :
  wf s → frame s f = Some p →
  (f ∈ free_list_ s ∧ page_id_ p = INVALID_PAGE_ID) ∨
  (free_list_ s = [] ∧ page_table_ s !! page_id_ p = Some f) →
  page_table_ s !! new = None →
  page_table_ s' = <[new := f]> (delete (page_id_ p) (page_table_ s)) →
  frame s' f = Some newp → (∀ g, g ≠ f → frame s' g = frame s g) →
  0 ≤ pid → pid ≠ new → clean_is_on_disk s d pid →
  clean_is_on_disk s' (write_back p d).2 pid ∧
  contents s' (write_back p d).2 pid = contents s d pid.
Proof.
  intros Hwf Hp Hcase Hfresh Htb Hf Hfo Hpid Hnew Hkept.
  pose proof (page_table_others s f new p _ Hwf Hp Hcase Hfresh Htb) as Hothers.
  destruct (page_table_ s !! pid) as [g|] eqn:Hlook.
  - destruct (decide (g = f)) as [->|Hg].
    + destruct (wf_table _ Hwf _ _ Hlook) as (_ & _ & _ & q & Hq & Hqid & _).
      assert (q = p) as -> by congruence.
      assert (page_table_ s' !! pid = None) as Hgone.
      { rewrite Htb, lookup_insert_ne by done. rewrite Hqid. apply lookup_delete_eq. }
      split.
      * intros g q Hg. congruence.
      * unfold contents. rewrite Hgone, Hlook, Hp. unfold write_back.
        destruct (is_dirty_ p) eqn:Hdirty; cbn [snd].
        -- by rewrite Hqid, ReadPage_WritePage.
        -- symmetry. by apply (Hkept f p).
    + assert (page_table_ s' !! pid = Some g) as Hstill by by apply Hothers.
      assert (page_id_ p ≠ pid) as Hvictim.
      { intros Heq. destruct Hcase as [[_ Hinv]|[_ Hmap]].
        - rewrite Hinv in Heq. unfold INVALID_PAGE_ID in Heq. lia.
        - rewrite Heq in Hmap. congruence. }
      split.
      * intros g' q Hg' Hq Hclean. assert (g' = g) as -> by congruence.
        rewrite Hfo in Hq by done. rewrite ReadPage_write_back by done.
        by apply (Hkept g q).
      * unfold contents. rewrite Hstill, Hlook, Hfo by done.
        destruct (frame s g); [done|]. by apply ReadPage_write_back.
  - assert (page_table_ s' !! pid = None) as Hgone.
    { rewrite Htb, lookup_insert_ne by done. apply lookup_delete_None. by right. }
    assert (page_id_ p ≠ pid) as Hvictim.
    { intros Heq. destruct Hcase as [[_ Hinv]|[_ Hmap]].
      - rewrite Hinv in Heq. unfold INVALID_PAGE_ID in Heq. lia.
      - rewrite Heq in Hmap. congruence. }
    split.
    + intros g q Hg. congruence.
    + unfold contents. rewrite Hgone, Hlook. by apply ReadPage_write_back.
Qed.

(** Frames that keep their pages and bytes, and are dirty if they were. *)
Lemma same_bytes_keeps (s s' : BufferPoolManager) (d : D) (pid : Z) :
  page_table_ s' = page_table_ s →
  (∀ g p, frame s g = Some p →
     ∃ p', frame s' g = Some p' ∧ data_ p' = data_ p ∧
           (is_dirty_ p' = false → is_dirty_ p = false)) →
  (∀ g, frame s g = None → frame s' g = None) →
  clean_is_on_disk s d pid →
  clean_is_on_disk s' d pid ∧ contents s' d pid = contents s d pid.
Proof.
  intros Htb Hframes Hnone Hkept. split.
  - intros f p' Hlook Hp' Hclean. rewrite Htb in Hlook.
    destruct (frame s f) as [p|] eqn:Hp.
    + destruct (Hframes f p Hp) as (p'' & Hp'' & Hdata & Hdirty).
      assert (p'' = p') as -> by congruence. rewrite Hdata.
      apply (Hkept f p); try done. by apply Hdirty.
    + rewrite (Hnone f Hp) in Hp'. done.
  - unfold contents. rewrite Htb. destruct (page_table_ s !! pid) as [f|]; [|done].
    destruct (frame s f) as [p|] eqn:Hp.
    + destruct (Hframes f p Hp) as (p' & -> & Hdata & _). done.
    + by rewrite (Hnone f Hp).
Qed.

Lemma pins_step (s s' : BufferPoolManager) (f : Z) (p newp : Page) :
  frame s f = Some p → frame s' f = Some newp → pin_count_ newp ≤ pin_count_ p + 1 →
  (∀ g, g ≠ f → frame s' g = frame s g) →
  ∀ g p', frame s' g = Some p' →
    ∃ p0, frame s g = Some p0 ∧ pin_count_ p' ≤ pin_count_ p0 + 1.
Proof.
  intros Hp Hnewp Hpin Hfo g p' Hp'. destruct (decide (g = f)) as [->|Hg].
  - exists p. split; [done|]. by assert (newp = p') as <- by congruence.
  - exists p'. split; [by rewrite <- Hfo|lia].
Qed.

Lemma pins_same (s : BufferPoolManager) :
  ∀ g p', frame s g = Some p' →
    ∃ p0, frame s g = Some p0 ∧ pin_count_ p' ≤ pin_count_ p0 + 1.
Proof. intros g p' Hp'. exists p'. split; [done|lia]. Qed.

(** One call on a consistent pool. *)
Lemma call_spec (c : Call) (s : BufferPoolManager) (d : D) :
  wf s → call_ok s c →
  ∃ s' d', call c s d = Some (Done (s', d')) ∧ wf s' ∧
    next_page_id_ s ≤ next_page_id_ s' ≤ next_page_id_ s + 1 ∧
    (∀ g p', frame s' g = Some p' →
       ∃ p, frame s g = Some p ∧ pin_count_ p' ≤ pin_count_ p + 1) ∧
    ∀ pid, 0 ≤ pid < next_page_id_ s → c ≠ CallDeletePage pid →
      clean_is_on_disk s d pid →
      clean_is_on_disk s' d' pid ∧ contents s' d' pid = contents s d pid.
Proof.
  intros Hwf Hok. destruct c as [|page_id|page_id is_dirty|page_id| |page_id];
    cbn [call call_ok] in *.
  - (* NewPage *)
    pose proof (NewPage_spec s d Hwf Hok) as Hspec.
    destruct (NewPage s d) as [[[[[[new f]|] s'] d']| |]|]; try done.
    + destruct Hspec as (Hwf' & -> & Hnx & Hps & p & Hp & Hpin & Hcase & -> & Htb & Hf & Hfo).
      eexists _, _. split; [reflexivity|]. split_and!; try done; try lia.
      * apply (pins_step s s' f p _ Hp Hf); [cbn; lia|done].
      * intros pid Hpid _ Hkept.
        eapply (take_frame_keeps s s' d f (next_page_id_ s) pid p _ Hwf Hp Hcase);
          try done; try lia.
        destruct (page_table_ s !! next_page_id_ s) as [g|] eqn:Hg; [|done].
        destruct (wf_table _ Hwf _ _ Hg) as (Hr & _). lia.
    + destruct Hspec as (-> & -> & _). eexists _, _. split; [reflexivity|].
      split_and!; try done; try lia. apply pins_same.
  - (* FetchPage *)
    destruct Hok as [Hvalid Hpinmax].
    assert (INVALID_PAGE_ID ≤ page_id < next_page_id_ s) as Hvalid'
      by (unfold INVALID_PAGE_ID; lia).
    pose proof (FetchPage_spec s d page_id Hwf Hvalid' Hpinmax) as Hspec.
    destruct (FetchPage s d page_id) as [[[[res s'] d']| |]|]; try done.
    eexists _, _. split; [reflexivity|].
    destruct (decide (page_id = INVALID_PAGE_ID)) as [Hinv|_].
    { unfold INVALID_PAGE_ID in Hinv. lia. }
    destruct (page_table_ s !! page_id) as [f|] eqn:Hlook.
    + destruct Hspec as (-> & -> & Hwf' & Htb & Hnx & Hps & p & Hp & Hf & Hfo).
      split_and!; try done; try lia.
      * apply (pins_step s s' f p _ Hp Hf); [cbn; lia|done].
      * intros pid Hpid _ Hkept. apply same_bytes_keeps; try done.
        -- intros g q Hq. destruct (decide (g = f)) as [->|Hg].
           ++ assert (q = p) as -> by congruence. eexists. by split.
           ++ exists q. by rewrite Hfo.
        -- intros g Hg. rewrite Hfo; [done|]. intros ->. congruence.
    + destruct res as [f|].
      * destruct Hspec
          as (Hwf' & Hnx & Hps & p & Hp & Hpin0 & Hcase & -> & Htb & Hf & Hfo).
        split_and!; try done; try lia.
        -- apply (pins_step s s' f p _ Hp Hf); [cbn; lia|done].
        -- intros pid Hpid _ Hkept. destruct (decide (pid = page_id)) as [->|Hne].
           ++ assert (page_table_ s' !! page_id = Some f) as Hnow
                by by rewrite Htb, lookup_insert_eq.
              split.
              ** intros g q Hg Hq _. assert (g = f) as -> by congruence.
                 rewrite Hf in Hq. by injection Hq as <-.
              ** unfold contents at 1. rewrite Hnow, Hf. cbn [data_].
                 unfold contents. rewrite Hlook. apply ReadPage_write_back.
                 intros Heq. destruct Hcase as [[_ Hinv]|[_ Hmap]].
                 --- rewrite Hinv in Heq. unfold INVALID_PAGE_ID in Heq. lia.
                 --- rewrite Heq in Hmap. congruence.
           ++ by eapply (take_frame_keeps s s' d f page_id pid p _ Hwf Hp Hcase);
                try done; try lia.
      * destruct Hspec as (-> & -> & _). split_and!; try done; try lia. apply pins_same.
  - (* UnpinPage *)
    destruct (UnpinPage_spec s page_id is_dirty Hwf)
      as (res & s' & -> & Hwf' & Htb & Hnx & Hps & Hcase).
    cbn [mbind option_bind]. eexists _, _. split; [reflexivity|].
    destruct (page_table_ s !! page_id) as [f|] eqn:Hlook.
    + destruct Hcase as (p & Hp & _ & Hf & Hfo).
      destruct (wf_table _ Hwf _ _ Hlook) as (_ & _ & _ & p0 & Hp0 & _ & Hpin & _).
      assert (p0 = p) as -> by congruence.
      split_and!; try done; try lia.
      * apply (pins_step s s' f p _ Hp Hf); [|done]. cbn.
        destruct (pin_count_ p =? 0); lia.
      * intros pid Hpid _ Hkept. apply same_bytes_keeps; try done.
        -- intros g q Hq. destruct (decide (g = f)) as [->|Hg].
           ++ assert (q = p) as -> by congruence. eexists. split; [done|].
              split; [done|]. cbn. by intros [_ ?]%orb_false_iff.
           ++ exists q. by rewrite Hfo.
        -- intros g Hg. rewrite Hfo; [done|]. intros ->. congruence.
    + destruct Hcase as (_ & ->). split_and!; try done; try lia. apply pins_same.
  - (* FlushPage *)
    destruct (FlushPage_spec s d page_id Hwf)
      as (res & s' & d' & -> & Hwf' & Htb & Hnx & Hps & Hcase).
    cbn [mbind option_bind]. eexists _, _. split; [reflexivity|].
    destruct (page_table_ s !! page_id) as [f|] eqn:Hlook.
    + destruct Hcase as (p & Hp & _ & -> & Hf & Hfo).
      destruct (wf_table _ Hwf _ _ Hlook) as (_ & _ & _ & p0 & Hp0 & Hp0id & _).
      assert (p0 = p) as -> by congruence.
      split_and!; try done; try lia.
      * apply (pins_step s s' f p _ Hp Hf); [cbn; lia|done].
      * intros pid Hpid _ Hkept. destruct (decide (pid = page_id)) as [->|Hne].
        -- split.
           ++ intros g q Hg Hq _. rewrite Htb in Hg. assert (g = f) as -> by congruence.
              rewrite Hf in Hq. injection Hq as <-. by rewrite ReadPage_WritePage.
           ++ unfold contents. by rewrite Htb, Hlook, Hf, Hp.
        -- split.
           ++ intros g q Hg Hq Hclean. rewrite Htb in Hg.
              assert (g ≠ f) as Hgf.
              { intros ->. destruct (wf_table _ Hwf _ _ Hg) as (_ & _ & _ & q0 & Hq0 & ? & _).
                assert (q0 = p) as -> by congruence. congruence. }
              rewrite Hfo in Hq by done. rewrite ReadPage_WritePage_ne by done.
              by apply (Hkept g q).
           ++ unfold contents. rewrite Htb.
              destruct (page_table_ s !! pid) as [g|] eqn:Hg;
                [|by apply ReadPage_WritePage_ne].
              assert (g ≠ f) as Hgf.
              { intros ->. destruct (wf_table _ Hwf _ _ Hg) as (_ & _ & _ & q0 & Hq0 & ? & _).
                assert (q0 = p) as -> by congruence. congruence. }
              rewrite Hfo by done. destruct (frame s g); [done|].
              by apply ReadPage_WritePage_ne.
    + destruct Hcase as (_ & -> & ->). split_and!; try done; try lia. apply pins_same.
  - (* FlushAllPages *)
    destruct (FlushAllPages_spec s d Hwf)
      as (s' & d' & -> & Hwf' & Htb & Hfl & Hnx & Hps & Hdisk & Hframes).
    cbn [mbind option_bind]. eexists _, _. split; [reflexivity|].
    split_and!; try done; try lia.
    + intros g q Hq. destruct (frame s g) as [p|] eqn:Hp.
      * exists p. split; [done|]. rewrite (Hframes g p Hp) in Hq. injection Hq as <-.
        destruct (page_id_ p =? INVALID_PAGE_ID); cbn; lia.
      * exfalso. unfold frame in *. destruct (g <? 0); [done|].
        apply lookup_ge_None in Hp. apply lookup_lt_Some in Hq.
        rewrite (wf_size _ Hwf') in Hq. rewrite (wf_size _ Hwf) in Hp. lia.
    + intros pid Hpid _ Hkept.
      assert (∀ g q, page_table_ s !! pid = Some g → frame s' g = Some q →
                data_ q = contents s d pid) as Hdata.
      { intros g q Hg Hq.
        destruct (wf_table _ Hwf _ _ Hg) as (_ & _ & _ & p & Hp & _).
        rewrite (Hframes g p Hp) in Hq. injection Hq as <-.
        unfold contents. rewrite Hg, Hp. by destruct (page_id_ p =? INVALID_PAGE_ID). }
      split.
      * intros g q Hg Hq _. rewrite Htb in Hg. rewrite Hdisk. by apply (Hdata g q).
      * unfold contents at 1. rewrite Htb.
        destruct (page_table_ s !! pid) as [g|] eqn:Hg; [|by apply Hdisk].
        destruct (wf_table _ Hwf _ _ Hg) as (_ & _ & _ & p & Hp & _).
        rewrite (Hframes g p Hp). apply (Hdata g); [done|by apply Hframes].
  - (* DeletePage *)
    destruct (DeletePage_spec s page_id Hwf)
      as (res & s' & -> & Hwf' & Hnx & Hps & Hcase).
    eexists _, _. split; [reflexivity|].
    destruct (page_table_ s !! page_id) as [f|] eqn:Hlook.
    + destruct Hcase as (p & Hp & Hcase).
      destruct (wf_table _ Hwf _ _ Hlook) as (_ & _ & _ & p0 & Hp0 & Hp0id & Hpin & _).
      assert (p0 = p) as -> by congruence.
      destruct (0 <? pin_count_ p).
      { destruct Hcase as (_ & ->). split_and!; try done; try lia. apply pins_same. }
      destruct Hcase as (_ & Htb & Hfl & Hf & Hfo).
      split_and!; try done; try lia.
      * apply (pins_step s s' f p _ Hp Hf); [cbn; lia|done].
      * intros pid Hpid Hne Hkept.
        assert (pid ≠ page_id) as Hne' by congruence.
        assert (page_table_ s' !! pid = page_table_ s !! pid) as Hsame.
        { rewrite Htb. by apply lookup_delete_ne. }
        assert (∀ g, page_table_ s !! pid = Some g → frame s' g = frame s g) as Hframe.
        { intros g Hg. apply Hfo. intros ->.
          destruct (wf_table _ Hwf _ _ Hg) as (_ & _ & _ & q0 & Hq0 & ? & _).
          assert (q0 = p) as -> by congruence. congruence. }
        split.
        -- intros g q Hg Hq Hclean. rewrite Hsame in Hg. rewrite Hframe in Hq by done.
           by apply (Hkept g q).
        -- unfold contents. rewrite Hsame.
           destruct (page_table_ s !! pid) as [g|] eqn:Hg; [|done].
           by rewrite Hframe.
    + destruct Hcase as (_ & ->). split_and!; try done; try lia. apply pins_same.
Qed.

(** X27. No page is lost in a run of calls.  On a consistent pool, take a
    page that [NewPage] has handed out and whose frame, if it is in the
    pool, is dirty or has the bytes of the disk.  Every run of [NewPage],
    [FetchPage], [UnpinPage], [FlushPage], [FlushAllPages] and [DeletePage]
    calls that does not delete the page, fetches only pages handed out
    before the run and is short enough for the [int] counters, returns, and
    the page has the same bytes afterwards, in a frame or on disk, whatever
    was evicted on the way. *)
Theorem pages_survive_calls (cs : list Call) (s : BufferPoolManager) (d : D) (page_id : Z) :
  wf s →
  next_page_id_ s + Z.of_nat (length cs) ≤ INT_MAX →
  (∀ g p, frame s g = Some p → pin_count_ p + Z.of_nat (length cs) ≤ INT_MAX) →
  (∀ id, CallFetchPage id ∈ cs → 0 ≤ id < next_page_id_ s) →
  0 ≤ page_id < next_page_id_ s → clean_is_on_disk s d page_id →
  CallDeletePage page_id ∉ cs →
  ∃ s' d', calls cs s d = Some (Done (s', d')) ∧ wf s' ∧
    clean_is_on_disk s' d' page_id ∧ contents s' d' page_id = contents s d page_id.
Proof.
  revert s d. induction cs as [|c cs IH]; intros s d Hwf Hnext Hpins Hfetch Hpid Hkept Hdel.
  { by exists s, d. }
  cbn [length] in Hnext, Hpins.
  assert (call_ok s c) as Hok.
  { destruct c as [|id| | | |]; cbn [call_ok]; try done; [lia|].
    split; [apply Hfetch, list_elem_of_here|].
    intros f p _ Hp. specialize (Hpins f p Hp). lia. }
  destruct (call_spec c s d Hwf Hok) as (s1 & d1 & Hrun & Hwf1 & Hnx & Hpin1 & Hkeep).
  destruct (Hkeep page_id Hpid) as [Hkept1 Hsame]; [|done|].
  { intros ->. apply Hdel, list_elem_of_here. }
  destruct (IH s1 d1) as (s' & d' & Hruns & Hwf' & Hkept' & Hsame'); try done.
  - lia.
  - intros g p' Hp'. destruct (Hpin1 g p' Hp') as (p & Hp & Hle).
    specialize (Hpins g p Hp). lia.
  - intros id Hid. specialize (Hfetch id (list_elem_of_further _ _ _ Hid)). lia.
  - lia.
  - intros Hin. apply Hdel. by apply list_elem_of_further.
  - exists s', d'. cbn [calls]. rewrite Hrun. split_and!; try done. congruence.
Qed.

End DiskLaws.

(** X28. The constructor, for a pool of at most [INT_MAX] frames and a
    replacer with [k] above 0, leaves a consistent pool: no page is in it,
    and every frame is in the free list. *)
Theorem construct_is_consistent (pool_size replacer_k : Z) (page_size : nat) :
  0 ≤ pool_size ≤ INT_MAX → 0 < replacer_k →
  wf (construct pool_size replacer_k page_size) ∧
  page_table_ (construct pool_size replacer_k page_size) = ∅ ∧
  ∀ f, f ∈ free_list_ (construct pool_size replacer_k page_size) ↔ 0 ≤ f < pool_size.
Proof.
  intros Hn Hk. pose proof (construct_wf pool_size replacer_k page_size Hn Hk) as Hwf.
  split_and!; try done. intros f. split.
  { intros Hin. by destruct (wf_free _ Hwf f Hin) as (? & _). }
  intros Hf. destruct (wf_cover _ Hwf f Hf) as [Hin|[pid Hlook]]; [done|].
  cbn [construct page_table_] in Hlook. by rewrite lookup_empty in Hlook.
Qed.

End Pool.

(** ** Examples: a pool of two frames of four bytes over a disk that is a
    map from page identifiers to bytes *)

Definition disk : Type := gmap Z (list Z).

Definition disk_write (id : Z) (data : list Z) (d : disk) : disk := <[id := data]> d.

Definition disk_read (id : Z) (d : disk) : list Z := default [] (d !! id).

Lemma disk_read_write (id : Z) (data : list Z) (d : disk) :
  disk_read id (disk_write id data d) = data.
Proof. unfold disk_read, disk_write, disk. by rewrite lookup_insert_eq. Qed.

Lemma disk_read_write_ne (id id' : Z) (data : list Z) (d : disk) :
  id ≠ id' → disk_read id' (disk_write id data d) = disk_read id' d.
Proof. intros Hne. unfold disk_read, disk_write, disk. by rewrite lookup_insert_ne. Qed.

Definition new_pool : BufferPoolManager := construct 2 2 4.

Lemma new_pool_wf : wf new_pool.
Proof. apply construct_wf; unfold INT_MAX; lia. Qed.

(** The pool after one [NewPage]: the page 0 in the frame 1, pinned once. *)
Definition one_page_pool : BufferPoolManager :=
  Eval vm_compute in
    match NewPage disk disk_write new_pool ∅ with
    | Some (Done (_, s, _)) => s
    | _ => new_pool
    end.

Lemma one_page_pool_wf : wf one_page_pool.
Proof.
  pose proof (NewPage_spec disk disk_write new_pool ∅ new_pool_wf) as Hspec.
  assert (one_page_pool = match NewPage disk disk_write new_pool ∅ with
                          | Some (Done (_, s, _)) => s
                          | _ => new_pool
                          end) as -> by (vm_compute; reflexivity).
  destruct (NewPage disk disk_write new_pool ∅) as [[[[[[page_id f]|] s'] d']| |]|];
    try apply new_pool_wf.
  - apply Hspec. vm_compute. reflexivity.
  - destruct Hspec as (-> & _); [vm_compute; reflexivity|]. apply new_pool_wf.
Qed.

Lemma one_page_pool_frames (g : Z) (p : Page) :
  frame one_page_pool g = Some p → pin_count_ p ≤ 1.
Proof.
  unfold frame. destruct (g <? 0); [done|].
  destruct (Z.to_nat g) as [|[|n]]; cbn; intros [= <-] || done; cbn; lia.
Qed.

Lemma NewPage_gives_fresh_pinned_page_witness :
  ∃ res s' d', NewPage disk disk_write new_pool ∅ = Some (Done (res, s', d')) ∧ wf s'.
Proof.
  destruct (NewPage_gives_fresh_pinned_page disk disk_write new_pool ∅ new_pool_wf)
    as (res & s' & d' & Hrun & Hwf & _).
  - vm_compute. reflexivity.
  - by exists res, s', d'.
Defined.

Lemma FetchPage_pins_the_page_witness :
  ∃ res s' d',
    FetchPage disk disk_write disk_read one_page_pool ∅ 0 = Some (Done (res, s', d'))
    ∧ wf s'.
Proof.
  destruct (FetchPage_pins_the_page disk disk_write disk_read one_page_pool ∅ 0
              one_page_pool_wf) as (res & s' & d' & Hrun & Hwf & _).
  - vm_compute. split; [discriminate|reflexivity].
  - intros f p _ Hp%one_page_pool_frames. unfold INT_MAX. lia.
  - by exists res, s', d'.
Defined.

Lemma UnpinPage_keeps_pool_consistent_witness :
  ∃ res s', UnpinPage one_page_pool 0 true = Some (res, s') ∧ wf s'.
Proof.
  destruct (UnpinPage_keeps_pool_consistent one_page_pool 0 true one_page_pool_wf)
    as (res & s' & Hrun & Hwf & _).
  by exists res, s'.
Defined.

Lemma DeletePage_frees_the_frame_witness :
  ∃ res s', DeletePage one_page_pool 0 = Some (Done (res, s')) ∧ wf s'.
Proof.
  destruct (DeletePage_frees_the_frame one_page_pool 0 one_page_pool_wf)
    as (res & s' & Hrun & Hwf & _).
  by exists res, s'.
Defined.

Lemma FlushPage_puts_page_on_disk_witness :
  ∃ res s' d', FlushPage disk disk_write one_page_pool ∅ 0 = Some (res, s', d') ∧ wf s'.
Proof.
  destruct (FlushPage_puts_page_on_disk disk disk_write disk_read disk_read_write
              disk_read_write_ne one_page_pool ∅ 0 one_page_pool_wf)
    as (res & s' & d' & Hrun & Hwf & _).
  by exists res, s', d'.
Defined.

Lemma FlushAllPages_puts_every_page_on_disk_witness :
  ∃ s' d', FlushAllPages disk disk_write one_page_pool ∅ = Some (s', d') ∧
    ∀ page_id, disk_read page_id d' = contents disk disk_read one_page_pool ∅ page_id.
Proof.
  destruct (FlushAllPages_puts_every_page_on_disk disk disk_write disk_read disk_read_write
              disk_read_write_ne one_page_pool ∅ one_page_pool_wf)
    as (s' & d' & Hrun & _ & _ & _ & Hdisk & _).
  by exists s', d'.
Defined.

(** A disk with the page 0 zeroed. *)
Definition zeroed_disk : disk := {[ 0 := [0; 0; 0; 0] ]}.

Lemma one_page_pool_page_0 :
  page_table_ one_page_pool !! 0 = Some 1 ∧
  frame one_page_pool 1 = Some (mkPage [0; 0; 0; 0] 0 1 false).
Proof. split; vm_compute; reflexivity. Qed.

(** The page 0 is unpinned as dirty, two pages are made, which evicts it,
    and it is fetched again. *)
Lemma pages_survive_calls_witness :
  ∃ s' d',
    calls disk disk_write disk_read
      [CallUnpinPage 0 true; CallNewPage; CallNewPage; CallUnpinPage 1 false;
       CallFetchPage 0] one_page_pool zeroed_disk = Some (Done (s', d')) ∧
    contents disk disk_read s' d' 0 = contents disk disk_read one_page_pool zeroed_disk 0.
Proof.
  destruct (pages_survive_calls disk disk_write disk_read disk_read_write disk_read_write_ne
              [CallUnpinPage 0 true; CallNewPage; CallNewPage; CallUnpinPage 1 false;
               CallFetchPage 0] one_page_pool zeroed_disk 0 one_page_pool_wf)
    as (s' & d' & Hrun & _ & _ & Hsame).
  - vm_compute. discriminate.
  - intros g p Hp%one_page_pool_frames. unfold INT_MAX. cbn [length]. lia.
  - intros id Hid. repeat (apply elem_of_cons in Hid as [Hid|Hid]; [try done|]).
    + injection Hid as ->. vm_compute. split; [discriminate|reflexivity].
    + by apply elem_of_nil in Hid.
  - vm_compute. split; [discriminate|reflexivity].
  - intros f p Hf Hp _. destruct one_page_pool_page_0 as [Htable Hframe].
    rewrite Htable in Hf. injection Hf as <-. rewrite Hframe in Hp. injection Hp as <-.
    vm_compute. reflexivity.
  - intros Hin. repeat (apply elem_of_cons in Hin as [Hin|Hin]; [done|]).
    by apply elem_of_nil in Hin.
  - exists s', d'. split; [exact Hrun|exact Hsame].
Defined.

Lemma construct_is_consistent_witness : wf new_pool ∧ page_table_ new_pool = ∅.
Proof.
  destruct (construct_is_consistent 2 2 4) as (Hwf & Htb & _).
  - unfold INT_MAX. lia.
  - lia.
  - by split.
Defined.

End BPM.

(* ================================================================== *)
(** ** Page guards *)
(* ================================================================== *)
Module PageGuard.

(** [BufferPoolManager *] and [Page *]: [None] is [nullptr]. *)
Abbreviation bpm_ptr := (option nat) (only parsing).
Abbreviation page_ptr := (option Z) (only parsing).

(** The data members of [BasicPageGuard] that page_guard.cpp reads and
    writes. *)
Record BasicPageGuard : Type := mkGuard {
  bpm_ : option nat;
  page_ : option Z;
  is_dirty_ : bool
}.

(** One call [bpm->UnpinPage(page->GetPageId(), is_dirty)], recorded with the
    pool and the page it was issued for. *)
Record UnpinCall : Type := mkUnpin {
  call_bpm : nat;
  call_page : Z;
  call_dirty : bool
}.

(** The guard objects alive in the program, by address, and the calls of
    [UnpinPage] issued so far.  A slot is [None] once the destructor of its
    object has run. *)
Record World : Type := mkWorld {
  guards : list (option BasicPageGuard);
  unpins : list UnpinCall
}.

Definition guard_at (w : World) (a : nat) : option BasicPageGuard :=
  mjoin (guards w !! a).

Definition store (a : nat) (g : BasicPageGuard) (w : World) : World :=
  mkWorld (<[a := Some g]> (guards w)) (unpins w).

Definition set_bpm (v : option nat) (g : BasicPageGuard) : BasicPageGuard :=
  mkGuard v (page_ g) (is_dirty_ g).
Definition set_page (v : option Z) (g : BasicPageGuard) : BasicPageGuard :=
  mkGuard (bpm_ g) v (is_dirty_ g).
Definition set_dirty (v : bool) (g : BasicPageGuard) : BasicPageGuard :=
  mkGuard (bpm_ g) (page_ g) v.

(** [BasicPageGuard::Drop] on one guard: the guard afterwards and the call
    of [UnpinPage] it made, if any. *)
Definition Drop_guard (g : BasicPageGuard) : BasicPageGuard * list UnpinCall :=
  let calls :=
    match bpm_ g, page_ g with
    | Some b, Some p => [mkUnpin b p (is_dirty_ g)]
    | _, _ => []
    end in
  (set_page None (set_bpm None g), calls).

(** [this->Drop()] on the object at address [this]. *)
Definition Drop (this : nat) (w : World) : option World :=
  g ← guard_at w this;
  let '(g', calls) := Drop_guard g in
  Some (mkWorld (<[this := Some g']> (guards w)) (unpins w ++ calls)).

(** One assignment [this->f = that.f] or [that.f = nullptr], on the store:
    [this] and [that] may be the same object. *)
Definition assign (dst : nat) (upd : BasicPageGuard → BasicPageGuard → BasicPageGuard)
    (src : nat) (w : World) : option World :=
  d ← guard_at w dst; s ← guard_at w src; Some (store dst (upd s d) w).

(** The five statements shared by the move constructor and the move
    assignment. *)
Definition take_over (this that : nat) (w : World) : option World :=
  w1 ← assign this (λ s d, set_bpm (bpm_ s) d) that w;
  w2 ← assign this (λ s d, set_page (page_ s) d) that w1;
  w3 ← assign that (λ _ d, set_page None d) that w2;
  w4 ← assign that (λ _ d, set_bpm None d) that w3;
  assign this (λ s d, set_dirty (is_dirty_ s) d) that w4.

(** [BasicPageGuard::BasicPageGuard(BasicPageGuard &&that)]: the new object
    is placed at the first unused address; the body assigns each of its
    three members. *)
Definition MoveConstruct (that : nat) (w : World) : option (nat * World) :=
  _ ← guard_at w that;
  let this := length (guards w) in
  w' ← take_over this that
         (mkWorld (guards w ++ [Some (mkGuard None None false)]) (unpins w));
  Some (this, w').

(** [BasicPageGuard::operator=(BasicPageGuard &&that)] *)
Definition MoveAssign (this that : nat) (w : World) : option World :=
  w1 ← Drop this w; take_over this that w1.

(** [BasicPageGuard::~BasicPageGuard()]: [Drop], then the object is gone. *)
Definition Destroy (this : nat) (w : World) : option World :=
  w1 ← Drop this w;
  Some (mkWorld (<[this := None]> (guards w1)) (unpins w1)).

(** Programs over guards. *)
Inductive Op : Type :=
| OpDrop (this : nat)
| OpMoveConstruct (that : nat)
| OpMoveAssign (this that : nat)
| OpDestroy (this : nat).

Definition exec (w : World) (o : Op) : option World :=
  match o with
  | OpDrop this => Drop this w
  | OpMoveConstruct that => snd <$> MoveConstruct that w
  | OpMoveAssign this that => MoveAssign this that w
  | OpDestroy this => Destroy this w
  end.

Fixpoint run (ops : list Op) (w : World) : option World :=
  match ops with
  | [] => Some w
  | o :: ops' => w' ← exec w o; run ops' w'
  end.

(** A guard holds a pin of page [p] of pool [b]. *)
Definition holds (b : nat) (p : Z) (g : option BasicPageGuard) : bool :=
  match g with
  | Some g =>
      match bpm_ g, page_ g with
      | Some b', Some p' => (b' =? b)%nat && (p' =? p)
      | _, _ => false
      end
  | None => false
  end.

Definition holders (b : nat) (p : Z) (w : World) : nat :=
  length (List.filter (holds b p) (guards w)).

Definition released (b : nat) (p : Z) (w : World) : nat :=
  length (List.filter (λ c, (call_bpm c =? b)%nat && (call_page c =? p)) (unpins w)).

(** A dropped or moved-from guard. *)
Definition is_null (g : BasicPageGuard) : Prop := bpm_ g = None ∧ page_ g = None.

Lemma guard_at_Some w a g : guard_at w a = Some g ↔ guards w !! a = Some (Some g).
Proof.
  unfold guard_at. destruct (guards w !! a) as [[g'|]|]; simpl; split; congruence.
Qed.

Lemma guard_at_store_eq w a g g0 :
  guard_at w a = Some g0 → guard_at (store a g w) a = Some g.
Proof.
  rewrite !guard_at_Some. simpl. intros H. apply list_lookup_insert_eq. by eapply lookup_lt_Some.
Qed.

Lemma guard_at_store_ne w a a' g : a ≠ a' → guard_at (store a g w) a' = guard_at w a'.
Proof. intros H. unfold guard_at, store. simpl. by rewrite list_lookup_insert_ne. Qed.

Lemma store_store w a g g' : store a g (store a g' w) = store a g w.
Proof. unfold store. simpl. by rewrite list_insert_insert_eq. Qed.

(** Counting under an update of one slot. *)
Lemma filter_insert_length {A} (f : A → bool) (l : list A) a old new :
  l !! a = Some old →
  (length (List.filter f (<[a := new]> l)) + (if f old then 1 else 0) =
   length (List.filter f l) + (if f new then 1 else 0))%nat.
Proof.
  revert a. induction l as [|x l IH]; intros [|a] Hl; simpl in *; try done.
  - injection Hl as ->. destruct (f new), (f old); simpl; lia.
  - specialize (IH a Hl). destruct (f x); simpl; lia.
Qed.

Lemma holders_store w a g g0 b p :
  guard_at w a = Some g0 →
  (holders b p (store a g w) + (if holds b p (Some g0) then 1 else 0) =
   holders b p w + (if holds b p (Some g) then 1 else 0))%nat.
Proof.
  intros H%guard_at_Some. unfold holders, store. cbn [guards]. by apply filter_insert_length.
Qed.

Lemma holds_null b p g : is_null g → holds b p (Some g) = false.
Proof. destruct g as [[?|] [?|] ?]; intros [? ?]; simpl in *; congruence. Qed.

Lemma Drop_guard_null g : is_null (Drop_guard g).1.
Proof. by split. Qed.

Lemma Drop_guard_of_null g : is_null g → Drop_guard g = (g, []).
Proof. destruct g as [b p d]. intros [Hb Hp]; simpl in *. by subst. Qed.

Lemma Drop_guard_released g b p :
  length (List.filter (λ c, (call_bpm c =? b)%nat && (call_page c =? p)) (Drop_guard g).2)
  = if holds b p (Some g) then 1%nat else 0%nat.
Proof.
  destruct g as [[b'|] [p'|] d]; simpl; try done.
  by destruct ((b' =? b)%nat && (p' =? p)).
Qed.

Lemma Drop_spec this w w1 :
  Drop this w = Some w1 →
  ∃ g, guard_at w this = Some g ∧
       w1 = mkWorld (<[this := Some (Drop_guard g).1]> (guards w)) (unpins w ++ (Drop_guard g).2).
Proof.
  unfold Drop. destruct (guard_at w this) as [g|] eqn:Hg; simpl; [|done].
  intros [= <-]. eauto.
Qed.

Lemma Drop_conserves this w w1 b p :
  Drop this w = Some w1 →
  (holders b p w1 + released b p w1 = holders b p w + released b p w)%nat.
Proof.
  intros (g & Hg & ->)%Drop_spec.
  pose proof (holders_store w this (Drop_guard g).1 g b p Hg) as Hh.
  rewrite (holds_null b p _ (Drop_guard_null g)) in Hh.
  unfold released. cbn [unpins]. rewrite List.filter_app, length_app, Drop_guard_released.
  unfold holders, store in *. cbn [guards] in *. lia.
Qed.

Lemma assign_spec dst upd src w w' :
  assign dst upd src w = Some w' →
  ∃ d s, guard_at w dst = Some d ∧ guard_at w src = Some s ∧ w' = store dst (upd s d) w.
Proof.
  unfold assign. destruct (guard_at w dst) as [d|]; simpl; [|done].
  destruct (guard_at w src) as [s|]; simpl; [|done]. intros [= <-]. eauto.
Qed.

Lemma unpins_store a g w : unpins (store a g w) = unpins w.
Proof. done. Qed.

Lemma length_guards_store a g w : length (guards (store a g w)) = length (guards w).
Proof. unfold store. cbn [guards]. apply length_insert. Qed.

Lemma assign_eq dst upd src w d s :
  guard_at w dst = Some d → guard_at w src = Some s →
  assign dst upd src w = Some (store dst (upd s d) w).
Proof. intros Hd Hs. unfold assign. by rewrite Hd, Hs. Qed.

(** The five assignments when [this] and [that] are one object that holds
    nothing. *)
Lemma take_over_self this w dd :
  guard_at w this = Some (mkGuard None None dd) →
  take_over this this w = Some (store this (mkGuard None None dd) w).
Proof.
  intros H. unfold take_over.
  erewrite assign_eq by done. cbn [mbind option_bind set_bpm bpm_ page_ is_dirty_].
  erewrite assign_eq by (by eapply guard_at_store_eq).
  cbn [mbind option_bind set_page bpm_ page_ is_dirty_]. rewrite store_store.
  erewrite assign_eq by (by eapply guard_at_store_eq).
  cbn [mbind option_bind set_page bpm_ page_ is_dirty_]. rewrite store_store.
  erewrite assign_eq by (by eapply guard_at_store_eq).
  cbn [mbind option_bind set_bpm bpm_ page_ is_dirty_]. rewrite store_store.
  erewrite assign_eq by (by eapply guard_at_store_eq).
  cbn [set_dirty bpm_ page_ is_dirty_]. by rewrite store_store.
Qed.

(** The five assignments between two objects. *)
Lemma take_over_other this that w d s :
  this ≠ that → guard_at w this = Some d → guard_at w that = Some s →
  take_over this that w
  = Some (store this (mkGuard (bpm_ s) (page_ s) (is_dirty_ s))
            (store that (mkGuard None None (is_dirty_ s))
               (store this (mkGuard (bpm_ s) (page_ s) (is_dirty_ d)) w))).
Proof.
  intros Hne Hd Hs. unfold take_over.
  erewrite assign_eq by done. cbn [mbind option_bind set_bpm bpm_ page_ is_dirty_].
  erewrite assign_eq
    by (by first [eapply guard_at_store_eq | rewrite guard_at_store_ne]).
  cbn [mbind option_bind set_page bpm_ page_ is_dirty_]. rewrite store_store.
  assert (guard_at (store this (mkGuard (bpm_ s) (page_ s) (is_dirty_ d)) w) that = Some s)
    as Hs1 by (by rewrite guard_at_store_ne).
  erewrite assign_eq by done.
  cbn [mbind option_bind set_page bpm_ page_ is_dirty_].
  erewrite assign_eq by (by eapply guard_at_store_eq).
  cbn [mbind option_bind set_bpm bpm_ page_ is_dirty_]. rewrite store_store.
  erewrite assign_eq
    by first [by eapply guard_at_store_eq
             | rewrite guard_at_store_ne by done; by eapply guard_at_store_eq].
  done.
Qed.

Lemma holders_insert w a (new old : option BasicPageGuard) u b p :
  guards w !! a = Some old →
  (holders b p (mkWorld (<[a := new]> (guards w)) u) + (if holds b p old then 1 else 0) =
   holders b p w + (if holds b p new then 1 else 0))%nat.
Proof. intros H. unfold holders. cbn [guards]. by apply filter_insert_length. Qed.

Lemma take_over_defined this that w w' :
  take_over this that w = Some w' → ∃ s, guard_at w that = Some s.
Proof.
  unfold take_over. destruct (assign this _ that w) as [w1|] eqn:H1; [|done].
  intros _. apply assign_spec in H1 as (d & s & _ & Hs & _). eauto.
Qed.

(** Taking over into an object that holds nothing moves the pin: no call
    of [UnpinPage], the same number of holders, and the source left null. *)
Lemma take_over_conserves this that w w' d :
  guard_at w this = Some d → is_null d → take_over this that w = Some w' →
  unpins w' = unpins w ∧
  (∀ b p, holders b p w' = holders b p w) ∧
  (∃ s', guard_at w' that = Some s' ∧ is_null s').
Proof.
  intros Hd Hnull Ht. destruct (take_over_defined _ _ _ _ Ht) as [s Hs].
  destruct (decide (this = that)) as [->|Hne].
  - rewrite Hs in Hd. injection Hd as ->. destruct d as [db dp dd].
    destruct Hnull as [Hb Hp]. cbn [bpm_ page_] in Hb, Hp. subst db dp.
    rewrite (take_over_self _ _ _ Hs) in Ht. injection Ht as <-.
    split_and!; [done| |].
    + intros b p. pose proof (holders_store w that (mkGuard None None dd) _ b p Hs) as Hh.
      apply Nat.add_cancel_r in Hh. exact Hh.
    + exists (mkGuard None None dd). split; [by eapply guard_at_store_eq|done].
  - rewrite (take_over_other _ _ _ _ _ Hne Hd Hs) in Ht. injection Ht as <-.
    split_and!; [done| |].
    + intros b p.
      pose proof (holders_store w this (mkGuard (bpm_ s) (page_ s) (is_dirty_ d))
                    d b p Hd) as Hh1.
      pose proof (holders_store _ that (mkGuard None None (is_dirty_ s)) s b p
                    (eq_trans (guard_at_store_ne w this that
                                 (mkGuard (bpm_ s) (page_ s) (is_dirty_ d)) Hne) Hs)) as Hh2.
      assert (guard_at (store that (mkGuard None None (is_dirty_ s))
                          (store this (mkGuard (bpm_ s) (page_ s) (is_dirty_ d)) w)) this
              = Some (mkGuard (bpm_ s) (page_ s) (is_dirty_ d))) as H3
        by (rewrite guard_at_store_ne by done; by eapply guard_at_store_eq).
      pose proof (holders_store _ this (mkGuard (bpm_ s) (page_ s) (is_dirty_ s))
                    _ b p H3) as Hh3.
      rewrite (holds_null b p d Hnull) in Hh1.
      rewrite (holds_null b p (mkGuard None None (is_dirty_ s))) in Hh2 by done.
      unfold holds in Hh1, Hh2, Hh3. cbn [bpm_ page_] in Hh1, Hh2, Hh3.
      destruct (match bpm_ s with Some b' => _ | None => _ end); lia.
    + exists (mkGuard None None (is_dirty_ s)). split; [|done].
      rewrite guard_at_store_ne by done.
      eapply guard_at_store_eq. by rewrite guard_at_store_ne.
Qed.

Lemma Drop_leaves_null this w w1 :
  Drop this w = Some w1 → ∃ g, guard_at w1 this = Some g ∧ is_null g.
Proof.
  intros (g & Hg & ->)%Drop_spec. exists (Drop_guard g).1. split; [|done].
  by apply (guard_at_store_eq w this _ g).
Qed.

Lemma Drop_null this w g :
  guard_at w this = Some g → is_null g → Drop this w = Some (store this g w).
Proof.
  intros Hg Hn. unfold Drop. rewrite Hg. cbn [mbind option_bind].
  rewrite (Drop_guard_of_null g Hn). unfold store. by rewrite app_nil_r.
Qed.

Lemma Drop_twice this w w1 : Drop this w = Some w1 → Drop this w1 = Some w1.
Proof.
  intros H. destruct (Drop_leaves_null _ _ _ H) as (g & Hg & Hn).
  rewrite (Drop_null _ _ _ Hg Hn). f_equal.
  apply Drop_spec in H as (g0 & Hg0 & ->).
  apply guard_at_Some in Hg. cbn [guards] in Hg.
  rewrite list_lookup_insert_eq in Hg by (apply guard_at_Some in Hg0; by eapply lookup_lt_Some).
  injection Hg as <-. unfold store. cbn [guards unpins]. by rewrite list_insert_insert_eq.
Qed.

Lemma Drop_unpins_null this w w1 g :
  guard_at w this = Some g → is_null g → Drop this w = Some w1 → unpins w1 = unpins w.
Proof. intros Hg Hn. rewrite (Drop_null _ _ _ Hg Hn). by intros [= <-]. Qed.

Lemma Destroy_unpins_null this w w1 g :
  guard_at w this = Some g → is_null g → Destroy this w = Some w1 → unpins w1 = unpins w.
Proof.
  intros Hg Hn. unfold Destroy. rewrite (Drop_null _ _ _ Hg Hn).
  cbn [mbind option_bind]. by intros [= <-].
Qed.

Lemma MoveAssign_spec this that w w' :
  MoveAssign this that w = Some w' →
  ∃ w1, Drop this w = Some w1 ∧ take_over this that w1 = Some w'.
Proof.
  unfold MoveAssign. destruct (Drop this w) as [w1|]; [|done]. cbn [mbind option_bind]. eauto.
Qed.

Lemma MoveAssign_unpins_null this that w w1 g :
  guard_at w this = Some g → is_null g → MoveAssign this that w = Some w1 →
  unpins w1 = unpins w.
Proof.
  intros Hg Hn (w0 & Hdrop & Ht)%MoveAssign_spec.
  destruct (Drop_leaves_null _ _ _ Hdrop) as (g' & Hg' & Hn').
  destruct (take_over_conserves _ _ _ _ _ Hg' Hn' Ht) as (-> & _ & _).
  by eapply Drop_unpins_null.
Qed.

Lemma MoveAssign_leaves_null this that w w1 :
  MoveAssign this that w = Some w1 → ∃ g, guard_at w1 that = Some g ∧ is_null g.
Proof.
  intros (w0 & Hdrop & Ht)%MoveAssign_spec.
  destruct (Drop_leaves_null _ _ _ Hdrop) as (g' & Hg' & Hn').
  by destruct (take_over_conserves _ _ _ _ _ Hg' Hn' Ht) as (_ & _ & ?).
Qed.

Lemma MoveAssign_conserves this that w w1 b p :
  MoveAssign this that w = Some w1 →
  (holders b p w1 + released b p w1 = holders b p w + released b p w)%nat.
Proof.
  intros (w0 & Hdrop & Ht)%MoveAssign_spec.
  destruct (Drop_leaves_null _ _ _ Hdrop) as (g' & Hg' & Hn').
  destruct (take_over_conserves _ _ _ _ _ Hg' Hn' Ht) as (Hu & Hh & _).
  rewrite Hh. unfold released. rewrite Hu. exact (Drop_conserves this w w0 b p Hdrop).
Qed.

Lemma Destroy_conserves this w w1 b p :
  Destroy this w = Some w1 →
  (holders b p w1 + released b p w1 = holders b p w + released b p w)%nat.
Proof.
  unfold Destroy. destruct (Drop this w) as [w0|] eqn:Hdrop; [|done].
  cbn [mbind option_bind]. intros [= <-].
  destruct (Drop_leaves_null _ _ _ Hdrop) as (g' & Hg' & Hn').
  pose proof (holders_insert w0 this None (Some g') (unpins w0) b p
                (proj1 (guard_at_Some _ _ _) Hg')) as Hh.
  rewrite (holds_null b p g' Hn') in Hh. cbn [holds] in Hh.
  pose proof (Drop_conserves this w w0 b p Hdrop) as Hc.
  unfold released in *. cbn [unpins]. lia.
Qed.

Lemma MoveConstruct_spec that w this w' :
  MoveConstruct that w = Some (this, w') →
  this = length (guards w) ∧
  take_over this that (mkWorld (guards w ++ [Some (mkGuard None None false)]) (unpins w))
  = Some w'.
Proof.
  unfold MoveConstruct. destruct (guard_at w that); [|done]. cbn [mbind option_bind].
  destruct (take_over _ _ _) as [w1|] eqn:Ht; [|done]. cbn [mbind option_bind].
  intros [= <- <-]. by split.
Qed.

Lemma guard_at_fresh w u g :
  guard_at (mkWorld (guards w ++ [Some g]) u) (length (guards w)) = Some g.
Proof.
  unfold guard_at. cbn [guards]. rewrite lookup_app_r by lia.
  by rewrite Nat.sub_diag.
Qed.

Lemma holders_fresh w u g b p :
  is_null g → holders b p (mkWorld (guards w ++ [Some g]) u) = holders b p w.
Proof.
  intros Hn. unfold holders. cbn [guards]. rewrite List.filter_app, length_app.
  cbn [List.filter]. rewrite (holds_null b p g Hn). cbn [length]. lia.
Qed.

Lemma MoveConstruct_conserves that w this w1 b p :
  MoveConstruct that w = Some (this, w1) →
  (holders b p w1 + released b p w1 = holders b p w + released b p w)%nat.
Proof.
  intros [-> Ht]%MoveConstruct_spec.
  destruct (take_over_conserves _ _ _ _ _ (guard_at_fresh w (unpins w) (mkGuard None None false))
              (conj eq_refl eq_refl) Ht) as (Hu & Hh & _).
  rewrite Hh, holders_fresh by done. unfold released. by rewrite Hu.
Qed.

Lemma MoveConstruct_leaves_null that w this w1 :
  MoveConstruct that w = Some (this, w1) → ∃ g, guard_at w1 that = Some g ∧ is_null g.
Proof.
  intros [-> Ht]%MoveConstruct_spec.
  by destruct (take_over_conserves _ _ _ _ _ (guard_at_fresh w (unpins w) (mkGuard None None false))
              (conj eq_refl eq_refl) Ht) as (_ & _ & ?).
Qed.

Lemma exec_conserves w o w1 b p :
  exec w o = Some w1 →
  (holders b p w1 + released b p w1 = holders b p w + released b p w)%nat.
Proof.
  destruct o as [this|that|this that|this]; cbn [exec].
  - apply Drop_conserves.
  - destruct (MoveConstruct that w) as [[this w']|] eqn:H; [|done].
    intros [= <-]. by eapply MoveConstruct_conserves.
  - apply MoveAssign_conserves.
  - apply Destroy_conserves.
Qed.

Lemma run_conserves ops w w1 b p :
  run ops w = Some w1 →
  (holders b p w1 + released b p w1 = holders b p w + released b p w)%nat.
Proof.
  revert w. induction ops as [|o ops IH]; intros w; cbn [run].
  - by intros [= <-].
  - destruct (exec w o) as [w0|] eqn:He; [|done]. cbn [mbind option_bind].
    intros H. rewrite (IH _ H). by eapply exec_conserves.
Qed.

Lemma guard_at_lt w a g : guard_at w a = Some g → (a < length (guards w))%nat.
Proof. intros H%guard_at_Some. by eapply lookup_lt_Some. Qed.

Lemma guard_at_insert_ne w a a' x u :
  a ≠ a' → guard_at (mkWorld (<[a := x]> (guards w)) u) a' = guard_at w a'.
Proof. intros H. unfold guard_at. cbn [guards]. by rewrite list_lookup_insert_ne. Qed.

Lemma guard_at_old w u x a :
  (a < length (guards w))%nat → guard_at (mkWorld (guards w ++ [x]) u) a = guard_at w a.
Proof. intros H. unfold guard_at. cbn [guards]. by rewrite lookup_app_l. Qed.

Lemma store_same w a g : guard_at w a = Some g → store a g w = w.
Proof.
  intros H%guard_at_Some. destruct w as [gs us]. unfold store. cbn [guards unpins] in *.
  by rewrite list_insert_id.
Qed.

Lemma Drop_total this w g :
  guard_at w this = Some g → ∃ w1, Drop this w = Some w1.
Proof. intros H. unfold Drop. rewrite H. cbn [mbind option_bind]. destruct (Drop_guard g). eauto. Qed.

Lemma take_over_total this that w d s :
  guard_at w this = Some d → is_null d → guard_at w that = Some s →
  ∃ w', take_over this that w = Some w'.
Proof.
  intros Hd Hn Hs. destruct (decide (this = that)) as [->|Hne].
  - rewrite Hs in Hd. injection Hd as ->. destruct d as [db dp dd].
    destruct Hn as [Hb Hp]. cbn [bpm_ page_] in Hb, Hp. subst db dp.
    rewrite (take_over_self _ _ _ Hs). eauto.
  - rewrite (take_over_other _ _ _ _ _ Hne Hd Hs). eauto.
Qed.

Lemma MoveAssign_total this that w d s :
  guard_at w this = Some d → guard_at w that = Some s →
  ∃ w1, MoveAssign this that w = Some w1.
Proof.
  intros Hd Hs. destruct (Drop_total _ _ _ Hd) as [w0 Hdrop].
  unfold MoveAssign. rewrite Hdrop. cbn [mbind option_bind].
  destruct (Drop_leaves_null _ _ _ Hdrop) as (g' & Hg' & Hn').
  destruct (decide (this = that)) as [->|Hne].
  - by eapply take_over_total.
  - eapply take_over_total; [done..|].
    apply Drop_spec in Hdrop as (g & _ & ->). rewrite guard_at_insert_ne by done. done.
Qed.

Lemma MoveConstruct_total that w s :
  guard_at w that = Some s →
  ∃ this w1, MoveConstruct that w = Some (this, w1) ∧ guard_at w1 this = Some s.
Proof.
  intros Hs. pose proof (guard_at_lt _ _ _ Hs) as Hlt.
  unfold MoveConstruct. rewrite Hs. cbn [mbind option_bind].
  assert (guard_at (mkWorld (guards w ++ [Some (mkGuard None None false)]) (unpins w)) that
          = Some s) as Hs0 by (by rewrite guard_at_old).
  assert (length (guards w) ≠ that) as Hne by lia.
  rewrite (take_over_other _ _ _ _ _ Hne (guard_at_fresh w (unpins w) _) Hs0).
  cbn [mbind option_bind]. eexists _, _. split; [done|].
  destruct s as [sb sp sd]. cbn [bpm_ page_ is_dirty_].
  eapply guard_at_store_eq. rewrite guard_at_store_ne by done.
  eapply guard_at_store_eq. apply guard_at_fresh.
Qed.

(** [Drop] and the destructor of a guard that holds a pin: the one call of
    [UnpinPage]. *)
Lemma Drop_holding this w g b p :
  guard_at w this = Some g → bpm_ g = Some b → page_ g = Some p →
  Drop this w
  = Some (mkWorld (<[this := Some (mkGuard None None (is_dirty_ g))]> (guards w))
                  (unpins w ++ [mkUnpin b p (is_dirty_ g)])).
Proof.
  intros Hg Hb Hp. unfold Drop. rewrite Hg. cbn [mbind option_bind].
  unfold Drop_guard. by rewrite Hb, Hp.
Qed.

Lemma Destroy_holding this w g b p :
  guard_at w this = Some g → bpm_ g = Some b → page_ g = Some p →
  Destroy this w
  = Some (mkWorld (<[this := None]> (guards w)) (unpins w ++ [mkUnpin b p (is_dirty_ g)])).
Proof.
  intros Hg Hb Hp. unfold Destroy. rewrite (Drop_holding this w g b p Hg Hb Hp).
  cbn [mbind option_bind guards unpins]. by rewrite list_insert_insert_eq.
Qed.

(** No guard is left that holds a pin. *)
Definition all_released (w : World) : Prop :=
  ∀ a g, guard_at w a = Some g → is_null g.

Lemma all_released_holders w b p : all_released w → holders b p w = 0%nat.
Proof.
  intros Hall. unfold holders.
  assert (∀ l : list (option BasicPageGuard),
            (∀ x, x ∈ l → holds b p x = false) → length (List.filter (holds b p) l) = 0%nat)
    as Hnone.
  { induction l as [|x l IH]; intros Hl; [done|]. cbn [List.filter].
    rewrite (Hl x) by apply list_elem_of_here.
    apply IH. intros y Hy. apply Hl. by apply list_elem_of_further. }
  apply Hnone. intros [g|] Hx; [|done].
  apply list_elem_of_lookup in Hx as [a Ha].
  apply holds_null, (Hall a). by apply guard_at_Some.
Qed.

(** C10.  [BasicPageGuard::Drop] is idempotent and every pin is released
    exactly once.  (1) After [Drop] the guard's pool and page references
    are null and a second [Drop] changes nothing.  (2), (3) After a move
    assignment or a move construction the moved-from guard is null, and
    the new guard of a move construction has the source's members.
    (4) Over a null guard [Drop] changes nothing, the destructor only ends
    the object's life, and a move assignment calls no [UnpinPage].
    (5) Along any program of drops, moves and destructions, the number of
    guards that hold a pin of a page plus the number of [UnpinPage] calls
    issued for it is constant: a pin leaves the set of holders only by
    its one call of [UnpinPage].
    (6) On a guard that holds a pin, [Drop] and the destructor each call
    [UnpinPage] once, for the guard's page with the guard's dirty flag, and
    the destructor ends the object's life, so that no later call can
    release the pin again; a move assignment over such a guard makes that
    one call for the pin the guard held.
    (7) Once a program has left no guard that holds a pin, all guards
    being dropped, moved from or destroyed, every page has as many
    [UnpinPage] calls more as guards held a pin of it at the start. *)
Theorem Drop_idempotent_release_once :
  (∀ this w g, guard_at w this = Some g →
     ∃ w1, Drop this w = Some w1 ∧
           (∃ g1, guard_at w1 this = Some g1 ∧ is_null g1) ∧
           Drop this w1 = Some w1) ∧
  (∀ this that w d s, guard_at w this = Some d → guard_at w that = Some s →
     ∃ w1, MoveAssign this that w = Some w1 ∧
           ∃ g1, guard_at w1 that = Some g1 ∧ is_null g1) ∧
  (∀ that w s, guard_at w that = Some s →
     ∃ this w1, MoveConstruct that w = Some (this, w1) ∧
                guard_at w1 this = Some s ∧
                ∃ g1, guard_at w1 that = Some g1 ∧ is_null g1) ∧
  (∀ this w g, guard_at w this = Some g → is_null g →
     Drop this w = Some w ∧
     Destroy this w = Some (mkWorld (<[this := None]> (guards w)) (unpins w)) ∧
     ∀ that s, guard_at w that = Some s →
       ∃ w1, MoveAssign this that w = Some w1 ∧ unpins w1 = unpins w) ∧
  (∀ ops w w1 b p, run ops w = Some w1 →
     (holders b p w1 + released b p w1 = holders b p w + released b p w)%nat) ∧
  (∀ this w g b p, guard_at w this = Some g → bpm_ g = Some b → page_ g = Some p →
     Drop this w
     = Some (mkWorld (<[this := Some (mkGuard None None (is_dirty_ g))]> (guards w))
                     (unpins w ++ [mkUnpin b p (is_dirty_ g)])) ∧
     (∃ w1, Destroy this w = Some w1 ∧
            guards w1 = <[this := None]> (guards w) ∧
            unpins w1 = unpins w ++ [mkUnpin b p (is_dirty_ g)] ∧
            guard_at w1 this = None ∧
            Drop this w1 = None ∧ Destroy this w1 = None) ∧
     ∀ that s, guard_at w that = Some s →
       ∃ w1, MoveAssign this that w = Some w1 ∧
             unpins w1 = unpins w ++ [mkUnpin b p (is_dirty_ g)]) ∧
  (∀ ops w w1 b p, run ops w = Some w1 → all_released w1 →
     released b p w1 = (holders b p w + released b p w)%nat).
Proof.
  split_and!.
  - intros this w g Hg. destruct (Drop_total _ _ _ Hg) as [w1 Hdrop].
    exists w1. split_and!; [done|exact (Drop_leaves_null _ _ _ Hdrop)|exact (Drop_twice _ _ _ Hdrop)].
  - intros this that w d s Hd Hs. destruct (MoveAssign_total _ _ _ _ _ Hd Hs) as [w1 H].
    exists w1. split; [done|exact (MoveAssign_leaves_null _ _ _ _ H)].
  - intros that w s Hs. destruct (MoveConstruct_total _ _ _ Hs) as (this & w1 & H & Hthis).
    exists this, w1. split_and!; [done..|exact (MoveConstruct_leaves_null _ _ _ _ H)].
  - intros this w g Hg Hn.
    assert (Drop this w = Some w) as Hdrop
      by (by rewrite (Drop_null _ _ _ Hg Hn), (store_same _ _ _ Hg)).
    split_and!; [done| |].
    + unfold Destroy. by rewrite Hdrop.
    + intros that s Hs. destruct (MoveAssign_total _ _ _ _ _ Hg Hs) as [w1 H].
      exists w1. split; [done|exact (MoveAssign_unpins_null _ _ _ _ _ Hg Hn H)].
  - intros ops w w1 b p. apply run_conserves.
  - intros this w g b p Hg Hb Hp. pose proof (guard_at_lt _ _ _ Hg) as Hlt.
    split_and!.
    + by apply Drop_holding.
    + eexists. split; [by apply (Destroy_holding this w g b p)|].
      assert (guard_at (mkWorld (<[this := None]> (guards w))
                                (unpins w ++ [mkUnpin b p (is_dirty_ g)])) this = None)
        as Hgone.
      { unfold guard_at. cbn [guards]. by rewrite list_lookup_insert_eq. }
      split_and!; [done|done|done| |].
      * unfold Drop. by rewrite Hgone.
      * unfold Destroy, Drop. by rewrite Hgone.
    + intros that s Hs. destruct (MoveAssign_total _ _ _ _ _ Hg Hs) as [w1 H].
      exists w1. split; [done|].
      apply MoveAssign_spec in H as (w0 & Hdrop & Ht).
      destruct (Drop_leaves_null _ _ _ Hdrop) as (g' & Hg' & Hn').
      destruct (take_over_conserves _ _ _ _ _ Hg' Hn' Ht) as (-> & _ & _).
      rewrite (Drop_holding this w g b p Hg Hb Hp) in Hdrop. by injection Hdrop as <-.
  - intros ops w w1 b p Hrun Hall.
    pose proof (run_conserves ops w w1 b p Hrun) as Hc.
    rewrite (all_released_holders w1 b p Hall) in Hc. lia.
Qed.

(** One guard on page 5 of pool 0, moved into a new guard, move-assigned
    back, dropped twice, and both objects destroyed. *)
Definition guard_program : list Op :=
  [OpMoveConstruct 0; OpMoveAssign 0 1; OpDrop 0; OpDrop 0; OpDestroy 1; OpDestroy 0]%nat.

(** The guard moved into a new one, and both destroyed, the one that holds
    the pin last. *)
Definition destroy_program : list Op :=
  [OpMoveConstruct 0; OpDestroy 0; OpDestroy 1]%nat.

Definition one_guard : World := mkWorld [Some (mkGuard (Some 0%nat) (Some 5) true)] [].

Lemma Drop_idempotent_release_once_witness :
  run guard_program one_guard = Some (mkWorld [None; None] [mkUnpin 0 5 true]) ∧
  (holders 0 5 (mkWorld [None; None] [mkUnpin 0 5 true])
   + released 0 5 (mkWorld [None; None] [mkUnpin 0 5 true])
   = holders 0 5 one_guard + released 0 5 one_guard)%nat ∧
  Destroy 0 one_guard = Some (mkWorld [None] [mkUnpin 0 5 true]) ∧
  run destroy_program one_guard = Some (mkWorld [None; None] [mkUnpin 0 5 true]) ∧
  released 0 5 (mkWorld [None; None] [mkUnpin 0 5 true]) = 1%nat.
Proof.
  destruct Drop_idempotent_release_once as (_ & _ & _ & _ & H5 & H6 & H7).
  split_and!.
  - reflexivity.
  - by apply (H5 guard_program).
  - reflexivity.
  - reflexivity.
  - apply (H7 destroy_program one_guard); [reflexivity|].
    intros [|[|a]] g Hg; discriminate Hg.
Defined.

End PageGuard.

(** * storage/disk/disk_scheduler.cpp *)

Module Disk.

(** [DiskRequest]: [data_] is the address of the page-sized buffer and
    [callback_] names the [std::promise<bool>] of the request. *)
Record DiskRequest : Type := mkRequest {
  is_write_ : bool;
  data_ : Z;
  page_id_ : Z;
  callback_ : nat
}.

(** What the worker thread has done when it stops running: it has left the
    loop at the [std::nullopt] sentinel, or it is blocked in
    [request_queue_.Get()] on an empty queue.  Both carry the state of the
    disk manager and the promises fulfilled so far, oldest first. *)
Inductive Worker (D : Type) : Type :=
| Exited (rest : list (option DiskRequest)) (d : D) (signals : list (nat * bool))
| Blocked (d : D) (signals : list (nat * bool)).
Arguments Exited {D} _ _ _.
Arguments Blocked {D} _ _.

Section Worker.

(** Modelled from the spec: the [DiskManager] behind the scheduler, which
    is not part of the sources.  Its state [D] covers the file and the page
    buffers; [WritePage] and [ReadPage] are the blocking [write_page(id, buf)]
    and [read_page(id, buf)].  The boolean says whether the I/O succeeded:
    the calls are statements in the worker, so it cannot observe it. *)
Variable D : Type.
Variable WritePage : Z → Z → D → D * bool.
Variable ReadPage : Z → Z → D → D * bool.

(** The [if (request->is_write_)] statement of the loop body. *)
Definition dispatch (r : DiskRequest) (d : D) : D * bool :=
  if is_write_ r then WritePage (page_id_ r) (data_ r) d
  else ReadPage (page_id_ r) (data_ r) d.

(** [DiskScheduler::StartWorkerThread] over the contents of
    [request_queue_], oldest first. *)
Fixpoint StartWorkerThread (queue : list (option DiskRequest)) (d : D)
    (signals : list (nat * bool)) : Worker D :=
  match queue with
  | [] => Blocked d signals
  | None :: rest => Exited rest d signals
  | Some request :: rest =>
      let d' := (dispatch request d).1 in
      StartWorkerThread rest d' (signals ++ [(callback_ request, true)])
  end.

(** [DiskScheduler::Schedule] and the [Put] of the destructor. *)
Definition Schedule (r : DiskRequest) (queue : list (option DiskRequest)) :=
  queue ++ [Some r].
Definition Shutdown (queue : list (option DiskRequest)) := queue ++ [None].

(** The disk manager after serving the requests in order. *)
Fixpoint served (rs : list DiskRequest) (d : D) : D :=
  match rs with
  | [] => d
  | r :: rs' => served rs' (dispatch r d).1
  end.

Lemma StartWorkerThread_requests rs rest d signals :
  StartWorkerThread ((Some <$> rs) ++ None :: rest) d signals
  = Exited rest (served rs d) (signals ++ ((λ r, (callback_ r, true)) <$> rs)).
Proof.
  revert d signals. induction rs as [|r rs IH]; intros d signals.
  - by rewrite app_nil_r.
  - rewrite fmap_cons. cbn [app StartWorkerThread served]. rewrite IH.
    by rewrite fmap_cons, <- app_assoc.
Qed.

Lemma StartWorkerThread_no_sentinel rs d signals :
  StartWorkerThread (Some <$> rs) d signals
  = Blocked (served rs d) (signals ++ ((λ r, (callback_ r, true)) <$> rs)).
Proof.
  revert d signals. induction rs as [|r rs IH]; intros d signals.
  - by rewrite app_nil_r.
  - rewrite fmap_cons. cbn [StartWorkerThread served]. rewrite IH.
    by rewrite fmap_cons, <- app_assoc.
Qed.

(** The queue after the calls [Schedule(r)] for the requests of [rs], in
    this order, on the empty queue. *)
Definition scheduled (rs : list DiskRequest) : list (option DiskRequest) :=
  foldl (λ queue r, Schedule r queue) [] rs.

Lemma scheduled_fmap rs : scheduled rs = Some <$> rs.
Proof.
  unfold scheduled. rewrite <- (app_nil_l (Some <$> rs)).
  generalize (@nil (option DiskRequest)).
  induction rs as [|r rs IH]; intros q; cbn [foldl].
  - by rewrite app_nil_r.
  - rewrite IH. unfold Schedule. by rewrite fmap_cons, <- app_assoc.
Qed.

(** X16.  The worker leaves its loop at the sentinel of the destructor
    only.  After any calls of [Schedule] it serves the requests in the order
    of the calls and then waits in [Get]; once the destructor has put the
    sentinel it exits with nothing left in the queue, having served the
    same requests. *)
Theorem worker_exits_at_sentinel_only (rs : list DiskRequest) (d : D) :
  StartWorkerThread (scheduled rs) d []
  = Blocked (served rs d) ((λ r, (callback_ r, true)) <$> rs) ∧
  StartWorkerThread (Shutdown (scheduled rs)) d []
  = Exited [] (served rs d) ((λ r, (callback_ r, true)) <$> rs).
Proof.
  rewrite scheduled_fmap. split.
  - apply StartWorkerThread_no_sentinel.
  - unfold Shutdown. apply StartWorkerThread_requests.
Qed.

End Worker.

(** A disk manager on which every write fails and every read succeeds. *)
Definition failing_WritePage (_ _ : Z) (d : unit) : unit * bool := (d, false).
Definition working_ReadPage (_ _ : Z) (d : unit) : unit * bool := (d, true).

(** C9, as stated, fails: the write of page 3 fails, and the worker still
    fulfils the promise of that request with [true]. *)
Lemma failed_write_signalled_as_success :
  let r := mkRequest true 0 3 7 in
  (dispatch unit failing_WritePage working_ReadPage r tt).2 = false ∧
  StartWorkerThread unit failing_WritePage working_ReadPage [Some r; None] tt []
  = Exited [] tt [(7%nat, true)].
Proof. by split. Qed.

(** C9, amended.  Whatever the disk manager does, and whether or not its
    I/O succeeds, the worker serves the scheduled requests in FIFO order,
    fulfils the promise of each with [true] after its call has returned,
    and leaves the loop at the sentinel, the requests behind it unserved. *)
Theorem worker_fulfils_every_signal_with_true
    (D : Type) (WritePage ReadPage : Z → Z → D → D * bool)
    (rs : list DiskRequest) (rest : list (option DiskRequest)) (d : D) :
  StartWorkerThread D WritePage ReadPage ((Some <$> rs) ++ None :: rest) d []
  = Exited rest (served D WritePage ReadPage rs d) ((λ r, (callback_ r, true)) <$> rs).
Proof. apply StartWorkerThread_requests. Qed.

End Disk.

(** * execution/aggregation_executor.cpp and its header *)

Module Agg.

Inductive AggregationType : Type :=
| CountStarAggregate | CountAggregate | SumAggregate | MinAggregate | MaxAggregate.

Section Executor.

(** Modelled from the spec: the value type and the expression evaluator,
    which are not part of the sources.  [NullInteger] is
    [ValueFactory::GetNullValueByType(TypeId::INTEGER)]; the three
    comparisons say whether the result is [CmpBool::CmpTrue];
    [Evaluate e t] is [e->Evaluate(&t, schema)]. *)
Variable Value : Type.
Variable GetIntegerValue : Z → Value.
Variable NullInteger : Value.
Variable IsNull : Value → bool.
Variable Add : Value → Value → Value.
Variable CompareLessThan CompareGreaterThan CompareEquals : Value → Value → bool.
Variable Expr : Type.
Variable Evaluate : Expr → list Value → Value.

(** Modelled from the spec: [std::unordered_map], which is not part of the
    sources.  The order in which its iterators visit the entries is the
    library's choice.  [emplaced entry ht] is that order once [entry], of a
    key that was not in the map, has been added to a map whose entries
    were visited in the order [ht]: the entries of before and the new one,
    in some order. *)
Variable emplaced :
  ∀ (entry : list Value * list Value) (ht : list (list Value * list Value)),
    { ht' : list (list Value * list Value) | ht' ≡ₚ entry :: ht }.

(** A tuple, as the values it was built from. *)
Definition Tuple : Type := list Value.

(** [AggregationPlanNode], by its three accessors. *)
Record AggregationPlanNode : Type := mkPlan {
  GetGroupBys : list Expr;
  GetAggregates : list Expr;
  GetAggregateTypes : list AggregationType
}.

(** [SimpleAggregationHashTable].  [ht_] lists the entries of the
    [std::unordered_map] in the order its iterators visit them, which
    [emplaced] decides when an entry is added. *)
Record SimpleAggregationHashTable : Type := mkTable {
  ht_ : list (list Value * list Value);
  agg_exprs_ : list Expr;
  agg_types_ : list AggregationType
}.

Definition GenerateInitialAggregateValue (t : SimpleAggregationHashTable) : list Value :=
  (λ agg_type,
     match agg_type with
     | CountStarAggregate => GetIntegerValue 0
     | CountAggregate | SumAggregate | MinAggregate | MaxAggregate => NullInteger
     end) <$> agg_types_ t.

(** One round of the [switch] in [CombineAggregateValues]. *)
Definition combine (ty : AggregationType) (old_val new_val : Value) : Value :=
  match ty with
  | CountStarAggregate =>
      Add (if IsNull old_val then GetIntegerValue 0 else old_val) (GetIntegerValue 1)
  | CountAggregate =>
      if negb (IsNull new_val)
      then Add (if IsNull old_val then GetIntegerValue 0 else old_val) (GetIntegerValue 1)
      else old_val
  | SumAggregate =>
      if negb (IsNull new_val)
      then (if IsNull old_val then new_val else Add old_val new_val)
      else old_val
  | MinAggregate =>
      if negb (IsNull new_val)
      then (if IsNull old_val then new_val
            else if CompareLessThan new_val old_val then new_val else old_val)
      else old_val
  | MaxAggregate =>
      if negb (IsNull new_val)
      then (if IsNull old_val then new_val
            else if CompareGreaterThan new_val old_val then new_val else old_val)
      else old_val
  end.

(** [CombineAggregateValues]: [None] where the loop indexes a vector out of
    its range. *)
Definition CombineAggregateValues (t : SimpleAggregationHashTable)
    (result input : list Value) : option (list Value) :=
  foldl (λ acc i,
           r ← acc;
           old_val ← r !! i;
           new_val ← input !! i;
           ty ← agg_types_ t !! i;
           Some (<[i := combine ty old_val new_val]> r))
        (Some result) (seq 0 (length (agg_exprs_ t))).

(** [AggregateKey::operator==], on keys of one length. *)
Definition key_eq (this other : list Value) : bool :=
  forallb (λ p, CompareEquals p.1 p.2) (zip this other).

Definition ht_count (key : list Value) (ht : list (list Value * list Value)) : nat :=
  length (List.filter (λ e, key_eq e.1 key) ht).

(** [CombineAggregateValues(&ht_[agg_key], agg_val)] on the entry of the key. *)
Fixpoint combine_entry (t : SimpleAggregationHashTable) (key val : list Value)
    (ht : list (list Value * list Value)) : option (list (list Value * list Value)) :=
  match ht with
  | [] => None
  | e :: rest =>
      if key_eq e.1 key
      then v ← CombineAggregateValues t e.2 val; Some ((e.1, v) :: rest)
      else rest' ← combine_entry t key val rest; Some (e :: rest')
  end.

(** [InsertCombine]: [ht_.insert] of the initial values for a key that is
    not in the map, then [CombineAggregateValues] on the entry of the key,
    which stays where the iterators find it. *)
Definition InsertCombine (t : SimpleAggregationHashTable) (agg_key agg_val : list Value)
    : option SimpleAggregationHashTable :=
  let ht1 :=
    if (ht_count agg_key (ht_ t) =? 0)%nat
    then proj1_sig (emplaced (agg_key, GenerateInitialAggregateValue t) (ht_ t))
    else ht_ t in
  ht2 ← combine_entry t agg_key agg_val ht1;
  Some (mkTable ht2 (agg_exprs_ t) (agg_types_ t)).

(** [AggregationExecutor]: the iterator is the position in [ht_], [End()]
    being its length.  The child executor is given by the tuples it
    produces once initialised. *)
Record AggregationExecutor : Type := mkExecutor {
  plan_ : AggregationPlanNode;
  aht_ : SimpleAggregationHashTable;
  aht_iterator_ : nat;
  copy_with_empty_ : bool
}.

(** The constructor; it leaves [copy_with_empty_] with no value, here
    [indeterminate]. *)
Definition construct (plan : AggregationPlanNode) (indeterminate : bool)
    : AggregationExecutor :=
  mkExecutor plan (mkTable [] (GetAggregates plan) (GetAggregateTypes plan)) 0 indeterminate.

Definition MakeAggregateKey (e : AggregationExecutor) (tuple : Tuple) : list Value :=
  (λ expr, Evaluate expr tuple) <$> GetGroupBys (plan_ e).

Definition MakeAggregateValue (e : AggregationExecutor) (tuple : Tuple) : list Value :=
  (λ expr, Evaluate expr tuple) <$> GetAggregates (plan_ e).

(** [AggregationExecutor::Init]: the table is not cleared. *)
Definition Init (e : AggregationExecutor) (child : list Tuple) : option AggregationExecutor :=
  t ← foldl (λ acc child_tuple,
               t ← acc;
               InsertCombine t (MakeAggregateKey e child_tuple)
                               (MakeAggregateValue e child_tuple))
            (Some (aht_ e)) child;
  Some (mkExecutor (plan_ e) t 0 false).

(** [AggregationExecutor::Next]: the value returned, the tuple written to
    [*tuple] if any, and the executor afterwards. *)
Definition Next (e : AggregationExecutor) : bool * option Tuple * AggregationExecutor :=
  match ht_ (aht_ e) with
  | _ :: _ =>
      match ht_ (aht_ e) !! aht_iterator_ e with
      | None => (false, None, e)
      | Some (agg_key, agg_val) =>
          (true, Some (agg_key ++ agg_val),
           mkExecutor (plan_ e) (aht_ e) (S (aht_iterator_ e)) (copy_with_empty_ e))
      end
  | [] =>
      if copy_with_empty_ e then (false, None, e)
      else
        let e' := mkExecutor (plan_ e) (aht_ e) (aht_iterator_ e) true in
        match GetGroupBys (plan_ e) with
        | [] => (true, Some (GenerateInitialAggregateValue (aht_ e)), e')
        | _ :: _ => (false, None, e')
        end
  end.

(** The executor after [n] calls of [Next]. *)
Fixpoint after_calls (n : nat) (e : AggregationExecutor) : AggregationExecutor :=
  match n with
  | O => e
  | S n' => after_calls n' (Next e).2
  end.





(** ** The rows [Next] produces *)

Lemma after_calls_S n e : after_calls (S n) e = (Next (after_calls n e)).2.
Proof.
  revert e. induction n as [|n IH]; intros e; [done|].
  cbn [after_calls] in *. by rewrite IH.
Qed.

Lemma after_calls_iterator n e :
  ht_ (aht_ e) ≠ [] → aht_iterator_ e = 0%nat →
  after_calls n e
  = mkExecutor (plan_ e) (aht_ e) (Nat.min n (length (ht_ (aht_ e)))) (copy_with_empty_ e).
Proof.
  intros Hne Hit. induction n as [|n IH].
  - destruct e as [p t i c]. cbn in *. by subst i.
  - rewrite after_calls_S, IH. unfold Next. cbn [aht_ aht_iterator_ plan_ copy_with_empty_].
    destruct (ht_ (aht_ e)) as [|e0 l] eqn:Hht; [done|]. rewrite <- Hht.
    destruct (ht_ (aht_ e) !! Nat.min n (length (ht_ (aht_ e)))) as [[k v]|] eqn:Hl.
    + apply lookup_lt_Some in Hl. cbn [snd]. f_equal. lia.
    + apply lookup_ge_None in Hl. cbn [snd]. f_equal. lia.
Qed.

Lemma combine_entry_length t key val ht ht' :
  combine_entry t key val ht = Some ht' → length ht' = length ht.
Proof.
  revert ht'. induction ht as [|e rest IH]; intros ht'; cbn [combine_entry]; [done|].
  destruct (key_eq e.1 key).
  - destruct (CombineAggregateValues t e.2 val); [|done]. by intros [= <-].
  - destruct (combine_entry t key val rest) as [rest'|]; [|done].
    intros [= <-]. cbn [length]. by rewrite (IH rest').
Qed.

Lemma InsertCombine_nonempty t key val t' :
  InsertCombine t key val = Some t' → ht_ t' ≠ [].
Proof.
  unfold InsertCombine.
  destruct (combine_entry _ _ _ _) as [ht2|] eqn:Hc; [|done]. intros [= <-]. cbn [ht_].
  intros ->. destruct (ht_count key (ht_ t) =? 0)%nat.
  - apply combine_entry_length in Hc.
    destruct (emplaced (key, GenerateInitialAggregateValue t) (ht_ t)) as [ht1 Hperm].
    cbn [proj1_sig] in Hc. apply Permutation_length in Hperm. cbn in Hc, Hperm. lia.
  - destruct (ht_ t); [done|]. by apply combine_entry_length in Hc.
Qed.

Lemma Init_fold_nonempty (f : Tuple → list Value) (g : Tuple → list Value) child acc t' :
  foldl (λ acc child_tuple, t ← acc; InsertCombine t (f child_tuple) (g child_tuple))
        acc child = Some t' →
  child ≠ [] ∨ (∃ t, acc = Some t ∧ ht_ t ≠ []) → ht_ t' ≠ [].
Proof.
  revert acc. induction child as [|row child IH]; intros acc; cbn [foldl].
  - intros -> [?|(t & [= <-] & Hne)]; done.
  - intros Hfold _. destruct acc as [t|]; cbn [mbind option_bind] in Hfold.
    + destruct (InsertCombine t (f row) (g row)) as [t1|] eqn:Hins.
      * apply (IH _ Hfold). right. exists t1. split; [done|].
        by eapply InsertCombine_nonempty.
      * exfalso. clear -Hfold. induction child as [|r c IHc]; [done|]. by apply IHc.
    + exfalso. clear -Hfold. induction child as [|r c IHc]; [done|]. by apply IHc.
Qed.

(** X14.  After [Init] over a child that produces at least one row, the
    calls of [Next] return [true] once for each entry of the hash table,
    with the row made of the entry's group-by values followed by its
    aggregates, and every later call returns [false].  The rows come in
    the order in which the [std::unordered_map] visits its entries, which
    is not the order of the child's rows: it is the library's, here
    whatever [emplaced] makes it. *)
Theorem Next_returns_each_group_once (e0 e : AggregationExecutor) (child : list Tuple) :
  child ≠ [] → Init e0 child = Some e →
  ht_ (aht_ e) ≠ [] ∧
  (∀ i agg_key agg_val,
     ht_ (aht_ e) !! i = Some (agg_key, agg_val) →
     (Next (after_calls i e)).1 = (true, Some (agg_key ++ agg_val))) ∧
  (∀ n, (length (ht_ (aht_ e)) ≤ n)%nat → (Next (after_calls n e)).1 = (false, None)).
Proof.
  intros Hchild. unfold Init.
  destruct (foldl _ _ child) as [t|] eqn:Hfold; [|done]. intros [= <-]. cbn [aht_].
  assert (ht_ t ≠ []) as Hne.
  { apply (Init_fold_nonempty _ _ _ _ _ Hfold). by left. }
  split; [done|]. split.
  - intros i k v Hi. rewrite after_calls_iterator by done.
    unfold Next. cbn [aht_ aht_iterator_ plan_ copy_with_empty_].
    pose proof (lookup_lt_Some _ _ _ Hi) as Hlt.
    destruct (ht_ t) as [|e1 l] eqn:Hht; [done|]. rewrite <- Hht in *.
    rewrite Nat.min_l by lia. by rewrite Hi.
  - intros n Hn. rewrite after_calls_iterator by done.
    unfold Next. cbn [aht_ aht_iterator_ plan_ copy_with_empty_].
    destruct (ht_ t) as [|e1 l] eqn:Hht; [done|]. rewrite <- Hht in *.
    rewrite Nat.min_r by lia.
    by rewrite (proj2 (lookup_ge_None _ _) (Nat.le_refl _)).
Qed.

(** ** COUNT( * ) *)

Lemma CombineAggregateValues_spec t result input :
  length result = length (agg_exprs_ t) → length input = length (agg_exprs_ t) →
  length (agg_types_ t) = length (agg_exprs_ t) →
  ∃ r, CombineAggregateValues t result input = Some r ∧ length r = length result ∧
    ∀ i ty old_val new_val,
      agg_types_ t !! i = Some ty → result !! i = Some old_val → input !! i = Some new_val →
      r !! i = Some (combine ty old_val new_val).
Proof.
  intros Hr Hi Ht. unfold CombineAggregateValues.
  assert (∀ m, (m ≤ length (agg_exprs_ t))%nat →
            ∃ r, foldl (λ acc i, r ← acc; old_val ← r !! i; new_val ← input !! i;
                          ty ← agg_types_ t !! i;
                          Some (<[i := combine ty old_val new_val]> r))
                       (Some result) (seq 0 m) = Some r ∧
              length r = length result ∧
              (∀ i, (m ≤ i)%nat → r !! i = result !! i) ∧
              ∀ i ty old_val new_val, (i < m)%nat →
                agg_types_ t !! i = Some ty → result !! i = Some old_val →
                input !! i = Some new_val →
                r !! i = Some (combine ty old_val new_val)) as Hloop.
  { induction m as [|m IH]; intros Hm.
    - exists result. split_and!; [done|done|done|]. intros; lia.
    - destruct IH as (r & Hfold & Hlen & Hrest & Hdone); [lia|].
      rewrite seq_S, foldl_app, Hfold. cbn [foldl plus mbind option_bind].
      destruct (lookup_lt_is_Some_2 result m ltac:(lia)) as [old_val Hold].
      destruct (lookup_lt_is_Some_2 input m ltac:(lia)) as [new_val Hnew].
      destruct (lookup_lt_is_Some_2 (agg_types_ t) m ltac:(lia)) as [ty Hty].
      rewrite (Hrest m) by lia. rewrite Hold, Hnew, Hty. cbn [mbind option_bind].
      eexists. split; [reflexivity|]. rewrite length_insert. split_and!; [done| |].
      + intros i Hge. rewrite list_lookup_insert_ne by lia. apply Hrest. lia.
      + intros i ty' o n Hlt Hty' Ho Hn. destruct (decide (i = m)) as [->|Hne].
        * rewrite list_lookup_insert_eq by lia. congruence.
        * rewrite list_lookup_insert_ne by done. apply Hdone; [lia|done..]. }
  destruct (Hloop (length (agg_exprs_ t)) ltac:(lia)) as (r & Hfold & Hlen & _ & Hdone).
  exists r. split_and!; [done|done|].
  intros i ty o n Hty Ho Hn. apply Hdone; try done.
  apply lookup_lt_Some in Ho. lia.
Qed.

Section integers.

(** The integer values add as the integers do, and none of them is NULL. *)
Hypothesis Add_integers :
  ∀ a b, Add (GetIntegerValue a) (GetIntegerValue b) = GetIntegerValue (a + b).
Hypothesis integer_not_null : ∀ a, IsNull (GetIntegerValue a) = false.

(** The hash table of a plan without group-by expressions after [n] child
    rows: one entry at most, with [n] in the COUNT( * ) columns. *)
Definition counted (t : SimpleAggregationHashTable) (n : nat) : Prop :=
  match n with
  | O => ht_ t = []
  | S _ => ∃ vals, ht_ t = [([], vals)] ∧ length vals = length (agg_exprs_ t) ∧
             ∀ i, agg_types_ t !! i = Some CountStarAggregate →
                  vals !! i = Some (GetIntegerValue (Z.of_nat n))
  end.

Lemma InsertCombine_counted t n val :
  length (agg_types_ t) = length (agg_exprs_ t) → length val = length (agg_exprs_ t) →
  counted t n →
  ∃ t', InsertCombine t [] val = Some t' ∧ counted t' (S n) ∧
        agg_exprs_ t' = agg_exprs_ t ∧ agg_types_ t' = agg_types_ t.
Proof.
  intros Hty Hval Hc. unfold InsertCombine. destruct n as [|n]; cbn [counted] in Hc.
  - rewrite Hc. cbn [ht_count List.filter length Nat.eqb].
    destruct (emplaced ([], GenerateInitialAggregateValue t) []) as [ht1 Hperm].
    cbn [proj1_sig]. apply (proj1 (Permutation_singleton_r ht1 _)) in Hperm. subst ht1.
    cbn [combine_entry fst snd key_eq zip zip_with forallb].
    destruct (CombineAggregateValues_spec t (GenerateInitialAggregateValue t) val)
      as (r & -> & Hlen & Hr); [|done|done|].
    { unfold GenerateInitialAggregateValue. by rewrite length_fmap. }
    cbn [mbind option_bind]. eexists. split; [reflexivity|]. split; [|done].
    exists r. cbn [ht_ agg_exprs_ agg_types_].
    unfold GenerateInitialAggregateValue in Hlen. rewrite length_fmap in Hlen.
    split_and!; [done|lia|]. intros i Hi.
    destruct (lookup_lt_is_Some_2 val i) as [new_val Hnew].
    { apply lookup_lt_Some in Hi. lia. }
    rewrite (Hr i CountStarAggregate (GetIntegerValue 0) new_val Hi); [|
      unfold GenerateInitialAggregateValue; by rewrite list_lookup_fmap, Hi|done].
    cbn [combine]. rewrite integer_not_null, Add_integers. done.
  - destruct Hc as (vals & Hht & Hlen & Hvals). rewrite Hht.
    cbn [ht_count List.filter length Nat.eqb app combine_entry fst snd key_eq
         zip zip_with forallb].
    destruct (CombineAggregateValues_spec t vals val) as (r & -> & Hlenr & Hr);
      [done..|].
    cbn [mbind option_bind]. eexists. split; [reflexivity|]. split; [|done].
    exists r. cbn [ht_ agg_exprs_ agg_types_]. split_and!; [done|lia|]. intros i Hi.
    destruct (lookup_lt_is_Some_2 val i) as [new_val Hnew].
    { apply lookup_lt_Some in Hi. lia. }
    rewrite (Hr i CountStarAggregate _ new_val Hi (Hvals i Hi) Hnew).
    cbn [combine]. rewrite integer_not_null, Add_integers. f_equal. f_equal. lia.
Qed.

(** X15.  COUNT( * ) counts the rows.  For a plan without group-by
    expressions whose aggregates and aggregate types have one length,
    [Init] over any child succeeds, and the first [Next] returns [true]
    with a row of one value per aggregate that holds the number of child
    rows in every COUNT( * ) column. *)
Theorem count_star_counts_rows (plan : AggregationPlanNode) (indeterminate : bool)
    (child : list Tuple) :
  GetGroupBys plan = [] →
  length (GetAggregateTypes plan) = length (GetAggregates plan) →
  ∃ e row e', Init (construct plan indeterminate) child = Some e ∧
    Next e = (true, Some row, e') ∧
    length row = length (GetAggregates plan) ∧
    ∀ i, GetAggregateTypes plan !! i = Some CountStarAggregate →
         row !! i = Some (GetIntegerValue (Z.of_nat (length child))).
Proof.
  intros Hg Hlen. unfold Init, MakeAggregateKey, MakeAggregateValue.
  cbn [construct plan_ aht_]. rewrite Hg. cbn [fmap list_fmap].
  set (t0 := mkTable [] (GetAggregates plan) (GetAggregateTypes plan)).
  assert (∀ rows t n,
            agg_exprs_ t = GetAggregates plan → agg_types_ t = GetAggregateTypes plan →
            counted t n →
            ∃ t', foldl (λ acc (child_tuple : Tuple), t ← acc;
                           InsertCombine t [] ((λ expr, Evaluate expr child_tuple)
                                                 <$> GetAggregates plan))
                        (Some t) rows = Some t' ∧
                  agg_exprs_ t' = GetAggregates plan ∧
                  agg_types_ t' = GetAggregateTypes plan ∧
                  counted t' (length rows + n)) as Hloop.
  { induction rows as [|row rows IH]; intros t n He Ht Hc.
    - exists t. done.
    - cbn [foldl mbind option_bind].
      destruct (InsertCombine_counted t n
                  ((λ expr, Evaluate expr row) <$> GetAggregates plan))
        as (t1 & -> & Hc1 & He1 & Ht1); [congruence|by rewrite length_fmap, He|done|].
      destruct (IH t1 (S n)) as (t' & Hfold & He' & Ht' & Hc'); [congruence..|done|].
      exists t'. split_and!; [done..|].
      by replace (length (row :: rows) + n)%nat with (length rows + S n)%nat
        by (cbn [length]; lia). }
  destruct (Hloop child t0 0%nat) as (t' & -> & He' & Ht' & Hc'); [done..|].
  cbn [mbind option_bind]. rewrite Nat.add_0_r in Hc'.
  exists (mkExecutor plan t' 0 false). unfold Next.
  cbn [aht_ aht_iterator_ plan_ copy_with_empty_].
  destruct (length child) as [|n] eqn:Hn; cbn [counted] in Hc'.
  - rewrite Hc', Hg. eexists _, _. split_and!; [done|done| |].
    + unfold GenerateInitialAggregateValue. by rewrite length_fmap, Ht'.
    + intros i Hi. unfold GenerateInitialAggregateValue, Tuple.
      by rewrite list_lookup_fmap, Ht', Hi.
  - destruct Hc' as (vals & -> & Hlenv & Hvals). cbn [lookup list_lookup].
    eexists _, _. split_and!; [done|done|cbn [app]; congruence|].
    intros i Hi. cbn [app]. apply Hvals. congruence.
Qed.

End integers.

End Executor.

(** An instance: values are integers or NULL, expressions are column
    positions. *)
Definition IntValue : Type := option Z.
Definition int_add (a b : IntValue) : IntValue :=
  match a, b with Some x, Some y => Some (x + y) | _, _ => None end.
Definition int_cmp (f : Z → Z → bool) (a b : IntValue) : bool :=
  match a, b with Some x, Some y => f x y | _, _ => false end.
Definition column (i : nat) (t : list IntValue) : IntValue := default None (t !! i).

(** A map that visits a new entry first, as the one of the library does
    for keys that fall into buckets of their own. *)
Definition emplace_front (entry : list IntValue * list IntValue)
    (ht : list (list IntValue * list IntValue))
    : { ht' : list (list IntValue * list IntValue) | ht' ≡ₚ entry :: ht } :=
  exist _ (entry :: ht) (Permutation_refl (entry :: ht)).

Definition int_Init :=
  Init IntValue Some None (λ v, bool_decide (v = None)) int_add
       (int_cmp Z.ltb) (int_cmp Z.gtb) (int_cmp Z.eqb) nat column emplace_front.
Definition int_Next := Next IntValue Some None nat.

Definition count_sum_plan : AggregationPlanNode nat :=
  mkPlan nat [] [0%nat; 0%nat] [CountStarAggregate; SumAggregate].

Example count_star_over_empty_table :
  (λ e, (int_Next e).1) <$> int_Init (construct IntValue nat count_sum_plan true) []
  = Some (true, Some [Some 0; None]).
Proof. reflexivity. Qed.

Example count_star_over_two_rows :
  (λ e, (int_Next e).1) <$> int_Init (construct IntValue nat count_sum_plan true)
                                     [[Some 4]; [Some 6]]
  = Some (true, Some [Some 2; Some 10]).
Proof. reflexivity. Qed.

(** SELECT v, COUNT( * ) ... GROUP BY v over the rows 1, 2, 1. *)
Definition group_count_plan : AggregationPlanNode nat :=
  mkPlan nat [0%nat] [0%nat] [CountStarAggregate].

(** The executor after [Init] over these rows, with a map that visits the
    group of 2, which came last, first. *)
Definition grouped : AggregationExecutor IntValue nat :=
  mkExecutor IntValue nat group_count_plan
    (mkTable IntValue nat [([Some 2], [Some 1]); ([Some 1], [Some 2])]
             [0%nat] [CountStarAggregate]) 0 false.

Lemma Next_returns_each_group_once_witness :
  (int_Next grouped).1 = (true, Some [Some 2; Some 1]) ∧
  (int_Next (after_calls IntValue Some None nat 1 grouped)).1
  = (true, Some [Some 1; Some 2]) ∧
  (int_Next (after_calls IntValue Some None nat 2 grouped)).1 = (false, None).
Proof.
  destruct (Next_returns_each_group_once IntValue Some None (λ v, bool_decide (v = None))
              int_add (int_cmp Z.ltb) (int_cmp Z.gtb) (int_cmp Z.eqb) nat column
              emplace_front
              (construct IntValue nat group_count_plan true) grouped
              [[Some 1]; [Some 2]; [Some 1]] ltac:(done) eq_refl) as (_ & H1 & H2).
  split_and!.
  - exact (H1 0%nat [Some 2] [Some 1] eq_refl).
  - exact (H1 1%nat [Some 1] [Some 2] eq_refl).
  - exact (H2 2%nat (Nat.le_refl 2)).
Defined.


Lemma count_star_counts_rows_witness :
  ∃ e row e',
    int_Init (construct IntValue nat count_sum_plan true) [[Some 4]; [Some 6]] = Some e ∧
    int_Next e = (true, Some row, e') ∧
    length row = 2%nat ∧
    ∀ i, GetAggregateTypes nat count_sum_plan !! i = Some CountStarAggregate →
         row !! i = Some (Some 2).
Proof.
  exact (count_star_counts_rows IntValue Some None (λ v, bool_decide (v = None))
           int_add (int_cmp Z.ltb) (int_cmp Z.gtb) (int_cmp Z.eqb) nat column
           emplace_front (λ a b, eq_refl) (λ a, eq_refl)
           count_sum_plan true [[Some 4]; [Some 6]] eq_refl eq_refl).
Defined.

End Agg.

(** * optimizer/sort_limit_as_topn.cpp *)

Module Opt.

(** [enum class PlanType] of abstract_plan.h. *)
Inductive PlanType : Type :=
| SeqScan | IndexScan | Insert | Update | Delete | Aggregation | Limit
| NestedLoopJoin | NestedIndexJoin | HashJoin | Filter | Values | Projection
| Sort | TopN | TopNPerGroup | MockScan | InitCheck | Window.

Definition PlanType_eqb (a b : PlanType) : bool :=
  match a, b with
  | SeqScan, SeqScan | IndexScan, IndexScan | Insert, Insert | Update, Update
  | Delete, Delete | Aggregation, Aggregation | Limit, Limit
  | NestedLoopJoin, NestedLoopJoin | NestedIndexJoin, NestedIndexJoin
  | HashJoin, HashJoin | Filter, Filter | Values, Values
  | Projection, Projection | Sort, Sort | TopN, TopN
  | TopNPerGroup, TopNPerGroup | MockScan, MockScan | InitCheck, InitCheck
  | Window, Window => true
  | _, _ => false
  end.

Section Plans.

(** Modelled from the spec: the output schema of a node and the order-by
    list of a sort, whose types are not part of the sources. *)
Variable Schema : Type.
Variable OrderBys : Type.

(** The class of a plan node with the members the rule reads:
    [LimitPlanNode::limit_], [SortPlanNode::order_bys_], and what the
    constructor of [TopNPlanNode] stores.  Every other class is given by its
    plan type. *)
Inductive PlanClass : Type :=
| LimitPlanNode (limit_ : Z)
| SortPlanNode (order_bys_ : OrderBys)
| TopNPlanNode (order_bys_ : OrderBys) (n_ : Z)
| OtherPlanNode (type : PlanType).

(** [AbstractPlanNode]: the dynamic class, [output_schema_], [children_]. *)
Unset Elimination Schemes.
Inductive AbstractPlanNode : Type :=
| PlanNode (class : PlanClass) (output_schema_ : Schema)
           (children_ : list AbstractPlanNode).
Set Elimination Schemes.

Definition class_of (p : AbstractPlanNode) : PlanClass :=
  match p with PlanNode c _ _ => c end.
Definition output_schema_ (p : AbstractPlanNode) : Schema :=
  match p with PlanNode _ s _ => s end.
Definition GetChildren (p : AbstractPlanNode) : list AbstractPlanNode :=
  match p with PlanNode _ _ cs => cs end.

Definition GetType (p : AbstractPlanNode) : PlanType :=
  match class_of p with
  | LimitPlanNode _ => Limit
  | SortPlanNode _ => Sort
  | TopNPlanNode _ _ => TopN
  | OtherPlanNode t => t
  end.

Definition CloneWithChildren (p : AbstractPlanNode) (children : list AbstractPlanNode)
    : AbstractPlanNode :=
  PlanNode (class_of p) (output_schema_ p) children.

(** The part of [OptimizeSortLimitAsTopN] after the children have been
    rewritten.  [None]: [children_[0]] of an empty vector, or a
    [dynamic_cast] to a class the node does not have. *)
Definition rewrite_top (optimized_plan : AbstractPlanNode) : option AbstractPlanNode :=
  if PlanType_eqb (GetType optimized_plan) Limit then
    match class_of optimized_plan with
    | LimitPlanNode limit_ =>
        match GetChildren optimized_plan with
        | [] => None
        | child :: _ =>
            if PlanType_eqb (GetType child) Sort then
              match class_of child with
              | SortPlanNode order_bys =>
                  Some (PlanNode (TopNPlanNode order_bys limit_)
                                 (output_schema_ optimized_plan) [child])
              | _ => None
              end
            else Some optimized_plan
        end
    | _ => None
    end
  else Some optimized_plan.

(** [Optimizer::OptimizeSortLimitAsTopN] *)
Fixpoint OptimizeSortLimitAsTopN (plan : AbstractPlanNode) : option AbstractPlanNode :=
  match plan with
  | PlanNode class schema children =>
      let optimized_children :=
        (fix each (cs : list AbstractPlanNode) : option (list AbstractPlanNode) :=
           match cs with
           | [] => Some []
           | child :: cs' =>
               match OptimizeSortLimitAsTopN child, each cs' with
               | Some child', Some rest => Some (child' :: rest)
               | _, _ => None
               end
           end) children in
      match optimized_children with
      | Some cs => rewrite_top (CloneWithChildren plan cs)
      | None => None
      end
  end.

(** The [for] loop over [plan->GetChildren()]. *)
Fixpoint optimize_children (cs : list AbstractPlanNode) : option (list AbstractPlanNode) :=
  match cs with
  | [] => Some []
  | child :: cs' =>
      match OptimizeSortLimitAsTopN child, optimize_children cs' with
      | Some child', Some rest => Some (child' :: rest)
      | _, _ => None
      end
  end.

Lemma OptimizeSortLimitAsTopN_eq class schema children :
  OptimizeSortLimitAsTopN (PlanNode class schema children)
  = match optimize_children children with
    | Some cs => rewrite_top (PlanNode class schema cs)
    | None => None
    end.
Proof. reflexivity. Qed.

(** What the rule makes of a limit over a sort: the new node is put over
    the sort node, which stays in the plan. *)
Lemma Limit_over_Sort_keeps_Sort limit schema order_bys sort_schema below below' :
  optimize_children below = Some below' →
  OptimizeSortLimitAsTopN
    (PlanNode (LimitPlanNode limit) schema
              [PlanNode (SortPlanNode order_bys) sort_schema below])
  = Some (PlanNode (TopNPlanNode order_bys limit) schema
                   [PlanNode (SortPlanNode order_bys) sort_schema below']).
Proof.
  intros H. rewrite OptimizeSortLimitAsTopN_eq. cbn [optimize_children].
  rewrite OptimizeSortLimitAsTopN_eq, H. reflexivity.
Qed.

(** ** What the rule leaves behind *)

Lemma plan_induction (P : AbstractPlanNode → Prop) :
  (∀ class schema children, Forall P children → P (PlanNode class schema children)) →
  ∀ plan, P plan.
Proof.
  intros H. fix IH 1. intros [class schema children]. apply H.
  induction children as [|child children IHc]; constructor; [apply IH|apply IHc].
Qed.

(** The plans the program builds: a node whose plan type is [Limit], [Sort]
    or [TopN] is of that class, and a limit node has a child. *)
Definition class_ok (class : PlanClass) (children : list AbstractPlanNode) : bool :=
  match class with
  | LimitPlanNode _ => match children with [] => false | _ :: _ => true end
  | OtherPlanNode type =>
      negb (PlanType_eqb type Limit) && negb (PlanType_eqb type Sort)
      && negb (PlanType_eqb type TopN)
  | _ => true
  end.

Fixpoint well_formed (plan : AbstractPlanNode) : bool :=
  match plan with
  | PlanNode class _ children => class_ok class children && forallb well_formed children
  end.

(** No limit node has a sort node as its first child. *)
Fixpoint no_limit_over_sort (plan : AbstractPlanNode) : bool :=
  match plan with
  | PlanNode class _ children =>
      match class, children with
      | LimitPlanNode _, child :: _ => negb (PlanType_eqb (GetType child) Sort)
      | _, _ => true
      end && forallb no_limit_over_sort children
  end.

Lemma optimize_children_spec (children : list AbstractPlanNode) :
  Forall (λ plan, well_formed plan = true →
            ∃ plan', OptimizeSortLimitAsTopN plan = Some plan' ∧
              output_schema_ plan' = output_schema_ plan ∧
              well_formed plan' = true ∧ no_limit_over_sort plan' = true ∧
              (no_limit_over_sort plan = true → plan' = plan)) children →
  forallb well_formed children = true →
  ∃ children', optimize_children children = Some children' ∧
    length children' = length children ∧
    forallb well_formed children' = true ∧
    forallb no_limit_over_sort children' = true ∧
    (forallb no_limit_over_sort children = true → children' = children).
Proof.
  induction 1 as [|child children Hchild _ IH]; intros Hl.
  - exists []. done.
  - cbn [forallb] in Hl. apply andb_prop in Hl as [Hl1 Hl2].
    destruct (Hchild Hl1) as (child' & Ho & _ & Hl' & Hn' & Hid).
    destruct (IH Hl2) as (children' & Hos & Hlen & Hls & Hns & Hids).
    exists (child' :: children'). cbn [optimize_children forallb length].
    rewrite Ho, Hos, Hl', Hn', Hls, Hns, Hlen. split_and!; try done.
    intros [H1 H2]%andb_prop. by rewrite Hid, Hids.
Qed.

(** X17.  On a well-formed plan [OptimizeSortLimitAsTopN] returns a plan with the output schema of the
    given one in which no limit node is left directly over a sort node.  A
    plan that has no limit directly over a sort is returned as it is, so
    that the rule applied to its own result changes nothing. *)
Theorem OptimizeSortLimitAsTopN_leaves_no_limit_over_sort (plan : AbstractPlanNode) :
  well_formed plan = true →
  ∃ plan', OptimizeSortLimitAsTopN plan = Some plan' ∧
    output_schema_ plan' = output_schema_ plan ∧
    no_limit_over_sort plan' = true ∧
    (no_limit_over_sort plan = true → plan' = plan) ∧
    OptimizeSortLimitAsTopN plan' = Some plan'.
Proof.
  assert (∀ plan, well_formed plan = true →
            ∃ plan', OptimizeSortLimitAsTopN plan = Some plan' ∧
              output_schema_ plan' = output_schema_ plan ∧
              well_formed plan' = true ∧ no_limit_over_sort plan' = true ∧
              (no_limit_over_sort plan = true → plan' = plan)) as Hmain.
  { clear plan. induction plan as [class schema children IH] using plan_induction.
    intros Hl. cbn [well_formed] in Hl. apply andb_prop in Hl as [Hl0 Hl].
    pose proof Hl0 as Hl0'.
    destruct (optimize_children_spec children IH Hl)
      as (children' & Ho & Hlen & Hls & Hns & Hids).
    rewrite OptimizeSortLimitAsTopN_eq, Ho. unfold rewrite_top.
    destruct class as [limit|order_bys|order_bys n|type];
      unfold GetType at 1; cbn [class_of GetChildren output_schema_].
    - cbn [PlanType_eqb]. destruct children' as [|child' rest'].
      { by destruct children; cbn in Hl0, Hlen. }
      cbn [forallb] in Hls, Hns. apply andb_prop in Hls as [Hl1 Hl2].
      apply andb_prop in Hns as [Hn1 Hn2].
      destruct (PlanType_eqb (GetType child') Sort) eqn:Hsort.
      + unfold GetType in Hsort. destruct (class_of child') as [?|ob|? ?|ty] eqn:Hc;
          try discriminate Hsort.
        * eexists. split; [reflexivity|]. cbn [output_schema_ well_formed
            no_limit_over_sort forallb]. rewrite Hl1, Hn1. split_and!; try done.
          intros Hno. destruct children as [|child rest]; [done|].
          cbn [no_limit_over_sort] in Hno. apply andb_prop in Hno as [Hno Hall].
          specialize (Hids Hall). injection Hids as <- _.
          unfold GetType in Hno. rewrite Hc in Hno. done.
        * destruct child' as [class' schema' children']. cbn [class_of] in Hc. subst class'.
          cbn [well_formed class_ok] in Hl1. rewrite Hsort in Hl1.
          by destruct (PlanType_eqb ty Limit).
      + eexists. split; [reflexivity|]. cbn [output_schema_ well_formed
          no_limit_over_sort forallb]. rewrite Hl1, Hl2, Hn1, Hn2, Hsort.
        split_and!; try done.
        intros [_ Hall]%andb_prop. by rewrite (Hids Hall).
    - eexists. split; [reflexivity|]. cbn [output_schema_ well_formed
        no_limit_over_sort]. rewrite Hls, Hns. split_and!; try done.
      intros Hall. cbn in Hall. by rewrite (Hids Hall).
    - eexists. split; [reflexivity|]. cbn [output_schema_ well_formed
        no_limit_over_sort]. rewrite Hls, Hns. split_and!; try done.
      intros Hall. cbn in Hall. by rewrite (Hids Hall).
    - cbn [class_ok] in Hl0. apply andb_prop in Hl0 as [[Ht _]%andb_prop _].
      apply negb_true_iff in Ht. rewrite Ht.
      eexists. split; [reflexivity|]. cbn [output_schema_ well_formed
        no_limit_over_sort]. rewrite Hls, Hns. split_and!; try done.
      + change (class_ok (OtherPlanNode type) children')
          with (class_ok (OtherPlanNode type) children). by rewrite Hl0'.
      + intros Hall. cbn in Hall. by rewrite (Hids Hall). }
  intros Hl. destruct (Hmain plan Hl) as (plan' & Ho & Hs & Hl' & Hn' & Hid).
  exists plan'. split_and!; try done.
  destruct (Hmain plan' Hl') as (plan2 & Ho2 & _ & _ & _ & Hid2).
  by rewrite Ho2, (Hid2 Hn').
Qed.

End Plans.

(** The plan [Limit(N=5){Sort(by age asc){SeqScan}}]. *)
Definition scan : AbstractPlanNode (list string) (list (string * string)) :=
  PlanNode _ _ (OtherPlanNode _ SeqScan) ["name"; "age"]%string [].
Definition sort_scan : AbstractPlanNode (list string) (list (string * string)) :=
  PlanNode _ _ (SortPlanNode _ [("age", "asc")]%string) ["name"; "age"]%string [scan].
Definition limit_sort_scan : AbstractPlanNode (list string) (list (string * string)) :=
  PlanNode _ _ (LimitPlanNode _ 5) ["name"; "age"]%string [sort_scan].

(** C6 fails on the code.  The rewrite of
    [Limit(N=5){Sort(by age asc){SeqScan}}] is a top-N node whose child is
    the sort node, not the sequential scan below it: the limit is replaced,
    the sort is not removed. *)
Theorem OptimizeSortLimitAsTopN_keeps_sort_node :
  OptimizeSortLimitAsTopN _ _ limit_sort_scan
  = Some (PlanNode _ _ (TopNPlanNode _ [("age", "asc")]%string 5) ["name"; "age"]%string
                   [sort_scan]) ∧
  OptimizeSortLimitAsTopN _ _ limit_sort_scan
  ≠ Some (PlanNode _ _ (TopNPlanNode _ [("age", "asc")]%string 5) ["name"; "age"]%string
                   [scan]).
Proof. split; [reflexivity|discriminate]. Qed.

Lemma OptimizeSortLimitAsTopN_leaves_no_limit_over_sort_witness :
  ∃ plan', OptimizeSortLimitAsTopN _ _ limit_sort_scan = Some plan' ∧
    output_schema_ _ _ plan' = output_schema_ _ _ limit_sort_scan ∧
    no_limit_over_sort _ _ plan' = true ∧
    (no_limit_over_sort _ _ limit_sort_scan = true → plan' = limit_sort_scan) ∧
    OptimizeSortLimitAsTopN _ _ plan' = Some plan'.
Proof.
  exact (OptimizeSortLimitAsTopN_leaves_no_limit_over_sort _ _ limit_sort_scan eq_refl).
Defined.

End Opt.

(** * container/disk/hash/disk_extendible_hash_table.cpp and the pages of
      the index *)

Module HTable.

Definition INVALID_PAGE_ID : Z := -1.

(** extendible_htable_header_page.h *)
Definition HTABLE_HEADER_ARRAY_SIZE : nat := 512.

(** [a[i]] and [a[i] = v] on a C array: [None] outside of the array. *)
Definition array_get (a : list Z) (i : Z) : option Z :=
  if i <? 0 then None else a !! Z.to_nat i.

Definition array_set (a : list Z) (i : Z) (v : Z) : option (list Z) :=
  if (0 <=? i) && (i <? Z.of_nat (length a)) then Some (<[Z.to_nat i := v]> a) else None.

(** [1 << n] on 32 bits. *)
Definition shl1 (n : Z) : Z := Z.shiftl 1 n mod 2 ^ 32.

(** ** extendible_htable_header_page.cpp *)

Record ExtendibleHTableHeaderPage : Type := mkHeader {
  directory_page_ids_ : list Z;
  header_depth_ : Z                      (* [max_depth_] of the header page *)
}.

Definition Header_MaxSize (h : ExtendibleHTableHeaderPage) : Z := shl1 (header_depth_ h).

(** [Init] on the zeroed memory of a new page. *)
Definition Header_Init (max_depth : Z) : option ExtendibleHTableHeaderPage :=
  if shl1 max_depth <=? Z.of_nat HTABLE_HEADER_ARRAY_SIZE then
    Some (mkHeader (replicate (Z.to_nat (shl1 max_depth)) INVALID_PAGE_ID
                    ++ replicate (HTABLE_HEADER_ARRAY_SIZE - Z.to_nat (shl1 max_depth)) 0)
                   max_depth)
  else None.

Definition HashToDirectoryIndex (h : ExtendibleHTableHeaderPage) (hash : Z) : Z :=
  if header_depth_ h =? 0 then 0 else Z.shiftr hash (32 - header_depth_ h).

(** The [page_id_t] that [GetDirectoryPageId] finds: [INVALID_PAGE_ID]
    from [MaxSize] on, [directory_page_ids_[directory_idx]] below. *)
Definition GetDirectoryPageId_slot (h : ExtendibleHTableHeaderPage) (directory_idx : Z)
    : option Z :=
  if directory_idx >=? Header_MaxSize h then Some INVALID_PAGE_ID
  else array_get (directory_page_ids_ h) directory_idx.

(** [GetDirectoryPageId] returns it as a [uint32_t]: [INVALID_PAGE_ID]
    comes out as 4294967295. *)
Definition GetDirectoryPageId (h : ExtendibleHTableHeaderPage) (directory_idx : Z)
    : option Z :=
  (λ page_id, page_id mod 2 ^ 32) <$> GetDirectoryPageId_slot h directory_idx.

(** [page_id_t directory_page_id = header_page->GetDirectoryPageId(i)], as
    the hash table has it: the conversion back to [page_id_t] gives the
    [page_id_t] of the slot again. *)
Lemma GetDirectoryPageId_as_page_id (h : ExtendibleHTableHeaderPage) (directory_idx id : Z) :
  GetDirectoryPageId_slot h directory_idx = Some id → - 2 ^ 31 ≤ id < 2 ^ 31 →
  to_int32 <$> GetDirectoryPageId h directory_idx = Some id.
Proof.
  intros Hslot Hid. unfold GetDirectoryPageId. rewrite Hslot. cbn [fmap option_fmap option_map].
  f_equal. unfold to_int32.
  destruct (Z.leb_spec 0 id).
  - rewrite (Z.mod_small id) by lia. rewrite Z.mod_small; lia.
  - replace (id mod 2 ^ 32) with (id + 2 ^ 32).
    + replace (id + 2 ^ 32 + 2 ^ 31) with (id + 2 ^ 31 + 1 * 2 ^ 32) by lia.
      rewrite Z.mod_add by lia. rewrite Z.mod_small; lia.
    + symmetry. replace id with (id + 2 ^ 32 + (-1) * 2 ^ 32) at 1 by lia.
      rewrite Z.mod_add by lia. apply Z.mod_small. lia.
Qed.

Definition SetDirectoryPageId (h : ExtendibleHTableHeaderPage) (directory_idx : Z)
    (directory_page_id : Z) : option ExtendibleHTableHeaderPage :=
  if directory_idx >=? Header_MaxSize h then Some h
  else ids ← array_set (directory_page_ids_ h) directory_idx directory_page_id;
       Some (mkHeader ids (header_depth_ h)).

(** ** extendible_htable_directory_page.cpp *)

Record ExtendibleHTableDirectoryPage : Type := mkDirectory {
  max_depth_ : Z;
  global_depth_ : Z;
  local_depths_ : list Z;
  bucket_page_ids_ : list Z
}.

(** [Init] on the zeroed memory of a new page, whose two arrays have
    [array_size] slots. *)
Definition Directory_Init (array_size : nat) (max_depth : Z)
    : option ExtendibleHTableDirectoryPage :=
  if shl1 max_depth <=? Z.of_nat array_size then
    Some (mkDirectory max_depth 0 (replicate array_size 0)
            (replicate (Z.to_nat (shl1 max_depth)) INVALID_PAGE_ID
             ++ replicate (array_size - Z.to_nat (shl1 max_depth)) 0))
  else None.

Definition GetGlobalDepthMask (d : ExtendibleHTableDirectoryPage) : Z :=
  (shl1 (global_depth_ d) - 1) mod 2 ^ 32.

Definition HashToBucketIndex (d : ExtendibleHTableDirectoryPage) (hash : Z) : Z :=
  Z.land hash (GetGlobalDepthMask d).

Definition GetBucketPageId (d : ExtendibleHTableDirectoryPage) (bucket_idx : Z) : option Z :=
  array_get (bucket_page_ids_ d) bucket_idx.

Definition SetBucketPageId (d : ExtendibleHTableDirectoryPage) (bucket_idx : Z)
    (bucket_page_id : Z) : option ExtendibleHTableDirectoryPage :=
  ids ← array_set (bucket_page_ids_ d) bucket_idx bucket_page_id;
  Some (mkDirectory (max_depth_ d) (global_depth_ d) (local_depths_ d) ids).

(** [bucket_idx + (1 << (global_depth_ - 1))]; the shift has no value at
    depth 0. *)
Definition GetSplitImageIndex (d : ExtendibleHTableDirectoryPage) (bucket_idx : Z)
    : option Z :=
  if global_depth_ d =? 0 then None
  else Some ((bucket_idx + shl1 (global_depth_ d - 1)) mod 2 ^ 32).

Definition GetGlobalDepth (d : ExtendibleHTableDirectoryPage) : Z := global_depth_ d.
Definition GetMaxDepth (d : ExtendibleHTableDirectoryPage) : Z := max_depth_ d.
Definition Directory_Size (d : ExtendibleHTableDirectoryPage) : Z := shl1 (global_depth_ d).

Definition GetLocalDepth (d : ExtendibleHTableDirectoryPage) (bucket_idx : Z) : option Z :=
  array_get (local_depths_ d) bucket_idx.

(** The local depths are [uint8_t]. *)
Definition SetLocalDepth (d : ExtendibleHTableDirectoryPage) (bucket_idx : Z)
    (local_depth : Z) : option ExtendibleHTableDirectoryPage :=
  lds ← array_set (local_depths_ d) bucket_idx (local_depth mod 256);
  Some (mkDirectory (max_depth_ d) (global_depth_ d) lds (bucket_page_ids_ d)).

Definition IncrLocalDepth (d : ExtendibleHTableDirectoryPage) (bucket_idx : Z)
    : option ExtendibleHTableDirectoryPage :=
  ld ← array_get (local_depths_ d) bucket_idx;
  if ld <? global_depth_ d then
    lds ← array_set (local_depths_ d) bucket_idx ((ld + 1) mod 256);
    Some (mkDirectory (max_depth_ d) (global_depth_ d) lds (bucket_page_ids_ d))
  else Some d.

(** One round of a loop that copies slot [src] to slot [dst]. *)
Definition copy_slot (d : ExtendibleHTableDirectoryPage) (dst src : Z)
    : option ExtendibleHTableDirectoryPage :=
  id ← array_get (bucket_page_ids_ d) src;
  ids ← array_set (bucket_page_ids_ d) dst id;
  ld ← array_get (local_depths_ d) src;
  lds ← array_set (local_depths_ d) dst ld;
  Some (mkDirectory (max_depth_ d) (global_depth_ d) lds ids).

Definition IncrGlobalDepth (d : ExtendibleHTableDirectoryPage)
    : option ExtendibleHTableDirectoryPage :=
  if global_depth_ d >=? max_depth_ d then Some d
  else
    d' ← foldl (λ acc i, d0 ← acc;
                  copy_slot d0 (shl1 (global_depth_ d) + Z.of_nat i) (Z.of_nat i))
               (Some d) (seq 0 (Z.to_nat (shl1 (global_depth_ d))));
    Some (mkDirectory (max_depth_ d') (global_depth_ d' + 1)
                      (local_depths_ d') (bucket_page_ids_ d')).

(** ** Facts about the header page and the directory page *)

Lemma shl1_pow2 (n : Z) : 0 ≤ n < 32 → shl1 n = 2 ^ n.
Proof.
  intros Hn. unfold shl1. rewrite Z.shiftl_1_l. apply Z.mod_small.
  split; [apply Z.pow_nonneg; lia|]. apply Z.pow_lt_mono_r; lia.
Qed.

Lemma array_get_Some (a : list Z) (i v : Z) :
  array_get a i = Some v ↔ 0 ≤ i ∧ a !! Z.to_nat i = Some v.
Proof.
  unfold array_get. destruct (Z.ltb_spec i 0); split; try done; try lia; by intros [? ?].
Qed.

Lemma array_set_Some (a a' : list Z) (i v : Z) :
  array_set a i v = Some a' ↔
  0 ≤ i < Z.of_nat (length a) ∧ a' = <[Z.to_nat i := v]> a.
Proof.
  unfold array_set.
  destruct (Z.leb_spec 0 i), (Z.ltb_spec i (Z.of_nat (length a))); cbn [andb];
    split; intros Hx; try discriminate Hx;
    try (injection Hx as <-; split; [lia|done]);
    try (destruct Hx as [? ->]; first [done|lia]).
Qed.

Lemma array_get_set_eq (a a' : list Z) (i v : Z) :
  array_set a i v = Some a' → array_get a' i = Some v.
Proof.
  intros [Hi ->]%array_set_Some. apply array_get_Some. split; [lia|].
  apply list_lookup_insert_eq. lia.
Qed.

Lemma array_get_set_ne (a a' : list Z) (i j v : Z) :
  array_set a i v = Some a' → j ≠ i → array_get a' j = array_get a j.
Proof.
  intros [Hi ->]%array_set_Some Hne. unfold array_get.
  destruct (Z.ltb_spec j 0); [done|]. apply list_lookup_insert_ne. lia.
Qed.

Lemma array_set_length (a a' : list Z) (i v : Z) :
  array_set a i v = Some a' → length a' = length a.
Proof. intros [_ ->]%array_set_Some. apply length_insert. Qed.

Lemma HashToDirectoryIndex_top_bits (h : ExtendibleHTableHeaderPage) (hash : Z) :
  0 ≤ header_depth_ h < 32 → 0 ≤ hash < 2 ^ 32 →
  HashToDirectoryIndex h hash = hash / 2 ^ (32 - header_depth_ h) mod 2 ^ header_depth_ h ∧
  0 ≤ HashToDirectoryIndex h hash < Header_MaxSize h.
Proof.
  intros Hd Hh. unfold HashToDirectoryIndex, Header_MaxSize.
  rewrite shl1_pow2 by done.
  destruct (Z.eqb_spec (header_depth_ h) 0) as [Hz|Hz].
  - rewrite Hz. cbn. rewrite Z.mod_1_r. lia.
  - rewrite Z.shiftr_div_pow2 by lia.
    assert (0 ≤ hash / 2 ^ (32 - header_depth_ h) < 2 ^ header_depth_ h) as Hr.
    { split; [apply Z.div_pos; [lia|apply Z.pow_pos_nonneg; lia]|].
      apply Z.div_lt_upper_bound; [apply Z.pow_pos_nonneg; lia|].
      rewrite <- Z.pow_add_r by lia.
      replace (32 - header_depth_ h + header_depth_ h) with 32 by lia. lia. }
    rewrite Z.mod_small by done. done.
Qed.

(** X6.  The directory index of a hash lies in the header: with a header
    depth [d] below 32 and a 32-bit hash, [HashToDirectoryIndex] is the
    number made of the top [d] bits, and it is below [MaxSize]. *)
Theorem HashToDirectoryIndex_in_range (h : ExtendibleHTableHeaderPage) (hash : Z) :
  0 ≤ header_depth_ h < 32 → 0 ≤ hash < 2 ^ 32 →
  HashToDirectoryIndex h hash = hash / 2 ^ (32 - header_depth_ h) mod 2 ^ header_depth_ h ∧
  0 ≤ HashToDirectoryIndex h hash < Header_MaxSize h.
Proof.
  apply HashToDirectoryIndex_top_bits.
Qed.

Lemma HashToDirectoryIndex_in_range_witness :
  HashToDirectoryIndex (mkHeader [] 2) 1595054466 = 1 ∧
  0 ≤ HashToDirectoryIndex (mkHeader [] 2) 1595054466 < Header_MaxSize (mkHeader [] 2).
Proof.
  exact (HashToDirectoryIndex_in_range (mkHeader [] 2) 1595054466
           ltac:(cbn; lia) ltac:(lia)).
Defined.

Lemma lookup_replicate_app (m n : nat) (x y : Z) (i : nat) :
  (replicate m x ++ replicate n y) !! i
  = if decide (i < m)%nat then Some x else if decide (i < m + n)%nat then Some y else None.
Proof.
  destruct (decide (i < m)%nat).
  - rewrite lookup_app_l by (rewrite length_replicate; lia).
    by rewrite lookup_replicate_2.
  - rewrite lookup_app_r by (rewrite length_replicate; lia).
    rewrite length_replicate. destruct (decide (i < m + n)%nat).
    + by rewrite lookup_replicate_2 by lia.
    + apply lookup_replicate_None. lia.
Qed.

(** X7.  A header page initialised with a depth of at most 9 reads as
    4294967295, which is [INVALID_PAGE_ID] as a [uint32_t], at every index;
    [SetDirectoryPageId] at an index below [MaxSize] leaves the other
    indices alone, and [GetDirectoryPageId] reads the page identifier back
    modulo 2^32, so that a caller that takes the result as a [page_id_t]
    has the identifier that was set; at an index from [MaxSize] on
    [SetDirectoryPageId] is ignored. *)
Theorem Header_Set_then_Get (max_depth : Z) :
  0 ≤ max_depth ≤ 9 →
  ∃ h, Header_Init max_depth = Some h ∧
    Header_MaxSize h = 2 ^ max_depth ∧
    (∀ i, 0 ≤ i → GetDirectoryPageId h i = Some 4294967295) ∧
    (∀ i v, 0 ≤ i < Header_MaxSize h →
       ∃ h', SetDirectoryPageId h i v = Some h' ∧
             GetDirectoryPageId h' i = Some (v mod 2 ^ 32) ∧
             (- 2 ^ 31 ≤ v < 2 ^ 31 → to_int32 <$> GetDirectoryPageId h' i = Some v) ∧
             ∀ j, j ≠ i → GetDirectoryPageId h' j = GetDirectoryPageId h j) ∧
    (∀ i v, Header_MaxSize h ≤ i → SetDirectoryPageId h i v = Some h).
Proof.
  intros Hd. unfold Header_Init. rewrite shl1_pow2 by lia.
  assert (2 ^ max_depth ≤ 2 ^ 9) as Hle by (apply Z.pow_le_mono_r; lia).
  assert (0 < 2 ^ max_depth) as Hpos by (apply Z.pow_pos_nonneg; lia).
  change (2 ^ 9) with 512 in Hle.
  destruct (Z.leb_spec (2 ^ max_depth) (Z.of_nat HTABLE_HEADER_ARRAY_SIZE)) as [_|Hbad];
    [|unfold HTABLE_HEADER_ARRAY_SIZE in Hbad; lia].
  eexists. split; [reflexivity|].
  assert (Header_MaxSize
            (mkHeader (replicate (Z.to_nat (2 ^ max_depth)) INVALID_PAGE_ID
                       ++ replicate (HTABLE_HEADER_ARRAY_SIZE - Z.to_nat (2 ^ max_depth)) 0)
                      max_depth) = 2 ^ max_depth) as Hmax.
  { unfold Header_MaxSize. cbn [header_depth_]. by rewrite shl1_pow2 by lia. }
  split; [done|].
  assert (∀ i v, 0 ≤ i < 2 ^ max_depth →
            ∃ ids, array_set (replicate (Z.to_nat (2 ^ max_depth)) INVALID_PAGE_ID
                              ++ replicate (HTABLE_HEADER_ARRAY_SIZE
                                            - Z.to_nat (2 ^ max_depth)) 0) i v
                   = Some ids) as Hset.
  { intros i v Hi. unfold array_set. rewrite length_app, !length_replicate.
    unfold HTABLE_HEADER_ARRAY_SIZE.
    destruct (Z.leb_spec 0 i); [|lia].
    destruct (Z.ltb_spec i (Z.of_nat (Z.to_nat (2 ^ max_depth)
                                      + (512 - Z.to_nat (2 ^ max_depth))))); [|lia].
    by eexists. }
  split_and!.
  - intros i Hi. unfold GetDirectoryPageId, GetDirectoryPageId_slot. rewrite Hmax.
    cbn [directory_page_ids_].
    destruct (Z.geb_spec i (2 ^ max_depth)) as [|Hlt]; [done|].
    assert (array_get (replicate (Z.to_nat (2 ^ max_depth)) INVALID_PAGE_ID
                       ++ replicate (HTABLE_HEADER_ARRAY_SIZE
                                     - Z.to_nat (2 ^ max_depth)) 0) i
            = Some INVALID_PAGE_ID) as ->; [|done].
    apply array_get_Some. split; [done|]. rewrite lookup_replicate_app.
    rewrite decide_True by lia. done.
  - intros i v Hi. rewrite Hmax in Hi. destruct (Hset i v Hi) as [ids Hids].
    assert (Header_MaxSize (mkHeader ids max_depth) = 2 ^ max_depth) as Hmax'.
    { unfold Header_MaxSize. cbn [header_depth_]. by rewrite shl1_pow2 by lia. }
    assert (GetDirectoryPageId_slot (mkHeader ids max_depth) i = Some v) as Hslot.
    { unfold GetDirectoryPageId_slot. rewrite Hmax'. cbn [directory_page_ids_].
      destruct (Z.geb_spec i (2 ^ max_depth)); [lia|]. by eapply array_get_set_eq. }
    exists (mkHeader ids max_depth). split_and!.
    + unfold SetDirectoryPageId. rewrite Hmax. cbn [directory_page_ids_ header_depth_].
      destruct (Z.geb_spec i (2 ^ max_depth)); [lia|]. by rewrite Hids.
    + unfold GetDirectoryPageId. by rewrite Hslot.
    + intros Hv. by apply GetDirectoryPageId_as_page_id.
    + intros j Hj. unfold GetDirectoryPageId, GetDirectoryPageId_slot.
      rewrite Hmax, Hmax'. cbn [directory_page_ids_].
      destruct (j >=? 2 ^ max_depth); [done|]. f_equal. by eapply array_get_set_ne.
  - intros i v Hi. rewrite Hmax in Hi. unfold SetDirectoryPageId. rewrite Hmax.
    destruct (Z.geb_spec i (2 ^ max_depth)); [done|lia].
Qed.

Lemma Header_Set_then_Get_witness :
  ∃ h, Header_Init 2 = Some h ∧
    Header_MaxSize h = 2 ^ 2 ∧
    (∀ i, 0 ≤ i → GetDirectoryPageId h i = Some 4294967295) ∧
    (∀ i v, 0 ≤ i < Header_MaxSize h →
       ∃ h', SetDirectoryPageId h i v = Some h' ∧
             GetDirectoryPageId h' i = Some (v mod 2 ^ 32) ∧
             (- 2 ^ 31 ≤ v < 2 ^ 31 → to_int32 <$> GetDirectoryPageId h' i = Some v) ∧
             ∀ j, j ≠ i → GetDirectoryPageId h' j = GetDirectoryPageId h j) ∧
    (∀ i v, Header_MaxSize h ≤ i → SetDirectoryPageId h i v = Some h).
Proof. exact (Header_Set_then_Get 2 ltac:(lia)). Defined.

(** ** The rest of the directory page *)

Definition DecrGlobalDepth (d : ExtendibleHTableDirectoryPage)
    : ExtendibleHTableDirectoryPage :=
  if global_depth_ d <=? 0 then d
  else mkDirectory (max_depth_ d) (global_depth_ d - 1) (local_depths_ d) (bucket_page_ids_ d).

(** [x << n] on [uint32_t]: no value for a shift of 32 bits or more. *)
Definition shl32 (x n : Z) : option Z :=
  if (0 <=? n) && (n <? 32) then Some (Z.shiftl x n mod 2 ^ 32) else None.

(** [CanShrink]: [None] when the loop reads outside of [local_depths_], or
    [Size()] shifts by 32 bits or more. *)
Definition CanShrink (d : ExtendibleHTableDirectoryPage) : option bool :=
  if global_depth_ d =? 0 then Some false
  else
    size ← shl32 1 (global_depth_ d);
    foldl (λ acc i, b ← acc;
             if b : bool then
               ld ← array_get (local_depths_ d) (Z.of_nat i);
               Some (negb (ld =? global_depth_ d))
             else Some false)
          (Some true) (seq 0 (Z.to_nat size)).

Definition DecrLocalDepth (d : ExtendibleHTableDirectoryPage) (bucket_idx : Z)
    : option ExtendibleHTableDirectoryPage :=
  ld ← array_get (local_depths_ d) bucket_idx;
  if 0 <? ld then
    lds ← array_set (local_depths_ d) bucket_idx ((ld - 1) mod 256);
    Some (mkDirectory (max_depth_ d) (global_depth_ d) lds (bucket_page_ids_ d))
  else Some d.

(** [GetLocalDepthMask]: [inl] for the value, [inr] where the code throws
    [std::out_of_range]; the shift [1 << (local_depth - 1)] has no value at
    local depth 0, where [local_depth - 1] is the largest [uint32_t]. *)
Definition GetLocalDepthMask (d : ExtendibleHTableDirectoryPage) (bucket_idx : Z)
    : option (Z + unit) :=
  size ← shl32 1 (global_depth_ d);
  if bucket_idx >=? size then Some (inr tt)
  else
    ld ← array_get (local_depths_ d) bucket_idx;
    mask ← shl32 1 ((ld - 1) mod 2 ^ 32);
    Some (inl mask).

Lemma HashToBucketIndex_low_bits (d : ExtendibleHTableDirectoryPage) (hash : Z) :
  0 ≤ global_depth_ d < 32 → 0 ≤ hash →
  HashToBucketIndex d hash = hash mod 2 ^ global_depth_ d ∧
  0 ≤ HashToBucketIndex d hash < Directory_Size d.
Proof.
  intros Hd Hh. unfold HashToBucketIndex, GetGlobalDepthMask, Directory_Size.
  rewrite shl1_pow2 by done.
  assert (0 < 2 ^ global_depth_ d < 2 ^ 32) as Hp.
  { split; [apply Z.pow_pos_nonneg; lia|apply Z.pow_lt_mono_r; lia]. }
  rewrite (Z.mod_small (2 ^ global_depth_ d - 1)) by lia.
  replace (2 ^ global_depth_ d - 1) with (Z.ones (global_depth_ d))
    by (rewrite Z.ones_equiv; lia).
  rewrite Z.land_ones by lia. split; [done|]. apply Z.mod_pos_bound. lia.
Qed.

(** X8.  With a global depth below 32, [HashToBucketIndex] is the hash
    modulo [2 ^ global_depth]: a slot of the directory in use. *)
Theorem HashToBucketIndex_in_range (d : ExtendibleHTableDirectoryPage) (hash : Z) :
  0 ≤ global_depth_ d < 32 → 0 ≤ hash →
  HashToBucketIndex d hash = hash mod 2 ^ global_depth_ d ∧
  0 ≤ HashToBucketIndex d hash < Directory_Size d.
Proof.
  apply HashToBucketIndex_low_bits.
Qed.

Lemma HashToBucketIndex_in_range_witness :
  HashToBucketIndex (mkDirectory 3 2 [] []) 6 = 6 mod 2 ^ 2 ∧
  0 ≤ HashToBucketIndex (mkDirectory 3 2 [] []) 6 < Directory_Size (mkDirectory 3 2 [] []).
Proof.
  exact (HashToBucketIndex_in_range (mkDirectory 3 2 [] []) 6 ltac:(cbn; lia) ltac:(lia)).
Defined.

Lemma copy_slot_spec (d d' : ExtendibleHTableDirectoryPage) (dst src : Z) :
  copy_slot d dst src = Some d' →
  global_depth_ d' = global_depth_ d ∧ max_depth_ d' = max_depth_ d ∧
  length (local_depths_ d') = length (local_depths_ d) ∧
  length (bucket_page_ids_ d') = length (bucket_page_ids_ d) ∧
  (∀ j, GetBucketPageId d' j
        = if decide (j = dst) then GetBucketPageId d src else GetBucketPageId d j) ∧
  (∀ j, GetLocalDepth d' j
        = if decide (j = dst) then GetLocalDepth d src else GetLocalDepth d j).
Proof.
  unfold copy_slot, GetBucketPageId, GetLocalDepth.
  destruct (array_get (bucket_page_ids_ d) src) as [id|] eqn:Hid; [|done]. cbn [mbind option_bind].
  destruct (array_set (bucket_page_ids_ d) dst id) as [ids|] eqn:Hids; [|done].
  cbn [mbind option_bind].
  destruct (array_get (local_depths_ d) src) as [ld|] eqn:Hld; [|done]. cbn [mbind option_bind].
  destruct (array_set (local_depths_ d) dst ld) as [lds|] eqn:Hlds; [|done].
  cbn [mbind option_bind]. intros [= <-].
  cbn [global_depth_ max_depth_ local_depths_ bucket_page_ids_].
  split_and!; try done.
  - by eapply array_set_length.
  - by eapply array_set_length.
  - intros j. case_decide as Hj; [subst j; by eapply array_get_set_eq|by eapply array_get_set_ne].
  - intros j. case_decide as Hj; [subst j; by eapply array_get_set_eq|by eapply array_get_set_ne].
Qed.

Lemma copy_slot_total (d : ExtendibleHTableDirectoryPage) (dst src : Z) :
  0 ≤ src < Z.of_nat (length (bucket_page_ids_ d)) →
  0 ≤ src < Z.of_nat (length (local_depths_ d)) →
  0 ≤ dst < Z.of_nat (length (bucket_page_ids_ d)) →
  0 ≤ dst < Z.of_nat (length (local_depths_ d)) →
  ∃ d', copy_slot d dst src = Some d'.
Proof.
  intros Hs1 Hs2 Hd1 Hd2. unfold copy_slot.
  destruct (lookup_lt_is_Some_2 (bucket_page_ids_ d) (Z.to_nat src) ltac:(lia)) as [id Hid].
  destruct (lookup_lt_is_Some_2 (local_depths_ d) (Z.to_nat src) ltac:(lia)) as [ld Hld].
  rewrite (proj2 (array_get_Some (bucket_page_ids_ d) src id)) by (split; [lia|done]). cbn [mbind option_bind].
  rewrite (proj2 (array_set_Some _ _ dst id) (conj Hd1 eq_refl)). cbn [mbind option_bind].
  rewrite (proj2 (array_get_Some (local_depths_ d) src ld)) by (split; [lia|done]). cbn [mbind option_bind].
  rewrite (proj2 (array_set_Some _ _ dst ld) (conj Hd2 eq_refl)). cbn [mbind option_bind].
  eauto.
Qed.

(** The loop that copies the slots [0 .. m-1] to [base .. base+m-1]. *)
Lemma copy_loop_spec (d : ExtendibleHTableDirectoryPage) (base : Z) (m : nat) :
  Z.of_nat m ≤ base →
  base + Z.of_nat m ≤ Z.of_nat (length (bucket_page_ids_ d)) →
  base + Z.of_nat m ≤ Z.of_nat (length (local_depths_ d)) →
  ∃ d', foldl (λ acc i, d0 ← acc; copy_slot d0 (base + Z.of_nat i) (Z.of_nat i))
              (Some d) (seq 0 m) = Some d' ∧
    global_depth_ d' = global_depth_ d ∧ max_depth_ d' = max_depth_ d ∧
    length (local_depths_ d') = length (local_depths_ d) ∧
    length (bucket_page_ids_ d') = length (bucket_page_ids_ d) ∧
    (∀ j, GetBucketPageId d' j
          = if decide (base ≤ j < base + Z.of_nat m)
            then GetBucketPageId d (j - base) else GetBucketPageId d j) ∧
    (∀ j, GetLocalDepth d' j
          = if decide (base ≤ j < base + Z.of_nat m)
            then GetLocalDepth d (j - base) else GetLocalDepth d j).
Proof.
  induction m as [|m IH]; intros Hm Hl1 Hl2.
  - exists d. cbn [seq foldl]. split_and!; try done; intros j; by rewrite decide_False by lia.
  - destruct IH as (d1 & Hfold & Hgd & Hmax & Hlen1 & Hlen2 & Hids & Hlds); [lia..|].
    rewrite seq_S, foldl_app, Hfold. cbn [foldl mbind option_bind plus].
    destruct (copy_slot_total d1 (base + Z.of_nat m) (Z.of_nat m)) as [d2 Hd2]; [lia..|].
    exists d2. split; [done|].
    apply copy_slot_spec in Hd2 as (Hgd2 & Hmax2 & Hl2a & Hl2b & Hids2 & Hlds2).
    split_and!; try congruence.
    + intros j. rewrite Hids2, !Hids.
      destruct (decide (j = base + Z.of_nat m)) as [->|Hne].
      * rewrite decide_False by lia. rewrite decide_True by lia.
        f_equal. lia.
      * repeat case_decide; try done; lia.
    + intros j. rewrite Hlds2, !Hlds.
      destruct (decide (j = base + Z.of_nat m)) as [->|Hne].
      * rewrite decide_False by lia. rewrite decide_True by lia.
        f_equal. lia.
      * repeat case_decide; try done; lia.
Qed.

(** X9.  [IncrGlobalDepth] below the maximal depth, on arrays that hold
    the doubled directory: the depth grows by one, every slot in use keeps
    its bucket page and local depth and is copied to the slot [2 ^ depth]
    further up, so that every hash finds the bucket page and the local
    depth it found before.  At the maximal depth the call does nothing. *)
Theorem IncrGlobalDepth_doubles (d : ExtendibleHTableDirectoryPage) :
  0 ≤ global_depth_ d < 31 →
  2 ^ (global_depth_ d + 1) ≤ Z.of_nat (length (bucket_page_ids_ d)) →
  2 ^ (global_depth_ d + 1) ≤ Z.of_nat (length (local_depths_ d)) →
  (max_depth_ d ≤ global_depth_ d → IncrGlobalDepth d = Some d) ∧
  (global_depth_ d < max_depth_ d →
   ∃ d', IncrGlobalDepth d = Some d' ∧
     global_depth_ d' = global_depth_ d + 1 ∧ max_depth_ d' = max_depth_ d ∧
     (∀ i, 0 ≤ i < 2 ^ global_depth_ d →
        GetBucketPageId d' i = GetBucketPageId d i ∧
        GetLocalDepth d' i = GetLocalDepth d i ∧
        GetBucketPageId d' (i + 2 ^ global_depth_ d) = GetBucketPageId d i ∧
        GetLocalDepth d' (i + 2 ^ global_depth_ d) = GetLocalDepth d i) ∧
     (∀ hash, 0 ≤ hash →
        GetBucketPageId d' (HashToBucketIndex d' hash)
        = GetBucketPageId d (HashToBucketIndex d hash) ∧
        GetLocalDepth d' (HashToBucketIndex d' hash)
        = GetLocalDepth d (HashToBucketIndex d hash))).
Proof.
  intros Hgd Hl1 Hl2. unfold IncrGlobalDepth.
  assert (0 < 2 ^ global_depth_ d) as Hpos by (apply Z.pow_pos_nonneg; lia).
  assert (2 ^ (global_depth_ d + 1) = 2 * 2 ^ global_depth_ d) as Hdouble
    by (rewrite Z.pow_add_r by lia; lia).
  split.
  - intros Hmax. by destruct (Z.geb_spec (global_depth_ d) (max_depth_ d)); [|lia].
  - intros Hmax. destruct (Z.geb_spec (global_depth_ d) (max_depth_ d)); [lia|].
    rewrite shl1_pow2 by lia.
    destruct (copy_loop_spec d (2 ^ global_depth_ d) (Z.to_nat (2 ^ global_depth_ d)))
      as (d1 & -> & Hgd1 & Hmax1 & _ & _ & Hids & Hlds); [lia..|].
    cbn [mbind option_bind]. eexists. split; [reflexivity|].
    cbn [global_depth_ max_depth_]. split_and!; [congruence|congruence| |].
    + intros i Hi. unfold GetBucketPageId, GetLocalDepth in *.
      cbn [bucket_page_ids_ local_depths_].
      rewrite !Hids, !Hlds. rewrite !decide_False by lia. rewrite !decide_True by lia.
      replace (i + 2 ^ global_depth_ d - 2 ^ global_depth_ d) with i by lia. done.
    + intros hash Hh.
      set (d' := mkDirectory _ _ _ _).
      destruct (HashToBucketIndex_low_bits d hash ltac:(lia) Hh) as [-> _].
      destruct (HashToBucketIndex_low_bits d' hash
                  ltac:(unfold d'; cbn [global_depth_]; lia) Hh) as [-> _].
      unfold d'. cbn [global_depth_]. rewrite Hgd1, Hdouble.
      unfold GetBucketPageId, GetLocalDepth in *. cbn [bucket_page_ids_ local_depths_].
      rewrite !Hids, !Hlds.
      pose proof (Z.mod_pos_bound hash (2 * 2 ^ global_depth_ d) ltac:(lia)) as Hb.
      set (q := hash mod (2 * 2 ^ global_depth_ d)) in *.
      assert (hash mod 2 ^ global_depth_ d = q mod 2 ^ global_depth_ d) as ->.
      { unfold q. rewrite Z.mul_comm. rewrite Z.rem_mul_r by lia.
        rewrite Z.mul_comm, Z.mod_add by lia. by rewrite Z.mod_mod by lia. }
      destruct (decide (2 ^ global_depth_ d ≤ q < 2 ^ global_depth_ d
                                                    + Z.of_nat (Z.to_nat (2 ^ global_depth_ d)))).
      * assert (q mod 2 ^ global_depth_ d = q - 2 ^ global_depth_ d) as ->; [|done].
        symmetry. apply Z.mod_unique_pos with (q := 1); lia.
      * rewrite Z.mod_small by lia. done.
Qed.

Lemma IncrGlobalDepth_doubles_witness :
  ∃ d', IncrGlobalDepth (mkDirectory 3 1 [1; 1; 0; 0] [5; 6; 0; 0]) = Some d' ∧
     global_depth_ d' = 1 + 1 ∧ max_depth_ d' = 3 ∧
     (∀ i, 0 ≤ i < 2 ^ 1 →
        GetBucketPageId d' i = GetBucketPageId (mkDirectory 3 1 [1; 1; 0; 0] [5; 6; 0; 0]) i ∧
        GetLocalDepth d' i = GetLocalDepth (mkDirectory 3 1 [1; 1; 0; 0] [5; 6; 0; 0]) i ∧
        GetBucketPageId d' (i + 2 ^ 1)
        = GetBucketPageId (mkDirectory 3 1 [1; 1; 0; 0] [5; 6; 0; 0]) i ∧
        GetLocalDepth d' (i + 2 ^ 1)
        = GetLocalDepth (mkDirectory 3 1 [1; 1; 0; 0] [5; 6; 0; 0]) i) ∧
     (∀ hash, 0 ≤ hash →
        GetBucketPageId d' (HashToBucketIndex d' hash)
        = GetBucketPageId (mkDirectory 3 1 [1; 1; 0; 0] [5; 6; 0; 0])
            (HashToBucketIndex (mkDirectory 3 1 [1; 1; 0; 0] [5; 6; 0; 0]) hash) ∧
        GetLocalDepth d' (HashToBucketIndex d' hash)
        = GetLocalDepth (mkDirectory 3 1 [1; 1; 0; 0] [5; 6; 0; 0])
            (HashToBucketIndex (mkDirectory 3 1 [1; 1; 0; 0] [5; 6; 0; 0]) hash)).
Proof.
  exact (proj2 (IncrGlobalDepth_doubles (mkDirectory 3 1 [1; 1; 0; 0] [5; 6; 0; 0])
                  ltac:(cbn; lia) ltac:(cbn; lia) ltac:(cbn; lia)) ltac:(cbn; lia)).
Defined.

Section Table.

(** The template parameters: keys, values, the comparator ([cmp a b = 0]
    on equal keys) and the 32-bit hash of a key.  [DIRECTORY_ARRAY_SIZE] is
    the length of the two arrays of a directory page, declared in a header
    that is not part of the sources. *)
Variable K V : Type.
Variable cmp : K → K → Z.
Variable Hash : K → Z.
Variable DIRECTORY_ARRAY_SIZE : nat.

(** ** extendible_htable_bucket_page.cpp

    [array_] holds the [size_] entries in use. *)
Record ExtendibleHTableBucketPage : Type := mkBucket {
  max_size_ : Z;
  array_ : list (K * V)
}.

Definition Bucket_Init (max_size : Z) : ExtendibleHTableBucketPage := mkBucket max_size [].

Definition Bucket_Size (b : ExtendibleHTableBucketPage) : Z := Z.of_nat (length (array_ b)).

Definition IsFull (b : ExtendibleHTableBucketPage) : bool := Bucket_Size b =? max_size_ b.

Definition Lookup (b : ExtendibleHTableBucketPage) (key : K) : option V :=
  snd <$> List.find (λ e, cmp e.1 key =? 0) (array_ b).

Definition Bucket_Insert (b : ExtendibleHTableBucketPage) (key : K) (value : V)
    : bool * ExtendibleHTableBucketPage :=
  if IsFull b then (false, b)
  else if existsb (λ e, cmp e.1 key =? 0) (array_ b) then (false, b)
  else (true, mkBucket (max_size_ b) (array_ b ++ [(key, value)])).

Definition Clear (b : ExtendibleHTableBucketPage) : ExtendibleHTableBucketPage :=
  mkBucket (max_size_ b) [].

(** ** The pages behind the buffer pool

    What a page holds, by the class its bytes are read as. *)
Inductive PageData : Type :=
| HeaderData (h : ExtendibleHTableHeaderPage)
| DirectoryData (d : ExtendibleHTableDirectoryPage)
| BucketData (b : ExtendibleHTableBucketPage).

(** [DiskExtendibleHashTable] with the pages it reaches through [bpm_];
    [next_page_id_] is the identifier the pool gives to the next new page. *)
Record DiskExtendibleHashTable : Type := mkTable {
  pages : gmap Z PageData;
  next_page_id_ : Z;
  header_page_id_ : Z;
  header_max_depth_ : Z;
  directory_max_depth_ : Z;
  bucket_max_size_ : Z
}.

Definition set_pages (pg : gmap Z PageData) (t : DiskExtendibleHashTable) :=
  mkTable pg (next_page_id_ t) (header_page_id_ t) (header_max_depth_ t)
          (directory_max_depth_ t) (bucket_max_size_ t).

(** [bpm_->NewPageGuarded(&id)]: the identifier and the table afterwards. *)
Definition NewPage (t : DiskExtendibleHashTable) : Z * DiskExtendibleHashTable :=
  (next_page_id_ t,
   mkTable (pages t) (next_page_id_ t + 1) (header_page_id_ t) (header_max_depth_ t)
           (directory_max_depth_ t) (bucket_max_size_ t)).

Definition write_page (id : Z) (p : PageData) (t : DiskExtendibleHashTable) :=
  set_pages (<[id := p]> (pages t)) t.

Definition header_at (t : DiskExtendibleHashTable) (id : Z) :=
  match pages t !! id with Some (HeaderData h) => Some h | _ => None end.
Definition directory_at (t : DiskExtendibleHashTable) (id : Z) :=
  match pages t !! id with Some (DirectoryData d) => Some d | _ => None end.
Definition bucket_at (t : DiskExtendibleHashTable) (id : Z) :=
  match pages t !! id with Some (BucketData b) => Some b | _ => None end.

(** The constructor, on a pool whose next page identifier is [first]. *)
Definition construct (first header_max_depth directory_max_depth bucket_max_size : Z)
    : option DiskExtendibleHashTable :=
  h ← Header_Init header_max_depth;
  Some (mkTable {[ first := HeaderData h ]} (first + 1) first
                header_max_depth directory_max_depth bucket_max_size).

(** [GetValue]: [None] where the code leaves the defined behaviour of C++,
    [Some None] for [false], [Some (Some v)] for [true] with [v] pushed to
    the result.  Here and in [Insert] and [Remove] the result of
    [GetDirectoryPageId] is assigned to a [page_id_t], which takes the
    [uint32_t] back to the [page_id_t] of the slot
    ([GetDirectoryPageId_as_page_id]): [GetDirectoryPageId_slot]. *)
Definition GetValue (t : DiskExtendibleHashTable) (key : K) : option (option V) :=
  header_page ← header_at t (header_page_id_ t);
  let hash := Hash key in
  let dir_index := HashToDirectoryIndex header_page hash in
  directory_page_id ← GetDirectoryPageId_slot header_page dir_index;
  if directory_page_id =? INVALID_PAGE_ID then Some None else
  directory_page ← directory_at t directory_page_id;
  let bucket_index := HashToBucketIndex directory_page hash in
  bucket_page_id ← GetBucketPageId directory_page bucket_index;
  if bucket_page_id =? INVALID_PAGE_ID then Some None else
  bucket_page ← bucket_at t bucket_page_id;
  Some (Lookup bucket_page key).

(** The loop of [SplitBucket] that puts the entries back. *)
Definition redistribute (directory : ExtendibleHTableDirectoryPage)
    (bucket_page_id split_page_id : Z)
    (entries : list (K * V)) (bucket split_bucket : ExtendibleHTableBucketPage)
    : option (ExtendibleHTableBucketPage * ExtendibleHTableBucketPage) :=
  foldl (λ acc entry,
           '(b, sb) ← acc;
           let target_idx := HashToBucketIndex directory (Hash entry.1) in
           target_page_id ← GetBucketPageId directory target_idx;
           if target_page_id =? bucket_page_id
           then Some ((Bucket_Insert b entry.1 entry.2).2, sb)
           else if target_page_id =? split_page_id
           then Some (b, (Bucket_Insert sb entry.1 entry.2).2)
           else Some (b, sb))
        (Some (bucket, split_bucket)) entries.

(** [SplitBucket]: the value returned, the table with the new page, and the
    directory and the bucket it was given, as it leaves them. *)
Definition SplitBucket (t : DiskExtendibleHashTable)
    (directory : ExtendibleHTableDirectoryPage) (bucket : ExtendibleHTableBucketPage)
    (bucket_idx : Z)
    : option (bool * DiskExtendibleHashTable * ExtendibleHTableDirectoryPage
              * ExtendibleHTableBucketPage) :=
  let '(split_page_id, t) := NewPage t in
  if split_page_id =? INVALID_PAGE_ID then Some (false, t, directory, bucket) else
  let split_bucket := Bucket_Init (bucket_max_size_ t) in
  split_idx ← GetSplitImageIndex directory bucket_idx;
  local_depth ← GetLocalDepth directory bucket_idx;
  directory ← SetBucketPageId directory split_idx split_page_id;
  directory ← SetLocalDepth directory split_idx local_depth;
  bucket_page_id ← GetBucketPageId directory bucket_idx;
  if bucket_page_id =? INVALID_PAGE_ID
  then Some (false, write_page split_page_id (BucketData split_bucket) t, directory, bucket)
  else
    '(bucket', split_bucket') ←
      redistribute directory bucket_page_id split_page_id (array_ bucket)
                   (Clear bucket) split_bucket;
    Some (true, write_page split_page_id (BucketData split_bucket') t, directory, bucket').

Definition InsertToNewBucket (t : DiskExtendibleHashTable) (directory_page_id : Z)
    (directory : ExtendibleHTableDirectoryPage) (bucket_idx : Z) (key : K) (value : V)
    : option (bool * DiskExtendibleHashTable) :=
  let '(bucket_page_id, t) := NewPage t in
  let bucket_page := Bucket_Init (bucket_max_size_ t) in
  directory ← SetBucketPageId directory bucket_idx bucket_page_id;
  let '(res, bucket_page) := Bucket_Insert bucket_page key value in
  Some (res, write_page bucket_page_id (BucketData bucket_page)
               (write_page directory_page_id (DirectoryData directory) t)).

Definition InsertToNewDirectory (t : DiskExtendibleHashTable)
    (header : ExtendibleHTableHeaderPage) (directory_idx hash : Z) (key : K) (value : V)
    : option (bool * DiskExtendibleHashTable) :=
  let '(directory_page_id, t) := NewPage t in
  directory_page ← Directory_Init DIRECTORY_ARRAY_SIZE (directory_max_depth_ t);
  header ← SetDirectoryPageId header directory_idx directory_page_id;
  let t := write_page (header_page_id_ t) (HeaderData header) t in
  let bucket_idx := HashToBucketIndex directory_page hash in
  InsertToNewBucket t directory_page_id directory_page bucket_idx key value.

(** The doubling of the directory in [Insert]: [IncrGlobalDepth] and the
    loop after it. *)
Definition grow (directory_page : ExtendibleHTableDirectoryPage) (h : Z)
    : option ExtendibleHTableDirectoryPage :=
  d ← IncrGlobalDepth directory_page;
  foldl (λ acc i, d0 ← acc; copy_slot d0 (h + Z.of_nat i) (h + Z.of_nat i - h))
        (Some d) (seq 0 (Z.to_nat (shl1 (GetGlobalDepth d) - h))).

(** [Insert].  The recursion of the code is bounded by [fuel]; [None] also
    where the fuel does not suffice. *)
Fixpoint Insert (fuel : nat) (t : DiskExtendibleHashTable) (key : K) (value : V)
    : option (bool * DiskExtendibleHashTable) :=
  match fuel with
  | O => None
  | S fuel' =>
    key_exists ← GetValue t key;
    if key_exists is Some _ then Some (false, t) else
    let hash_key := Hash key in
    header_page ← header_at t (header_page_id_ t);
    let directory_index := HashToDirectoryIndex header_page hash_key in
    directory_page_id ← GetDirectoryPageId_slot header_page directory_index;
    if directory_page_id =? INVALID_PAGE_ID
    then InsertToNewDirectory t header_page directory_index hash_key key value else
    directory_page ← directory_at t directory_page_id;
    let bucket_index := HashToBucketIndex directory_page hash_key in
    bucket_page_id ← GetBucketPageId directory_page bucket_index;
    if bucket_page_id =? INVALID_PAGE_ID
    then InsertToNewBucket t directory_page_id directory_page bucket_index key value else
    bucket_page ← bucket_at t bucket_page_id;
    let '(inserted, bucket_page') := Bucket_Insert bucket_page key value in
    if inserted then Some (true, write_page bucket_page_id (BucketData bucket_page') t) else
    let h := shl1 (GetGlobalDepth directory_page) in
    local_depth ← GetLocalDepth directory_page bucket_index;
    grown ←
      (if local_depth =? GetGlobalDepth directory_page then
         if GetGlobalDepth directory_page >=? GetMaxDepth directory_page
         then Some None
         else Some <$> grow directory_page h
       else Some (Some directory_page));
    match grown with
    | None => Some (false, t)
    | Some directory_page =>
        directory_page ← IncrLocalDepth directory_page bucket_index;
        directory_page ← IncrLocalDepth directory_page ((bucket_index + h) mod 2 ^ 32);
        '(done_split, t, directory_page, bucket_page) ←
          SplitBucket t directory_page bucket_page bucket_index;
        let t := write_page bucket_page_id (BucketData bucket_page)
                   (write_page directory_page_id (DirectoryData directory_page) t) in
        if (done_split : bool) then Insert fuel' t key value else Some (false, t)
    end
  end.

(** ** The state of the directory

    The slots in use. *)
Definition slots (d : ExtendibleHTableDirectoryPage) : list Z :=
  Z.of_nat <$> seq 0 (Z.to_nat (Directory_Size d)).

(** [local_depth[i] <= global_depth] for every slot. *)
Definition local_depths_bounded (d : ExtendibleHTableDirectoryPage) : bool :=
  forallb (λ i, match GetLocalDepth d i with
                | Some ld => ld <=? GetGlobalDepth d
                | None => false
                end) (slots d).

(** Two slots that agree on the low [local_depth[i]] bits name one page. *)
Definition same_low_bits_same_bucket (d : ExtendibleHTableDirectoryPage) : bool :=
  forallb (λ i,
    forallb (λ j,
      match GetLocalDepth d i, GetBucketPageId d i, GetBucketPageId d j with
      | Some ld, Some page_i, Some page_j =>
          if Z.land i (2 ^ ld - 1) =? Z.land j (2 ^ ld - 1) then page_i =? page_j else true
      | _, _, _ => false
      end) (slots d)) (slots d).

(** Every slot names a bucket page of the pool, none over its capacity. *)
Definition buckets_valid (t : DiskExtendibleHashTable)
    (d : ExtendibleHTableDirectoryPage) : bool :=
  forallb (λ i, match GetBucketPageId d i ≫= bucket_at t with
                | Some b => Bucket_Size b <=? max_size_ b
                | None => false
                end) (slots d).

Definition directory_invariant (t : DiskExtendibleHashTable)
    (d : ExtendibleHTableDirectoryPage) : bool :=
  local_depths_bounded d && same_low_bits_same_bucket d && buckets_valid t d.





(** ** The rest of the bucket page *)

(** The loop of [Remove]: the entries without the first one of the key, if
    there is one. *)
Fixpoint remove_first (key : K) (l : list (K * V)) : option (list (K * V)) :=
  match l with
  | [] => None
  | e :: l' =>
      if cmp e.1 key =? 0 then Some l'
      else (e ::.) <$> remove_first key l'
  end.

Definition Bucket_Remove (b : ExtendibleHTableBucketPage) (key : K)
    : bool * ExtendibleHTableBucketPage :=
  match remove_first key (array_ b) with
  | Some l => (true, mkBucket (max_size_ b) l)
  | None => (false, b)
  end.

Definition IsEmpty (b : ExtendibleHTableBucketPage) : bool := Bucket_Size b =? 0.

(** A bucket page as [Init], [Insert] and [Remove] keep it: no key twice,
    no more entries than [max_size_]. *)
Definition bucket_wf (b : ExtendibleHTableBucketPage) : Prop :=
  NoDup (array_ b).*1 ∧ Bucket_Size b ≤ max_size_ b.

Section comparator.

(** The comparator returns 0 on equal keys only. *)
Hypothesis cmp_eq : ∀ a b : K, cmp a b = 0 ↔ a = b.

Lemma find_key_None (key : K) (l : list (K * V)) :
  List.find (λ e, cmp e.1 key =? 0) l = None ↔ key ∉ l.*1.
Proof.
  induction l as [|[k v] l IH]; cbn [List.find fmap list_fmap fst].
  - split; [intros _; apply not_elem_of_nil|done].
  - rewrite not_elem_of_cons. destruct (Z.eqb_spec (cmp k key) 0) as [Heq|Hne].
    + apply cmp_eq in Heq. split; [done|]. intros [? _]. done.
    + rewrite IH. split; [|by intros [_ ?]]. intros Hn. split; [|done].
      intros ->. apply Hne. by apply cmp_eq.
Qed.

Lemma find_key_Some (key : K) (v : V) (l : list (K * V)) :
  NoDup l.*1 →
  snd <$> List.find (λ e, cmp e.1 key =? 0) l = Some v ↔ (key, v) ∈ l.
Proof.
  induction l as [|[k w] l IH]; cbn [List.find fmap list_fmap fst]; intros Hnd.
  - split; [done|]. by intros ?%elem_of_nil.
  - apply NoDup_cons in Hnd as [Hk Hnd]. rewrite elem_of_cons.
    destruct (Z.eqb_spec (cmp k key) 0) as [Heq|Hne].
    + apply cmp_eq in Heq. subst k. cbn. split.
      * intros [= ->]. by left.
      * intros [[= ->]|Hin]; [done|]. exfalso. apply Hk.
        by apply (list_elem_of_fmap_2 fst) in Hin.
    + rewrite (IH Hnd). split; [by right|]. intros [[= -> ->]|?]; [|done].
      exfalso. apply Hne. by apply cmp_eq.
Qed.

Lemma Lookup_Some (b : ExtendibleHTableBucketPage) (key : K) (v : V) :
  bucket_wf b → Lookup b key = Some v ↔ (key, v) ∈ array_ b.
Proof. intros [Hnd _]. by apply find_key_Some. Qed.

Lemma Lookup_None (b : ExtendibleHTableBucketPage) (key : K) :
  Lookup b key = None ↔ key ∉ (array_ b).*1.
Proof.
  unfold Lookup. rewrite <- find_key_None.
  destruct (List.find _ _); cbn; split; done.
Qed.

Lemma existsb_key (key : K) (l : list (K * V)) :
  existsb (λ e, cmp e.1 key =? 0) l = true ↔ key ∈ l.*1.
Proof.
  rewrite existsb_exists. split.
  - intros (e & Hin & He). apply Z.eqb_eq, cmp_eq in He. subst key.
    apply list_elem_of_fmap_2. by apply list_elem_of_In.
  - intros ([k v] & -> & Hin)%list_elem_of_fmap. exists (k, v).
    split; [by apply list_elem_of_In|]. apply Z.eqb_eq. by apply cmp_eq.
Qed.

Lemma Lookup_ext (b b' : ExtendibleHTableBucketPage) (key : K) :
  bucket_wf b → bucket_wf b' →
  (∀ v, (key, v) ∈ array_ b' ↔ (key, v) ∈ array_ b) → Lookup b' key = Lookup b key.
Proof.
  intros Hwf Hwf' H. destruct (Lookup b key) as [v|] eqn:Hl.
  - apply Lookup_Some; [done|]. apply H. by apply Lookup_Some.
  - destruct (Lookup b' key) as [v|] eqn:Hl'; [|done].
    apply Lookup_Some, H, Lookup_Some in Hl'; [congruence|done..].
Qed.

(** X10.  [Insert] on a bucket page succeeds exactly when the page is not
    full and does not hold the key.  It then adds one entry: [Lookup] of
    the key returns the value, every other key looks up as before, and the
    page still has no key twice and at most [max_size_] entries.  When it
    fails the page is as it was. *)
Theorem Bucket_Insert_then_Lookup (b : ExtendibleHTableBucketPage) (key : K) (value : V) :
  bucket_wf b →
  ((Bucket_Insert b key value).1 = true ↔ IsFull b = false ∧ Lookup b key = None) ∧
  ((Bucket_Insert b key value).1 = false → (Bucket_Insert b key value).2 = b) ∧
  ((Bucket_Insert b key value).1 = true →
   let b' := (Bucket_Insert b key value).2 in
   Lookup b' key = Some value ∧
   (∀ k, k ≠ key → Lookup b' k = Lookup b k) ∧
   Bucket_Size b' = Bucket_Size b + 1 ∧ bucket_wf b').
Proof.
  intros Hwf. pose proof Hwf as [Hnd Hsz]. unfold Bucket_Insert.
  destruct (IsFull b) eqn:Hfull; cbn [fst snd].
  { split_and!; [|done|done]. split; [done|]. by intros [? _]. }
  destruct (existsb _ (array_ b)) eqn:Hex; cbn [fst snd].
  { apply existsb_key in Hex. split_and!; [|done|done]. split; [done|].
    intros [_ Hn%Lookup_None]. done. }
  assert (key ∉ (array_ b).*1) as Hfresh.
  { intros Hin%existsb_key. congruence. }
  assert (bucket_wf (mkBucket (max_size_ b) (array_ b ++ [(key, value)]))) as Hwf'.
  { split; cbn [array_ max_size_].
    - rewrite fmap_app. apply NoDup_app. split_and!; [done| |apply NoDup_singleton].
      intros k Hk [->|[]%elem_of_nil]%elem_of_cons. done.
    - unfold IsFull, Bucket_Size in *. cbn [array_]. rewrite length_app. cbn [length].
      apply Z.eqb_neq in Hfull. lia. }
  split_and!; [|done|].
  - split; [|done]. intros _. split; [done|]. by apply Lookup_None.
  - intros _. cbv zeta. split_and!; [| | |done].
    + apply Lookup_Some; [done|]. cbn [array_]. apply elem_of_app. right. by left.
    + intros k Hk. apply Lookup_ext; [done..|]. intros v. cbn [array_].
      rewrite elem_of_app, list_elem_of_singleton. split; [|by left].
      intros [?|[= ? ?]]; [done|]. done.
    + unfold Bucket_Size. cbn [array_]. rewrite length_app. cbn [length]. lia.
Qed.

Lemma remove_first_spec (key : K) (l : list (K * V)) :
  NoDup l.*1 →
  match remove_first key l with
  | Some l' =>
      key ∈ l.*1 ∧ (key ∉ l'.*1) ∧ NoDup l'.*1 ∧ length l = S (length l') ∧
      ∀ k v, k ≠ key → (k, v) ∈ l' ↔ (k, v) ∈ l
  | None => key ∉ l.*1
  end.
Proof.
  induction l as [|[k w] l IH]; cbn [remove_first fmap list_fmap fst]; intros Hnd.
  - apply not_elem_of_nil.
  - apply NoDup_cons in Hnd as [Hk Hnd]. specialize (IH Hnd).
    destruct (Z.eqb_spec (cmp k key) 0) as [Heq|Hne].
    + apply cmp_eq in Heq. subst k. split_and!; try done; [by left|].
      intros k v Hkv. rewrite elem_of_cons. split; [by right|].
      intros [[= ? ?]|?]; done.
    + assert (k ≠ key) as Hkk by (intros ->; apply Hne; by apply cmp_eq).
      destruct (remove_first key l) as [l'|]; cbn [fmap option_fmap option_map].
      * destruct IH as (Hin & Hnot & Hnd' & Hlen & Hoth).
        cbn [fmap list_fmap fst length]. split_and!.
        -- by right.
        -- rewrite not_elem_of_cons. done.
        -- apply NoDup_cons. split; [|done]. intros Hk'. apply Hk.
           apply list_elem_of_fmap in Hk' as ([k' v'] & -> & Hin').
           cbn [fst] in *. apply (list_elem_of_fmap_2 fst _ (k', v')). by apply Hoth.
        -- lia.
        -- intros k0 v0 Hk0. rewrite !elem_of_cons. by rewrite Hoth.
      * rewrite not_elem_of_cons. done.
Qed.

(** X11.  [Remove] on a bucket page succeeds exactly when [Lookup] finds
    the key.  It then takes one entry away: [Lookup] of the key finds
    nothing, every other key looks up as before.  When it fails the page
    is as it was. *)
Theorem Bucket_Remove_then_Lookup (b : ExtendibleHTableBucketPage) (key : K) :
  bucket_wf b →
  ((Bucket_Remove b key).1 = true ↔ Lookup b key ≠ None) ∧
  ((Bucket_Remove b key).1 = false → (Bucket_Remove b key).2 = b) ∧
  ((Bucket_Remove b key).1 = true →
   let b' := (Bucket_Remove b key).2 in
   Lookup b' key = None ∧
   (∀ k, k ≠ key → Lookup b' k = Lookup b k) ∧
   Bucket_Size b' = Bucket_Size b - 1 ∧ bucket_wf b').
Proof.
  intros Hwf. pose proof Hwf as [Hnd Hsz]. unfold Bucket_Remove.
  pose proof (remove_first_spec key (array_ b) Hnd) as Hspec.
  destruct (remove_first key (array_ b)) as [l|]; cbn [fst snd].
  - destruct Hspec as (Hin & Hnot & Hnd' & Hlen & Hoth).
    assert (bucket_wf (mkBucket (max_size_ b) l)) as Hwf'.
    { split; [done|]. unfold Bucket_Size in *. cbn [array_ max_size_]. lia. }
    split_and!; [|done|].
    + split; [|done]. intros _ Hn%Lookup_None. done.
    + intros _. cbv zeta. split_and!; [| | |done].
      * by apply Lookup_None.
      * intros k Hk. apply Lookup_ext; [done..|]. intros v. by apply Hoth.
      * unfold Bucket_Size. cbn [array_]. lia.
  - split_and!; [|done|done]. split; [done|]. intros Hl. exfalso. apply Hl.
    by apply Lookup_None.
Qed.

(** ** The table: pages after a write *)



Lemma bucket_at_write (t : DiskExtendibleHashTable) (id bid : Z) (p : PageData) :
  bucket_at (write_page id p t) bid
  = if decide (id = bid) then match p with BucketData b => Some b | _ => None end
    else bucket_at t bid.
Proof.
  unfold bucket_at, write_page, set_pages. cbn [pages].
  case_decide as Hid; [subst; by rewrite lookup_insert_eq|by rewrite lookup_insert_ne].
Qed.

(** The pool hands out identifiers it has not used: no page of the table
    is at [next_page_id_] or above, and identifiers are not negative. *)
Definition fresh (t : DiskExtendibleHashTable) : Prop :=
  0 ≤ next_page_id_ t ∧ ∀ id, next_page_id_ t ≤ id → pages t !! id = None.







Lemma fresh_NewPage_only (t : DiskExtendibleHashTable) :
  fresh t → 0 ≤ next_page_id_ (NewPage t).2 ∧
  ∀ id, next_page_id_ t ≤ id → pages (NewPage t).2 !! id = None.
Proof. intros [Hn Hf]. split; [cbn; lia|]. intros id Hid. cbn. by apply Hf. Qed.




(** ** [Insert], case by case *)











(** ** No bucket page is overfilled *)

Definition all_buckets_wf (t : DiskExtendibleHashTable) : Prop :=
  ∀ id b, bucket_at t id = Some b → bucket_wf b.

Lemma Bucket_Insert_wf (b : ExtendibleHTableBucketPage) (key : K) (value : V) :
  bucket_wf b → bucket_wf (Bucket_Insert b key value).2.
Proof.
  intros [Hnd Hsz]. unfold Bucket_Insert.
  destruct (IsFull b) eqn:Hfull; [done|].
  destruct (existsb _ (array_ b)) eqn:Hex; [done|]. cbn [snd].
  split; cbn [array_ max_size_].
  - rewrite fmap_app. apply NoDup_app. split_and!; [done| |apply NoDup_singleton].
    intros k Hk [->|[]%elem_of_nil]%elem_of_cons.
    cbn [fst] in Hk. apply existsb_key in Hk. rewrite Hk in Hex. discriminate Hex.
  - unfold IsFull, Bucket_Size in *. cbn [array_]. rewrite length_app. cbn [length].
    apply Z.eqb_neq in Hfull. lia.
Qed.

Lemma Bucket_Init_wf (max_size : Z) : 0 ≤ max_size → bucket_wf (Bucket_Init max_size).
Proof. intros H. split; [apply NoDup_nil_2|done]. Qed.

Lemma Clear_wf (b : ExtendibleHTableBucketPage) : bucket_wf b → bucket_wf (Clear b).
Proof.
  intros [_ Hsz]. split; [apply NoDup_nil_2|]. unfold Bucket_Size in *. cbn. lia.
Qed.

Lemma redistribute_wf directory bid sid entries b sb b' sb' :
  bucket_wf b → bucket_wf sb →
  redistribute directory bid sid entries b sb = Some (b', sb') →
  bucket_wf b' ∧ bucket_wf sb'.
Proof.
  unfold redistribute. revert b sb.
  induction entries as [|e entries IH]; intros b sb Hb Hsb; cbn [foldl].
  - by intros [= <- <-].
  - cbn [mbind option_bind].
    destruct (GetBucketPageId directory _) as [target|]; cbn [mbind option_bind].
    + destruct (target =? bid); [|destruct (target =? sid)]; apply IH;
        try done; by apply Bucket_Insert_wf.
    + intros Hfold. exfalso. revert Hfold. clear.
      induction entries as [|e' entries IH']; [done|]. apply IH'.
Qed.

Lemma all_buckets_wf_write_bucket t id b :
  all_buckets_wf t → bucket_wf b → all_buckets_wf (write_page id (BucketData b) t).
Proof.
  intros Hall Hb id' b'. rewrite bucket_at_write. case_decide; [by intros [= <-]|apply Hall].
Qed.

Lemma all_buckets_wf_write_directory t id d :
  all_buckets_wf t → all_buckets_wf (write_page id (DirectoryData d) t).
Proof.
  intros Hall id' b'. rewrite bucket_at_write. case_decide; [done|apply Hall].
Qed.

Lemma all_buckets_wf_write_header t id h :
  all_buckets_wf t → all_buckets_wf (write_page id (HeaderData h) t).
Proof.
  intros Hall id' b'. rewrite bucket_at_write. case_decide; [done|apply Hall].
Qed.

Lemma all_buckets_wf_NewPage t : all_buckets_wf t → all_buckets_wf (NewPage t).2.
Proof. intros Hall id b. apply Hall. Qed.

Lemma InsertToNewBucket_wf t did directory bucket_idx key value r t' :
  all_buckets_wf t → 0 ≤ bucket_max_size_ t →
  InsertToNewBucket t did directory bucket_idx key value = Some (r, t') →
  all_buckets_wf t' ∧ bucket_max_size_ t' = bucket_max_size_ t.
Proof.
  intros Hall Hm. unfold InsertToNewBucket. cbn [NewPage]. set (t1 := mkTable _ _ _ _ _ _).
  destruct (SetBucketPageId directory bucket_idx _) as [d1|]; cbn [mbind option_bind]; [|done].
  pose proof (Bucket_Insert_wf (Bucket_Init (bucket_max_size_ t1)) key value
                (Bucket_Init_wf _ Hm)) as Hwf.
  destruct (Bucket_Insert _ key value) as [res b1]. intros [= <- <-].
  split; [|done]. apply all_buckets_wf_write_bucket; [|done].
  apply all_buckets_wf_write_directory. done.
Qed.

Lemma SplitBucket_wf t directory bucket bucket_idx r ts ds bs :
  all_buckets_wf t → 0 ≤ bucket_max_size_ t → bucket_wf bucket →
  SplitBucket t directory bucket bucket_idx = Some (r, ts, ds, bs) →
  all_buckets_wf ts ∧ bucket_wf bs ∧ bucket_max_size_ ts = bucket_max_size_ t.
Proof.
  intros Hall Hm Hb. unfold SplitBucket. cbn [NewPage]. set (t1 := mkTable _ _ _ _ _ _).
  destruct (next_page_id_ t =? INVALID_PAGE_ID).
  { intros [= <- <- <- <-]. done. }
  destruct (GetSplitImageIndex directory bucket_idx) as [si|]; [|done]. cbn [mbind option_bind].
  destruct (GetLocalDepth directory bucket_idx) as [ld|]; [|done]. cbn [mbind option_bind].
  destruct (SetBucketPageId directory si (next_page_id_ t)) as [d1|]; [|done].
  cbn [mbind option_bind].
  destruct (SetLocalDepth d1 si ld) as [d2|]; [|done]. cbn [mbind option_bind].
  destruct (GetBucketPageId d2 bucket_idx) as [bid|]; [|done]. cbn [mbind option_bind].
  destruct (bid =? INVALID_PAGE_ID).
  { intros [= <- <- <- <-]. split_and!; [|done|done].
    apply all_buckets_wf_write_bucket; [done|]. by apply Bucket_Init_wf. }
  destruct (redistribute _ _ _ _ _ _) as [[b1 sb1]|] eqn:Hred; [|done]. cbn [mbind option_bind].
  intros [= <- <- <- <-].
  apply redistribute_wf in Hred as [Hb1 Hsb1];
    [|by apply Clear_wf|by apply Bucket_Init_wf].
  split_and!; [|done|done]. by apply all_buckets_wf_write_bucket.
Qed.

(** X13.  [Insert] never overfills a bucket page and never stores a key
    twice in one: if every bucket page of the table has at most
    [max_size_] entries with different keys, the same holds after
    [Insert], whatever it returns. *)
Theorem Insert_keeps_buckets_within_size (fuel : nat) (t t' : DiskExtendibleHashTable)
    (key : K) (value : V) (r : bool) :
  all_buckets_wf t → 0 ≤ bucket_max_size_ t →
  Insert fuel t key value = Some (r, t') →
  all_buckets_wf t' ∧ bucket_max_size_ t' = bucket_max_size_ t.
Proof.
  revert t. induction fuel as [|fuel IH]; intros t Hall Hm; [done|]. cbn [Insert].
  destruct (GetValue t key) as [[v|]|]; cbn [mbind option_bind];
    [by intros [= <- <-]| |done].
  destruct (header_at t _) as [h|]; cbn [mbind option_bind]; [|done].
  destruct (GetDirectoryPageId_slot h _) as [did|]; cbn [mbind option_bind]; [|done].
  destruct (did =? INVALID_PAGE_ID).
  { unfold InsertToNewDirectory. cbn [NewPage]. set (t1 := mkTable _ _ _ _ _ _).
    destruct (Directory_Init _ _) as [d0|]; cbn [mbind option_bind]; [|done].
    destruct (SetDirectoryPageId h _ _) as [h1|]; cbn [mbind option_bind]; [|done].
    intros Hnb. apply InsertToNewBucket_wf in Hnb; [done| |done].
    apply all_buckets_wf_write_header. done. }
  destruct (directory_at t did) as [d|]; cbn [mbind option_bind]; [|done].
  destruct (GetBucketPageId d _) as [bid|]; cbn [mbind option_bind]; [|done].
  destruct (bid =? INVALID_PAGE_ID).
  { intros Hnb. by apply InsertToNewBucket_wf in Hnb. }
  destruct (bucket_at t bid) as [b|] eqn:Hb; cbn [mbind option_bind]; [|done].
  pose proof (Hall _ _ Hb) as Hbwf.
  pose proof (Bucket_Insert_wf b key value Hbwf) as Hwf1.
  destruct (Bucket_Insert b key value) as [[] b1].
  { intros [= <- <-]. split; [|done]. by apply all_buckets_wf_write_bucket. }
  destruct (GetLocalDepth d _) as [ld|]; cbn [mbind option_bind]; [|done].
  destruct (if ld =? GetGlobalDepth d then _ else _) as [[d1|]|]; cbn [mbind option_bind];
    [|by intros [= <- <-]|done].
  destruct (IncrLocalDepth d1 _) as [d2|]; cbn [mbind option_bind]; [|done].
  destruct (IncrLocalDepth d2 _) as [d3|]; cbn [mbind option_bind]; [|done].
  destruct (SplitBucket t d3 b _) as [[[[rs ts] ds] bs]|] eqn:Hsplit;
    cbn [mbind option_bind]; [|done].
  destruct (SplitBucket_wf _ _ _ _ _ _ _ _ Hall Hm Hbwf Hsplit) as (Halls & Hbs & Hms).
  assert (all_buckets_wf (write_page bid (BucketData bs)
                            (write_page did (DirectoryData ds) ts))) as Hall2.
  { apply all_buckets_wf_write_bucket; [|done]. by apply all_buckets_wf_write_directory. }
  destruct rs.
  - intros Hrec. apply IH in Hrec as [? ?]; [|done|cbn; lia]. split; [done|].
    cbn in *. congruence.
  - intros [= <- <-]. split; [done|]. cbn. done.
Qed.

(** ** [Remove] *)

(** [UpdateDirectoryMapping] *)
Definition UpdateDirectoryMapping (directory : ExtendibleHTableDirectoryPage)
    (new_bucket_idx new_bucket_page_id new_local_depth local_depth_mask : Z)
    : option ExtendibleHTableDirectoryPage :=
  size ← shl32 1 (GetGlobalDepth directory);
  foldl (λ acc i,
           d ← acc;
           page_i ← GetBucketPageId d (Z.of_nat i);
           page_new ← GetBucketPageId d new_bucket_idx;
           if page_i =? page_new then
             if negb (Z.land (Z.of_nat i) local_depth_mask =? 0) then
               d ← SetBucketPageId d (Z.of_nat i) new_bucket_page_id;
               SetLocalDepth d (Z.of_nat i) new_local_depth
             else SetLocalDepth d (Z.of_nat i) new_local_depth
           else Some d)
        (Some directory) (seq 0 (Z.to_nat size)).

(** The [for] loop of [Remove] over [update_count]. *)
Definition update_mappings (directory : ExtendibleHTableDirectoryPage)
    (update_count local_depth mask_idx check_page_id : Z)
    : option ExtendibleHTableDirectoryPage :=
  foldl (λ acc i,
           d ← acc;
           shifted ← shl32 (Z.of_nat i) local_depth;
           let tmp_idx := (shifted + mask_idx) mod 2 ^ 32 in
           UpdateDirectoryMapping d tmp_idx check_page_id local_depth 0)
        (Some directory) (seq 0 (Z.to_nat update_count)).

(** The first [while] loop of [Remove], on the table as the removal from
    the bucket page has left it.  The guards in hand pin the two pages, so
    that [bpm_->DeletePage] returns [false] and does nothing (see
    [BufferPoolManager::DeletePage]).  [fuel] bounds the rounds; the local
    depth goes down by one in each. *)
Fixpoint merge_loop (fuel : nat) (t : DiskExtendibleHashTable)
    (directory_page : ExtendibleHTableDirectoryPage)
    (bucket_index global_depth check_page_id local_depth : Z)
    : option ExtendibleHTableDirectoryPage :=
  if negb (0 <? local_depth) then Some directory_page else
  match fuel with
  | O => None
  | S fuel' =>
      convert_mask ← shl32 1 (local_depth - 1);
      let merge_bucket_index := Z.lxor bucket_index convert_mask in
      merge_local_depth ← GetLocalDepth directory_page merge_bucket_index;
      merge_page_id ← GetBucketPageId directory_page merge_bucket_index;
      _ ← pages t !! merge_page_id;
      if negb (merge_local_depth =? local_depth) then Some directory_page else
      check_page ← bucket_at t check_page_id;
      survivor ←
        (if IsEmpty check_page then Some (Some merge_page_id)
         else
           merge_page ← bucket_at t merge_page_id;
           if negb (IsEmpty merge_page) then Some None else Some (Some check_page_id));
      match survivor with
      | None => Some directory_page
      | Some check_page_id =>
          directory_page ← DecrLocalDepth directory_page bucket_index;
          local_depth ← GetLocalDepth directory_page bucket_index;
          mask ← GetLocalDepthMask directory_page bucket_index;
          match mask with
          | inr _ => None
          | inl local_depth_mask =>
              let mask_idx := Z.land bucket_index local_depth_mask in
              update_count ← shl32 1 ((global_depth - local_depth) mod 2 ^ 32);
              directory_page ←
                update_mappings directory_page update_count local_depth mask_idx
                                check_page_id;
              merge_loop fuel' t directory_page bucket_index global_depth check_page_id
                         local_depth
          end
      end
  end.

(** The second [while] loop of [Remove]. *)
Fixpoint shrink_loop (fuel : nat) (directory_page : ExtendibleHTableDirectoryPage)
    : option ExtendibleHTableDirectoryPage :=
  can ← CanShrink directory_page;
  if can : bool then
    match fuel with
    | O => None
    | S fuel' => shrink_loop fuel' (DecrGlobalDepth directory_page)
    end
  else Some directory_page.

(** [Remove]: [None] where the code leaves the defined behaviour of C++ or
    [GetLocalDepthMask] throws. *)
Definition Remove (t : DiskExtendibleHashTable) (key : K)
    : option (bool * DiskExtendibleHashTable) :=
  let hash := Hash key in
  header_page ← header_at t (header_page_id_ t);
  let directory_index := HashToDirectoryIndex header_page hash in
  directory_page_id ← GetDirectoryPageId_slot header_page directory_index;
  if directory_page_id =? INVALID_PAGE_ID then Some (false, t) else
  directory_page ← directory_at t directory_page_id;
  let bucket_index := HashToBucketIndex directory_page hash in
  bucket_page_id ← GetBucketPageId directory_page bucket_index;
  if bucket_page_id =? INVALID_PAGE_ID then Some (false, t) else
  bucket_page ← bucket_at t bucket_page_id;
  let '(res, bucket_page) := Bucket_Remove bucket_page key in
  if negb res then Some (false, t) else
  let t := write_page bucket_page_id (BucketData bucket_page) t in
  local_depth ← GetLocalDepth directory_page bucket_index;
  let global_depth := GetGlobalDepth directory_page in
  directory_page ← merge_loop (Z.to_nat local_depth) t directory_page bucket_index
                              global_depth bucket_page_id local_depth;
  directory_page ← shrink_loop (Z.to_nat (GetGlobalDepth directory_page)) directory_page;
  Some (true, write_page directory_page_id (DirectoryData directory_page) t).








Lemma remove_first_find (key : K) (l : list (K * V)) :
  remove_first key l = None ↔ List.find (λ e, cmp e.1 key =? 0) l = None.
Proof.
  induction l as [|e l IH]; [done|]. cbn [remove_first List.find].
  destruct (cmp e.1 key =? 0); [done|].
  rewrite <- IH. by destruct (remove_first key l).
Qed.

Lemma Bucket_Remove_result (b : ExtendibleHTableBucketPage) (key : K) :
  (Bucket_Remove b key).1 = true ↔ Lookup b key ≠ None.
Proof.
  unfold Bucket_Remove, Lookup. pose proof (remove_first_find key (array_ b)) as Hf.
  destruct (remove_first key (array_ b)), (List.find _ (array_ b)); cbn;
    split; intros H; try done; try (by destruct H);
    try discriminate (proj2 Hf eq_refl); try discriminate (proj1 Hf eq_refl).
Qed.

(** X18.  [Remove] of a key that [GetValue] does not find returns [false]
    and leaves every page of the table as it is. *)
Theorem Remove_of_missing_key (t : DiskExtendibleHashTable) (key : K) :
  GetValue t key = Some None → Remove t key = Some (false, t).
Proof.
  unfold GetValue, Remove.
  destruct (header_at t _) as [h|]; [|done]. cbn [mbind option_bind].
  destruct (GetDirectoryPageId_slot h _) as [did|]; [|done]. cbn [mbind option_bind].
  destruct (did =? INVALID_PAGE_ID); [done|].
  destruct (directory_at t did) as [d|]; [|done]. cbn [mbind option_bind].
  destruct (GetBucketPageId d _) as [bid|]; [|done]. cbn [mbind option_bind].
  destruct (bid =? INVALID_PAGE_ID); [done|].
  destruct (bucket_at t bid) as [b|]; [|done]. cbn [mbind option_bind].
  intros [= Hl]. pose proof (Bucket_Remove_result b key) as Hr.
  destruct (Bucket_Remove b key) as [[] b']; cbn [fst negb] in *; [|done].
  by destruct (proj1 Hr eq_refl).
Qed.


End comparator.

End Table.

(** ** The index on integer keys

    [IntComparator], the identity as hash function, directory arrays of 512
    slots, and at most ten rounds of [Insert]. *)
Definition IntComparator (a b : Z) : Z :=
  if a <? b then -1 else if b <? a then 1 else 0.

Definition int_Insert (t : DiskExtendibleHashTable Z Z) (key value : Z) :=
  Insert Z Z IntComparator (λ k, k mod 2 ^ 32) 512 10 t key value.

Definition int_inserts (keys : list Z) (t : DiskExtendibleHashTable Z Z)
    : option (list bool * DiskExtendibleHashTable Z Z) :=
  foldl (λ acc key, '(rs, t) ← acc;
           '(r, t) ← int_Insert t key (10 * key);
           Some (rs ++ [r], t))
        (Some ([], t)) keys.

(** What a directory page shows: the global depth, and the local depth and
    the bucket page of each slot in use. *)
Definition directory_view (d : ExtendibleHTableDirectoryPage) : Z * list (Z * Z) :=
  (global_depth_ d,
   zip (take (Z.to_nat (Directory_Size d)) (local_depths_ d))
       (take (Z.to_nat (Directory_Size d)) (bucket_page_ids_ d))).

Definition bucket_view (t : DiskExtendibleHashTable Z Z) (id : Z) : option (list (Z * Z)) :=
  array_ Z Z <$> bucket_at Z Z t id.

(** The scenario of the spec: directory depth at most 3, buckets of two
    entries, keys with the hashes 0b000, 0b100, 0b010 and 0b110. *)
Example split_scenario :
  (t ← construct Z Z 0 0 3 2;
   '(rs, t) ← int_inserts [0; 4; 2; 6] t;
   d ← directory_at Z Z t 1;
   Some (rs, directory_view d, bucket_view t 2, bucket_view t 4, directory_invariant Z Z t d))
  = Some ([true; true; true; true], (2, [(2, 2); (1, 3); (2, 4); (1, 3)]),
          Some [(0, 0); (4, 40)], Some [(2, 20); (6, 60)], true).
Proof. vm_compute. reflexivity. Qed.

(** C2 fails on the code.  Directory depth at most 3, buckets of one entry,
    keys with the hashes 0, 1, 3: the directory has depth 2 and satisfies
    the invariant, slots 0 and 2 sharing the bucket of local depth 1.  The
    insertion of a key with hash 2 then returns [false] and leaves a
    directory of depth 3 in which slot 0, of local depth 1, and slot 6, which
    has the same low bit, name different bucket pages. *)
Theorem Insert_breaks_directory_invariant :
  (t ← construct Z Z 0 0 3 1;
   '(rs, t) ← int_inserts [0; 1; 3] t;
   d ← directory_at Z Z t 1;
   Some (rs, directory_view d, directory_invariant Z Z t d))
  = Some ([true; true; true], (2, [(1, 2); (2, 3); (1, 2); (2, 4)]), true) ∧
  (t ← construct Z Z 0 0 3 1;
   '(_, t) ← int_inserts [0; 1; 3] t;
   '(r, t) ← int_Insert t 2 20;
   d ← directory_at Z Z t 1;
   Some (r, directory_view d, local_depths_bounded d, same_low_bits_same_bucket d,
         buckets_valid Z Z t d))
  = Some (false,
          (3, [(1, 2); (2, 3); (3, 2); (2, 4); (1, 2); (2, 3); (3, 6); (2, 4)]),
          true, false, true).
Proof. split; vm_compute; reflexivity. Qed.

(** The index that holds the key 0. *)
Definition one_key_table : DiskExtendibleHashTable Z Z :=
  Eval vm_compute in
    default (mkTable Z Z ∅ 0 0 0 0 0)
            (t ← construct Z Z 0 0 3 1; snd <$> int_Insert t 0 0).


(** [IntComparator] is 0 on equal keys only. *)
Lemma IntComparator_eq (a b : Z) : IntComparator a b = 0 ↔ a = b.
Proof.
  unfold IntComparator.
  destruct (Z.ltb_spec a b); [split; [done|lia]|].
  destruct (Z.ltb_spec b a); [split; [done|lia]|]. split; [lia|done].
Qed.

(** A bucket page of capacity two that holds the key 1. *)
Definition half_full_bucket : ExtendibleHTableBucketPage Z Z := mkBucket Z Z 2 [(1, 10)].

Lemma half_full_bucket_wf : bucket_wf Z Z half_full_bucket.
Proof.
  split; [|done]. cbn. apply NoDup_singleton.
Qed.

Lemma Bucket_Insert_then_Lookup_witness :
  Lookup Z Z IntComparator (Bucket_Insert Z Z IntComparator half_full_bucket 2 20).2 2
  = Some 20.
Proof.
  pose proof (Bucket_Insert_then_Lookup Z Z IntComparator IntComparator_eq
                half_full_bucket 2 20 half_full_bucket_wf) as (_ & _ & H).
  exact (proj1 (H eq_refl)).
Defined.

Lemma Bucket_Remove_then_Lookup_witness :
  Lookup Z Z IntComparator (Bucket_Remove Z Z IntComparator half_full_bucket 1).2 1 = None.
Proof.
  pose proof (Bucket_Remove_then_Lookup Z Z IntComparator IntComparator_eq
                half_full_bucket 1 half_full_bucket_wf) as (_ & _ & H).
  exact (proj1 (H eq_refl)).
Defined.

(** The index as its constructor leaves it, on a pool whose first page is
    page 0: header depth 0, directory depth at most 3, buckets of one
    entry. *)
Definition new_table : DiskExtendibleHashTable Z Z :=
  mkTable Z Z {[ 0 := HeaderData Z Z (mkHeader (INVALID_PAGE_ID :: replicate 511 0) 0) ]}
          1 0 0 3 1.

Lemma new_table_construct : construct Z Z 0 0 3 1 = Some new_table.
Proof. reflexivity. Qed.


Lemma new_table_buckets_wf : all_buckets_wf Z Z new_table.
Proof.
  intros id b. unfold bucket_at. cbn [pages new_table].
  destruct (decide (id = 0)) as [->|Hne].
  - by rewrite lookup_singleton_eq.
  - by rewrite lookup_singleton_ne.
Qed.


Lemma Insert_keeps_buckets_within_size_witness :
  all_buckets_wf Z Z one_key_table ∧
  bucket_max_size_ Z Z one_key_table = bucket_max_size_ Z Z new_table.
Proof.
  apply (Insert_keeps_buckets_within_size Z Z IntComparator (λ k, k mod 2 ^ 32) 512
           IntComparator_eq 10 new_table one_key_table 0 0 true new_table_buckets_wf).
  - done.
  - vm_compute. reflexivity.
Defined.

Definition int_GetValue (t : DiskExtendibleHashTable Z Z) (key : Z) :=
  GetValue Z Z IntComparator (λ k, k mod 2 ^ 32) t key.

Definition int_Remove (t : DiskExtendibleHashTable Z Z) (key : Z) :=
  Remove Z Z IntComparator (λ k, k mod 2 ^ 32) t key.

Lemma Remove_of_missing_key_witness : int_Remove one_key_table 5 = Some (false, one_key_table).
Proof.
  apply (Remove_of_missing_key Z Z IntComparator (λ k, k mod 2 ^ 32) one_key_table 5).
  vm_compute. reflexivity.
Defined.

(** The index of directory depth at most 3 and buckets of one entry after
    the keys 0, 2 and 1: global depth 2, the keys 0 and 2 in the bucket
    pages of the slots 0 and 2, the key 1 in the page of the slots 1 and 3. *)
Definition three_key_table : DiskExtendibleHashTable Z Z :=
  Eval vm_compute in
    default (mkTable Z Z ∅ 0 0 0 0 0)
            (t ← construct Z Z 0 0 3 1; snd <$> int_inserts [0; 2; 1] t).



(** On that index [Remove] of the key 0 returns [true] and halves the
    directory, whose slot 0 stays on the emptied bucket page: the key 2,
    which [GetValue] found before, is no longer found. *)
Example Remove_of_key_0_hides_key_2 :
  int_GetValue three_key_table 2 = Some (Some 20) ∧
  (directory_view <$> directory_at Z Z three_key_table 1)
  = Some (2, [(2, 2); (1, 3); (2, 4); (1, 3)]) ∧
  ∃ t', int_Remove three_key_table 0 = Some (true, t') ∧
        (directory_view <$> directory_at Z Z t' 1) = Some (1, [(1, 2); (1, 3)]) ∧
        int_GetValue t' 2 = Some None.
Proof.
  split; [vm_compute; reflexivity|]. split; [vm_compute; reflexivity|].
  eexists. split; [vm_compute; reflexivity|]. split; vm_compute; reflexivity.
Qed.

End HTable.

(** * primer/trie.cpp and primer/trie.h *)

Module Trie.

(** The value types the functions are instantiated for, as far as they are
    plain data. *)
Inductive Value : Type :=
| UInt32 (v : Z)
| UInt64 (v : Z)
| StdString (s : string).

Inductive ValueType : Type := TUInt32 | TUInt64 | TStdString.

Definition type_of (v : Value) : ValueType :=
  match v with UInt32 _ => TUInt32 | UInt64 _ => TUInt64 | StdString _ => TStdString end.

Definition ValueType_eqb (a b : ValueType) : bool :=
  match a, b with
  | TUInt32, TUInt32 | TUInt64, TUInt64 | TStdString, TStdString => true
  | _, _ => false
  end.

(** [TrieNode] and [TrieNodeWithValue<T>]: the node is of the second class
    when [value_] is set.  The children are addresses in the heap. *)
Record TrieNode : Type := mkNode {
  children_ : gmap ascii nat;
  is_value_node_ : bool;
  value_ : option Value
}.

(** The nodes allocated so far; a [shared_ptr] is the position of its node,
    [None] is [nullptr]. *)
Definition Heap : Type := list TrieNode.

Record Trie : Type := mkTrie { root_ : option nat }.

(** [std::make_shared] *)
Definition alloc (n : TrieNode) (h : Heap) : nat * Heap := (length h, h ++ [n]).

(** [TrieNode::Clone] and its override. *)
Definition Clone (a : nat) (h : Heap) : option (nat * Heap) :=
  n ← h !! a;
  Some (alloc (match value_ n with
               | Some v => mkNode (children_ n) true (Some v)
               | None => mkNode (children_ n) false None
               end) h).

Definition set_children (a : nat) (f : gmap ascii nat → gmap ascii nat) (h : Heap)
    : option Heap :=
  n ← h !! a;
  Some (<[a := mkNode (f (children_ n)) (is_value_node_ n) (value_ n)]> h).

(** [a->children_[c] = child] *)
Definition assign_child (a : nat) (c : ascii) (child : nat) (h : Heap) : option Heap :=
  set_children a (λ m, <[c := child]> m) h.

(** [a->children_.emplace(c, child)]: nothing if the key is there. *)
Definition emplace_child (a : nat) (c : ascii) (child : nat) (h : Heap) : option Heap :=
  set_children a (λ m, match m !! c with Some _ => m | None => <[c := child]> m end) h.

(** [a->children_.erase(c)] *)
Definition erase_child (a : nat) (c : ascii) (h : Heap) : option Heap :=
  set_children a (λ m, delete c m) h.

(** [Trie::Get<T>]: [None] on a dangling address, [Some None] for
    [nullptr]. *)
Fixpoint walk (h : Heap) (key : string) (cur : nat) (ty : ValueType)
    : option (option Value) :=
  match key with
  | EmptyString =>
      n ← h !! cur;
      Some (match value_ n with
            | Some v => if ValueType_eqb (type_of v) ty then Some v else None
            | None => None
            end)
  | String c key' =>
      n ← h !! cur;
      match children_ n !! c with
      | Some next => walk h key' next ty
      | None => Some None
      end
  end.

Definition Get (t : Trie) (key : string) (ty : ValueType) (h : Heap)
    : option (option Value) :=
  match root_ t with
  | None => Some None
  | Some cur => walk h key cur ty
  end.

Definition CreateNodeWithValueAndCopyChild (value : Value) (old_node : option nat)
    (h : Heap) : option (nat * Heap) :=
  match old_node with
  | Some o => n ← h !! o; Some (alloc (mkNode (children_ n) true (Some value)) h)
  | None => Some (alloc (mkNode ∅ true (Some value)) h)
  end.

(** [key.substr(0, key.size() - 1)] and [key.empty() ? '\0' : key.back()] *)
Fixpoint key_head (key : string) : string :=
  match key with
  | EmptyString => EmptyString
  | String c EmptyString => EmptyString
  | String c key' => String c (key_head key')
  end.

Fixpoint key_back (key : string) : ascii :=
  match key with
  | EmptyString => "000"%char
  | String c EmptyString => c
  | String _ key' => key_back key'
  end.

(** The loop over the children of [cur_old] in a round for the character
    [c]; [make] builds the node put under [c]. *)
Definition copy_pairs (make : nat → Heap → option (nat * Heap)) (c : ascii)
    (pairs : list (ascii * nat)) (cur_new : nat) (h : Heap) : option (bool * Heap) :=
  foldl (λ acc pair,
           '(exist_, h) ← acc;
           if Ascii.eqb pair.1 c then
             '(node, h) ← make pair.2 h;
             h ← assign_child cur_new c node h;
             Some (true, h)
           else
             h ← emplace_child cur_new pair.1 pair.2 h;
             Some (exist_, h))
        (Some (false, h)) pairs.

(** The loop of [Put] over [key_head]. *)
Fixpoint descend (key_head : string) (cur_old : option nat) (cur_new : nat) (h : Heap)
    : option (option nat * nat * Heap) :=
  match key_head with
  | EmptyString => Some (cur_old, cur_new, h)
  | String c rest =>
      '(exist_, h) ←
        match cur_old with
        | Some o =>
            n ← h !! o;
            copy_pairs Clone c (map_to_list (children_ n)) cur_new h
        | None => Some (false, h)
        end;
      h ← (if exist_ : bool then Some h
           else let '(node, h) := alloc (mkNode ∅ false None) h in
                assign_child cur_new c node h);
      cur_old ← (if exist_ : bool then o ← cur_old; n ← h !! o; Some (children_ n !! c)
                 else Some None);
      n ← h !! cur_new;
      cur_new ← children_ n !! c;
      descend rest cur_old cur_new h
  end.

(** [Trie::Put<T>] *)
Definition Put (t : Trie) (key : string) (value : Value) (h : Heap) : option (Trie * Heap) :=
  let cur_old := root_ t in
  '(cur_new, h) ← match root_ t with
                   | Some r => Clone r h
                   | None => Some (alloc (mkNode ∅ false None) h)
                   end;
  let '(head_node, h) := alloc (mkNode {[ "a"%char := cur_new ]} false None) h in
  '(cur_old, cur_new, h) ← descend (key_head key) cur_old cur_new h;
  h ← (if Ascii.eqb (key_back key) "000"%char then
         '(node, h) ← CreateNodeWithValueAndCopyChild value cur_old h;
         assign_child head_node "a"%char node h
       else
         match cur_old with
         | Some o =>
             n ← h !! o;
             '(exist_, h) ←
               copy_pairs (λ old, CreateNodeWithValueAndCopyChild value (Some old))
                          (key_back key) (map_to_list (children_ n)) cur_new h;
             if exist_ : bool then Some h
             else let '(node, h) := alloc (mkNode ∅ true (Some value)) h in
                  assign_child cur_new (key_back key) node h
         | None =>
             let '(node, h) := alloc (mkNode ∅ true (Some value)) h in
             assign_child cur_new (key_back key) node h
         end);
  n ← h !! head_node;
  Some (mkTrie (children_ n !! "a"%char), h).

(** The loop of [Remove] over the key: [None] inside when the key is not in
    the trie and the function returns [*this]. *)
Fixpoint descend_remove (key : string) (cur_old cur_new : nat)
    (father_nodes : list (nat * ascii)) (h : Heap)
    : option (option (nat * list (nat * ascii)) * Heap) :=
  match key with
  | EmptyString => Some (Some (cur_new, father_nodes), h)
  | String c rest =>
      o ← h !! cur_old;
      match children_ o !! c with
      | None => Some (None, h)
      | Some old_child =>
          '(node, h) ← Clone old_child h;
          h ← assign_child cur_new c node h;
          descend_remove rest old_child node ((cur_new, c) :: father_nodes) h
      end
  end.

(** The [while] loop of [Remove] that takes off the nodes left without
    value and children; the stack has its top first. *)
Fixpoint prune (father_nodes : list (nat * ascii)) (h : Heap) : option Heap :=
  match father_nodes with
  | (father, c) :: ((_ :: _) as below) =>
      f ← h !! father;
      child ← children_ f !! c;
      n ← h !! child;
      if negb (is_value_node_ n) && bool_decide (children_ n = ∅) then
        h ← erase_child father c h;
        prune below h
      else Some h
  | _ => Some h
  end.

(** [Trie::Remove] *)
Definition Remove (t : Trie) (key : string) (h : Heap) : option (Trie * Heap) :=
  match root_ t with
  | None => Some (t, h)
  | Some root =>
      '(cur_new, h) ← Clone root h;
      let '(head, h) := alloc (mkNode {[ "a"%char := cur_new ]} false None) h in
      let '(head_father, h) := alloc (mkNode {[ "a"%char := head ]} false None) h in
      '(found, h) ← descend_remove key root cur_new
                       [(head, "a"%char); (head_father, "a"%char)] h;
      match found with
      | None => Some (t, h)
      | Some (cur_new, father_nodes) =>
          n ← h !! cur_new;
          if negb (is_value_node_ n) then Some (t, h) else
          '(top, below) ← (match father_nodes with
                           | top :: below => Some (top, below)
                           | [] => None
                           end);
          h ← (if negb (bool_decide (children_ n = ∅)) then
                 let '(node, h) := alloc (mkNode (children_ n) false None) h in
                 assign_child top.1 top.2 node h
               else
                 h ← erase_child top.1 top.2 h;
                 prune below h);
          hd ← h !! head;
          Some (mkTrie (children_ hd !! "a"%char), h)
      end
  end.

(** The heap at the addresses of [h] is as in [h]. *)
Definition untouched (h h' : Heap) : Prop :=
  take (length h) h' = h.

(** Calls on the result of earlier calls. *)
Definition then_Put (key : string) (value : Value) (r : option (Trie * Heap))
    : option (Trie * Heap) :=
  match r with Some (t, h) => Put t key value h | None => None end.

Definition then_Remove (key : string) (r : option (Trie * Heap)) : option (Trie * Heap) :=
  match r with Some (t, h) => Remove t key h | None => None end.

Definition then_Get (key : string) (ty : ValueType) (r : option (Trie * Heap))
    : option (option Value) :=
  match r with Some (t, h) => Get t key ty h | None => None end.

Definition empty_trie : option (Trie * Heap) := Some (mkTrie None, []).

(** The trie with the key ["ab"] and the empty key. *)
Definition two_keys : option (Trie * Heap) :=
  then_Put EmptyString (UInt32 7) (then_Put "ab" (UInt32 1) empty_trie).

Example Get_after_Put :
  then_Get "ab" TUInt32 two_keys = Some (Some (UInt32 1)) ∧
  then_Get EmptyString TUInt32 two_keys = Some (Some (UInt32 7)) ∧
  then_Get "ab" TUInt64 two_keys = Some None ∧
  then_Get "a" TUInt32 two_keys = Some None ∧
  then_Get "ab" TUInt32 (then_Put "ab" (UInt32 9) two_keys) = Some (Some (UInt32 9)).
Proof. repeat split; vm_compute; reflexivity. Qed.

Example Get_after_Remove :
  then_Get "ab" TUInt32 (then_Remove "ab" two_keys) = Some None ∧
  then_Get EmptyString TUInt32 (then_Remove "ab" two_keys) = Some (Some (UInt32 7)) ∧
  then_Get EmptyString TUInt32 (then_Remove EmptyString two_keys) = Some None ∧
  then_Get "ab" TUInt32 (then_Remove EmptyString two_keys) = Some (Some (UInt32 1)) ∧
  fst <$> then_Remove EmptyString (then_Remove "ab" two_keys) = Some (mkTrie None).
Proof. repeat split; vm_compute; reflexivity. Qed.

(** [Put] and [Remove] write to nodes they have allocated only. *)
Example old_nodes_untouched :
  match two_keys with
  | Some (t, h) =>
      match Put t "ac" (UInt32 3) h, Remove t "ab" h with
      | Some (_, h1), Some (_, h2) => untouched h h1 ∧ untouched h h2
      | _, _ => False
      end
  | None => False
  end.
Proof. vm_compute. split; reflexivity. Qed.

(** C1 fails on the code for a key that ends in the character NUL: [Put]
    takes it for the empty key.  On the empty trie, [Put] of the key of one
    NUL character stores the value at the root: [Get] of the key returns
    [nullptr] and [Get] of the empty key returns the value.  On the trie
    with the key ["ab"], [Put] of ["ab"] followed by NUL makes a root of the
    children of the node of ["ab"], and ["ab"] is lost. *)
Theorem Put_key_ending_in_NUL_not_found :
  let nul := String "000" EmptyString in
  then_Get nul TUInt32 (then_Put nul (UInt32 5) empty_trie) = Some None ∧
  then_Get EmptyString TUInt32 (then_Put nul (UInt32 5) empty_trie) = Some (Some (UInt32 5)) ∧
  then_Get ("ab" ++ nul) TUInt32
    (then_Put ("ab" ++ nul) (UInt32 5) (then_Put "ab" (UInt32 1) empty_trie)) = Some None ∧
  then_Get "ab" TUInt32
    (then_Put ("ab" ++ nul) (UInt32 5) (then_Put "ab" (UInt32 1) empty_trie)) = Some None.
Proof. repeat split; vm_compute; reflexivity. Qed.

(** ** [Put] on an arbitrary trie

    Every address in a node below [n] is below [n]. *)
Definition closed_below (n : nat) (h : list TrieNode) : Prop :=
  (n ≤ length h)%nat ∧
  ∀ a node c a', (a < n)%nat → h !! a = Some node → children_ node !! c = Some a' →
                 (a' < n)%nat.

(** A heap in which no node names an address outside of it, and a trie
    whose root is in the heap. *)
Definition closed (h : list TrieNode) : Prop := closed_below (length h) h.

Definition root_in (t : Trie) (h : list TrieNode) : Prop :=
  match root_ t with Some r => (r < length h)%nat | None => True end.

(** [h'] has the nodes of [h], but for the one at [cur]. *)
Definition frame (cur : nat) (h h' : list TrieNode) : Prop :=
  (length h ≤ length h')%nat ∧ ∀ a, (a < length h)%nat → a ≠ cur → h' !! a = h !! a.

(** What [Get] finds for a value of the type asked for. *)
Definition typed (value : Value) (ty : ValueType) : option Value :=
  if ValueType_eqb (type_of value) ty then Some value else None.

Lemma frame_refl cur (h : list TrieNode) : frame cur h h.
Proof. by split. Qed.

Lemma frame_alloc cur n (h : list TrieNode) : frame cur h (alloc n h).2.
Proof.
  unfold Heap in *.
  split; cbn; [rewrite length_app; lia|]. intros a Ha _. by apply lookup_app_l.
Qed.

Lemma frame_trans cur (h1 h2 h3 : list TrieNode) : frame cur h1 h2 → frame cur h2 h3 → frame cur h1 h3.
Proof.
  unfold Heap in *.
  intros [Hl1 H1] [Hl2 H2]. split; [lia|]. intros a Ha Hne.
  rewrite H2 by (done || lia). by apply H1.
Qed.

(** A frame that leaves [cur] alone as well. *)
Lemma frame_weaken cur cur' (h h' : list TrieNode) :
  frame cur' h h' → (length h ≤ cur')%nat → frame cur h h'.
Proof. intros [Hl H] Hc. split; [done|]. intros a Ha _. apply H; [done|lia]. Qed.

Lemma set_children_spec a f (h : list TrieNode) n :
  h !! a = Some n →
  set_children a f h = Some (<[a := mkNode (f (children_ n)) (is_value_node_ n) (value_ n)]> h).
Proof. intros Hn. unfold set_children, Heap. by rewrite Hn. Qed.

Lemma frame_insert cur n (h : list TrieNode) : frame cur h (<[cur := n]> h).
Proof.
  unfold Heap in *.
  split; [by rewrite length_insert|]. intros a _ Hne. by apply list_lookup_insert_ne.
Qed.

Lemma walk_same_below n (h h' : list TrieNode) key a ty :
  closed_below n h → (∀ a, (a < n)%nat → h' !! a = h !! a) → (a < n)%nat →
  walk h' key a ty = walk h key a ty.
Proof.
  unfold Heap in *.
  intros [Hn Hc] Hsame. revert a. induction key as [|c key IH]; intros a Ha; cbn [walk];
    unfold Heap in *.
  - by rewrite Hsame.
  - rewrite Hsame by done. destruct (h !! a) as [node|] eqn:Hnode; [|done].
    cbn [mbind option_bind]. destruct (children_ node !! c) as [next|] eqn:Hnext; [|done].
    apply IH. by eapply Hc.
Qed.

Lemma closed_below_same n (h h' : list TrieNode) :
  closed_below n h → (n ≤ length h')%nat → (∀ a, (a < n)%nat → h' !! a = h !! a) →
  closed_below n h'.
Proof.
  unfold Heap in *.
  intros [Hn Hc] Hl Hsame. split; [done|]. intros a node c a' Ha Hnode.
  rewrite Hsame in Hnode by done. by eapply Hc.
Qed.

Lemma closed_alloc (h : list TrieNode) node :
  closed h → (∀ c a', children_ node !! c = Some a' → (a' < length h)%nat) →
  closed (alloc node h).2.
Proof.
  unfold Heap in *.
  intros [_ Hc] Hnode. split; [done|]. cbn [alloc snd]. unfold Heap in *.
  rewrite length_app. cbn [length].
  intros a n c a' Ha Hn Hch. destruct (decide (a < length h)%nat) as [Hlt|Hge].
  - rewrite lookup_app_l in Hn by done. specialize (Hc a n c a' Hlt Hn Hch). lia.
  - assert (a = length h) as -> by lia. rewrite list_lookup_middle in Hn by done.
    injection Hn as <-. specialize (Hnode c a' Hch). lia.
Qed.

Lemma closed_assign (h : list TrieNode) a c child n :
  closed h → h !! a = Some n → (child < length h)%nat →
  closed (<[a := mkNode (<[c := child]> (children_ n)) (is_value_node_ n) (value_ n)]> h).
Proof.
  unfold Heap in *.
  intros [_ Hc] Hn Hchild. split; [done|]. rewrite length_insert.
  intros a0 n0 c0 a' Ha0 Hn0 Hch. destruct (decide (a0 = a)) as [->|Hne].
  - rewrite list_lookup_insert_eq in Hn0 by done. injection Hn0 as <-. cbn in Hch.
    destruct (decide (c0 = c)) as [->|Hcne].
    + rewrite lookup_insert_eq in Hch. by injection Hch as <-.
    + rewrite lookup_insert_ne in Hch by done. by eapply Hc.
  - rewrite list_lookup_insert_ne in Hn0 by done. by eapply Hc.
Qed.

(** One round of the loop in [copy_pairs]. *)
Definition copy_step (make : nat → list TrieNode → option (nat * list TrieNode))
    (c : ascii) (cur_new : nat) (acc : option (bool * list TrieNode)) (pair : ascii * nat)
    : option (bool * list TrieNode) :=
  '(exist_, h) ← acc;
  if Ascii.eqb pair.1 c then
    '(node, h) ← make pair.2 h;
    h ← assign_child cur_new c node h;
    Some (true, h)
  else
    h ← emplace_child cur_new pair.1 pair.2 h;
    Some (exist_, h).

Lemma copy_pairs_fold make c pairs cur_new (h : list TrieNode) :
  copy_pairs make c pairs cur_new h = foldl (copy_step make c cur_new) (Some (false, h)) pairs.
Proof. reflexivity. Qed.

Lemma copy_step_idle make c cur_new (l : list (ascii * nat)) (e : bool)
    (h : list TrieNode) (n : TrieNode) :
  h !! cur_new = Some n →
  (∀ k a, (k, a) ∈ l → k ≠ c ∧ is_Some (children_ n !! k)) →
  foldl (copy_step make c cur_new) (Some (e, h)) l = Some (e, h).
Proof.
  intros Hn. induction l as [|[k a] l IH]; intros Hl; [done|]. cbn [foldl].
  unfold copy_step at 2. cbn [mbind option_bind fst snd].
  destruct (Hl k a) as [Hk [a1 Ha1]]; [apply list_elem_of_here|].
  rewrite (proj2 (Ascii.eqb_neq _ _) Hk).
  unfold emplace_child. rewrite (set_children_spec _ _ _ _ Hn). rewrite Ha1.
  cbn [mbind option_bind].
  replace (mkNode (children_ n) (is_value_node_ n) (value_ n)) with n by by destruct n.
  rewrite list_insert_id by done. apply IH.
  intros k' a' Hin'. apply (Hl k' a'). by apply list_elem_of_further.
Qed.

(** The two loops over the children of [cur_old]: [make] allocates one node
    from the child under [c]; the other rounds find their key in [cur_new]
    and change nothing. *)
Lemma copy_pairs_spec (g : TrieNode → TrieNode)
    (make : nat → list TrieNode → option (nat * list TrieNode)) (c : ascii) (children : gmap ascii nat) (cur_new : nat) (h : list TrieNode)
    (n : TrieNode) :
  (∀ old h0, make old h0 = (o ← h0 !! old; Some (alloc (g o) h0))) →
  h !! cur_new = Some n → children_ n = children →
  (∀ k a, children !! k = Some a → is_Some (h !! a)) →
  copy_pairs make c (map_to_list children) cur_new h
  = match children !! c with
    | Some old_child =>
        o ← h !! old_child;
        Some (true, <[cur_new := mkNode (<[c := length h]> children) (is_value_node_ n)
                                        (value_ n)]> (h ++ [g o]))
    | None => Some (false, h)
    end.
Proof.
  intros Hmake Hn Hch Hin. rewrite copy_pairs_fold.
  destruct (children !! c) as [old_child|] eqn:Hc.
  - apply elem_of_map_to_list in Hc as Hcin.
    apply list_elem_of_split in Hcin as (l1 & l2 & Hsplit).
    pose proof (NoDup_fst_map_to_list children) as Hnd. rewrite Hsplit in Hnd |- *.
    rewrite fmap_app, fmap_cons in Hnd. cbn [fst] in Hnd.
    apply NoDup_app in Hnd as (_ & Hnot1 & Hnd2). apply NoDup_cons in Hnd2 as [Hnot2 _].
    rewrite foldl_app. rewrite (copy_step_idle make c cur_new l1 false h n Hn).
    2:{ intros k a Hka. split.
        - intros ->. apply (Hnot1 c); [|apply list_elem_of_here].
          by apply (list_elem_of_fmap_2 fst _ (c, a)).
        - rewrite Hch. exists a. apply elem_of_map_to_list. rewrite Hsplit.
          apply elem_of_app. by left. }
    cbn [foldl]. unfold copy_step at 2. cbn [mbind option_bind fst snd].
    rewrite Ascii.eqb_refl, Hmake.
    destruct (Hin c old_child Hc) as [o Ho]. unfold Heap in *. rewrite Ho.
    cbn [mbind option_bind alloc].
    unfold assign_child.
    pose proof (lookup_lt_Some _ _ _ Hn) as Hlt.
    rewrite (set_children_spec _ _ _ n) by (by rewrite lookup_app_l).
    cbn [mbind option_bind]. rewrite Hch.
    eapply (copy_step_idle make c cur_new l2 true).
    + apply list_lookup_insert_eq. rewrite length_app. lia.
    + intros k a Hka. cbn [children_]. split.
      * intros ->. apply Hnot2. by apply (list_elem_of_fmap_2 fst _ (c, a)).
      * destruct (decide (k = c)) as [->|Hne]; [by rewrite lookup_insert_eq|].
        rewrite lookup_insert_ne by done. exists a. apply elem_of_map_to_list.
        rewrite Hsplit. apply elem_of_app. right. by apply list_elem_of_further.
  - apply (copy_step_idle make c cur_new _ false h n Hn).
    intros k a Hka%elem_of_map_to_list. split.
    + intros ->. congruence.
    + rewrite Hch. by exists a.
Qed.

(** The last round of [Put], for a key that does not end in the character
    NUL. *)
Definition put_last (value : Value) (c : ascii) (cur_old : option nat) (cur_new : nat)
    (h : list TrieNode) : option (list TrieNode) :=
  match cur_old with
  | Some o =>
      n ← h !! o;
      '(exist_, h) ←
        copy_pairs (λ old, CreateNodeWithValueAndCopyChild value (Some old))
                   c (map_to_list (children_ n)) cur_new h;
      if exist_ : bool then Some h
      else let '(node, h) := alloc (mkNode ∅ true (Some value)) h in
           assign_child cur_new c node h
  | None =>
      let '(node, h) := alloc (mkNode ∅ true (Some value)) h in
      assign_child cur_new c node h
  end.

Lemma Put_unfold (t : Trie) (key : string) (value : Value) (h : list TrieNode) :
  Ascii.eqb (key_back key) "000"%char = false →
  Put t key value h
  = ('(cur_new, h) ← match root_ t with
                      | Some r => Clone r h
                      | None => Some (alloc (mkNode ∅ false None) h)
                      end;
     let '(head_node, h) := alloc (mkNode {[ "a"%char := cur_new ]} false None) h in
     '(cur_old, cur_new, h) ← descend (key_head key) (root_ t) cur_new h;
     h ← put_last value (key_back key) cur_old cur_new h;
     n ← h !! head_node;
     Some (mkTrie (children_ n !! "a"%char), h)).
Proof. intros Hback. unfold Put. rewrite Hback. reflexivity. Qed.

(** [cur_new] is the copy of [cur_old] that [Put] is working on: a node
    allocated by this call with the children and the value of [cur_old],
    which is a node of the trie given. *)
Definition mirrors (n : nat) (h : list TrieNode) (cur_old : option nat) (cur_new : nat)
    : Prop :=
  (n ≤ cur_new)%nat ∧ ∃ node_new, h !! cur_new = Some node_new ∧
    match cur_old with
    | Some o =>
        (o < n)%nat ∧ ∃ node_old, h !! o = Some node_old ∧
          children_ node_new = children_ node_old ∧ value_ node_new = value_ node_old
    | None => children_ node_new = ∅ ∧ value_ node_new = None
    end.

Definition Inv (n : nat) (h : list TrieNode) : Prop := closed_below n h ∧ closed h.

(** The child of [cur_old] under [c]. *)
Definition old_child (h : list TrieNode) (cur_old : option nat) (c : ascii) : option nat :=
  o ← cur_old; node ← h !! o; children_ node !! c.

Lemma Inv_lookup n h a : Inv n h → (a < n)%nat → is_Some (h !! a).
Proof. intros [[Hn _] _] Ha. apply lookup_lt_is_Some_2. lia. Qed.

(** The heap after a round that has put a new node under [c] of [cur_new]. *)
Definition round (h : list TrieNode) (cur_new : nat) (node_new : TrieNode) (c : ascii)
    (new_child : TrieNode) : list TrieNode :=
  <[cur_new := mkNode (<[c := length h]> (children_ node_new)) (is_value_node_ node_new)
                      (value_ node_new)]> (h ++ [new_child]).

Lemma round_lookup_new h cur_new node_new c new_child :
  h !! cur_new = Some node_new →
  round h cur_new node_new c new_child !! length h = Some new_child.
Proof.
  intros Hn. pose proof (lookup_lt_Some _ _ _ Hn). unfold round.
  rewrite list_lookup_insert_ne by lia. by apply list_lookup_middle.
Qed.

Lemma round_lookup_cur h cur_new node_new c new_child :
  h !! cur_new = Some node_new →
  round h cur_new node_new c new_child !! cur_new
  = Some (mkNode (<[c := length h]> (children_ node_new)) (is_value_node_ node_new)
                 (value_ node_new)).
Proof.
  intros Hn. pose proof (lookup_lt_Some _ _ _ Hn). unfold round.
  apply list_lookup_insert_eq. rewrite length_app. lia.
Qed.

Lemma round_lookup_other h cur_new node_new c new_child a :
  (a < length h)%nat → a ≠ cur_new →
  round h cur_new node_new c new_child !! a = h !! a.
Proof.
  intros Ha Hne. unfold round. rewrite list_lookup_insert_ne by done. by apply lookup_app_l.
Qed.

Lemma round_length h cur_new node_new c new_child :
  length (round h cur_new node_new c new_child) = S (length h).
Proof. unfold round. rewrite length_insert, length_app. cbn. lia. Qed.

Lemma round_Inv n h cur_new node_new c new_child :
  Inv n h → (n ≤ cur_new)%nat → h !! cur_new = Some node_new →
  (∀ k a, children_ new_child !! k = Some a → (a < length h)%nat) →
  Inv n (round h cur_new node_new c new_child).
Proof.
  intros [Hbelow Hclosed] Hcur Hn Hnew. pose proof (lookup_lt_Some _ _ _ Hn) as Hlt. split.
  - apply (closed_below_same n h); [done|rewrite round_length; destruct Hbelow; lia|].
    intros a Ha. apply round_lookup_other; [destruct Hbelow; lia|lia].
  - unfold round. apply (closed_assign (h ++ [new_child]) cur_new c (length h) node_new).
    + by apply (closed_alloc h new_child).
    + by rewrite lookup_app_l.
    + rewrite length_app. cbn. lia.
Qed.

(** What [Get] finds from [cur_new] after a round, on a heap [h'] that has
    kept the node of [cur_new] and the nodes of the trie given. *)
Lemma walk_after_round n h h' cur_old cur_new node_new c x key ty :
  Inv n h → mirrors n h cur_old cur_new → h !! cur_new = Some node_new →
  h' !! cur_new = Some (mkNode (<[c := x]> (children_ node_new)) (is_value_node_ node_new)
                               (value_ node_new)) →
  (∀ a, (a < n)%nat → h' !! a = h !! a) →
  walk h' key cur_new ty
  = match key with
    | EmptyString => Get (mkTrie cur_old) key ty h
    | String c' key' =>
        if Ascii.eqb c' c then walk h' key' x ty else Get (mkTrie cur_old) key ty h
    end.
Proof.
  intros [Hbelow Hclosed] (Hge & node & Hnode & Hmirror) Hn Hcur Hsame.
  assert (node = node_new) as -> by congruence. clear Hnode.
  destruct key as [|c' key']; cbn [walk]; unfold Heap in *; rewrite Hcur;
    cbn [mbind option_bind value_ children_].
  - unfold Get. cbn [root_]. destruct cur_old as [o|].
    + destruct Hmirror as (Ho & node_old & Hold & _ & Hval). cbn [walk]. unfold Heap in *.
      rewrite Hold. cbn [mbind option_bind]. by rewrite Hval.
    + destruct Hmirror as [_ ->]. done.
  - destruct (Ascii.eqb_spec c' c) as [->|Hne].
    + by rewrite lookup_insert_eq.
    + rewrite lookup_insert_ne by done. unfold Get. cbn [root_]. destruct cur_old as [o|].
      * destruct Hmirror as (Ho & node_old & Hold & Hch & _). cbn [walk]. unfold Heap in *.
        rewrite Hold. cbn [mbind option_bind]. rewrite Hch.
        destruct (children_ node_old !! c') as [a|] eqn:Ha; [|done].
        apply (walk_same_below n); [done|done|]. destruct Hbelow as [_ Hb]. by eapply Hb.
      * destruct Hmirror as [-> _]. by rewrite lookup_empty.
Qed.

(** One round of the loop of [Put] over [key_head]. *)
Lemma descend_step n h cur_old cur_new c rest :
  Inv n h → mirrors n h cur_old cur_new →
  ∃ node_new new_child,
    h !! cur_new = Some node_new ∧
    descend (String c rest) cur_old cur_new h
    = descend rest (old_child h cur_old c) (length h)
              (round h cur_new node_new c new_child) ∧
    Inv n (round h cur_new node_new c new_child) ∧
    mirrors n (round h cur_new node_new c new_child) (old_child h cur_old c) (length h).
Proof.
  intros HInv (Hge & node_new & Hn & Hmirror). pose proof HInv as [Hbelow Hclosed].
  pose proof (lookup_lt_Some _ _ _ Hn) as Hlt. exists node_new.
  assert (n ≤ length h)%nat as Hnl by (destruct Hbelow; lia).
  cbn [descend]. destruct cur_old as [o|].
  - destruct Hmirror as (Ho & node_old & Hold & Hch & Hval). unfold Heap in *.
    rewrite Hold. cbn [mbind option_bind].
    rewrite <- Hch.
    rewrite (copy_pairs_spec
               (λ o, match value_ o with
                     | Some v => mkNode (children_ o) true (Some v)
                     | None => mkNode (children_ o) false None
                     end) Clone c (children_ node_new) cur_new h node_new);
      [|done|done|done|].
    2:{ intros k a Hka. rewrite Hch in Hka. destruct Hbelow as [_ Hb].
        apply (Inv_lookup n); [done|]. by eapply Hb. }
    unfold old_child. cbn [mbind option_bind]. unfold Heap in *. rewrite Hold.
    cbn [mbind option_bind]. rewrite <- Hch.
    destruct (children_ node_new !! c) as [oc|] eqn:Hoc.
    + assert (oc < n)%nat as Hocn.
      { rewrite Hch in Hoc. destruct Hbelow as [_ Hb]. by eapply Hb. }
      destruct (Inv_lookup n h oc HInv Hocn) as [ocn Hocnode]. rewrite Hocnode.
      cbn [mbind option_bind].
      set (new_child := match value_ ocn with
                        | Some v => mkNode (children_ ocn) true (Some v)
                        | None => mkNode (children_ ocn) false None
                        end).
      exists new_child. fold (round h cur_new node_new c new_child).
      assert (children_ new_child = children_ ocn ∧ value_ new_child = value_ ocn)
        as [Hnc Hnv] by (unfold new_child; by destruct (value_ ocn)).
      assert (Inv n (round h cur_new node_new c new_child)) as HInv'.
      { apply round_Inv; [done..|]. intros k a Hka. rewrite Hnc in Hka.
        destruct Hbelow as [_ Hb]. specialize (Hb oc ocn k a Hocn Hocnode Hka). lia. }
      split; [done|]. split; [|split; [done|]].
      * rewrite (round_lookup_other h cur_new node_new c new_child o) by lia. rewrite Hold.
        cbn [mbind option_bind]. rewrite <- Hch, Hoc.
        rewrite round_lookup_cur by done. cbn [mbind option_bind children_].
        by rewrite lookup_insert_eq.
      * split; [lia|]. exists new_child. split; [by apply round_lookup_new|].
        split; [done|]. exists ocn. split; [|done].
        rewrite round_lookup_other by lia. done.
    + cbn [mbind option_bind alloc]. unfold assign_child.
      rewrite (set_children_spec _ _ _ node_new) by (by rewrite lookup_app_l).
      cbn [mbind option_bind]. exists (mkNode ∅ false None).
      fold (round h cur_new node_new c (mkNode ∅ false None)).
      assert (Inv n (round h cur_new node_new c (mkNode ∅ false None))) as HInv'.
      { apply round_Inv; [done..|]. intros k a Hka. cbn [children_] in Hka.
        by rewrite lookup_empty in Hka. }
      split; [done|]. split; [|split; [done|]].
      * rewrite round_lookup_cur by done. cbn [mbind option_bind children_].
        by rewrite lookup_insert_eq.
      * split; [lia|]. eexists. split; [by apply round_lookup_new|]. done.
  - destruct Hmirror as [Hch Hval]. cbn [mbind option_bind alloc]. unfold assign_child.
    rewrite (set_children_spec _ _ _ node_new) by (by rewrite lookup_app_l).
    cbn [mbind option_bind]. exists (mkNode ∅ false None).
    fold (round h cur_new node_new c (mkNode ∅ false None)).
    assert (Inv n (round h cur_new node_new c (mkNode ∅ false None))) as HInv'.
    { apply round_Inv; [done..|]. intros k a Hka. cbn [children_] in Hka.
        by rewrite lookup_empty in Hka. }
    split; [done|]. split; [|split; [done|]].
    + rewrite round_lookup_cur by done. cbn [mbind option_bind children_].
      by rewrite lookup_insert_eq.
    + split; [lia|]. eexists. split; [by apply round_lookup_new|]. done.
Qed.

Lemma Get_same_below n (h h' : list TrieNode) (cur : option nat) key ty :
  closed_below n h → (∀ a, (a < n)%nat → h' !! a = h !! a) →
  match cur with Some a => (a < n)%nat | None => True end →
  Get (mkTrie cur) key ty h' = Get (mkTrie cur) key ty h.
Proof.
  intros Hbelow Hsame Hcur. unfold Get. cbn [root_]. destruct cur as [a|]; [|done].
  by apply (walk_same_below n).
Qed.

Lemma old_child_below n h cur_old cur_new c :
  Inv n h → mirrors n h cur_old cur_new →
  match old_child h cur_old c with Some a => (a < n)%nat | None => True end.
Proof.
  intros [[_ Hb] _] (_ & node_new & _ & Hmirror). unfold old_child.
  destruct cur_old as [o|]; [|done]. destruct Hmirror as (Ho & node_old & Hold & _).
  cbn [mbind option_bind]. unfold Heap in *. rewrite Hold. cbn [mbind option_bind].
  destruct (children_ node_old !! c) as [a|] eqn:Ha; [|done]. by eapply Hb.
Qed.

Lemma Get_old_child n h cur_old cur_new c key ty :
  Inv n h → mirrors n h cur_old cur_new →
  Get (mkTrie (old_child h cur_old c)) key ty h = Get (mkTrie cur_old) (String c key) ty h.
Proof.
  intros _ (_ & node_new & _ & Hmirror). unfold old_child, Get. cbn [root_].
  destruct cur_old as [o|]; [|done]. destruct Hmirror as (Ho & node_old & Hold & _).
  cbn [mbind option_bind walk]. unfold Heap in *. rewrite Hold. cbn [mbind option_bind].
  by destruct (children_ node_old !! c).
Qed.

(** The last round. *)
Lemma put_last_spec n h cur_old cur_new value c :
  Inv n h → mirrors n h cur_old cur_new →
  ∃ node_new new_child,
    h !! cur_new = Some node_new ∧
    put_last value c cur_old cur_new h = Some (round h cur_new node_new c new_child) ∧
    Inv n (round h cur_new node_new c new_child) ∧
    ∀ key ty,
      walk (round h cur_new node_new c new_child) key (length h) ty
      = match key with
        | EmptyString => Some (typed value ty)
        | String _ _ => Get (mkTrie (old_child h cur_old c)) key ty h
        end.
Proof.
  intros HInv Hmir. pose proof (old_child_below n h cur_old cur_new c HInv Hmir) as Hoc.
  destruct Hmir as (Hge & node_new & Hn & Hmirror). pose proof HInv as [Hbelow Hclosed].
  pose proof (lookup_lt_Some _ _ _ Hn) as Hlt. exists node_new.
  assert (n ≤ length h)%nat as Hnl by (destruct Hbelow; lia).
  assert (∀ new_children,
            match old_child h cur_old c with
            | Some oc => ∃ ocn, h !! oc = Some ocn ∧ new_children = children_ ocn
            | None => new_children = ∅
            end →
            Inv n (round h cur_new node_new c (mkNode new_children true (Some value))) ∧
            ∀ key ty,
              walk (round h cur_new node_new c (mkNode new_children true (Some value)))
                   key (length h) ty
              = match key with
                | EmptyString => Some (typed value ty)
                | String _ _ => Get (mkTrie (old_child h cur_old c)) key ty h
                end) as Hround.
  { intros new_children Hnew.
    assert (∀ k a, new_children !! k = Some a → (a < n)%nat) as Hchildren.
    { intros k a Hka. destruct (old_child h cur_old c) as [oc|].
      - destruct Hnew as (ocn & Hocn & ->). destruct Hbelow as [_ Hb]. by eapply Hb.
      - subst new_children. by rewrite lookup_empty in Hka. }
    split.
    { apply round_Inv; [done..|]. intros k a Hka. cbn [children_] in Hka.
      specialize (Hchildren k a Hka). lia. }
    intros key ty. destruct key as [|c' key']; cbn [walk]; unfold Heap in *;
      rewrite round_lookup_new by done; cbn [mbind option_bind value_ children_]; [done|].
    unfold Get. cbn [root_]. destruct (old_child h cur_old c) as [oc|].
    - destruct Hnew as (ocn & Hocn & ->). cbn [walk]. unfold Heap in *. rewrite Hocn.
      cbn [mbind option_bind]. destruct (children_ ocn !! c') as [a|] eqn:Ha; [|done].
      apply (walk_same_below n); [done| |by eapply Hchildren].
      intros a0 Ha0. apply round_lookup_other; lia.
    - subst new_children. by rewrite lookup_empty. }
  unfold put_last. destruct cur_old as [o|].
  - destruct Hmirror as (Ho & node_old & Hold & Hch & Hval). unfold Heap in *.
    rewrite Hold. cbn [mbind option_bind]. rewrite <- Hch.
    rewrite (copy_pairs_spec (λ o, mkNode (children_ o) true (Some value))
               (λ old, CreateNodeWithValueAndCopyChild value (Some old))
               c (children_ node_new) cur_new h node_new); [|done|done|done|].
    2:{ intros k a Hka. rewrite Hch in Hka. destruct Hbelow as [_ Hb].
        apply (Inv_lookup n); [done|]. by eapply Hb. }
    assert (old_child h (Some o) c = children_ node_new !! c) as Hoceq.
    { unfold old_child. cbn [mbind option_bind]. unfold Heap in *. rewrite Hold.
      cbn [mbind option_bind]. by rewrite Hch. }
    rewrite Hoceq in Hround, Hoc |- *.
    destruct (children_ node_new !! c) as [oc|] eqn:Hoc'.
    + destruct (Inv_lookup n h oc HInv Hoc) as [ocn Hocn]. rewrite Hocn.
      cbn [mbind option_bind]. exists (mkNode (children_ ocn) true (Some value)).
      fold (round h cur_new node_new c (mkNode (children_ ocn) true (Some value))).
      split; [done|]. split; [done|]. apply Hround. by exists ocn.
    + cbn [mbind option_bind alloc]. unfold assign_child.
      rewrite (set_children_spec _ _ _ node_new) by (by rewrite lookup_app_l).
      exists (mkNode ∅ true (Some value)).
      fold (round h cur_new node_new c (mkNode ∅ true (Some value))).
      split; [done|]. split; [done|]. by apply Hround.
  - cbn [alloc]. unfold assign_child.
    rewrite (set_children_spec _ _ _ node_new) by (by rewrite lookup_app_l).
    exists (mkNode ∅ true (Some value)).
    fold (round h cur_new node_new c (mkNode ∅ true (Some value))).
    split; [done|]. split; [done|]. by apply Hround.
Qed.

(** The loop of [Put] and the last round after it. *)
Lemma put_rest_spec n value last path :
  ∀ cur_old cur_new h,
    Inv n h → mirrors n h cur_old cur_new →
    ∃ co cn h1 h',
      descend path cur_old cur_new h = Some (co, cn, h1) ∧
      put_last value last co cn h1 = Some h' ∧
      Inv n h' ∧ frame cur_new h h' ∧
      (∀ ty, walk h' (path ++ String last EmptyString) cur_new ty = Some (typed value ty)) ∧
      (∀ key ty, key ≠ (path ++ String last EmptyString)%string →
                 walk h' key cur_new ty = Get (mkTrie cur_old) key ty h).
Proof.
  induction path as [|c rest IH]; intros cur_old cur_new h HInv Hmir.
  - destruct (put_last_spec n h cur_old cur_new value last HInv Hmir)
      as (node_new & new_child & Hn & Hput & HInv' & Hwalk).
    pose proof (lookup_lt_Some _ _ _ Hn) as Hlt.
    pose proof Hmir as (Hge & _). pose proof HInv as [[Hnl _] _].
    exists cur_old, cur_new, h, (round h cur_new node_new last new_child).
    assert (∀ key ty,
              walk (round h cur_new node_new last new_child) key cur_new ty
              = match key with
                | EmptyString => Get (mkTrie cur_old) key ty h
                | String c' key' =>
                    if Ascii.eqb c' last
                    then walk (round h cur_new node_new last new_child) key' (length h) ty
                    else Get (mkTrie cur_old) key ty h
                end) as Hafter.
    { intros key ty. apply (walk_after_round n h _ cur_old cur_new node_new); try done.
      - by apply round_lookup_cur.
      - intros a Ha. apply round_lookup_other; lia. }
    split_and!; [done|done|done| | |].
    + split; [rewrite round_length; lia|]. intros a Ha Hne. by apply round_lookup_other.
    + intros ty. change (walk ?h (EmptyString +:+ ?s) ?a ?t) with (walk h s a t).
      rewrite Hafter. cbv beta iota. rewrite Ascii.eqb_refl. apply Hwalk.
    + intros key ty Hkey. rewrite Hafter. destruct key as [|c' key']; [done|].
      destruct (Ascii.eqb_spec c' last) as [->|]; [|done].
      rewrite Hwalk. destruct key' as [|c2 key2]; [done|].
      by apply (Get_old_child n h cur_old cur_new).
  - destruct (descend_step n h cur_old cur_new c rest HInv Hmir)
      as (node_new & new_child & Hn & Hdesc & HInv1 & Hmir1).
    pose proof (lookup_lt_Some _ _ _ Hn) as Hlt.
    pose proof Hmir as (Hge & _). pose proof HInv as [[Hnl Hb] _].
    set (h1 := round h cur_new node_new c new_child) in *.
    destruct (IH (old_child h cur_old c) (length h) h1 HInv1 Hmir1)
      as (co & cn & h2 & h' & Hrest & Hput & HInv' & [Hlen Hframe] & Hkey & Hother).
    assert (length h1 = S (length h)) as Hlen1 by apply round_length.
    assert (∀ a, (a < length h)%nat → a ≠ cur_new → h' !! a = h !! a) as Hold.
    { intros a Ha Hne. rewrite Hframe by lia. by apply round_lookup_other. }
    assert (∀ key ty,
              walk h' key cur_new ty
              = match key with
                | EmptyString => Get (mkTrie cur_old) key ty h
                | String c' key' =>
                    if Ascii.eqb c' c then walk h' key' (length h) ty
                    else Get (mkTrie cur_old) key ty h
                end) as Hafter.
    { intros key ty. apply (walk_after_round n h _ cur_old cur_new node_new); try done.
      - rewrite Hframe by lia. by apply round_lookup_cur.
      - intros a Ha. apply Hold; lia. }
    exists co, cn, h2, h'. split_and!; [by rewrite Hdesc|done|done| | |].
    + split; [lia|done].
    + intros ty.
      change (walk ?h (String ?x ?r +:+ ?s) ?a ?t) with (walk h (String x (r +:+ s)) a t).
      rewrite Hafter. cbv beta iota. rewrite Ascii.eqb_refl. apply Hkey.
    + intros key ty Hneq. rewrite Hafter. destruct key as [|c' key']; [done|].
      destruct (Ascii.eqb_spec c' c) as [->|]; [|done].
      rewrite Hother by (intros ->; by apply Hneq).
      rewrite (Get_same_below n h h1).
      * by apply (Get_old_child n h cur_old cur_new).
      * by destruct HInv.
      * intros a Ha. apply round_lookup_other; lia.
      * by apply (old_child_below n h cur_old cur_new).
Qed.

Lemma key_split (key : string) :
  key ≠ EmptyString → key = (key_head key +:+ String (key_back key) EmptyString)%string.
Proof.
  induction key as [|c key IH]; [done|]. intros _. destruct key as [|c2 key2]; [done|].
  change (String c (String c2 key2)
          = String c (key_head (String c2 key2)
                      +:+ String (key_back (String c2 key2)) EmptyString)).
  f_equal. by apply IH.
Qed.

Lemma untouched_intro (h h' : list TrieNode) :
  (length h ≤ length h')%nat → (∀ a, (a < length h)%nat → h' !! a = h !! a) →
  untouched h h'.
Proof.
  intros Hlen Hsame. unfold untouched, Heap in *. apply list_eq. intros i.
  destruct (decide (i < length h)%nat) as [Hi|Hi].
  - rewrite lookup_take_lt by done. by apply Hsame.
  - rewrite lookup_take_ge by lia. symmetry. apply lookup_ge_None. lia.
Qed.

(** The first two allocations of [Put]: the copy of the root and the node
    above it. *)
Lemma Put_start (t : Trie) (h : list TrieNode) :
  closed h → root_in t h →
  ∃ first,
    match root_ t with
    | Some r => Clone r h
    | None => Some (alloc (mkNode ∅ false None) h)
    end = Some (length h, h ++ [first]) ∧
    let h2 := (h ++ [first]) ++ [mkNode {[ "a"%char := length h ]} false None] in
    Inv (length h) h2 ∧ mirrors (length h) h2 (root_ t) (length h) ∧
    h2 !! S (length h) = Some (mkNode {[ "a"%char := length h ]} false None) ∧
    (∀ a, (a < length h)%nat → h2 !! a = h !! a) ∧
    length h2 = S (S (length h)).
Proof.
  intros Hclosed Hroot. unfold root_in in Hroot.
  assert (∃ first,
            match root_ t with
            | Some r => Clone r h
            | None => Some (alloc (mkNode ∅ false None) h)
            end = Some (length h, h ++ [first]) ∧
            (∀ k a, children_ first !! k = Some a → (a < length h)%nat) ∧
            match root_ t with
            | Some o => (o < length h)%nat ∧ ∃ node_old, h !! o = Some node_old ∧
                          children_ first = children_ node_old ∧
                          value_ first = value_ node_old
            | None => children_ first = ∅ ∧ value_ first = None
            end) as (first & Hfirst & Hch & Hmirror).
  { destruct (root_ t) as [r|].
    - destruct (lookup_lt_is_Some_2 h r Hroot) as [node_r Hr]. unfold Clone, Heap in *.
      rewrite Hr. cbn [mbind option_bind alloc]. eexists. split; [reflexivity|].
      assert (∀ k a, children_ node_r !! k = Some a → (a < length h)%nat) as Hk.
      { intros k a Hka. destruct Hclosed as [_ Hc]. by eapply Hc. }
      destruct (value_ node_r) as [v|] eqn:Hv; cbn [children_ value_];
        (split; [done|]); (split; [done|]); by exists node_r.
    - eexists. split; [reflexivity|]. split; [|done]. intros k a Hka.
      cbn [children_] in Hka. by rewrite lookup_empty in Hka. }
  exists first. split; [done|]. cbv zeta.
  set (head := mkNode {[ "a"%char := length h ]} false None).
  assert (∀ a, (a < length h)%nat → ((h ++ [first]) ++ [head]) !! a = h !! a) as Hsame.
  { intros a Ha. rewrite lookup_app_l by (rewrite length_app; cbn; lia).
    by apply lookup_app_l. }
  assert (length ((h ++ [first]) ++ [head]) = S (S (length h))) as Hlen.
  { rewrite !length_app. cbn. lia. }
  assert (((h ++ [first]) ++ [head]) !! length h = Some first) as Hat.
  { rewrite lookup_app_l by (rewrite length_app; cbn; lia). by apply list_lookup_middle. }
  split_and!; [| | |done|done].
  - split.
    + apply (closed_below_same (length h) h); [done|lia|done].
    + apply (closed_alloc (h ++ [first]) head).
      * apply (closed_alloc h first); done.
      * intros c a Hca. unfold head in Hca. cbn [children_] in Hca.
        apply lookup_singleton_Some in Hca as [_ <-]. cbn [alloc snd].
        rewrite length_app. cbn. lia.
  - split; [done|]. exists first. split; [done|]. destruct (root_ t) as [r|]; [|done].
    destruct Hmirror as (Hr & node_old & Hold & Hc & Hv). split; [done|].
    exists node_old. by rewrite Hsame.
  - apply list_lookup_middle. rewrite length_app. cbn. lia.
Qed.

(** X20.  [Put] and [Get] on any trie.  For a key that is empty or does
    not end in the character NUL, on a heap without dangling addresses,
    [Put] returns a trie in which [Get] finds the value under the key (for
    the type of the value, and nothing for another type) and finds under
    every other key what it found in the trie given.  The nodes of the trie
    given are not written to: [Get] on it finds what it found before. *)
Theorem Put_then_Get (t : Trie) (h : list TrieNode) (key : string) (value : Value) :
  closed h → root_in t h →
  key = EmptyString ∨ key_back key ≠ "000"%char →
  ∃ t' h', Put t key value h = Some (t', h') ∧
    closed h' ∧ root_in t' h' ∧ untouched h h' ∧
    (∀ ty, Get t' key ty h' = Some (typed value ty)) ∧
    (∀ k ty, k ≠ key → Get t' k ty h' = Get t k ty h) ∧
    (∀ k ty, Get t k ty h' = Get t k ty h).
Proof.
  intros Hclosed Hroot Hkey.
  destruct (Put_start t h Hclosed Hroot) as (first & Hfirst & Hstart). cbv zeta in Hstart.
  set (n := length h) in *.
  set (head := mkNode {[ "a"%char := n ]} false None) in *.
  set (h2 := (h ++ [first]) ++ [head]) in *.
  destruct Hstart as (HInv & Hmir & Hhead & Hsame & Hlen).
  assert (∀ k ty, Get t k ty h = Get (mkTrie (root_ t)) k ty h) as Hget by by destruct t.
  destruct (decide (key = EmptyString)) as [->|Hne].
  - (* the empty key *)
    unfold Put. rewrite Hfirst. cbn [mbind option_bind alloc key_head key_back descend].
    replace (length (h ++ [first])) with (S n) by (rewrite length_app; cbn; lia).
    fold n head h2. cbn [Ascii.eqb Bool.eqb].
    assert (∃ new_children,
              CreateNodeWithValueAndCopyChild value (root_ t) h2
              = Some (S (S n), h2 ++ [mkNode new_children true (Some value)]) ∧
              ∀ c, match new_children !! c with
                   | Some a => (a < n)%nat ∧ ∀ k ty, walk h k a ty
                                 = Get (mkTrie (root_ t)) (String c k) ty h
                   | None => ∀ k ty, Get (mkTrie (root_ t)) (String c k) ty h = Some None
                   end) as (new_children & Hcreate & Hchildren).
    { unfold CreateNodeWithValueAndCopyChild. destruct Hmir as (_ & node_new & _ & Hmirror).
      destruct (root_ t) as [r|].
      - destruct Hmirror as (Hr & node_old & Hold & _). unfold Heap in *. rewrite Hold.
        cbn [mbind option_bind]. unfold alloc. rewrite Hlen. eexists. split; [reflexivity|].
        intros c. unfold Get. cbn [root_ walk]. unfold Heap in *.
        rewrite <- (Hsame r) by done. rewrite Hold. cbn [mbind option_bind].
        destruct (children_ node_old !! c) as [a|] eqn:Ha; [|done].
        split; [|done]. destruct HInv as [[_ Hb] _]. by eapply Hb.
      - unfold alloc. rewrite Hlen. eexists. split; [reflexivity|]. intros c.
        by rewrite lookup_empty. }
    rewrite Hcreate. cbn [mbind option_bind]. unfold assign_child.
    rewrite (set_children_spec _ _ _ head)
      by (rewrite lookup_app_l by lia; done).
    cbn [mbind option_bind]. unfold Heap in *.
    set (vn := mkNode new_children true (Some value)).
    set (head' := mkNode (<["a"%char := S (S n)]> (children_ head)) (is_value_node_ head)
                         (value_ head)).
    set (h' := <[S n := head']> (h2 ++ [vn])).
    assert (length h' = S (S (S n))) as Hlen'.
    { unfold h'. rewrite length_insert, length_app. cbn. lia. }
    assert (h' !! S (S n) = Some vn) as Hvn.
    { unfold h'. rewrite list_lookup_insert_ne by lia. apply list_lookup_middle. lia. }
    assert (∀ a, (a < n)%nat → h' !! a = h !! a) as Hsame'.
    { intros a Ha. unfold h'. rewrite list_lookup_insert_ne by lia.
      rewrite lookup_app_l by lia. by apply Hsame. }
    assert (h' !! S n = Some head') as Hhead'.
    { unfold h'. apply list_lookup_insert_eq. rewrite length_app. cbn. lia. }
    rewrite Hhead'. cbn [mbind option_bind children_ head']. rewrite lookup_insert_eq.
    eexists _, _. split; [reflexivity|]. fold h'.
    assert (closed_below n h) as Hbelow by done.
    split_and!.
    + unfold h'. apply (closed_assign (h2 ++ [vn]) (S n) "a"%char (S (S n)) head).
      * apply (closed_alloc h2 vn); [by destruct HInv|]. intros c a Hca.
        specialize (Hchildren c). cbn [children_ vn] in Hca. rewrite Hca in Hchildren.
        destruct Hchildren as [Ha _]. lia.
      * rewrite lookup_app_l by lia. done.
      * rewrite length_app. cbn. lia.
    + unfold root_in. cbn [root_]. lia.
    + apply untouched_intro; [fold n; lia|done].
    + intros ty. unfold Get. cbn [root_ walk]. unfold Heap in *. by rewrite Hvn.
    + intros k ty Hk. rewrite Hget. destruct k as [|c k]; [done|].
      unfold Get at 1. cbn [root_ walk]. unfold Heap in *. rewrite Hvn.
      cbn [mbind option_bind children_ vn]. specialize (Hchildren c).
      destruct (new_children !! c) as [a|]; [|by rewrite Hchildren].
      destruct Hchildren as [Ha Hwalk]. rewrite <- Hwalk.
      by apply (walk_same_below n).
    + intros k ty. rewrite !Hget. apply (Get_same_below n); [done|done|].
      unfold root_in in Hroot. by destruct (root_ t).
  - (* a key that does not end in NUL *)
    destruct Hkey as [|Hback]; [done|].
    rewrite Put_unfold by (by apply Ascii.eqb_neq).
    rewrite Hfirst. cbn [mbind option_bind alloc].
    replace (length (h ++ [first])) with (S n) by (rewrite length_app; cbn; lia).
    fold n head h2.
    destruct (put_rest_spec n value (key_back key) (key_head key) (root_ t) n h2 HInv Hmir)
      as (co & cn & h3 & h' & Hdesc & Hput & HInv' & [Hlen' Hframe] & Hfound & Hother).
    rewrite <- (key_split key Hne) in Hfound, Hother.
    rewrite Hdesc. cbn [mbind option_bind]. rewrite Hput. cbn [mbind option_bind].
    unfold Heap in *. rewrite (Hframe (S n)) by lia. rewrite Hhead.
    cbn [mbind option_bind children_ head]. rewrite lookup_singleton_eq.
    eexists _, _. split; [reflexivity|].
    assert (∀ a, (a < n)%nat → h' !! a = h !! a) as Hsame'.
    { intros a Ha. rewrite Hframe by lia. by apply Hsame. }
    assert (closed_below n h) as Hbelow by done.
    assert (match root_ t with Some a => (a < n)%nat | None => True end) as Hr
      by (unfold root_in in Hroot; by destruct (root_ t)).
    split_and!.
    + by destruct HInv'.
    + unfold root_in. cbn [root_]. lia.
    + apply untouched_intro; [fold n; lia|done].
    + intros ty. unfold Get. cbn [root_]. apply Hfound.
    + intros k ty Hk. rewrite Hget. unfold Get at 1. cbn [root_]. rewrite Hother by done.
      by apply (Get_same_below n).
    + intros k ty. rewrite !Hget. by apply (Get_same_below n).
Qed.

Lemma Put_then_Get_witness :
  ∃ t' h', Put (mkTrie None) "ab" (UInt32 1) [] = Some (t', h') ∧
    closed h' ∧ root_in t' h' ∧ untouched [] h' ∧
    (∀ ty, Get t' "ab" ty h' = Some (typed (UInt32 1) ty)) ∧
    (∀ k ty, k ≠ "ab"%string → Get t' k ty h' = Get (mkTrie None) k ty []) ∧
    (∀ k ty, Get (mkTrie None) k ty h' = Get (mkTrie None) k ty []).
Proof.
  apply (Put_then_Get (mkTrie None) [] "ab" (UInt32 1)).
  - split; [done|]. intros a node c a' Ha. cbn in Ha. lia.
  - exact I.
  - right. discriminate.
Defined.

End Trie.
